(** * Insight-IQ: the embedded tabular query engine (server/db.ts) and the
      statement extraction of the agent page, embedded in Rocq.

    Strings are JavaScript strings: finite sequences of UTF-16 code units,
    here [list N].  Regular expressions are kept as syntax trees, one
    constructor per construct of the literal in the source, and run by a
    backtracking matcher written after the continuation-passing matchers of
    ECMA-262 (22.2.2). *)

From Stdlib Require Import NArith ZArith QArith Qabs Qpower List String Ascii Bool Lia.
From stdpp Require Import gmap list.

Set Default Proof Using "Type".
Local Open Scope N_scope.

(** ** JavaScript strings *)

Abbreviation jsstring := (list N).

(** The code units of an ASCII literal. *)
Fixpoint js (s : string) : jsstring :=
  match s with
  | EmptyString => []
  | String a t => N_of_ascii a :: js t
  end.

(** [WhiteSpace] and [LineTerminator] of ECMA-262: the characters matched by
    [\s] and removed by [String.prototype.trim]. *)
Definition is_space (c : N) : bool :=
  (c =? 9) || (c =? 10) || (c =? 11) || (c =? 12) || (c =? 13) || (c =? 32)
  || (c =? 160) || (c =? 5760) || ((8192 <=? c) && (c <=? 8202))
  || (c =? 8232) || (c =? 8233) || (c =? 8239) || (c =? 8287)
  || (c =? 12288) || (c =? 65279).

Definition is_digit (c : N) : bool := (48 <=? c) && (c <=? 57).
Definition is_upper (c : N) : bool := (65 <=? c) && (c <=? 90).
Definition is_lower (c : N) : bool := (97 <=? c) && (c <=? 122).

(** [\w] is [[A-Za-z0-9_]]. *)
Definition is_word (c : N) : bool :=
  is_upper c || is_lower c || is_digit c || (c =? 95).

(** [Canonicalize] of ECMA-262 for a pattern without the [u] flag, on the
    range that matters for ASCII patterns: a code unit of 128 or more never
    canonicalizes to an ASCII one, so comparing it unchanged is exact. *)
Definition canon (c : N) : N := if is_lower c then c - 32 else c.

Definition any_char (_ : N) : bool := true.

(** [String.prototype.trim]. *)
Fixpoint trimStart (s : jsstring) : jsstring :=
  match s with
  | [] => []
  | c :: s' => if is_space c then trimStart s' else s
  end.

Definition trimEnd (s : jsstring) : jsstring := rev (trimStart (rev s)).

Definition trim (s : jsstring) : jsstring := trimEnd (trimStart s).

(** [s.substring(0, n)] and [s.substring(n)] for [0 <= n]. *)
Definition substring_to (n : nat) (s : jsstring) : jsstring := firstn n s.

Definition substring_from (n : nat) (s : jsstring) : jsstring := skipn n s.

(** [s.includes(t)], [s.endsWith(t)]. *)
Fixpoint starts_with (t s : jsstring) : bool :=
  match t, s with
  | [], _ => true
  | a :: t', b :: s' => (a =? b) && starts_with t' s'
  | _ :: _, [] => false
  end.

Fixpoint includes (s t : jsstring) : bool :=
  starts_with t s ||
  match s with
  | [] => false
  | _ :: s' => includes s' t
  end.

Definition endsWith (s t : jsstring) : bool := starts_with (rev t) (rev s).

(** ** Regular expressions *)

Module RegExp.

(** The constructs that occur in the patterns of the program. *)
Inductive regex : Type :=
| Empty                              (* the empty pattern *)
| Lit (c : N)                        (* a pattern character *)
| Class (p : N -> bool)              (* a class: \s \w \d [...] *)
| Seq (r1 r2 : regex)                (* r1 r2 *)
| Alt (r1 r2 : regex)                (* r1 | r2 *)
| Star (greedy : bool) (r : regex)   (* r* and r*? *)
| Plus (greedy : bool) (r : regex)   (* r+ and r+? *)
| Opt (greedy : bool) (r : regex)    (* r? and r?? *)
| Group (n : nat) (r : regex)        (* the n-th capturing group *)
| Bol                                (* ^ (no m flag) *)
| Eol                                (* $ (no m flag) *)
| WordB.                             (* \b *)

(** A literal word. *)
Fixpoint word (w : jsstring) : regex :=
  match w with
  | [] => Empty
  | [c] => Lit c
  | c :: w' => Seq (Lit c) (word w')
  end.

(** A match state: the input split at the current index ([before] is
    reversed), and the captures made so far. *)
Record mstate : Type := MState {
  before : jsstring;
  after : jsstring;
  caps : list (nat * jsstring)
}.

Definition cont := mstate -> option mstate.
Definition matcher := mstate -> cont -> option mstate.

Definition advance (x : mstate) : mstate :=
  match after x with
  | [] => x
  | c :: t => MState (c :: before x) t (caps x)
  end.

Fixpoint groups (r : regex) : list nat :=
  match r with
  | Seq r1 r2 | Alt r1 r2 => groups r1 ++ groups r2
  | Star _ r1 | Plus _ r1 | Opt _ r1 => groups r1
  | Group n r1 => n :: groups r1
  | _ => []
  end.

(** RepeatMatcher, step 4: the captures of the groups inside a quantified
    atom are cleared at the start of each iteration. *)
Definition clear (gs : list nat) (x : mstate) : mstate :=
  MState (before x) (after x)
         (filter (fun e => negb (existsb (Nat.eqb (fst e)) gs)) (caps x)).

Definition set_cap (n : nat) (x y : mstate) : mstate :=
  MState (before y) (after y)
         ((n, firstn (length (after x) - length (after y)) (after x))
            :: filter (fun e => negb (Nat.eqb (fst e) n)) (caps y)).

Definition progressed (x y : mstate) : bool :=
  (length (after y) <? length (after x))%nat.

(** IsWordChar at the index before and at the current index. *)
Definition word_before (x : mstate) : bool :=
  match before x with [] => false | c :: _ => is_word c end.

Definition word_after (x : mstate) : bool :=
  match after x with [] => false | c :: _ => is_word c end.

(** RepeatMatcher for [min = 0], [max = infinity]; an iteration that does
    not advance is refused.  The fuel is the number of code units left. *)
Fixpoint repeat_loop (mr : matcher) (greedy : bool) (k : cont)
    (fuel : nat) (x : mstate) : option mstate :=
  match fuel with
  | O => k x
  | S fuel' =>
      let d := fun y => if progressed x y then repeat_loop mr greedy k fuel' y
                        else None in
      if greedy then
        match mr x d with
        | Some z => Some z
        | None => k x
        end
      else
        match k x with
        | Some z => Some z
        | None => mr x d
        end
  end.

Definition repeat (mr : matcher) (greedy : bool) : matcher :=
  fun x k => repeat_loop mr greedy k (length (after x)) x.

Section Matcher.

(** The [i] flag. *)
Variable icase : bool.

Definition lit_eq (c ch : N) : bool :=
  if icase then canon ch =? canon c else ch =? c.

Definition char_matcher (p : N -> bool) : matcher :=
  fun x k =>
    match after x with
    | [] => None
    | ch :: _ => if p ch then k (advance x) else None
    end.

Fixpoint m (r : regex) : matcher :=
  match r with
  | Empty => fun x k => k x
  | Lit c => char_matcher (lit_eq c)
  | Class p => char_matcher p
  | Seq r1 r2 => fun x k => m r1 x (fun y => m r2 y k)
  | Alt r1 r2 => fun x k =>
      match m r1 x k with
      | Some z => Some z
      | None => m r2 x k
      end
  | Star g r1 => repeat (fun x k => m r1 (clear (groups r1) x) k) g
  | Plus g r1 => fun x k =>
      m r1 (clear (groups r1) x)
        (fun y => repeat (fun x k => m r1 (clear (groups r1) x) k) g y k)
  | Opt g r1 => fun x k =>
      let d := fun y => if progressed x y then k y else None in
      if g then
        match m r1 (clear (groups r1) x) d with
        | Some z => Some z
        | None => k x
        end
      else
        match k x with
        | Some z => Some z
        | None => m r1 (clear (groups r1) x) d
        end
  | Group n r1 => fun x k => m r1 x (fun y => k (set_cap n x y))
  | Bol => fun x k => match before x with [] => k x | _ => None end
  | Eol => fun x k => match after x with [] => k x | _ => None end
  | WordB => fun x k =>
      if xorb (word_before x) (word_after x) then k x else None
  end.

(** RegExpBuiltinExec without the [g] and [y] flags: the start index runs
    from 0 to the length of the input, and the first index at which the
    pattern matches wins. *)
Fixpoint scan (r : regex) (bef aft : jsstring) : option (mstate * mstate) :=
  let x := MState bef aft [] in
  match m r x Some with
  | Some y => Some (x, y)
  | None =>
      match aft with
      | [] => None
      | c :: aft' => scan r (c :: bef) aft'
      end
  end.

End Matcher.

(** A pattern with its [i] flag. *)
Record regexp : Type := RegExp { source : regex; ignoreCase : bool }.

Definition exec (re : regexp) (s : jsstring) : option (mstate * mstate) :=
  scan (ignoreCase re) (source re) [] s.

(** [re.test(s)]. *)
Definition test (re : regexp) (s : jsstring) : bool :=
  match exec re s with Some _ => true | None => false end.

(** [s.search(re)]; [None] is -1. *)
Definition search (re : regexp) (s : jsstring) : option nat :=
  match exec re s with
  | Some (x, _) => Some (length (before x))
  | None => None
  end.

(** The text captured by the group [n], if it took part in the match. *)
Definition lookup_cap (n : nat) (cs : list (nat * jsstring)) : option jsstring :=
  match find (fun e => Nat.eqb (fst e) n) cs with
  | Some e => Some (snd e)
  | None => None
  end.

(** [s.match(re)[n]] for a pattern without the [g] flag: [None] when there
    is no match, [Some None] when the group did not take part. *)
Definition match_group (re : regexp) (n : nat) (s : jsstring)
  : option (option jsstring) :=
  match exec re s with
  | Some (_, y) => Some (lookup_cap n (caps y))
  | None => None
  end.

(** [s.replace(re, t)] for a pattern without the [g] flag and a
    replacement text without [$]. *)
Definition replace (re : regexp) (t : jsstring) (s : jsstring) : jsstring :=
  match exec re s with
  | Some (x, y) => rev (before x) ++ t ++ after y
  | None => s
  end.

(** [s.replace(re, t)] for a pattern with the [g] flag: the matches are
    found one after the other, each search starting where the last match
    ended (one further after an empty match). *)
Fixpoint replace_all_loop (re : regexp) (t : jsstring) (fuel : nat)
    (bef aft : jsstring) (acc : jsstring) : jsstring :=
  match fuel with
  | O => acc ++ aft
  | S fuel' =>
      match scan (ignoreCase re) (source re) bef aft with
      | None => acc ++ aft
      | Some (x, y) =>
          let skipped := firstn (length (before x) - length bef) aft in
          if progressed x y then
            replace_all_loop re t fuel' (before y) (after y) (acc ++ skipped ++ t)
          else
            match after y with
            | [] => acc ++ skipped ++ t
            | c :: rest =>
                replace_all_loop re t fuel' (c :: before y) rest
                  (acc ++ skipped ++ t ++ [c])
            end
      end
  end.

Definition replace_all (re : regexp) (t : jsstring) (s : jsstring) : jsstring :=
  replace_all_loop re t (S (length s)) [] s [].

End RegExp.

Import RegExp.

(** Concatenation of patterns, and a literal given as an ASCII text. *)
Fixpoint cat (rs : list regex) : regex :=
  match rs with
  | [] => Empty
  | [r] => r
  | r :: rs' => Seq r (cat rs')
  end.

Definition lit (s : string) : regex := word (js s).

Definition space : regex := Class is_space.
Definition wordchar : regex := Class is_word.
Definition digit : regex := Class is_digit.
Definition any : regex := Class any_char.   (* [\s\S] *)

(** ** Values, numbers, rows *)

(** A JavaScript number: a double.  A finite number other than -0 is kept
    as its exact value, a fraction in lowest terms. *)
Inductive number : Type :=
| NaN
| Infinity (negative : bool)
| Finite (q : Q)
| NegZero.

Inductive value : Type :=
| VNull
| VUndefined
| VBoolean (b : bool)
| VNumber (n : number)
| VString (s : jsstring).

(** An object with its own enumerable properties in enumeration order. *)
Abbreviation row := (list (jsstring * value)).

Definition isNaN (n : number) : bool :=
  match n with NaN => true | _ => false end.

Definition isFinite (n : number) : bool :=
  match n with Finite _ | NegZero => true | _ => false end.

(** *** [Number(s)]: StringToNumber of ECMA-262 (7.1.4.1) *)

Fixpoint span (p : N -> bool) (s : jsstring) : jsstring * jsstring :=
  match s with
  | [] => ([], [])
  | c :: s' =>
      if p c then let '(a, b) := span p s' in (c :: a, b) else ([], s)
  end.

Definition is_hex (c : N) : bool :=
  is_digit c || ((65 <=? c) && (c <=? 70)) || ((97 <=? c) && (c <=? 102)).
Definition is_octal (c : N) : bool := (48 <=? c) && (c <=? 55).
Definition is_binary (c : N) : bool := (48 <=? c) && (c <=? 49).

Definition digit_value (c : N) : Z :=
  if is_digit c then Z.of_N (c - 48)
  else if is_upper c then Z.of_N (c - 55)
  else Z.of_N (c - 87).

(** The value of a digit sequence in a base. *)
Definition digits_value (base : Z) (ds : jsstring) : Z :=
  fold_left (fun acc c => acc * base + digit_value c)%Z ds 0%Z.

(** The nearest integer to [a / b], for [0 < b]; of two integers that are
    equally near, the even one. *)
Definition round_half_even (a b : Z) : Z :=
  let q := (a / b)%Z in
  match (2 * (a mod b) ?= b)%Z with
  | Lt => q
  | Gt => (q + 1)%Z
  | Eq => if Z.even q then q else (q + 1)%Z
  end.

(** The number value for a real (ECMA-262, 6.1.6.1): the double nearest to
    [q], [0 <= q], with the sign [negative].  A double is [m * 2^e] with a
    significand [m] below [2^53] and an exponent [e] from -1074 to 971; in
    units of [2^-1074] it is the integer [m * 2^k], [k = e + 1074], and [q] is
    the fraction [N / D].  The exponent [k] is the one of the doubles around
    [q]: [N / D / 2^k] lies from [2^52] to [2^53], or below [2^53] with [k = 0]
    (a denormalized double).  A value that rounds to [2^1024] is an
    infinity, one that rounds to zero keeps its sign. *)
Definition to_double (negative : bool) (q : Q) : number :=
  let N := (Qnum q * 2 ^ 1074)%Z in
  let D := Z.pos (Qden q) in
  let k := Z.max (Z.log2 (N / D) - 52) 0 in
  let m := round_half_even N (D * 2 ^ k) in
  if (m =? 0)%Z then (if negative then NegZero else Finite 0)
  else if (2 ^ 2098 <=? m * 2 ^ k)%Z then Infinity negative
  else Finite (Qred ((if negative then - (m * 2 ^ k) else m * 2 ^ k)%Z # 2 ^ 1074)).

(** [mantissa * 10 ^ exponent], as a double. *)
Definition scaled (negative : bool) (mantissa exponent : Z) : number :=
  let q := if (0 <=? exponent)%Z
           then inject_Z (mantissa * 10 ^ exponent)
           else Qmake mantissa (Z.to_pos (10 ^ (- exponent))) in
  to_double negative q.

(** A sign, if the text begins with one ([+] is 43, [-] is 45), and the
    text after it. *)
Definition signed (s : jsstring) : bool * jsstring :=
  match s with
  | c :: t => if c =? 43 then (false, t) else if c =? 45 then (true, t) else (false, s)
  | [] => (false, s)
  end.

(** ExponentPart, optional: [e] or [E], an optional sign, digits. *)
Definition exponent_part (s : jsstring) : option Z :=
  match s with
  | [] => Some 0%Z
  | c :: s' =>
      if (c =? 101) || (c =? 69) then
        let '(neg, ds) := signed s' in
        match span is_digit ds with
        | ((_ :: _) as e, []) =>
            Some (if neg then - digits_value 10 e else digits_value 10 e)%Z
        | _ => None
        end
      else None
  end.

(** StrUnsignedDecimalLiteral; the dot is 46. *)
Definition unsigned_decimal (negative : bool) (s : jsstring) : number :=
  if starts_with (js "Infinity") s && (length s =? 8)%nat then Infinity negative
  else
    let '(ip, r1) := span is_digit s in
    let dotted := match r1 with c :: _ => c =? 46 | [] => false end in
    let '(fp, r2) := if dotted then span is_digit (tl r1) else ([], r1) in
    if (match ip, fp with [], [] => true | _, _ => false end) then NaN
    else
      match exponent_part r2 with
      | Some e => scaled negative (digits_value 10 (ip ++ fp)) (e - Z.of_nat (length fp))
      | None => NaN
      end.

(** NonDecimalIntegerLiteral: [0x], [0o], [0b] and digits of that base. *)
Definition non_decimal (s : jsstring) : option number :=
  match s with
  | z :: c :: ds =>
      let based (base : Z) (p : N -> bool) :=
        match span p ds with
        | (_ :: _, []) => Some (scaled false (digits_value base ds) 0)
        | _ => Some NaN
        end in
      if negb (z =? 48) then None
      else if (c =? 120) || (c =? 88) then based 16%Z is_hex
      else if (c =? 111) || (c =? 79) then based 8%Z is_octal
      else if (c =? 98) || (c =? 66) then based 2%Z is_binary
      else None
  | _ => None
  end.

Definition Number (s : jsstring) : number :=
  let t := trim s in
  match t with
  | [] => Finite 0
  | c :: t' =>
      match non_decimal t with
      | Some n => n
      | None =>
          if c =? 43 then unsigned_decimal false t'
          else if c =? 45 then unsigned_decimal true t'
          else unsigned_decimal false t
      end
  end.

(** [String(n)] for the integers that reach a template literal here. *)
Fixpoint uint_chars (u : Decimal.uint) : jsstring :=
  match u with
  | Decimal.Nil => []
  | Decimal.D0 u' => 48 :: uint_chars u'
  | Decimal.D1 u' => 49 :: uint_chars u'
  | Decimal.D2 u' => 50 :: uint_chars u'
  | Decimal.D3 u' => 51 :: uint_chars u'
  | Decimal.D4 u' => 52 :: uint_chars u'
  | Decimal.D5 u' => 53 :: uint_chars u'
  | Decimal.D6 u' => 54 :: uint_chars u'
  | Decimal.D7 u' => 55 :: uint_chars u'
  | Decimal.D8 u' => 56 :: uint_chars u'
  | Decimal.D9 u' => 57 :: uint_chars u'
  end.

Definition decimal (n : N) : jsstring := uint_chars (N.to_uint n).

(** [xs.join(sep)]. *)
Fixpoint join (sep : jsstring) (xs : list jsstring) : jsstring :=
  match xs with
  | [] => []
  | [x] => x
  | x :: xs' => x ++ sep ++ join sep xs'
  end.

(** ** The tabular store and the file system *)

(** A record of a parsed CSV file is an object, column name to value;
    [csv-parse] with [columns: true] and no cast yields texts. *)
Abbreviation record := (list (jsstring * value)).

(** [r[c]] *)
Fixpoint prop (r : record) (c : jsstring) : value :=
  match r with
  | [] => VUndefined
  | (k, v) :: r' => if decide (k = c) then v else prop r' c
  end.

(** [r[c] = v]: an existing key keeps its place, a new one goes last. *)
Fixpoint set_prop (r : record) (c : jsstring) (v : value) : record :=
  match r with
  | [] => [(c, v)]
  | (k, u) :: r' => if decide (k = c) then (k, v) :: r' else (k, u) :: set_prop r' c v
  end.

(** A file of the data directory: its name and what
    [parse(readFileSync(..))] gives, [None] when reading or parsing throws. *)
Record file : Type := File {
  file_name : jsstring;
  file_records : option (list record)
}.

(** A table of the engine: its declared columns and its rows, each row the
    values of one INSERT under the names of its column list. *)
Record table : Type := Table {
  columns : list jsstring;
  rows : list row
}.

(** What a call of [DB.exec] with a query gives: a thrown error with its
    [message] (empty when there is none), something that is not an array, or
    an array of row objects. *)
Inductive exec_outcome : Type :=
| Throws (message : jsstring)
| NotArray
| Rows (rs : list row).

(** The process and its surroundings: the data directory, the tables of
    [DB], and the statements handed to [DB.exec] so far. *)
Record world : Type := World {
  dir_exists : bool;
  dir_files : list file;
  tables : gmap jsstring table;
  forwarded : list jsstring
}.

(** The outcome of a call: a returned value or an exception that leaves it. *)
Inductive outcome (A : Type) : Type :=
| Returns (a : A)
| Raises (message : jsstring).
Arguments Returns {A} a.
Arguments Raises {A} message.

(** ** server/db.ts *)

Inductive QueryResult : Type :=
| Executed (rows : list row) (fields : list jsstring)
| NotExecuted (error : jsstring).

Definition executed (r : QueryResult) : bool :=
  match r with Executed _ _ => true | NotExecuted _ => false end.

(** [/[^a-zA-Z0-9_]/g] *)
Definition re_unsafe_char : regexp :=
  RegExp (Class (fun c => negb (is_word c))) false.

Definition sanitizeName (s : jsstring) : jsstring :=
  replace_all re_unsafe_char (js "_") s.

(** [path.basename(f, ".csv")] for a directory entry that ends in [.csv]. *)
Definition basename_csv (f : jsstring) : jsstring :=
  firstn (length f - 4) f.

(** [listCsvFiles()]: the pairs [{ name, file }]. *)
Definition listCsvFiles (w : world) : list (jsstring * jsstring) :=
  if dir_exists w then
    map (fun f => (basename_csv f, f))
        (filter (fun f => endsWith f (js ".csv")) (map file_name (dir_files w)))
  else [].

(** [/;+\s*$/]; 59 is the semicolon, 10 the line feed, 91 and 93 the
    square brackets. *)
Definition re_trailing_semicolons : regexp :=
  RegExp (cat [Plus true (Lit 59); Star true space; Eol]) false.

(** [/^```[\w]*\n?/i] *)
Definition re_fence_open : regexp :=
  RegExp (cat [Bol; lit "```"; Star true wordchar; Opt true (Lit 10)]) true.

(** [/\n?```$/i] *)
Definition re_fence_close : regexp :=
  RegExp (cat [Opt true (Lit 10); lit "```"; Eol]) true.

(** [/(?:--[\s\S]*?\n|\/\*[\s\S]*?\*\/|\s)*SELECT/i] *)
Definition re_select_gate : regexp :=
  RegExp (cat [Star true
                 (Alt (cat [lit "--"; Star false any; Lit 10])
                 (Alt (cat [lit "/*"; Star false any; lit "*/"])
                      space));
               lit "SELECT"]) true.

(** [/SELECT/i] *)
Definition re_select : regexp := RegExp (lit "SELECT") true.

(** [/\bWHERE\s+/i] *)
Definition re_where : regexp :=
  RegExp (cat [WordB; lit "WHERE"; Plus true space]) true.

(** [/\bWHERE\s+([\s\S]*?)(?:\bGROUP\s+BY|\bORDER\s+BY|\bLIMIT|$)/i];
    its last group, the boundaries of the WHERE body, has a name of its
    own. *)
Definition where_boundary : regex :=
  Alt (cat [WordB; lit "GROUP"; Plus true space; lit "BY"])
 (Alt (cat [WordB; lit "ORDER"; Plus true space; lit "BY"])
 (Alt (cat [WordB; lit "LIMIT"])
      Eol)).

Definition re_where_body : regexp :=
  RegExp (cat [WordB; lit "WHERE"; Plus true space;
               Group 1 (Star false any);
               where_boundary]) true.

(** [/^\[?[\w]+\]?\s*(AND|OR)?\s*$/i] *)
Definition re_incomplete : regexp :=
  RegExp (cat [Bol; Opt true (Lit 91); Plus true wordchar; Opt true (Lit 93);
               Star true space;
               Opt true (Group 1 (Alt (lit "AND") (lit "OR")));
               Star true space; Eol]) true.

(** [/\blimit\s+\d+/i] *)
Definition re_limit : regexp :=
  RegExp (cat [WordB; lit "limit"; Plus true space; Plus true digit]) true.

(** [/['"`]?(\w+)['"`]?/] *)
Definition is_quote (c : N) : bool := (c =? 39) || (c =? 34) || (c =? 96).

Definition re_quoted_word : regexp :=
  RegExp (cat [Opt true (Class is_quote); Group 1 (Plus true wordchar);
               Opt true (Class is_quote)]) false.

(** The cleaning at the head of [executeSqlite]: trim, drop the trailing
    semicolons, drop the markdown fences. *)
Definition clean (sql : jsstring) : jsstring :=
  let cleaned := trim sql in
  let cleaned := replace re_trailing_semicolons [] cleaned in
  replace re_fence_close [] (replace re_fence_open [] cleaned).

(** [Math.max(1, Math.min(1000, limit))] on integers. *)
Definition clamp_limit (limit : Z) : Z := Z.max 1 (Z.min 1000 limit).

(** The conversion of the result cells. *)
Definition coerce (v : value) : value :=
  match v with
  | VString s =>
      if negb (length s =? 0)%nat && negb (isNaN (Number s))
         && negb (length (trim s) =? 0)%nat
      then
        let num := Number s in
        if negb (isNaN num) && isFinite num then VNumber num else v
      else v
  | _ => v
  end.

Definition process_row (r : row) : row :=
  map (fun kv => (fst kv, coerce (snd kv))) r.

(** The [catch] block: the rewriting of the engine's message. *)
Definition describe_error (w : world) (message : jsstring) : jsstring :=
  let errorMessage := if (length message =? 0)%nat then js "Unknown error" else message in
  if includes errorMessage (js "no such table") || includes errorMessage (js "Table") then
    js "Table not found. Available tables: " ++ join (js ", ") (map fst (listCsvFiles w))
  else if includes errorMessage (js "no such column")
          || includes errorMessage (js "Column")
          || includes errorMessage (js "Cannot read properties of undefined") then
    let columnName :=
      match match_group re_quoted_word 1 errorMessage with
      | Some (Some c) => c
      | _ => js "unknown"
      end in
    js "Column " ++ [34] ++ columnName ++ [34] ++ js " not found. Common issues:" ++ [10]
    ++ js "- " ++ [34] ++ js "order_value" ++ [34]
    ++ js " doesn't exist - use payments.[payment_value] or SUM([order_items].[price] + [order_items].[freight_value])" ++ [10]
    ++ js "- Check that column names use square brackets: [column_name]" ++ [10]
    ++ js "- Verify the table schema matches your query"
  else if includes errorMessage (js "syntax error") || includes errorMessage (js "Syntax") then
    js "SQL syntax error: " ++ errorMessage ++ [10]
    ++ js "Make sure to use SQLite-compatible syntax and square brackets for identifiers."
  else if includes errorMessage (js "undefined") then
    js "Query error: " ++ errorMessage ++ [10]
    ++ js "This often means a column or table doesn't exist. Check your table and column names."
  else errorMessage.

Section Execute.

(** The embedded engine on a query: what [DB.exec] gives for a statement on
    the current tables. *)
Variable alasql : gmap jsstring table -> jsstring -> exec_outcome.

(** What the sanitizing steps of [executeSqlite] decide: a rejection with
    its error, or the statement to run. *)
Inductive sanitized : Type :=
| Rejected (error : jsstring)
| Accepted (statement : jsstring).

(** The statement after the SELECT gate: the cleaned text from its first
    SELECT on. *)
Definition select_statement (cleaned : jsstring) : jsstring :=
  match search re_select cleaned with
  | Some selectIndex =>
      if (0 <? selectIndex)%nat then substring_from selectIndex cleaned else cleaned
  | None => cleaned
  end.

(** [whereMatch[1].trim()] *)
Definition where_clause (cleaned : jsstring) : option jsstring :=
  match match_group re_where_body 1 cleaned with
  | Some (Some body) => Some (trim body)
  | _ => None
  end.

Definition sanitize (sql : jsstring) (limit : Z) : sanitized :=
  let cleaned := clean sql in
  if negb (test re_select_gate cleaned) then
    if (length cleaned <? 10)%nat then
      Rejected (js "SQL query appears to be empty or too short.")
    else
      Rejected (js "Only SELECT queries are allowed for security reasons. Query must start with SELECT. Got: "
                ++ substring_to 50 cleaned ++ js "...")
  else
    let cleaned := select_statement cleaned in
    let incomplete :=
      if test re_where cleaned then
        match where_clause cleaned with
        | Some whereClause =>
            if test re_incomplete whereClause then Some whereClause else None
        | None => None
        end
      else None in
    match incomplete with
    | Some whereClause =>
        Rejected (js "SQL query appears incomplete. The WHERE clause is missing a condition. Found: WHERE "
                  ++ whereClause)
    | None =>
        let hasLimit := test re_limit cleaned in
        Accepted (if hasLimit then cleaned
                  else cleaned ++ js " LIMIT " ++ decimal (Z.to_N (clamp_limit limit)))
    end.

(** The shaping of what the engine returned. *)
Definition shape (o : exec_outcome) : outcome QueryResult :=
  match o with
  | Throws message => Raises message
  | NotArray | Rows [] => Returns (Executed [] [])
  | Rows ((first :: _) as rs) =>
      Returns (Executed (map process_row rs) (map fst first))
  end.

(** The body of the [try] block. *)
Definition try_block (w : world) (sql : jsstring) (limit : Z)
  : world * outcome QueryResult :=
  match sanitize sql limit with
  | Rejected error => (w, Returns (NotExecuted error))
  | Accepted limited =>
      (World (dir_exists w) (dir_files w) (tables w) (forwarded w ++ [limited]),
       shape (alasql (tables w) limited))
  end.

(** [executeSqlite(sql, limit = 200)]; the limit is [None] when the caller
    gives none. *)
Definition executeSqlite (w : world) (sql : jsstring) (limit : option Z)
  : world * outcome QueryResult :=
  let limit := match limit with Some l => l | None => 200%Z end in
  if negb (dir_exists w) then
    (w, Returns (NotExecuted
       (js "Local data directory not found. Add CSV files into /data and restart.")))
  else
    match try_block w sql limit with
    | (w', Returns r) => (w', Returns r)
    | (w', Raises message) => (w', Returns (NotExecuted (describe_error w' message)))
    end.

End Execute.

(** *** Ingestion *)

(** [s.substr(from, len)] *)
Definition substr (from len : nat) (s : jsstring) : jsstring :=
  firstn len (skipn from s).

(** [parseInt(s, 10)]; [None] is [NaN]. *)
Definition parseInt (s : jsstring) : option Z :=
  let t := trimStart s in
  let '(neg, t) :=
    match t with
    | 43 :: t' => (false, t')
    | 45 :: t' => (true, t')
    | _ => (false, t)
    end in
  match fst (span is_digit t) with
  | [] => None
  | ds => Some (if neg then - digits_value 10 ds else digits_value 10 ds)%Z
  end.

(** ToBoolean. *)
Definition truthy (v : value) : bool :=
  match v with
  | VNull | VUndefined => false
  | VBoolean b => b
  | VNumber NaN => false
  | VNumber (Infinity _) => true
  | VNumber (Finite q) => negb (Qeq_bool q 0)
  | VNumber NegZero => false
  | VString s => negb (length s =? 0)%nat
  end.

(** [/[^0-9.-]+/g] *)
Definition re_not_numeric : regexp :=
  RegExp (Plus true (Class (fun c => negb (is_digit c || (c =? 46) || (c =? 45))))) false.

(** The statements of the ingestion. *)
Definition bracketed (c : jsstring) : jsstring := js "[" ++ sanitizeName c ++ js "]".

Definition createSql (table : jsstring) (cols : list jsstring) : jsstring :=
  js "CREATE TABLE IF NOT EXISTS [" ++ table ++ js "] ("
  ++ join (js ", ") (map (fun c => bracketed c ++ js " TEXT") cols) ++ js ")".

Definition countSql (table : jsstring) : jsstring :=
  js "SELECT COUNT(1) as c FROM [" ++ table ++ js "]".

Definition insertSql (table : jsstring) (cols : list jsstring) : jsstring :=
  js "INSERT INTO [" ++ table ++ js "] (" ++ join (js ",") (map bracketed cols)
  ++ js ") VALUES (" ++ join (js ",") (map (fun _ => js "?") cols) ++ js ")".

(** The tables after [DB.exec] of a statement of the ingestion.  The engine
    is a dependency of the program; what is written here is what the three
    statements mean: a table is created empty unless one of that name
    exists, COUNT gives the number of its rows, INSERT adds one row.  It is
    what the engine does for names that it keeps apart: a table name that is
    not empty and no name of a property that every JavaScript object
    inherits, and column names that differ from one another.  On an empty
    name or an inherited one the engine throws, or creates nothing, and the
    [try] of the loop skips the file; on two columns of one name it keeps
    one cell for both.  The model does not show that. *)
Definition logged (sql : jsstring) (w : world) : world :=
  World (dir_exists w) (dir_files w) (tables w) (forwarded w ++ [sql]).

Definition with_tables (t : gmap jsstring table) (w : world) : world :=
  World (dir_exists w) (dir_files w) t (forwarded w).

Definition create_table (name : jsstring) (cols : list jsstring)
    (t : gmap jsstring table) : gmap jsstring table :=
  match t !! name with
  | Some _ => t
  | None => <[name := Table cols []]> t
  end.

Definition row_count (name : jsstring) (t : gmap jsstring table) : nat :=
  match t !! name with
  | Some tb => length (rows tb)
  | None => 0
  end.

Definition add_row (name : jsstring) (r : row)
    (t : gmap jsstring table) : gmap jsstring table :=
  match t !! name with
  | Some tb => <[name := Table (columns tb) (rows tb ++ [r])]> t
  | None => t
  end.

Section Ingest.

(** [String(n)] for a number: the digits of a double are not modelled. *)
Variable number_text : number -> jsstring.

(** Whether the engine throws on the INSERT of these values into this
    table. *)
Variable insert_throws : jsstring -> list value -> bool.

(** [String(v)] *)
Definition ToString (v : value) : jsstring :=
  match v with
  | VNull => js "null"
  | VUndefined => js "undefined"
  | VBoolean true => js "true"
  | VBoolean false => js "false"
  | VNumber n => number_text n
  | VString s => s
  end.

(** [v || ""] *)
Definition or_empty (v : value) : value := if truthy v then v else VString [].

(** The derived columns of [olist_orders_dataset]; a value that is truthy
    and not a text has no [trim], and the TypeError leaves the loop. *)
Definition derive_order (r : record) : outcome record :=
  match or_empty (prop r (js "order_purchase_timestamp")) with
  | VString s =>
      let ts := trim s in
      if negb (length ts =? 0)%nat && (10 <=? length ts)%nat then
        let day := substr 0 2 ts in
        let month := substr 3 2 ts in
        let year := substr 6 4 ts in
        let timePart := if (11 <? length ts)%nat then skipn 11 ts else js "00:00" in
        let iso := year ++ js "-" ++ month ++ js "-" ++ day ++ js " " ++ timePart in
        let r := set_prop r (js "order_purchase_iso") (VString iso) in
        let r := set_prop r (js "order_year_month") (VString (year ++ js "-" ++ month)) in
        let m := parseInt (if (length month =? 0)%nat then js "0" else month) in
        let q := match m with
                 | Some m => decimal (Z.to_N ((Z.max 1 m - 1) / 3 + 1))
                 | None => js "NaN"
                 end in
        Returns (set_prop r (js "order_quarter") (VString (year ++ js "-Q" ++ q)))
      else
        let r := set_prop r (js "order_purchase_iso") VNull in
        let r := set_prop r (js "order_year_month") VNull in
        Returns (set_prop r (js "order_quarter") VNull)
  | _ => Raises (js "trim is not a function")
  end.

(** The derived columns of [olist_order_items_dataset]. *)
Definition derive_item (r : record) : record :=
  let numeric (v : value) := replace_all re_not_numeric [] (ToString (or_empty v)) in
  let or_null (s : jsstring) := if (length s =? 0)%nat then VNull else VString s in
  let p := numeric (prop r (js "price")) in
  let f := numeric (prop r (js "freight_value")) in
  set_prop (set_prop r (js "price_num") (or_null p)) (js "freight_num") (or_null f).

Fixpoint derive_orders (records : list record) : outcome (list record) :=
  match records with
  | [] => Returns []
  | r :: rest =>
      match derive_order r with
      | Raises e => Raises e
      | Returns r' =>
          match derive_orders rest with
          | Raises e => Raises e
          | Returns rest' => Returns (r' :: rest')
          end
      end
  end.

Definition derive (table : jsstring) (records : list record) : outcome (list record) :=
  match (if decide (table = js "olist_orders_dataset") then derive_orders records
         else Returns records) with
  | Raises e => Raises e
  | Returns records =>
      Returns (if decide (table = js "olist_order_items_dataset")
               then map derive_item records else records)
  end.

(** [r[c] === undefined || r[c] === null ? null : String(r[c])] *)
Definition cell (v : value) : value :=
  match v with
  | VUndefined | VNull => VNull
  | _ => VString (ToString v)
  end.

(** The INSERT loop; an INSERT that throws ends the work on the file. *)
Fixpoint insert_records (table : jsstring) (cols : list jsstring)
    (records : list record) (w : world) : world :=
  match records with
  | [] => w
  | r :: rest =>
      let vals := map (fun c => cell (prop r c)) cols in
      let w := logged (insertSql table cols) w in
      if insert_throws table vals then w
      else insert_records table cols rest
             (with_tables (add_row table (combine (map sanitizeName cols) vals) (tables w)) w)
  end.

(** The body of the loop over the CSV files, with its [try] and [catch]. *)
Definition ingest_file (w : world) (f : file) : world :=
  match file_records f with
  | None | Some [] => w
  | Some records =>
      let table := sanitizeName (basename_csv (file_name f)) in
      match derive table records with
      | Raises _ | Returns [] => w
      | Returns ((first :: _) as records) =>
          let cols := map fst first in
          let w := logged (createSql table cols) w in
          let w := with_tables (create_table table (map sanitizeName cols) (tables w)) w in
          let w := logged (countSql table) w in
          if (0 <? row_count table (tables w))%nat then w
          else insert_records table cols records w
      end
  end.

Definition is_csv (f : file) : bool := endsWith (file_name f) (js ".csv").

(** [initSqliteFromCsvs()] *)
Definition initSqliteFromCsvs (w : world) : world :=
  let w := if dir_exists w then w else World true [] (tables w) (forwarded w) in
  fold_left ingest_file (filter is_csv (dir_files w)) w.

End Ingest.

(** ** client/pages/Index.tsx: [extractSql] *)

(** [/SQL:\s*([\s\S]*?)(?:\n\n|$)/i] *)
Definition re_sql_prefix : regexp :=
  RegExp (cat [lit "SQL:"; Star true space; Group 1 (Star false any);
               Alt (cat [Lit 10; Lit 10]) Eol]) true.

(** [/```sql\n([\s\S]*?)```/i] and [/```\n([\s\S]*?)```/i] *)
Definition re_code_sql : regexp :=
  RegExp (cat [lit "```sql"; Lit 10; Group 1 (Star false any); lit "```"]) true.

Definition re_code_plain : regexp :=
  RegExp (cat [lit "```"; Lit 10; Group 1 (Star false any); lit "```"]) true.

(** [/(SELECT[\s\S]*?)(?:\n\n|```|SQL:|$)/i] *)
Definition re_select_span : regexp :=
  RegExp (cat [Group 1 (cat [lit "SELECT"; Star false any]);
               Alt (cat [Lit 10; Lit 10])
              (Alt (lit "```")
              (Alt (lit "SQL:")
                   Eol))]) true.

(** The pattern of [anySelect]: group 1 holds SELECT and a greedy
    [[\s\S]*] after it; flag [i]. *)
Definition re_select_rest : regexp :=
  RegExp (Group 1 (cat [lit "SELECT"; Star true any])) true.

(** [/\n\n/] *)
Definition re_blank_line : regexp := RegExp (cat [Lit 10; Lit 10]) false.

(** [s.split(re)[0]] for a pattern that matches no empty text. *)
Definition split_first (re : regexp) (s : jsstring) : jsstring :=
  match search re s with
  | Some i => firstn i s
  | None => s
  end.

(** [text.match(re)[1].trim()] when there is a match. *)
Definition trimmed_group (re : regexp) (text : jsstring) : option jsstring :=
  match match_group re 1 text with
  | Some (Some g) => Some (trim g)
  | _ => None
  end.

Definition nonempty (s : jsstring) : bool := negb (length s =? 0)%nat.

(** Pattern 1: the text after [SQL:]. *)
Definition sql_prefix_pattern (text : jsstring) : option jsstring :=
  match trimmed_group re_sql_prefix text with
  | Some sql => if nonempty sql then Some sql else None
  | None => None
  end.

(** Pattern 2: a code block that holds a SELECT. *)
Definition code_block_pattern (text : jsstring) : option jsstring :=
  let codeMatch :=
    match trimmed_group re_code_sql text with
    | Some sql => Some sql
    | None => trimmed_group re_code_plain text
    end in
  match codeMatch with
  | Some sql => if nonempty sql && test re_select sql then Some sql else None
  | None => None
  end.

(** Pattern 3: a SELECT up to a boundary. *)
Definition select_span_pattern (text : jsstring) : option jsstring :=
  match trimmed_group re_select_span text with
  | Some sql => if nonempty sql && (10 <? length sql)%nat then Some sql else None
  | None => None
  end.

(** Pattern 4: any SELECT in the text. *)
Definition any_select_pattern (text : jsstring) : option jsstring :=
  match trimmed_group re_select_rest text with
  | Some sql =>
      let cleaned := trim (substring_to 5000 (split_first re_blank_line sql)) in
      if nonempty cleaned && (10 <? length cleaned)%nat then Some cleaned else None
  | None => None
  end.

(** [extractSql(text)]; [None] is [null]. *)
Definition extractSql (text : jsstring) : option jsstring :=
  if negb (nonempty text) then None
  else
    match sql_prefix_pattern text with
    | Some sql => Some sql
    | None =>
        match code_block_pattern text with
        | Some sql => Some sql
        | None =>
            match select_span_pattern text with
            | Some sql => Some sql
            | None => any_select_pattern text
            end
        end
    end.

(** ** What a pattern matches, stated without the matcher *)

(** An index of the input: the text before it, reversed, and the text from
    it on. *)
Abbreviation index := (jsstring * jsstring)%type.

Definition at_index (x : mstate) : index := (before x, after x).

(** The iteration of a relation between indices in steps that advance. *)
Inductive iterated (R : index -> index -> Prop) : index -> index -> Prop :=
| iterated_stop p : iterated R p p
| iterated_step p q s :
    R p q -> (length (snd q) < length (snd p))%nat -> iterated R q s ->
    iterated R p s.

(** [matches icase r p q]: the pattern [r] matches the text between the
    indices [p] and [q] of one input. *)
Fixpoint matches (icase : bool) (r : regex) (p q : index) : Prop :=
  match r with
  | Empty => q = p
  | Lit c => exists ch, snd p = ch :: snd q /\ fst q = ch :: fst p /\ lit_eq icase c ch = true
  | Class f => exists ch, snd p = ch :: snd q /\ fst q = ch :: fst p /\ f ch = true
  | Seq r1 r2 => exists s, matches icase r1 p s /\ matches icase r2 s q
  | Alt r1 r2 => matches icase r1 p q \/ matches icase r2 p q
  | Star _ r1 => iterated (matches icase r1) p q
  | Plus _ r1 => exists s, matches icase r1 p s /\ iterated (matches icase r1) s q
  | Opt _ r1 =>
      q = p \/ (matches icase r1 p q /\ (length (snd q) < length (snd p))%nat)
  | Group _ r1 => matches icase r1 p q
  | Bol => q = p /\ fst p = []
  | Eol => q = p /\ snd p = []
  | WordB =>
      q = p /\
      xorb (match fst p with [] => false | c :: _ => is_word c end)
           (match snd p with [] => false | c :: _ => is_word c end) = true
  end.

(** The pattern matches somewhere in the text. *)
Definition matches_in (re : regexp) (s : jsstring) : Prop :=
  exists pre post q,
    s = pre ++ post /\ matches (ignoreCase re) (source re) (rev pre, post) q.

(** Two texts that differ in the case of ASCII letters only. *)
Definition same_letters (a b : jsstring) : Prop := map canon a = map canon b.

(** The text holds the word, in any case. *)
Definition contains_word (w : jsstring) (s : jsstring) : Prop :=
  exists pre mid post, s = pre ++ mid ++ post /\ same_letters mid w.

(** ** server/db.ts: [previewCsv] *)





Section Preview.

(** The file, if there is one, at [path.join(DATA_DIR, name)] for a name
    that holds a path separator: such a path leaves the listing of the data
    directory, which is all that [world] describes. *)
Variable elsewhere : jsstring -> option file.



End Preview.

(** ** server/routes/execute.ts *)

(** The body of a request to [/api/execute]; a field is [None] when the
    body does not have it (or has it as null). *)
Record ExecuteRequest : Type := {
  exec_sql : option jsstring;
  exec_limit : option Z
}.

(** The JSON of the answer: [{ ok: true, rows, fields }] or
    [{ ok: false, error }]. *)
Inductive ExecuteResponse : Type :=
| ExecuteOk (rows : list row) (fields : list jsstring)
| ExecuteFailed (error : jsstring).

Section Routes.

Variable alasql : gmap jsstring table -> jsstring -> exec_outcome.

(** [handleExecute]: the status of the answer and its JSON. *)
Definition handleExecute (w : world) (body : ExecuteRequest)
  : world * (N * ExecuteResponse) :=
  match exec_sql body with
  | None | Some [] => (w, (400, ExecuteFailed (js "Missing sql")))
  | Some sql =>
      let limit := match exec_limit body with Some l => l | None => 200%Z end in
      match executeSqlite alasql w sql (Some limit) with
      | (w', Returns (Executed rows fields)) => (w', (200, ExecuteOk rows fields))
      | (w', Returns (NotExecuted error)) => (w', (200, ExecuteFailed error))
      | (w', Raises message) => (w', (500, ExecuteFailed message))
      end
  end.

(** ** server/routes/agent.ts *)

Inductive ChatRole : Type := role_system | role_user | role_assistant.

Record ChatMessage : Type := Message { msg_role : ChatRole; msg_content : jsstring }.

Inductive AgentMode : Type := Insights | Sql.

Inductive Provider : Type := OpenRouter | Gemini | NoProvider.

(** The body of a request to [/api/agent]; an optional field is [None] when
    the body does not have it. *)
Record AgentRequest : Type := {
  req_messages : option (list ChatMessage);
  req_mode : option AgentMode;
  req_execute : option bool;
  req_limit : option Z
}.

(** The JSON of the answer; an optional field is [None] when the answer
    does not have it. *)
Record AgentResponse : Type := {
  resp_ok : bool;
  resp_mode : AgentMode;
  resp_text : option jsstring;
  resp_sql : option jsstring;
  resp_fields : option (list jsstring);
  resp_rows : option (list row);
  resp_notice : option jsstring;
  resp_provider : Provider
}.

(** The two keys of the environment that choose the provider. *)
Record environment : Type := {
  OPENROUTER_API_KEY : option jsstring;
  GEMINI_API_KEY : option jsstring
}.

(** [!!process.env.KEY] *)
Definition is_set (v : option jsstring) : bool :=
  match v with Some (_ :: _) => true | _ => false end.

Definition pickProvider (env : environment) : Provider :=
  let hasOpenRouter := is_set (OPENROUTER_API_KEY env) in
  let hasGemini := is_set (GEMINI_API_KEY env) in
  if hasOpenRouter then OpenRouter
  else if hasGemini then Gemini
  else NoProvider.

(** What [fetch] gives, as far as [callOpenRouter] and [callGemini] read
    it: [resp.ok], [resp.status]; of the body of a failure, read with
    [resp.json()], [errorData.error?.message] and [errorData.message]
    ([None] when the body cannot be read or has no such text); of the body
    of a success, the text of the answer
    ([data.choices?.[0]?.message?.content] for OpenRouter,
    [data.candidates?.[0]?.content?.parts?.[0]?.text] for Gemini), [None]
    when it is null or missing, or the exception that reading it
    raises; and
    [data.candidates?.[0]?.finishReason]. *)
Record reply : Type := Reply {
  reply_ok : bool;
  reply_status : N;
  reply_error_message : option jsstring;
  reply_message : option jsstring;
  reply_text : outcome (option jsstring);
  reply_finishReason : option jsstring
}.

(** [a || b] on texts that may be missing. *)
Definition or_else (a : option jsstring) (b : jsstring) : jsstring :=
  match a with Some (c :: s) => c :: s | _ => b end.

(** The message of the error that [callOpenRouter] throws for an answer
    that is not ok. *)
Definition openrouter_error (resp : reply) : jsstring :=
  let status := reply_status resp in
  let errorMsg := js "OpenRouter error " ++ decimal status in
  if status =? 429 then
    js "Rate limit exceeded. Please wait a moment and try again, or check your API key limits."
  else if status =? 401 then
    js "Invalid API key. Please check your OPENROUTER_API_KEY environment variable."
  else if status =? 400 then
    js "Invalid request. Please check your query and try again."
  else or_else (reply_error_message resp) errorMsg.

(** The message of the error that [callGemini] throws for an answer that is
    not ok. *)
Definition gemini_error (resp : reply) : jsstring :=
  let status := reply_status resp in
  let errorMsg := js "Gemini error " ++ decimal status in
  if status =? 429 then
    js "Rate limit exceeded. Please wait a moment and try again. You may need to wait a few seconds between requests or check your API quota."
  else if status =? 401 then
    js "Invalid API key. Please check your GEMINI_API_KEY environment variable."
  else if status =? 400 then
    js "Invalid request. Please check your query and try again."
  else if status =? 503 then
    js "Service temporarily unavailable. Please try again in a moment."
  else or_else (reply_error_message resp) (or_else (reply_message resp) errorMsg).

(** [m.role.toUpperCase()] *)
Definition role_upper (r : ChatRole) : jsstring :=
  match r with
  | role_system => js "SYSTEM"
  | role_user => js "USER"
  | role_assistant => js "ASSISTANT"
  end.

(** [String.prototype.toLowerCase] on the ASCII letters.  A character
    outside ASCII is left as it is; this is exact for what the lowered text
    is compared with here, the greetings: whatever such a character becomes
    holds a character outside ASCII or is a [k], and no greeting holds
    either. *)
Definition toLowerCase (s : jsstring) : jsstring :=
  map (fun c => if is_upper c then c + 32 else c) s.

Definition simpleGreetings : list jsstring :=
  [js "hi"; js "hello"; js "hey"; js "greetings";
   js "good morning"; js "good afternoon"; js "good evening"].

(** The text of the answer to a greeting. *)
Definition greeting_text : jsstring :=
  js "Hello! I'm your Olist e-commerce analytics assistant. I can help you analyze your data by answering questions about orders, products, customers, and sales. Try asking me something like:"
  ++ [10] ++ js "- " ++ [34] ++ js "What is the average order value?" ++ [34]
  ++ [10] ++ js "- " ++ [34] ++ js "Which product category has the highest sales?" ++ [34]
  ++ [10] ++ js "- " ++ [34] ++ js "Show me top 10 cities by revenue" ++ [34]
  ++ [10; 10] ++ js "What would you like to know?".

(** [/```/g] *)
Definition re_backquotes : regexp := RegExp (lit "```") false.

(** The cleaning of the extracted statement in [handleAgent]: the code
    fences are removed, then the trailing semicolons. *)
Definition clean_extracted (s : jsstring) : jsstring :=
  let cleanSql := trim (replace_all re_backquotes [] s) in
  trim (replace re_trailing_semicolons [] cleanSql).

(** A text that is not null and not empty. *)
Definition truthy_text (s : option jsstring) : bool :=
  match s with Some (_ :: _) => true | _ => false end.

(** [cleanSql]: the statement extracted from the answer of the provider,
    cleaned when there is one. *)
Definition cleanSql (content : jsstring) : option jsstring :=
  let extractedSql := extractSql content in
  if truthy_text extractedSql
  then match extractedSql with Some s => Some (clean_extracted s) | None => None end
  else extractedSql.

(** The warning sign with its variation selector, U+26A0 U+FE0F. *)
Definition warning : jsstring := [9888; 65039].

(** The [catch] block of [handleAgent]: the notice for an error. *)
Definition user_message (message : jsstring) : jsstring :=
  let message := if (length message =? 0)%nat then js "Unknown error" else message in
  if includes message (js "Rate limit") || includes message (js "429") then
    warning ++ js " API rate limit exceeded. Please wait a few seconds and try again. If this persists, you may need to check your API quota or wait longer between requests."
  else if includes message (js "Invalid API key") || includes message (js "401") then
    warning ++ js " API authentication failed. Please check your API key configuration."
  else if includes message (js "fetch failed") || includes message (js "network") then
    warning ++ js " Network error. Please check your internet connection and try again."
  else if includes message (js "timeout") then
    warning ++ js " Request timed out. The API is taking too long to respond. Please try again."
  else message.

(** The process as [handleAgent] leaves it, the requests that it sent to a
    provider, and its answer (always with status 200). *)
Record AgentRun : Type := Run {
  run_world : world;
  run_asked : list (Provider * jsstring);
  run_response : AgentResponse
}.

Section Agent.

Variable env : environment.

(** The texts of the prompt, constants of the source: [systemBase], what is
    added to it for the output format and for the schema, and the two last
    additions, one of which is chosen. *)
Variables systemBase outputFormat contextSchema sqlOnly critical : jsstring.

(** [fetch] on the request of [callOpenRouter], as far as that depends on
    the call: the messages, the system message first. *)
Variable fetch_openrouter : list ChatMessage -> outcome reply.

(** [fetch] on the request of [callGemini]: the one text of the prompt. *)
Variable fetch_gemini : jsstring -> outcome reply.

Definition callOpenRouter (messages : list ChatMessage) (system : jsstring)
  : outcome jsstring :=
  match fetch_openrouter (Message role_system system :: messages) with
  | Raises e => Raises e
  | Returns resp =>
      if negb (reply_ok resp) then Raises (openrouter_error resp)
      else
        match reply_text resp with
        | Raises e => Raises e
        | Returns (Some content) => Returns content
        | Returns None => Returns []
        end
  end.

(** The one text that [callGemini] sends. *)
Definition gemini_prompt (messages : list ChatMessage) (system : jsstring) : jsstring :=
  js "System instructions:" ++ [10] ++ system ++ [10; 10] ++ js "Conversation:" ++ [10]
  ++ join [10; 10] (map (fun m => role_upper (msg_role m) ++ js ": " ++ msg_content m) messages).

Definition callGemini (messages : list ChatMessage) (system : jsstring)
  : outcome jsstring :=
  match fetch_gemini (gemini_prompt messages system) with
  | Raises e => Raises e
  | Returns resp =>
      if negb (reply_ok resp) then Raises (gemini_error resp)
      else
        match reply_text resp with
        | Raises e => Raises e
        | Returns t =>
            let text := match t with Some text => text | None => [] end in
            if (length text =? 0)%nat && truthy_text (reply_finishReason resp) then
              Raises (js "Gemini response incomplete: "
                      ++ match reply_finishReason resp with Some r => r | None => [] end)
            else Returns text
        end
  end.

(** [maybeExecuteSQL(sql, limit)] *)
Definition maybeExecuteSQL (w : world) (sql : jsstring) (limit : Z)
  : world * QueryResult :=
  match executeSqlite alasql w sql (Some limit) with
  | (w', Returns r) => (w', r)
  | (w', Raises message) => (w', NotExecuted message)
  end.

(** The answer as [handleAgent] starts it: [{ ok: true, mode, provider }]. *)
Definition started (mode : AgentMode) (provider : Provider) : AgentResponse :=
  {| resp_ok := true; resp_mode := mode; resp_text := None; resp_sql := None;
     resp_fields := None; resp_rows := None; resp_notice := None;
     resp_provider := provider |}.

Definition with_text (t : jsstring) (r : AgentResponse) : AgentResponse :=
  {| resp_ok := resp_ok r; resp_mode := resp_mode r; resp_text := Some t;
     resp_sql := resp_sql r; resp_fields := resp_fields r; resp_rows := resp_rows r;
     resp_notice := resp_notice r; resp_provider := resp_provider r |}.

Definition with_sql (s : jsstring) (r : AgentResponse) : AgentResponse :=
  {| resp_ok := resp_ok r; resp_mode := resp_mode r; resp_text := resp_text r;
     resp_sql := Some s; resp_fields := resp_fields r; resp_rows := resp_rows r;
     resp_notice := resp_notice r; resp_provider := resp_provider r |}.

Definition with_result (fields : list jsstring) (rows : list row) (r : AgentResponse)
  : AgentResponse :=
  {| resp_ok := resp_ok r; resp_mode := resp_mode r; resp_text := resp_text r;
     resp_sql := resp_sql r; resp_fields := Some fields; resp_rows := Some rows;
     resp_notice := resp_notice r; resp_provider := resp_provider r |}.

Definition with_notice (n : jsstring) (r : AgentResponse) : AgentResponse :=
  {| resp_ok := resp_ok r; resp_mode := resp_mode r; resp_text := resp_text r;
     resp_sql := resp_sql r; resp_fields := resp_fields r; resp_rows := resp_rows r;
     resp_notice := Some n; resp_provider := resp_provider r |}.

(** The answer without a provider call and the answer of the [catch]
    block: [{ ok: false, mode, notice, provider }]. *)
Definition failed (mode : AgentMode) (provider : Provider) (notice : jsstring)
  : AgentResponse :=
  {| resp_ok := false; resp_mode := mode; resp_text := None; resp_sql := None;
     resp_fields := None; resp_rows := None; resp_notice := Some notice;
     resp_provider := provider |}.

(** The text of the last message, lowered and trimmed; empty when there is
    no message. *)
Definition userText (body : AgentRequest) : jsstring :=
  match req_messages body with
  | Some messages =>
      match last messages with
      | Some lastMessage => trim (toLowerCase (msg_content lastMessage))
      | None => []
      end
  | None => []
  end.

Definition is_greeting (userText : jsstring) : bool :=
  existsb (fun g => bool_decide (userText = g) || starts_with (g ++ js " ") userText)
          simpleGreetings.

(** What [handleAgent] does with the answer of the provider. *)
Definition answer (w : world) (body : AgentRequest) (mode : AgentMode)
    (provider : Provider) (limit : Z) (content : jsstring) : world * AgentResponse :=
  let response := started mode provider in
  let cleanSql := cleanSql content in
  match mode with
  | Sql =>
      let response :=
        with_sql (if truthy_text cleanSql
                  then match cleanSql with Some s => s | None => [] end
                  else trim content) response in
      let '(w, response) :=
        if match req_execute body with Some true => true | _ => false end
           && truthy_text cleanSql
        then
          match maybeExecuteSQL w (match cleanSql with Some s => s | None => [] end) limit with
          | (w, Executed rows fields) => (w, with_result fields rows response)
          | (w, NotExecuted error) =>
              (w, with_notice (js "Execution failed: " ++ error) response)
          end
        else (w, response) in
      if negb (match resp_rows response with Some _ => true | None => false end)
         && negb (truthy_text (resp_notice response))
      then (w, with_notice
                 (js "SQL generated. Execution disabled or no database configured.")
                 response)
      else (w, response)
  | Insights =>
      let response := with_text content response in
      if truthy_text cleanSql then
        let sql := match cleanSql with Some s => s | None => [] end in
        let response := with_sql sql response in
        match maybeExecuteSQL w sql limit with
        | (w, Executed rows fields) => (w, with_result fields rows response)
        | (w, NotExecuted error) =>
            (w, with_notice (js "SQL generated but execution failed: " ++ error) response)
        end
      else
        let fallbackSql := extractSql content in
        if truthy_text fallbackSql && negb (bool_decide (fallbackSql = cleanSql)) then
          let cleanedFallback :=
            clean_extracted (match fallbackSql with Some s => s | None => [] end) in
          if negb (length cleanedFallback =? 0)%nat && (10 <? length cleanedFallback)%nat then
            let response := with_sql cleanedFallback response in
            match maybeExecuteSQL w cleanedFallback limit with
            | (w, Executed rows fields) => (w, with_result fields rows response)
            | (w, NotExecuted _) => (w, response)
            end
          else (w, response)
        else (w, response)
  end.

(** [handleAgent] *)
Definition handleAgent (w : world) (body : AgentRequest) : AgentRun :=
  let mode := match req_mode body with Some m => m | None => Insights end in
  let limit := match req_limit body with Some l => l | None => 200%Z end in
  let provider := pickProvider env in
  if is_greeting (userText body) then
    Run w [] (with_text greeting_text (started mode provider))
  else
    match provider with
    | NoProvider =>
        Run w [] (failed mode provider
                    (js "No provider configured. Set OPENROUTER_API_KEY or GEMINI_API_KEY."))
    | _ =>
        let system :=
          systemBase ++ outputFormat ++ contextSchema
          ++ (if match mode with Sql => true | Insights => false end
                 && negb (match req_execute body with Some true => true | _ => false end)
              then sqlOnly else critical) in
        let messages := match req_messages body with Some ms => ms | None => [] end in
        let asked := [(provider, system)] in
        match (match provider with
               | OpenRouter => callOpenRouter messages system
               | _ => callGemini messages system
               end) with
        | Raises message => Run w asked (failed mode provider (user_message message))
        | Returns content =>
            let '(w, response) := answer w body mode provider limit content in
            Run w asked response
        end
    end.

End Agent.

End Routes.

(** ** The words of the specification *)

(** "After skipping leading SQL comments and whitespace, the statement
    begins with the keyword SELECT": the pattern of the SELECT gate, held at
    the start of the text. *)
Definition re_leading_select : regexp :=
  RegExp (Seq Bol (source re_select_gate)) true.

Definition begins_with_select (s : jsstring) : bool := test re_leading_select s.

(** [clamp(x, lo, hi)] *)
Definition clamp (x lo hi : Z) : Z :=
  if (x <? lo)%Z then lo else if (hi <? x)%Z then hi else x.

(** "The statement has a LIMIT clause (case-insensitive)", as a reader of
    the statement means it: the word LIMIT stands in the statement itself,
    not inside one of its quoted values.  [outside_quotes] is the text of a
    statement without what stands between two single quotes. *)
Fixpoint outside_quotes (quoted : bool) (s : jsstring) : jsstring :=
  match s with
  | [] => []
  | c :: s' =>
      if c =? 39 then outside_quotes (negb quoted) s'
      else if quoted then outside_quotes quoted s'
      else c :: outside_quotes quoted s'
  end.

Definition limit_clause (s : jsstring) : Prop :=
  contains_word (js "LIMIT") (outside_quotes false s).

(** The text holds, somewhere, the word LIMIT, in any case and not glued
    to a word character before it, then white space, then a digit: in a
    LIMIT clause, in a quoted value or in a comment alike. *)
Definition limit_text (s : jsstring) : Prop :=
  exists pre kw ws d post,
    s = pre ++ kw ++ ws ++ d :: post /\
    same_letters kw (js "limit") /\
    ws <> [] /\ forallb is_space ws = true /\ is_digit d = true /\
    match rev pre with [] => true | c :: _ => negb (is_word c) end = true.

(** "A non-empty string that parses fully as a finite number", and "that
    numeric value".  The texts are those of the grammar StringNumericLiteral
    of ECMA-262 (7.1.4.1.1), written out here; the value of a text is a
    sign and a magnitude, a real. *)

(** The value of a digit: its place among the sixteen digits. *)
Fixpoint place (c : N) (l : jsstring) : nat :=
  match l with
  | [] => 0
  | d :: l' => if c =? d then 0 else S (place c l')
  end.

Definition digit_of (c : N) : Z :=
  Z.of_nat (place (if is_upper c then c + 32 else c) (js "0123456789abcdef")).

(** The value of a sequence of digits in a base: each digit counts with
    the power of the base of its place. *)
Fixpoint positional (base : Z) (ds : jsstring) : Z :=
  match ds with
  | [] => 0
  | c :: ds' => digit_of c * base ^ Z.of_nat (length ds') + positional base ds'
  end.

(** ExponentPart, or nothing: [e] or [E], a sign or none, digits. *)
Definition exponent_text (t : jsstring) (ex : Z) : Prop :=
  (t = [] /\ ex = 0%Z) \/
  exists ind sg ds,
    t = ind :: sg ++ ds /\ (ind = 101 \/ ind = 69) /\
    ds <> [] /\ forallb is_digit ds = true /\
    (((sg = [] \/ sg = [43]) /\ ex = positional 10 ds) \/
     (sg = [45] /\ ex = (- positional 10 ds)%Z)).

(** StrUnsignedDecimalLiteral other than [Infinity]: digits, or digits with
    a dot among them, before it or after it, and possibly an exponent. *)
Definition decimal_text (t : jsstring) (x : Q) : Prop :=
  exists ip fp et ex,
    forallb is_digit ip = true /\ forallb is_digit fp = true /\
    (ip <> [] \/ fp <> []) /\
    ((t = ip ++ et /\ fp = []) \/ t = ip ++ [46] ++ fp ++ et) /\
    exponent_text et ex /\
    (x == inject_Z (positional 10 (ip ++ fp)) * 10 ^ (ex - Z.of_nat (length fp)))%Q.

(** NonDecimalIntegerLiteral: [0x], [0o] or [0b], in either case, and digits
    of that base. *)
Definition based_text (t : jsstring) (x : Q) : Prop :=
  exists p ds base,
    t = 48 :: p :: ds /\ ds <> [] /\
    (((p = 120 \/ p = 88) /\ base = 16%Z /\ forallb is_hex ds = true) \/
     ((p = 111 \/ p = 79) /\ base = 8%Z /\ forallb is_octal ds = true) \/
     ((p = 98 \/ p = 66) /\ base = 2%Z /\ forallb is_binary ds = true)) /\
    (x == inject_Z (positional base ds))%Q.

(** The text is, apart from white space around it, a numeric literal with
    the sign [negative] and the magnitude [x]. *)
Definition numeric_text (s : jsstring) (negative : bool) (x : Q) : Prop :=
  exists ws1 t ws2,
    s = ws1 ++ t ++ ws2 /\ forallb is_space ws1 = true /\ forallb is_space ws2 = true /\
    ((negative = false /\
      (decimal_text t x \/ based_text t x \/ exists u, t = 43 :: u /\ decimal_text u x)) \/
     (negative = true /\ exists u, t = 45 :: u /\ decimal_text u x)).

(** The doubles (IEEE 754 binary64) as pairs of a significand and an
    exponent: [m * 2^e] with [m] below [2^53] and [e] from -1074 on, [m] at
    least [2^52] unless [e] is the least exponent.  The largest exponent of
    a double is 971; the pair [(2^52, 972)], which is [2^1024], takes part in
    the rounding in the place of the infinity. *)
Definition binary64 (m e : Z) : Prop :=
  (0 <= m < 2 ^ 53)%Z /\ (-1074 <= e <= 972)%Z /\
  (2 ^ 52 <= m \/ e = -1074)%Z /\ (e = 972 -> m = 2 ^ 52)%Z.

Definition real_of (m e : Z) : Q := inject_Z m * 2 ^ e.

(** "The Number value for x" (ECMA-262, 6.1.6.1), for [0 <= x]: the double
    nearest to [x]; of two doubles that are equally near, the one with the
    even significand. *)
Definition nearest (x : Q) (m e : Z) : Prop :=
  binary64 m e /\
  forall m' e', binary64 m' e' ->
    (Qabs (x - real_of m e) <= Qabs (x - real_of m' e'))%Q /\
    ((Qabs (x - real_of m e) == Qabs (x - real_of m' e'))%Q ->
     ~ (real_of m' e' == real_of m e)%Q -> Z.even m = true).

(** The number for the sign [negative] and the magnitude [x]: the nearest
    double with that sign, an infinity when it is [2^1024], a zero of that
    sign when it is zero. *)
Definition number_for (negative : bool) (x : Q) (n : number) : Prop :=
  exists m e,
    nearest x m e /\
    n = if (e =? 972)%Z then Infinity negative
        else if (m =? 0)%Z then (if negative then NegZero else Finite 0)
        else Finite (Qred (if negative then (- real_of m e)%Q else real_of m e)).

(** The double that [to_double] computes, in units of [2^-1074]. *)
Definition double_units (x : Q) : Z :=
  let N := (Qnum x * 2 ^ 1074)%Z in
  let D := Z.pos (Qden x) in
  let k := Z.max (Z.log2 (N / D) - 52) 0 in
  if (2046 <=? k)%Z then (2 ^ 2098)%Z else (round_half_even N (D * 2 ^ k) * 2 ^ k)%Z.

(** What the claim on result shaping says of a cell [v] and the cell [v']
    returned for it: a text that is not empty and is a numeric literal
    comes back as the number for its value when that number is finite, and
    as it is when the number is an infinity; a text that is no numeric
    literal, and a value that is no text, come back as they are. *)
Definition coerced (v v' : value) : Prop :=
  match v with
  | VString s =>
      (forall negative x, numeric_text s negative x ->
         exists n, number_for negative x n /\
                   v' = if isFinite n then VNumber n else v) /\
      ((forall negative x, ~ numeric_text s negative x) -> v' = v)
  | _ => v' = v
  end.

(** A cell of the store as the claim wants it: a text or null. *)
Definition text_or_null (v : value) : Prop :=
  v = VNull \/ exists s, v = VString s.

(** Every cell of every row of the store is a text or null. *)
Definition text_cells (t : gmap jsstring table) : Prop :=
  forall name tb row, t !! name = Some tb -> row ∈ rows tb ->
    Forall (fun kv : jsstring * value => text_or_null (snd kv)) row.

(** The names of the tables that the store holds. *)
Definition ingested_tables (w : world) : list jsstring :=
  map fst (map_to_list (tables w)).

(** "A single identifier optionally followed by a bare AND/OR": an
    identifier, with or without its brackets, white space, possibly the word
    AND or OR, white space. *)
Definition dangling_condition (c : jsstring) : Prop :=
  exists lb ident rb ws1 conj ws2,
    c = lb ++ ident ++ rb ++ ws1 ++ conj ++ ws2 /\
    (lb = [] \/ lb = [91]) /\
    ident <> [] /\ forallb is_word ident = true /\
    (rb = [] \/ rb = [93]) /\
    forallb is_space ws1 = true /\
    (conj = [] \/ same_letters conj (js "AND") \/ same_letters conj (js "OR")) /\
    forallb is_space ws2 = true.

(** "A comparison and value present": the clause holds a character that is
    no word character, no white space and no bracket, as every comparison
    operator ([=], [<], [>], [!]) and every quote is. *)
Definition has_symbol (c : jsstring) : Prop :=
  exists ch, ch ∈ c /\ is_word ch = false /\ is_space ch = false /\ ch <> 91 /\ ch <> 93.

(** The word [w], in any case, stands at index [i] of the text [s]. *)
Definition word_at (w s : jsstring) (i : nat) : Prop :=
  same_letters (firstn (length w) (skipn i s)) w.

(** One of the boundaries of the WHERE body ([\bGROUP\s+BY], [\bORDER\s+BY],
    [\bLIMIT], the end of the text) matches at an index. *)
Definition boundary_at (p : index) : Prop := exists q, matches true where_boundary p q.

(** The end of the text after [SQL:]: a blank line or the end of the text. *)
Definition blank_or_end (rest : jsstring) : Prop :=
  rest = [] \/ exists rest', rest = 10 :: 10 :: rest'.

(** No white space at either end. *)
Definition trimmed (s : jsstring) : Prop :=
  match s with [] => True | c :: _ => is_space c = false end /\
  match rev s with [] => True | c :: _ => is_space c = false end.

(** None of the five patterns of [extractSql] matches in the text. *)
Definition no_pattern_matches (text : jsstring) : Prop :=
  ~ matches_in re_sql_prefix text /\ ~ matches_in re_code_sql text /\
  ~ matches_in re_code_plain text /\ ~ matches_in re_select_span text /\
  ~ matches_in re_select_rest text.

(** ** The ingestion, file by file *)

(** The table and the records with which the loop body of the ingestion
    goes on for a file, if it does: the file was read and parsed, holds a
    record, and the derived columns were computed. *)
Definition prepared (number_text : number -> jsstring) (f : file)
  : option (jsstring * record * list record) :=
  match file_records f with
  | None | Some [] => None
  | Some records =>
      let table := sanitizeName (basename_csv (file_name f)) in
      match derive number_text table records with
      | Raises _ | Returns [] => None
      | Returns (first :: rest) => Some (table, first, rest)
      end
  end.

(** The values that the INSERT of a record binds. *)
Definition values_of (number_text : number -> jsstring) (cols : list jsstring)
    (r : record) : list value :=
  map (fun c => cell number_text (prop r c)) cols.

(** A file has nothing left to do on the tables [t]: its table is there
    and holds a row, or the engine refuses the first record. *)
Definition settled (number_text : number -> jsstring)
    (insert_throws : jsstring -> list value -> bool)
    (f : file) (t : gmap jsstring table) : Prop :=
  match prepared number_text f with
  | None => True
  | Some (name, first, _) =>
      is_Some (t !! name) /\
      ((0 < row_count name t)%nat \/
       insert_throws name (values_of number_text (map fst first) first) = true)
  end.

(** ** Processes, engines and texts for the examples *)

(** A process whose data directory exists and is empty, and an engine that
    finds no rows. *)
Definition bare_world : world := World true [] ∅ [].

Definition no_rows : gmap jsstring table -> jsstring -> exec_outcome :=
  fun _ _ => Rows [].

(** An engine that accepts every INSERT, and no text for numbers (the
    parsed files hold none). *)
Definition accepts_all : jsstring -> list value -> bool := fun _ _ => false.

Definition no_number_text : number -> jsstring := fun _ => [].

(** A data directory with [a-b.csv] (one record) and [empty.csv] (none),
    and an engine that misses a table. *)
Definition hyphen_world : world :=
  World true
    [File (js "a-b.csv") (Some [[(js "id", VString (js "1"))]]);
     File (js "empty.csv") (Some [])]
    ∅ [].

Definition missing_table : gmap jsstring table -> jsstring -> exec_outcome :=
  fun _ _ => Throws (js "no such table: orders").

(** An engine that returns one row of three cells. *)
Definition priced_row : row :=
  [(js "price", VString (js "245.60")); (js "state", VString (js "SP"));
   (js "note", VNull)].

Definition one_row : gmap jsstring table -> jsstring -> exec_outcome :=
  fun _ _ => Rows [priced_row].

(** A record whose field [b] is the empty text, and the row that the INSERT
    loop stores for it; a data directory with [t.csv], which holds that
    record; a store with the empty table [t], columns [a] and [b]. *)
Definition empty_b_record : record :=
  [(js "a", VString (js "1")); (js "b", VString [])].

Definition empty_b_row : row :=
  [(js "a", VString (js "1")); (js "b", VString [])].

Definition empty_field_world : world :=
  World true [File (js "t.csv") (Some [empty_b_record])] ∅ [].

Definition table_t_world : world :=
  World true [] {[ js "t" := Table [js "a"; js "b"] [] ]} [].

(** A fenced code block that holds [SELECT 2]; a text with a [SQL:] line
    and the block, and one whose [SQL:] line is empty. *)
Definition fenced_block : jsstring :=
  js "```sql" ++ [10] ++ js "SELECT 2" ++ [10] ++ js "```".

Definition answer_with_both : jsstring :=
  js "Here:" ++ [10] ++ js "SQL:" ++ js " " ++ js "SELECT 1" ++ ([10; 10] ++ fenced_block).

Definition answer_with_empty_prefix : jsstring :=
  fenced_block ++ [10] ++ js "SQL:".

(** ** Words for the further properties *)

(** The tables [t'] hold what the tables [t] hold, and possibly more: every
    table of [t] is there with its columns, its rows first. *)
Definition extends (t t' : gmap jsstring table) : Prop :=
  forall name tb, t !! name = Some tb ->
    exists more, t' !! name = Some (Table (columns tb) (rows tb ++ more)).

(** A file that the ingestion can load: a CSV file that is read and parsed
    and holds a record. *)
Definition loadable (f : file) : bool :=
  is_csv f && match file_records f with Some (_ :: _) => true | _ => false end.

(** The process with other files in its data directory. *)
Definition with_files (fs : list file) (w : world) : world :=
  World (dir_exists w) fs (tables w) (forwarded w).

(** The characters that [/[^0-9.-]+/g] leaves: digits, dots and hyphens. *)
Definition numeric_char (c : N) : bool := is_digit c || (c =? 46) || (c =? 45).

(** The numeric characters of a text, in their order, or null when it has
    none. *)
Definition numeric_part (s : jsstring) : value :=
  let p := filter numeric_char s in
  if (length p =? 0)%nat then VNull else VString p.

(** The first word of a text: its first run of letters, digits and
    underscores. *)
Definition first_word (s : jsstring) : jsstring :=
  fst (span is_word (snd (span (fun c => negb (is_word c)) s))).

(** The error that [executeSqlite] returns for a column that the engine
    does not find, [name] the column that it names. *)
Definition column_error (name : jsstring) : jsstring :=
  js "Column " ++ [34] ++ name ++ [34] ++ js " not found. Common issues:" ++ [10]
  ++ js "- " ++ [34] ++ js "order_value" ++ [34]
  ++ js " doesn't exist - use payments.[payment_value] or SUM([order_items].[price] + [order_items].[freight_value])" ++ [10]
  ++ js "- Check that column names use square brackets: [column_name]" ++ [10]
  ++ js "- Verify the table schema matches your query".

(** A text inside a markdown fence with a language tag. *)
Definition fenced (lang body : jsstring) : jsstring :=
  js "```" ++ lang ++ [10] ++ body ++ [10] ++ js "```".


(** The names of the properties that every JavaScript object inherits.
    The engine keeps its tables, and the cells of a row, in plain objects
    under their names: it finds a table of such a name where there is none,
    and a statement on it throws. *)
Definition inherited_names : list jsstring :=
  map js ["constructor"%string; "__proto__"%string; "hasOwnProperty"%string;
          "isPrototypeOf"%string; "propertyIsEnumerable"%string;
          "toLocaleString"%string; "toString"%string; "valueOf"%string;
          "__defineGetter__"%string; "__defineSetter__"%string;
          "__lookupGetter__"%string; "__lookupSetter__"%string].

(** A name under which the engine keeps a table or a cell of its own: not
    empty, and none of the inherited names. *)
Definition plain_name (n : jsstring) : Prop := n <> [] /\ n ∉ inherited_names.

(** The provider that the environment chooses gives [o] for every call:
    the answer of the model, or an error. *)
Definition provider_gives (env : environment)
    (fetch_openrouter : list ChatMessage -> outcome reply)
    (fetch_gemini : jsstring -> outcome reply) (o : outcome jsstring) : Prop :=
  match pickProvider env with
  | OpenRouter => forall ms system, callOpenRouter fetch_openrouter ms system = o
  | Gemini => forall ms system, callGemini fetch_gemini ms system = o
  | NoProvider => False
  end.

(** [fetch] gives the reply [resp] for every request to the provider that
    the environment chooses. *)
Definition provider_replies (env : environment)
    (fetch_openrouter : list ChatMessage -> outcome reply)
    (fetch_gemini : jsstring -> outcome reply) (resp : reply) : Prop :=
  match pickProvider env with
  | OpenRouter => forall ms, fetch_openrouter ms = Returns resp
  | Gemini => forall t, fetch_gemini t = Returns resp
  | NoProvider => False
  end.

(** An environment with a key for Gemini only, a request whose only
    message is [text], and a model that answers [text] to everything. *)
Definition gemini_env : environment :=
  {| OPENROUTER_API_KEY := None; GEMINI_API_KEY := Some (js "key") |}.

Definition asking (text : jsstring) (mode : option AgentMode) : AgentRequest :=
  {| req_messages := Some [Message role_user text]; req_mode := mode;
     req_execute := None; req_limit := None |}.

Definition answering (text : jsstring) : reply :=
  {| reply_ok := true; reply_status := 200; reply_error_message := None;
     reply_message := None; reply_text := Returns (Some text);
     reply_finishReason := None |}.

Definition refusing (status : N) : reply :=
  {| reply_ok := false; reply_status := status; reply_error_message := None;
     reply_message := None; reply_text := Returns None;
     reply_finishReason := None |}.

(** * Theorems *)

(** The comparisons of code units, by cases. *)
Ltac compare_units :=
  repeat match goal with
         | |- context [(?a <=? ?b)] => destruct (N.leb_spec a b)
         | |- context [(?a =? ?b)] => destruct (N.eqb_spec a b)
         end; simpl; try done; try lia.

(** ** The matcher against what a pattern matches *)

Section Soundness.

Variable icase : bool.

Lemma at_index_clear gs x : at_index (clear gs x) = at_index x.
Proof. reflexivity. Qed.

Lemma at_index_set_cap n x y : at_index (set_cap n x y) = at_index y.
Proof. reflexivity. Qed.

Lemma progressed_spec x y :
  progressed x y = true <-> (length (snd (at_index y)) < length (snd (at_index x)))%nat.
Proof. unfold progressed. simpl. apply Nat.ltb_lt. Qed.

Lemma char_matcher_sound p x k z :
  char_matcher p x k = Some z ->
  exists y ch, snd (at_index x) = ch :: snd (at_index y)
            /\ fst (at_index y) = ch :: fst (at_index x)
            /\ p ch = true /\ k y = Some z.
Proof.
  unfold char_matcher, advance. destruct x as [b a c]; simpl.
  destruct a as [|ch a]; [discriminate|].
  destruct (p ch) eqn:E; [|discriminate].
  intros H. exists (MState (ch :: b) a c), ch. simpl. auto.
Qed.

Lemma repeat_loop_sound (R : index -> index -> Prop) (mr : matcher) :
  (forall x k z, mr x k = Some z ->
     exists y, R (at_index x) (at_index y) /\ k y = Some z) ->
  forall g n x k z, repeat_loop mr g k n x = Some z ->
    exists y, iterated R (at_index x) (at_index y) /\ k y = Some z.
Proof.
  intros Hmr g n. induction n as [|n IH]; intros x k z H; simpl in H.
  - exists x. split; [constructor | exact H].
  - assert (Hiter : forall z', mr x (fun y => if progressed x y
                 then repeat_loop mr g k n y else None) = Some z' ->
              exists y, iterated R (at_index x) (at_index y) /\ k y = Some z').
    { intros z' Hz. apply Hmr in Hz as (y & Hxy & Hy).
      destruct (progressed x y) eqn:Hp; [|discriminate].
      apply IH in Hy as (y' & Hyy' & Hk).
      exists y'. split; [|exact Hk].
      eapply iterated_step; eauto. by apply progressed_spec. }
    destruct g.
    + destruct (mr x _) eqn:E.
      * inversion H; subst. by apply Hiter.
      * exists x. split; [constructor | exact H].
    + destruct (k x) eqn:E.
      * inversion H; subst. exists x. split; [constructor | exact E].
      * by apply Hiter.
Qed.

Theorem m_sound r : forall x k z,
  m icase r x k = Some z ->
  exists y, matches icase r (at_index x) (at_index y) /\ k y = Some z.
Proof.
  induction r as [ | c | p | r1 IH1 r2 IH2 | r1 IH1 r2 IH2 | g r1 IH1 | g r1 IH1
                 | g r1 IH1 | n r1 IH1 | | | ]; intros x k z H; simpl in H.
  - exists x. simpl. eauto.
  - apply char_matcher_sound in H as (y & ch & ? & ? & ? & ?). exists y. simpl. eauto 10.
  - apply char_matcher_sound in H as (y & ch & ? & ? & ? & ?). exists y. simpl. eauto 10.
  - apply IH1 in H as (y & H1 & H). apply IH2 in H as (y' & H2 & H).
    exists y'. simpl. eauto.
  - destruct (m icase r1 x k) eqn:E.
    + inversion H; subst. apply IH1 in E as (y & ? & ?). exists y. simpl. eauto.
    + apply IH2 in H as (y & ? & ?). exists y. simpl. eauto.
  - unfold repeat in H.
    eapply (repeat_loop_sound (matches icase r1)) in H; [exact H|].
    intros x' k' z' H'. apply IH1 in H'. by rewrite at_index_clear in H'.
  - apply IH1 in H as (y & H1 & H). rewrite at_index_clear in H1.
    unfold repeat in H.
    eapply (repeat_loop_sound (matches icase r1)) in H.
    + destruct H as (y' & ? & ?). exists y'. simpl. eauto.
    + intros x' k' z' H'. apply IH1 in H'. by rewrite at_index_clear in H'.
  - assert (Hiter : forall z', m icase r1 (clear (groups r1) x)
                (fun y => if progressed x y then k y else None) = Some z' ->
              exists y, matches icase (Opt g r1) (at_index x) (at_index y) /\ k y = Some z').
    { intros z' Hz. apply IH1 in Hz as (y & Hxy & Hy).
      rewrite at_index_clear in Hxy.
      destruct (progressed x y) eqn:Hp; [|discriminate].
      exists y. split; [|exact Hy]. simpl. right. split; [exact Hxy|].
      by apply progressed_spec. }
    destruct g.
    + destruct (m icase r1 _ _) eqn:E.
      * inversion H; subst. by apply Hiter.
      * exists x. simpl. eauto.
    + destruct (k x) eqn:E.
      * inversion H; subst. exists x. simpl. eauto.
      * by apply Hiter.
  - apply IH1 in H as (y & H1 & H). exists (set_cap n x y). simpl. eauto.
  - destruct (before x) eqn:E; [|discriminate]. exists x. simpl. eauto.
  - destruct (after x) eqn:E; [|discriminate]. exists x. simpl. eauto.
  - destruct (xorb _ _) eqn:E; [|discriminate]. exists x. simpl. split; [|exact H].
    split; [reflexivity|]. exact E.
Qed.

(** Completeness *)

Lemma char_matcher_complete (p : N -> bool) x k ch b a :
  at_index x = (b, ch :: a) -> p ch = true ->
  (forall y, at_index y = (ch :: b, a) -> k y <> None) ->
  char_matcher p x k <> None.
Proof.
  intros Hx Hp Hk. unfold char_matcher, advance.
  destruct x as [b' a' c]. unfold at_index in Hx. simpl in *. inversion Hx; subst.
  rewrite Hp. apply Hk. reflexivity.
Qed.

Lemma repeat_loop_complete (R : index -> index -> Prop) (mr : matcher) :
  (forall p q, R p q -> forall x k, at_index x = p ->
     (forall y, at_index y = q -> k y <> None) -> mr x k <> None) ->
  forall g n p q, iterated R p q -> forall x k, at_index x = p ->
    (length (after x) <= n)%nat ->
    (forall y, at_index y = q -> k y <> None) ->
    repeat_loop mr g k n x <> None.
Proof.
  intros Hmr g n. induction n as [|n IH]; intros p q Hit x k Hx Hn Hk; simpl.
  - inversion Hit; subst.
    + by apply Hk.
    + simpl in *. lia.
  - inversion Hit as [|p' q' s' HR Hlt Hrest]; subst.
    + destruct g.
      * destruct (mr x _); [done|]. by apply Hk.
      * destruct (k x) eqn:E; [done|]. exfalso. by eapply Hk.
    + assert (Hiter : mr x (fun y => if progressed x y
                 then repeat_loop mr g k n y else None) <> None).
      { eapply Hmr; [exact HR | reflexivity |].
        intros y Hy.
        assert (Hp : progressed x y = true).
        { apply progressed_spec. rewrite Hy. exact Hlt. }
        rewrite Hp. eapply IH; [exact Hrest | exact Hy | | exact Hk].
        apply progressed_spec in Hp. simpl in Hp. lia. }
      destruct g.
      * destruct (mr x _); [done|]. done.
      * destruct (k x); [done|]. exact Hiter.
Qed.

Theorem m_complete r : forall p q, matches icase r p q ->
  forall x k, at_index x = p ->
    (forall y, at_index y = q -> k y <> None) ->
    m icase r x k <> None.
Proof.
  induction r as [ | c | f | r1 IH1 r2 IH2 | r1 IH1 r2 IH2 | g r1 IH1 | g r1 IH1
                 | g r1 IH1 | n r1 IH1 | | | ]; intros p q H x k Hx Hk; simpl in H |- *.
  - subst q. by apply Hk.
  - destruct H as (ch & Hs & Hf & Hc). destruct p as [b a], q as [b' a']. simpl in *. subst.
    eapply char_matcher_complete; eauto.
  - destruct H as (ch & Hs & Hf & Hc). destruct p as [b a], q as [b' a']. simpl in *. subst.
    eapply char_matcher_complete; eauto.
  - destruct H as (s & H1 & H2). eapply IH1; [exact H1 | exact Hx |].
    intros y Hy. eapply IH2; eauto.
  - destruct H as [H|H].
    + destruct (m icase r1 x k) eqn:E; [done|]. exfalso. revert E. eapply IH1; eauto.
    + destruct (m icase r1 x k) eqn:E; [done|]. eapply IH2; eauto.
  - unfold repeat.
    eapply (repeat_loop_complete (matches icase r1)); [|exact H|exact Hx|lia|exact Hk].
    intros p' q' HR x' k' Hx' Hk'. eapply IH1; eauto.
  - destruct H as (s & H1 & H2). eapply IH1; [exact H1 | by rewrite at_index_clear |].
    intros y Hy. unfold repeat.
    eapply (repeat_loop_complete (matches icase r1)); [|exact H2|exact Hy|lia|exact Hk].
    intros p' q' HR x' k' Hx' Hk'. eapply IH1; eauto.
  - assert (Hiter : matches icase r1 p q -> (length (snd q) < length (snd p))%nat ->
       m icase r1 (clear (groups r1) x)
         (fun y => if progressed x y then k y else None) <> None).
    { intros HR Hlt. eapply IH1; [exact HR | by rewrite at_index_clear |].
      intros y Hy.
      assert (Hp : progressed x y = true).
      { apply progressed_spec. rewrite Hy, Hx. exact Hlt. }
      rewrite Hp. by apply Hk. }
    destruct H as [-> | [HR Hlt]].
    + destruct g.
      * destruct (m icase r1 _ _); [done|]. by apply Hk.
      * destruct (k x) eqn:E; [done|]. exfalso. by eapply Hk.
    + destruct g.
      * destruct (m icase r1 _ _) eqn:E; [done|]. exfalso. by eapply Hiter.
      * destruct (k x); [done|]. by apply Hiter.
  - eapply IH1; eauto.
  - destruct H as [-> Hb]. unfold at_index in Hx. subst p. simpl in Hb. rewrite Hb. by apply Hk.
  - destruct H as [-> Hb]. unfold at_index in Hx. subst p. simpl in Hb. rewrite Hb. by apply Hk.
  - destruct H as [-> Hb]. unfold at_index in Hx. subst p. simpl in Hb.
    unfold word_before, word_after. rewrite Hb. by apply Hk.
Qed.

End Soundness.


(** The text between two indices of a match. *)
Lemma iterated_span (R : index -> index -> Prop) :
  (forall p q, R p q -> exists w, snd p = w ++ snd q /\ fst q = rev w ++ fst p) ->
  forall p q, iterated R p q -> exists w, snd p = w ++ snd q /\ fst q = rev w ++ fst p.
Proof.
  intros HR p q H. induction H as [p | p q s H1 _ _ IH].
  - by exists [].
  - apply HR in H1 as (w1 & Ha & Hb). destruct IH as (w2 & Hc & Hd).
    exists (w1 ++ w2). rewrite Ha, Hc, Hd, Hb, rev_app_distr, <- !app_assoc. done.
Qed.

Lemma matches_span icase r : forall p q,
  matches icase r p q -> exists w, snd p = w ++ snd q /\ fst q = rev w ++ fst p.
Proof.
  induction r as [ | c | f | r1 IH1 r2 IH2 | r1 IH1 r2 IH2 | g r1 IH1 | g r1 IH1
                 | g r1 IH1 | n r1 IH1 | | | ]; intros p q H; simpl in H.
  - subst. by exists [].
  - destruct H as (ch & -> & -> & _). by exists [ch].
  - destruct H as (ch & -> & -> & _). by exists [ch].
  - destruct H as (s & H1 & H2).
    apply IH1 in H1 as (w1 & Ha & Hb). apply IH2 in H2 as (w2 & Hc & Hd).
    exists (w1 ++ w2). rewrite Ha, Hc, Hd, Hb, rev_app_distr, <- !app_assoc. done.
  - destruct H as [H|H]; eauto.
  - eapply iterated_span; eauto.
  - destruct H as (s & H1 & H2).
    apply IH1 in H1 as (w1 & Ha & Hb).
    eapply iterated_span in H2 as (w2 & Hc & Hd); [|exact IH1].
    exists (w1 ++ w2). rewrite Ha, Hc, Hd, Hb, rev_app_distr, <- !app_assoc. done.
  - destruct H as [-> | [H _]]; [by exists [] | eauto].
  - eauto.
  - destruct H as [-> _]. by exists [].
  - destruct H as [-> _]. by exists [].
  - destruct H as [-> _]. by exists [].
Qed.

(** The search over the start indices. *)
Lemma m_some_iff icase r x :
  (exists y, m icase r x Some = Some y) <-> (exists q, matches icase r (at_index x) q).
Proof.
  split.
  - intros (y & H). apply m_sound in H as (y' & H & _). eauto.
  - intros (q & H). destruct (m icase r x Some) eqn:E; [eauto|].
    exfalso. revert E. eapply m_complete; eauto; done.
Qed.

Lemma scan_sound icase r : forall aft bef x y,
  scan icase r bef aft = Some (x, y) ->
  exists pre post,
    aft = pre ++ post /\ x = MState (rev pre ++ bef) post [] /\
    matches icase r (at_index x) (at_index y) /\
    (forall pre' post', aft = pre' ++ post' -> (length pre' < length pre)%nat ->
       forall q, ~ matches icase r (rev pre' ++ bef, post') q).
Proof.
  induction aft as [|c aft IH]; intros bef x y H; simpl in H.
  - destruct (m icase r _ Some) eqn:E; [|discriminate]. inversion H; subst.
    apply m_sound in E as (y' & Hm & Hy). inversion Hy; subst.
    exists [], []. repeat split; [exact Hm|]. simpl. intros; lia.
  - destruct (m icase r _ Some) eqn:E.
    + inversion H; subst.
      apply m_sound in E as (y' & Hm & Hy). inversion Hy; subst.
      exists [], (c :: aft). repeat split; [exact Hm|]. simpl. intros; lia.
    + apply IH in H as (pre & post & -> & -> & Hm & Hleft).
      exists (c :: pre), post. simpl. rewrite <- app_assoc. repeat split; [exact Hm|].
      intros pre' post' Heq Hlt q Hq. destruct pre' as [|c' pre'].
      * simpl in *. subst post'.
        assert (exists y, m icase r (MState bef (c :: pre ++ post) []) Some = Some y) as [y' Hy'].
        { apply m_some_iff. eauto. }
        congruence.
      * simpl in *. inversion Heq; subst.
        eapply (Hleft pre' post'); [done | lia |].
        rewrite <- app_assoc in Hq. exact Hq.
Qed.

Lemma scan_complete icase r : forall aft bef pre post q,
  aft = pre ++ post -> matches icase r (rev pre ++ bef, post) q ->
  scan icase r bef aft <> None.
Proof.
  induction aft as [|c aft IH]; intros bef pre post q Heq Hm; simpl.
  - destruct pre; [|discriminate]. simpl in *. subst post.
    destruct (m icase r _ Some) eqn:E; [done|].
    exfalso. revert E. eapply m_complete; eauto; done.
  - destruct (m icase r _ Some) eqn:E; [done|].
    destruct pre as [|c' pre].
    + simpl in *. subst post. exfalso. revert E. eapply m_complete; eauto; done.
    + simpl in *. inversion Heq; subst. eapply (IH _ pre post q); [done|].
      rewrite <- app_assoc in Hm. exact Hm.
Qed.

Theorem test_spec re s : test re s = true <-> matches_in re s.
Proof.
  unfold test, exec, matches_in. split.
  - destruct (scan _ _ _ _) as [[x y]|] eqn:E; [|discriminate]. intros _.
    apply scan_sound in E as (pre & post & -> & -> & Hm & _).
    exists pre, post, (at_index y). rewrite app_nil_r in Hm. done.
  - intros (pre & post & q & -> & Hm).
    destruct (scan _ _ _ _) as [[x y]|] eqn:E; [done|].
    exfalso. revert E. eapply scan_complete; [done|]. rewrite app_nil_r. exact Hm.
Qed.

Corollary test_false re s : test re s = false <-> ~ matches_in re s.
Proof. rewrite <- test_spec. destruct (test re s); split; congruence. Qed.

Lemma replace_no_match re t s : test re s = false -> replace re t s = s.
Proof. unfold test, replace. by destruct (exec re s) as [[x y]|]. Qed.

(** Literal words. *)
Lemma matches_word icase w : forall p q,
  matches icase (word w) p q ->
  exists mid, snd p = mid ++ snd q /\ fst q = rev mid ++ fst p /\
              Forall2 (fun c ch => lit_eq icase c ch = true) w mid.
Proof.
  induction w as [|c w IH]; intros p q H.
  - simpl in H. subst. exists []. by repeat split.
  - destruct w as [|c' w].
    + simpl in H. destruct H as (ch & -> & -> & Hc). exists [ch]. repeat split. by repeat constructor.
    + change (word (c :: c' :: w)) with (Seq (Lit c) (word (c' :: w))) in H.
      simpl in H. destruct H as (s & (ch & Hs & Hf & Hc) & H2).
      apply IH in H2 as (mid & Ha & Hb & Hall).
      exists (ch :: mid). simpl. rewrite Hs, Ha, Hb, Hf, <- app_assoc. repeat split.
      by constructor.
Qed.

Lemma word_matches icase w : forall mid b a,
  Forall2 (fun c ch => lit_eq icase c ch = true) w mid ->
  matches icase (word w) (b, mid ++ a) (rev mid ++ b, a).
Proof.
  induction w as [|c w IH]; intros mid b a H.
  - inversion H; subst. reflexivity.
  - inversion H as [|? ch ? mid' Hc Hrest]; subst. destruct w as [|c' w].
    + inversion Hrest; subst. simpl. exists ch. done.
    + change (word (c :: c' :: w)) with (Seq (Lit c) (word (c' :: w))).
      simpl. exists (ch :: b, mid' ++ a). split; [exists ch; done|].
      specialize (IH mid' (ch :: b) a Hrest). rewrite <- app_assoc. exact IH.
Qed.

Lemma lit_eq_letters w mid :
  Forall2 (fun c ch => lit_eq true c ch = true) w mid <-> same_letters mid w.
Proof.
  unfold same_letters, lit_eq. split.
  - induction 1 as [|c ch w mid Hc _ IH]; [done|]. simpl.
    apply N.eqb_eq in Hc. by rewrite Hc, IH.
  - revert mid. induction w as [|c w IH]; intros [|ch mid] H; try done.
    simpl in H. inversion H. constructor; [by apply N.eqb_eq | by apply IH].
Qed.

(** ** The SELECT gate *)

Lemma select_gate_spec s :
  test re_select_gate s = true <-> contains_word (js "SELECT") s.
Proof.
  rewrite test_spec. unfold matches_in, contains_word. split.
  - intros (pre & post & q & -> & s0 & Hstar & Hword).
    apply matches_span in Hstar as (w & Hw & _).
    apply matches_word in Hword as (mid & Hmid & _ & Hall).
    apply lit_eq_letters in Hall. simpl in Hw, Hmid.
    exists (pre ++ w), mid, (snd q). split; [|exact Hall].
    rewrite Hw, Hmid, <- !app_assoc. reflexivity.
  - intros (pre & mid & post & -> & Hmid).
    exists pre, (mid ++ post), (rev mid ++ rev pre, post). split; [reflexivity|].
    exists (rev pre, mid ++ post). split; [constructor|].
    apply word_matches. by apply lit_eq_letters.
Qed.

Lemma select_spec s :
  test re_select s = true <-> contains_word (js "SELECT") s.
Proof.
  rewrite test_spec. unfold matches_in, contains_word. split.
  - intros (pre & post & q & -> & Hword).
    apply matches_word in Hword as (mid & Hmid & _ & Hall).
    apply lit_eq_letters in Hall. simpl in Hmid.
    exists pre, mid, (snd q). split; [|exact Hall]. by rewrite Hmid.
  - intros (pre & mid & post & -> & Hmid).
    exists pre, (mid ++ post), (rev mid ++ rev pre, post). split; [reflexivity|].
    apply word_matches. by apply lit_eq_letters.
Qed.

Lemma no_select_gate s :
  ~ contains_word (js "SELECT") s <-> test re_select_gate s = false.
Proof.
  rewrite <- select_gate_spec. destruct (test re_select_gate s); split; congruence.
Qed.

(** ** [executeSqlite]: the rejections *)

(** C7. When the data directory does not exist, [executeSqlite] returns,
    for every input, the failure result whose error names the missing data
    directory; it raises nothing and hands nothing to the engine. *)
Theorem executeSqlite_without_data_directory alasql w sql limit :
  dir_exists w = false ->
  executeSqlite alasql w sql limit =
    (w, Returns (NotExecuted
       (js "Local data directory not found. Add CSV files into /data and restart."))).
Proof. intros H. unfold executeSqlite. by rewrite H. Qed.

Lemma executeSqlite_without_data_directory_witness :
  executeSqlite no_rows (World false [] ∅ []) (js "SELECT 1") None =
    (World false [] ∅ [], Returns (NotExecuted
       (js "Local data directory not found. Add CSV files into /data and restart."))).
Proof. apply executeSqlite_without_data_directory. reflexivity. Defined.

Lemma sanitize_without_select sql limit :
  ~ contains_word (js "SELECT") (clean sql) ->
  sanitize sql limit =
    Rejected (if (length (clean sql) <? 10)%nat
              then js "SQL query appears to be empty or too short."
              else js "Only SELECT queries are allowed for security reasons. Query must start with SELECT. Got: "
                   ++ substring_to 50 (clean sql) ++ js "...").
Proof.
  intros H. apply no_select_gate in H. unfold sanitize. rewrite H. simpl.
  by destruct (length (clean sql) <? 10)%nat.
Qed.

Lemma executeSqlite_rejected alasql w sql limit error :
  dir_exists w = true ->
  sanitize sql (match limit with Some l => l | None => 200%Z end) = Rejected error ->
  executeSqlite alasql w sql limit = (w, Returns (NotExecuted error)).
Proof.
  intros Hd Hs. unfold executeSqlite, try_block. rewrite Hd, Hs. reflexivity.
Qed.

(** C10. A cleaned text without any SELECT and shorter than 10 characters
    is answered with [executed = false] and the error "SQL query appears to
    be empty or too short."; nothing reaches the engine, and the error is
    not the one that a longer text without SELECT gets. *)
Theorem short_text_without_select alasql w sql limit :
  dir_exists w = true ->
  ~ contains_word (js "SELECT") (clean sql) ->
  (length (clean sql) < 10)%nat ->
  executeSqlite alasql w sql limit =
    (w, Returns (NotExecuted (js "SQL query appears to be empty or too short."))) /\
  forall text,
    js "SQL query appears to be empty or too short." <>
    js "Only SELECT queries are allowed for security reasons. Query must start with SELECT. Got: "
    ++ substring_to 50 text ++ js "...".
Proof.
  intros Hd Hs Hlen. split.
  - apply executeSqlite_rejected; [exact Hd|].
    rewrite sanitize_without_select by exact Hs.
    apply Nat.ltb_lt in Hlen. by rewrite Hlen.
  - intros text. discriminate.
Qed.

Lemma short_text_without_select_witness :
  executeSqlite no_rows bare_world (js "DROP x") None =
    (bare_world, Returns (NotExecuted (js "SQL query appears to be empty or too short."))) /\
  forall text,
    js "SQL query appears to be empty or too short." <>
    js "Only SELECT queries are allowed for security reasons. Query must start with SELECT. Got: "
    ++ substring_to 50 text ++ js "...".
Proof.
  apply short_text_without_select.
  - reflexivity.
  - apply no_select_gate. vm_compute. reflexivity.
  - vm_compute. lia.
Defined.

(** C1, as the code has it. A cleaned text that holds no SELECT at all is
    rejected and nothing is handed to the engine; the error reports the
    first 50 characters of the cleaned text when it has 10 characters or
    more, and is the fixed "empty or too short" error otherwise. *)
Theorem text_without_select_rejected alasql w sql limit :
  dir_exists w = true ->
  ~ contains_word (js "SELECT") (clean sql) ->
  executeSqlite alasql w sql limit =
    (w, Returns (NotExecuted
       (if (length (clean sql) <? 10)%nat
        then js "SQL query appears to be empty or too short."
        else js "Only SELECT queries are allowed for security reasons. Query must start with SELECT. Got: "
             ++ substring_to 50 (clean sql) ++ js "..."))).
Proof.
  intros Hd Hs. apply executeSqlite_rejected; [exact Hd|].
  by apply sanitize_without_select.
Qed.

Lemma text_without_select_rejected_witness :
  executeSqlite no_rows bare_world (js "DROP TABLE x") None =
    (bare_world, Returns (NotExecuted
       (js "Only SELECT queries are allowed for security reasons. Query must start with SELECT. Got: DROP TABLE x..."))).
Proof.
  apply (text_without_select_rejected no_rows bare_world (js "DROP TABLE x") None).
  - reflexivity.
  - apply no_select_gate. vm_compute. reflexivity.
Defined.

(** C1, as the claim states it, fails on a short text: "DROP x" does not
    begin with SELECT and is rejected, but the error is the fixed "empty or
    too short" one, which reports no part of the text. *)
Lemma short_rejection_reports_no_text :
  begins_with_select (clean (js "DROP x")) = false /\
  exists error,
    executeSqlite no_rows bare_world (js "DROP x") None
      = (bare_world, Returns (NotExecuted error)) /\
    error = js "SQL query appears to be empty or too short." /\
    includes error (substring_to 50 (clean (js "DROP x"))) = false.
Proof.
  split; [vm_compute; reflexivity|].
  eexists. split; [vm_compute; reflexivity|].
  split; vm_compute; reflexivity.
Qed.

(** The gate is not held at the start of the text: a text that holds a
    SELECT anywhere passes it, and the text from that SELECT on is what
    reaches the engine. *)
Lemma select_after_other_statement :
  begins_with_select (clean (js "DROP TABLE x; SELECT 1")) = false /\
  executeSqlite no_rows bare_world (js "DROP TABLE x; SELECT 1") None
    = (World true [] ∅ [js "SELECT 1 LIMIT 200"], Returns (Executed [] [])).
Proof. split; vm_compute; reflexivity. Qed.

(** ** [executeSqlite]: the engine's answer *)

Lemma executeSqlite_accepted alasql w sql limit st :
  dir_exists w = true ->
  sanitize sql (match limit with Some l => l | None => 200%Z end) = Accepted st ->
  executeSqlite alasql w sql limit =
    (logged st w,
     match shape (alasql (tables w) st) with
     | Returns r => Returns r
     | Raises message => Returns (NotExecuted (describe_error w message))
     end).
Proof.
  intros Hd Hs. unfold executeSqlite.
  replace (negb (dir_exists w)) with false by (by rewrite Hd).
  unfold try_block. rewrite Hs. by destruct (shape _).
Qed.

(** [executeSqlite] returns a result for every input: no exception leaves
    it. *)
Lemma executeSqlite_returns alasql w sql limit :
  exists w' r, executeSqlite alasql w sql limit = (w', Returns r).
Proof.
  unfold executeSqlite. destruct (negb (dir_exists w)); [eauto|].
  destruct (try_block _ _ _ _) as [w' [r|e]]; eauto.
Qed.

(** C8, as the code has it. An error raised by the engine on the statement
    handed to it is caught and returned as a failure result; when its
    message holds "no such table", the error returned lists the base names
    of the CSV files that the data directory holds at that moment. *)
Theorem engine_error_returned alasql w sql limit st message :
  dir_exists w = true ->
  sanitize sql (match limit with Some l => l | None => 200%Z end) = Accepted st ->
  alasql (tables w) st = Throws message ->
  executeSqlite alasql w sql limit
    = (logged st w, Returns (NotExecuted (describe_error w message))) /\
  (includes message (js "no such table") = true ->
   describe_error w message
     = js "Table not found. Available tables: " ++ join (js ", ") (map fst (listCsvFiles w))).
Proof.
  intros Hd Hs He. split.
  - rewrite (executeSqlite_accepted _ _ _ _ st Hd Hs), He. reflexivity.
  - intros Hi. unfold describe_error.
    destruct message as [|c message]; [simpl in Hi; discriminate|].
    change (length (c :: message) =? 0)%nat with false. cbv iota.
    rewrite Hi. reflexivity.
Qed.

Lemma engine_error_returned_witness :
  executeSqlite missing_table bare_world (js "SELECT * FROM orders") None
    = (logged (js "SELECT * FROM orders LIMIT 200") bare_world,
       Returns (NotExecuted (describe_error bare_world (js "no such table: orders")))) /\
  (includes (js "no such table: orders") (js "no such table") = true ->
   describe_error bare_world (js "no such table: orders")
     = js "Table not found. Available tables: " ++ join (js ", ") (map fst (listCsvFiles bare_world))).
Proof.
  apply (engine_error_returned missing_table bare_world (js "SELECT * FROM orders") None).
  - reflexivity.
  - vm_compute. reflexivity.
  - reflexivity.
Defined.

(** C8, as the claim states it, fails: after the ingestion of [a-b.csv]
    and the empty [empty.csv] the store holds the one table [a_b], and the
    error for a missing table lists [a-b] and [empty]. *)
Lemma listed_names_are_not_the_tables :
  let w := initSqliteFromCsvs no_number_text accepts_all hyphen_world in
  ingested_tables w = [js "a_b"] /\
  snd (executeSqlite missing_table w (js "SELECT * FROM orders") None)
    = Returns (NotExecuted (js "Table not found. Available tables: a-b, empty")) /\
  js "Table not found. Available tables: a-b, empty"
    <> js "Table not found. Available tables: " ++ join (js ", ") (ingested_tables w).
Proof.
  split; [vm_compute; reflexivity|].
  split; [vm_compute; reflexivity|].
  vm_compute. discriminate.
Qed.



(** ** The ingestion *)

Section IngestFacts.

Variable number_text : number -> jsstring.
Variable insert_throws : jsstring -> list value -> bool.

Lemma tables_logged sql w : tables (logged sql w) = tables w.
Proof. reflexivity. Qed.

Lemma tables_with_tables t w : tables (with_tables t w) = t.
Proof. reflexivity. Qed.

Lemma row_count_add_row name r t name' :
  row_count name' (add_row name r t) =
    if decide (name = name') then
      match t !! name with Some _ => S (row_count name' t) | None => row_count name' t end
    else row_count name' t.
Proof.
  unfold add_row, row_count. destruct (t !! name) as [tb|] eqn:E.
  - rewrite lookup_insert. destruct (decide (name = name')) as [<-|Hne].
    + rewrite E. simpl. rewrite length_app. simpl. lia.
    + reflexivity.
  - by destruct (decide (name = name')).
Qed.

Lemma lookup_add_row_is_Some name r t name' :
  is_Some (add_row name r t !! name') <-> is_Some (t !! name').
Proof.
  unfold add_row. destruct (t !! name) as [tb|] eqn:E; [|done].
  rewrite lookup_insert. destruct (decide (name = name')) as [<-|Hne]; [|done].
  rewrite E. split; eauto.
Qed.

Lemma lookup_create_table_is_Some name cols t name' :
  is_Some (t !! name') -> is_Some (create_table name cols t !! name').
Proof.
  unfold create_table. destruct (t !! name) as [tb|] eqn:E; [done|].
  rewrite lookup_insert. destruct (decide (name = name')) as [<-|Hne]; eauto.
Qed.

Lemma create_table_created name cols t : is_Some (create_table name cols t !! name).
Proof.
  unfold create_table. destruct (t !! name) as [tb|] eqn:E; [by rewrite E|].
  rewrite lookup_insert_eq. eauto.
Qed.

Lemma row_count_create_table name cols t name' :
  row_count name' (create_table name cols t) = row_count name' t.
Proof.
  unfold create_table, row_count. destruct (t !! name) as [tb|] eqn:E; [done|].
  rewrite lookup_insert. destruct (decide (name = name')) as [<-|Hne]; [|done].
  by rewrite E.
Qed.

Lemma create_table_existing name cols t :
  is_Some (t !! name) -> create_table name cols t = t.
Proof. unfold create_table. by intros [tb ->]. Qed.

(** The INSERT loop keeps the tables and their rows, and adds rows. *)
Lemma inserts_grow name cols records : forall w name',
  (is_Some (tables w !! name') -> is_Some (tables (insert_records number_text insert_throws name cols records w) !! name')) /\
  (row_count name' (tables w) <= row_count name' (tables (insert_records number_text insert_throws name cols records w)))%nat.
Proof.
  induction records as [|r rest IH]; intros w name'; simpl; [done|].
  destruct (insert_throws _ _); [done|].
  match goal with |- context [(insert_records number_text insert_throws) _ _ _ ?w'] => destruct (IH w' name') as [IH1 IH2] end.
  simpl in IH1, IH2. split.
  - intros H. apply IH1. by apply lookup_add_row_is_Some.
  - etrans; [|exact IH2]. rewrite row_count_add_row.
    destruct (decide _); [destruct (tables w !! name)|]; lia.
Qed.

(** The first record decides whether the loop changes anything. *)
Lemma inserts_first name cols r rest w :
  is_Some (tables w !! name) ->
  if insert_throws name (values_of number_text cols r)
  then tables (insert_records number_text insert_throws name cols (r :: rest) w) = tables w
  else (0 < row_count name (tables (insert_records number_text insert_throws name cols (r :: rest) w)))%nat.
Proof.
  intros [tb Htb]. simpl. fold (values_of number_text cols r).
  destruct (insert_throws _ _); [done|].
  match goal with |- context [(insert_records number_text insert_throws) _ _ _ ?w'] =>
    destruct (inserts_grow name cols rest w' name) as [_ H] end.
  simpl in H. eapply Nat.lt_le_trans; [|exact H].
  rewrite row_count_add_row, decide_True by done. rewrite Htb. lia.
Qed.

Lemma ingest_prepared w f :
  (ingest_file number_text insert_throws) w f =
    match prepared number_text f with
    | None => w
    | Some (name, first, rest) =>
        let cols := map fst first in
        let w := logged (createSql name cols) w in
        let w := with_tables (create_table name (map sanitizeName cols) (tables w)) w in
        let w := logged (countSql name) w in
        if (0 <? row_count name (tables w))%nat then w
        else (insert_records number_text insert_throws) name cols (first :: rest) w
    end.
Proof.
  unfold ingest_file, prepared. destruct (file_records f) as [[|r rs]|]; try done.
  destruct (derive _ _ _) as [[|first rest]|]; done.
Qed.

Lemma ingest_grows w f name :
  (is_Some (tables w !! name) -> is_Some (tables (ingest_file number_text insert_throws w f) !! name)) /\
  (row_count name (tables w) <= row_count name (tables (ingest_file number_text insert_throws w f)))%nat.
Proof.
  rewrite ingest_prepared. destruct (prepared _ _) as [[[t first] rest]|]; [|done].
  cbv zeta. rewrite !tables_logged, !tables_with_tables.
  set (w1 := logged (countSql t) _).
  assert (Hw1 : tables w1 = create_table t (map sanitizeName (map fst first)) (tables w)) by done.
  destruct (0 <? _)%nat eqn:E.
  - rewrite Hw1. split; [apply lookup_create_table_is_Some | by rewrite row_count_create_table].
  - destruct (inserts_grow t (map fst first) (first :: rest) w1 name) as [H1 H2].
    rewrite Hw1 in H1, H2. split.
    + intros H. by apply H1, lookup_create_table_is_Some.
    + by rewrite row_count_create_table in H2.
Qed.

Lemma settled_ingest_id w f :
  settled number_text insert_throws f (tables w) -> tables (ingest_file number_text insert_throws w f) = tables w.
Proof.
  unfold settled. rewrite ingest_prepared.
  destruct (prepared _ _) as [[[t first] rest]|]; [|done].
  intros [Hsome Hor]. cbv zeta. rewrite !tables_logged, !tables_with_tables.
  set (w1 := logged (countSql t) _).
  assert (Hw1 : tables w1 = tables w).
  { unfold w1. rewrite ?tables_logged, ?tables_with_tables.
    by apply create_table_existing. }
  rewrite (create_table_existing _ _ _ Hsome).
  destruct (0 <? _)%nat eqn:E; [done|].
  destruct Hor as [Hpos | Hthrows].
  - apply Nat.ltb_ge in E. lia.
  - pose proof (inserts_first t (map fst first) first rest w1) as H.
    rewrite Hw1 in H. specialize (H Hsome). by rewrite Hthrows in H.
Qed.

Lemma ingest_settles w f : settled number_text insert_throws f (tables (ingest_file number_text insert_throws w f)).
Proof.
  unfold settled. rewrite ingest_prepared.
  destruct (prepared _ _) as [[[t first] rest]|]; [|done].
  cbv zeta. rewrite !tables_logged, !tables_with_tables.
  set (w1 := logged (countSql t) _).
  assert (Hw1 : tables w1 = create_table t (map sanitizeName (map fst first)) (tables w)) by done.
  pose proof (create_table_created t (map sanitizeName (map fst first)) (tables w)) as Hsome.
  destruct (0 <? _)%nat eqn:E.
  - rewrite Hw1. split; [done|]. left. by apply Nat.ltb_lt.
  - pose proof (inserts_first t (map fst first) first rest w1) as H.
    destruct (inserts_grow t (map fst first) (first :: rest) w1 t) as [H1 _].
    rewrite Hw1 in H, H1. specialize (H Hsome). split; [by apply H1|].
    destruct (insert_throws _ _) eqn:Et; [by right | by left].
Qed.

Lemma settled_preserved w f g :
  settled number_text insert_throws f (tables w) ->
  settled number_text insert_throws f (tables (ingest_file number_text insert_throws w g)).
Proof.
  unfold settled. destruct (prepared _ f) as [[[t first] rest]|]; [|done].
  intros [Hsome Hor]. destruct (ingest_grows w g t) as [H1 H2].
  split; [by apply H1|]. destruct Hor as [Hpos|Hthrows]; [left; lia | by right].
Qed.

Lemma fold_settles fs : forall w f,
  f ∈ fs -> settled number_text insert_throws f (tables (fold_left (ingest_file number_text insert_throws) fs w)).
Proof.
  induction fs as [|g fs IH]; intros w f Hin; [by apply elem_of_nil in Hin|].
  simpl. apply elem_of_cons in Hin as [->|Hin]; [|by apply IH].
  clear IH. generalize (ingest_settles w g). generalize (ingest_file number_text insert_throws w g). clear w.
  induction fs as [|h fs IH]; intros w Hs; [done|]. simpl. apply IH.
  by apply settled_preserved.
Qed.

Lemma fold_settled_id fs : forall w,
  (forall f, f ∈ fs -> settled number_text insert_throws f (tables w)) ->
  tables (fold_left (ingest_file number_text insert_throws) fs w) = tables w.
Proof.
  induction fs as [|g fs IH]; intros w Hall; [done|]. simpl.
  assert (Hg : tables (ingest_file number_text insert_throws w g) = tables w).
  { apply settled_ingest_id, Hall. by left. }
  rewrite IH; [exact Hg|]. intros f Hf. rewrite Hg. apply Hall. by right.
Qed.

Lemma fold_keeps_directory fs : forall w,
  dir_exists (fold_left (ingest_file number_text insert_throws) fs w) = dir_exists w /\
  dir_files (fold_left (ingest_file number_text insert_throws) fs w) = dir_files w.
Proof.
  assert (Hins : forall name cols records w,
            dir_exists (insert_records number_text insert_throws name cols records w) = dir_exists w /\
            dir_files (insert_records number_text insert_throws name cols records w) = dir_files w).
  { intros name cols records. induction records as [|r rest IH]; intros w; simpl; [done|].
    destruct (insert_throws _ _); [done|]. by rewrite (proj1 (IH _)), (proj2 (IH _)). }
  induction fs as [|g fs IH]; intros w; [done|]. simpl.
  rewrite (proj1 (IH _)), (proj2 (IH _)), ingest_prepared.
  destruct (prepared _ _) as [[[t first] rest]|]; [|done].
  cbv zeta. destruct (0 <? _)%nat; [done|].
  by rewrite (proj1 (Hins _ _ _ _)), (proj2 (Hins _ _ _ _)).
Qed.

Theorem ingestion_twice_tables w :
  tables (initSqliteFromCsvs number_text insert_throws
            (initSqliteFromCsvs number_text insert_throws w))
  = tables (initSqliteFromCsvs number_text insert_throws w).
Proof.
  unfold initSqliteFromCsvs at 1.
  set (once := initSqliteFromCsvs number_text insert_throws w).
  assert (Hdir : dir_exists once = true /\
                 (forall f, f ∈ filter is_csv (dir_files once) ->
                    settled number_text insert_throws f (tables once))).
  { unfold once, initSqliteFromCsvs. destruct (dir_exists w) eqn:Hd.
    - destruct (fold_keeps_directory (filter is_csv (dir_files w)) w) as [H1 H2].
      rewrite H1, H2. split; [done|]. intros f Hf. by apply fold_settles.
    - simpl. split; [done|]. intros f Hf. by apply elem_of_nil in Hf. }
  destruct Hdir as [Hd Hall]. rewrite Hd. by apply fold_settled_id.
Qed.

Lemma prepared_name f name first rest :
  prepared number_text f = Some (name, first, rest) ->
  name = sanitizeName (basename_csv (file_name f)).
Proof.
  unfold prepared. destruct (file_records f) as [[|r rs]|]; try done.
  destruct (derive _ _ _) as [[|first' rest']|]; try done. by intros [= <- _ _].
Qed.

(** C2. Running the ingestion a second time on the same files leaves every
    table with the row count it had after the first run; and for a table
    that holds a row, the loop body for a file of that table name changes no
    table and hands no INSERT to the engine. *)
Theorem ingestion_idempotent w :
  (forall name,
     row_count name (tables (initSqliteFromCsvs number_text insert_throws
                               (initSqliteFromCsvs number_text insert_throws w)))
     = row_count name (tables (initSqliteFromCsvs number_text insert_throws w))) /\
  (forall w' f,
     (0 < row_count (sanitizeName (basename_csv (file_name f))) (tables w'))%nat ->
     tables (ingest_file number_text insert_throws w' f) = tables w' /\
     exists log, forwarded (ingest_file number_text insert_throws w' f) = forwarded w' ++ log /\
                 Forall (fun sql => starts_with (js "INSERT") sql = false) log).
Proof.
  split; [intros name; by rewrite ingestion_twice_tables|].
  intros w' f Hpos. rewrite ingest_prepared.
  destruct (prepared _ _) as [[[t first] rest]|] eqn:Hp.
  - apply prepared_name in Hp as ->. set (t := sanitizeName _) in *. cbv zeta.
    rewrite !tables_logged, !tables_with_tables.
    assert (Hsome : is_Some (tables w' !! t)).
    { unfold row_count in Hpos. destruct (tables w' !! t); [eauto | lia]. }
    rewrite (create_table_existing _ _ _ Hsome).
    apply Nat.ltb_lt in Hpos. rewrite Hpos. split; [done|].
    exists [createSql t (map fst first); countSql t]. split.
    + simpl. by rewrite <- app_assoc.
    + repeat constructor.
  - split; [done|]. exists []. split; [by rewrite app_nil_r | constructor].
Qed.

Lemma cell_text_or_null v : text_or_null (cell number_text v).
Proof. destruct v; unfold text_or_null; simpl; eauto. Qed.

Lemma cell_null v : cell number_text v = VNull <-> v = VUndefined \/ v = VNull.
Proof. destruct v; simpl; split; intros H; try done; auto; by destruct H. Qed.

Lemma combine_cells (names : list jsstring) cols r :
  Forall (fun kv : jsstring * value => text_or_null (snd kv))
         (combine names (values_of number_text cols r)).
Proof.
  unfold values_of. revert names. induction cols as [|c cols IH]; intros [|n names]; simpl;
    try constructor; [apply cell_text_or_null | apply IH].
Qed.

(** C5, as the code has it. Every row that the INSERT loop adds to a table
    comes from one of the records; each of its cells is a text or null; a
    cell is null exactly when the field of the record is missing or null,
    and a field that is a text is stored as that text, the empty text as the
    empty text. *)
Theorem stored_cells table cols records : forall w name tb row,
  tables (insert_records number_text insert_throws table cols records w) !! name = Some tb ->
  row ∈ rows tb ->
  (exists tb0, tables w !! name = Some tb0 /\ row ∈ rows tb0) \/
  (exists r, r ∈ records /\
     row = combine (map sanitizeName cols) (values_of number_text cols r) /\
     Forall (fun kv => text_or_null (snd kv)) row /\
     forall c, (cell number_text (prop r c) = VNull <->
                  prop r c = VUndefined \/ prop r c = VNull) /\
               (forall s, prop r c = VString s -> cell number_text (prop r c) = VString s)).
Proof.
  induction records as [|r rest IH]; intros w name tb row Htb Hrow; simpl in Htb.
  - left. eauto.
  - destruct (insert_throws _ _); [left; eauto|].
    destruct (IH _ _ _ _ Htb Hrow) as [(tb0 & Htb0 & Hin) | (r' & Hr' & Hrest)].
    + rewrite ?tables_with_tables, ?tables_logged in Htb0. unfold add_row in Htb0.
      destruct (tables w !! table) as [tb1|] eqn:E; [|left; eauto].
      rewrite lookup_insert in Htb0. destruct (decide (table = name)) as [<-|Hne].
      * inversion Htb0; subst tb0. simpl in Hin.
        apply elem_of_app in Hin as [Hin|Hin]; [left; eauto|].
        apply list_elem_of_singleton in Hin. right. exists r. split; [by left|].
        split; [exact Hin|]. split; [subst row; apply combine_cells|].
        intros c. split; [apply cell_null|]. by intros s ->.
      * left. eauto.
    + right. exists r'. split; [by right | exact Hrest].
Qed.

End IngestFacts.

Lemma ingestion_idempotent_witness :
  let w' := initSqliteFromCsvs no_number_text accepts_all empty_field_world in
  let f := File (js "t.csv") (Some [empty_b_record]) in
  tables (ingest_file no_number_text accepts_all w' f) = tables w' /\
  exists log, forwarded (ingest_file no_number_text accepts_all w' f) = forwarded w' ++ log /\
              Forall (fun sql => starts_with (js "INSERT") sql = false) log.
Proof.
  apply (proj2 (ingestion_idempotent no_number_text accepts_all bare_world)).
  vm_compute. lia.
Defined.

Lemma stored_cells_witness :
  (exists tb0, tables table_t_world !! js "t" = Some tb0 /\ empty_b_row ∈ rows tb0) \/
  (exists r, r ∈ [empty_b_record] /\
     empty_b_row = combine (map sanitizeName [js "a"; js "b"])
                           (values_of no_number_text [js "a"; js "b"] r) /\
     Forall (fun kv => text_or_null (snd kv)) empty_b_row /\
     forall c, (cell no_number_text (prop r c) = VNull <->
                  prop r c = VUndefined \/ prop r c = VNull) /\
               (forall s, prop r c = VString s -> cell no_number_text (prop r c) = VString s)).
Proof.
  apply (stored_cells no_number_text accepts_all (js "t") [js "a"; js "b"]
           [empty_b_record] table_t_world (js "t")
           (Table [js "a"; js "b"] [empty_b_row]) empty_b_row).
  - vm_compute. reflexivity.
  - simpl. left.
Defined.

(** C5, as the claim states it, fails: the empty field [b] of the record of
    [t.csv] is stored as the empty text, not as null. *)
Lemma empty_field_stored_as_empty_text :
  tables (initSqliteFromCsvs no_number_text accepts_all empty_field_world) !! js "t"
    = Some (Table [js "a"; js "b"] [[(js "a", VString (js "1")); (js "b", VString [])]]) /\
  prop empty_b_record (js "b") = VString [] /\
  cell no_number_text (VString []) <> VNull.
Proof. split; [vm_compute; reflexivity|]. split; [reflexivity | discriminate]. Qed.


(** ** Classes, repeated *)

Lemma iterated_class icase f : forall p q,
  iterated (matches icase (Class f)) p q <->
  exists w, forallb f w = true /\ snd p = w ++ snd q /\ fst q = rev w ++ fst p.
Proof.
  intros p q. split.
  - induction 1 as [p | p q s (ch & Hs & Hf & Hc) _ _ (w & Hw & Ha & Hb)].
    + by exists [].
    + exists (ch :: w). simpl. rewrite Hc, Hw, Hs, Ha, Hb, Hf, <- app_assoc. by repeat split.
  - intros (w & Hw & Ha & Hb). revert p Hw Ha Hb.
    induction w as [|ch w IH]; intros [b a] Hw Ha Hb; simpl in *.
    + destruct q as [b' a']. simpl in *. subst. constructor.
    + apply andb_prop in Hw as [Hc Hw].
      apply (iterated_step _ _ (ch :: b, w ++ snd q)).
      * exists ch. simpl. by rewrite Ha.
      * simpl. rewrite Ha. simpl. lia.
      * apply IH; simpl; [done | done |]. by rewrite Hb, <- app_assoc.
Qed.

Lemma plus_class icase g f p q :
  matches icase (Plus g (Class f)) p q <->
  exists w, w <> [] /\ forallb f w = true /\ snd p = w ++ snd q /\ fst q = rev w ++ fst p.
Proof.
  split.
  - intros (s & (ch & Hs & Hf & Hc) & Hit).
    apply (iterated_class icase) in Hit as (w & Hw & Ha & Hb).
    exists (ch :: w). simpl. rewrite Hc, Hw, Hs, Ha, Hb, Hf, <- app_assoc. by repeat split.
  - intros (w & Hne & Hw & Ha & Hb). destruct w as [|ch w]; [done|].
    simpl in Hw. apply andb_prop in Hw as [Hc Hw].
    exists (ch :: fst p, w ++ snd q). split.
    + exists ch. by rewrite Ha.
    + apply (iterated_class icase). exists w. simpl.
      rewrite Hb. simpl. by rewrite <- app_assoc.
Qed.

Lemma star_class icase g f p q :
  matches icase (Star g (Class f)) p q <->
  exists w, forallb f w = true /\ snd p = w ++ snd q /\ fst q = rev w ++ fst p.
Proof. apply iterated_class. Qed.

(** A letter and its two cases. *)
Lemma canon_letter ch c :
  is_upper c = true -> canon ch = c -> ch = c \/ ch = c + 32.
Proof.
  unfold canon, is_upper, is_lower. intros Hc.
  apply andb_prop in Hc as [H1 H2]. apply N.leb_le in H1, H2.
  destruct (_ && _) eqn:E.
  - apply andb_prop in E as [H3 H4]. apply N.leb_le in H3, H4. lia.
  - auto.
Qed.

Lemma same_letters_length a b : same_letters a b -> length a = length b.
Proof. unfold same_letters. intros H. apply (f_equal length) in H. by rewrite !length_map in H. Qed.

Lemma canon_word ch c : is_word c = true -> canon ch = canon c -> is_word ch = true.
Proof.
  unfold canon, is_word, is_upper, is_lower, is_digit.
  compare_units.
Qed.

Lemma word_head k kw c w :
  same_letters (k :: kw) (c :: w) -> is_word c = true -> is_word k = true.
Proof.
  unfold same_letters. simpl. intros [= Hk _] Hc. by apply (canon_word k c).
Qed.

(** ** The words LIMIT and a number in a text *)

Lemma limit_spec s : test re_limit s = true <-> limit_text s.
Proof.
  rewrite test_spec. unfold matches_in, limit_text. split.
  - intros (pre & post & q & -> & s1 & [-> Hb] & s2 & Hword & s3 & Hsp & Hdig).
    apply matches_word in Hword as (kw & Hkw & Hkw' & Hall).
    apply lit_eq_letters in Hall.
    apply plus_class in Hsp as (ws & Hne & Hws & Ha & Hb').
    apply plus_class in Hdig as (ds & Hne' & Hds & Hc & _).
    simpl in Hkw, Hb. destruct ds as [|d ds]; [done|].
    simpl in Hds. apply andb_prop in Hds as [Hd _].
    exists pre, kw, ws, d, (ds ++ snd q). repeat split; try done.
    + by rewrite Hkw, Ha, Hc.
    + rewrite Hkw in Hb. pose proof (same_letters_length _ _ Hall) as Hlen.
      destruct kw as [|k kw]; [done|]. simpl in Hb.
      assert (Hk : is_word k = true).
      { eapply word_head; [exact Hall | reflexivity]. }
      rewrite Hk in Hb. destruct (rev pre) as [|c ?]; [done|].
      by destruct (is_word c).
  - intros (pre & kw & ws & d & post & -> & Hkw & Hne & Hws & Hd & Hb).
    exists pre, (kw ++ ws ++ d :: post), (d :: rev ws ++ rev kw ++ rev pre, post).
    split; [done|].
    exists (rev pre, kw ++ ws ++ d :: post). split.
    { split; [done|]. simpl. pose proof (same_letters_length _ _ Hkw) as Hlen.
      destruct kw as [|k kw]; [done|]. simpl.
      assert (Hk : is_word k = true).
      { eapply word_head; [exact Hkw | reflexivity]. }
      rewrite Hk. destruct (rev pre) as [|c ?]; [done|].
      by destruct (is_word c). }
    exists (rev kw ++ rev pre, ws ++ d :: post). split.
    { apply word_matches. by apply lit_eq_letters. }
    exists (rev ws ++ rev kw ++ rev pre, d :: post). split.
    { apply plus_class. exists ws. done. }
    apply plus_class. exists [d]. simpl. by rewrite Hd.
Qed.

Lemma clamp_limit_spec l : clamp_limit l = clamp l 1 1000.
Proof.
  unfold clamp_limit, clamp.
  destruct (Z.ltb_spec l 1); destruct (Z.ltb_spec 1000 l); lia.
Qed.

(** ** A text that needs no cleaning *)

Lemma canon_other c ch :
  is_upper c = false -> is_lower c = false -> canon ch = canon c -> ch = c.
Proof.
  unfold canon, is_upper, is_lower.
  compare_units.
Qed.

Lemma trimStart_id c s : is_space c = false -> trimStart (c :: s) = c :: s.
Proof. intros H. simpl. by rewrite H. Qed.

Lemma trim_id c s d :
  is_space c = false -> is_space d = false ->
  forall body, c :: s = body ++ [d] -> trim (c :: s) = c :: s.
Proof.
  intros Hc Hd body Heq. unfold trim, trimEnd. rewrite (trimStart_id _ _ Hc).
  rewrite Heq, rev_app_distr. simpl. rewrite Hd. simpl.
  by rewrite rev_involutive.
Qed.

Lemma last_of_suffix (pre l body : jsstring) d :
  pre ++ l = body ++ [d] -> l <> [] -> exists l', l = l' ++ [d].
Proof.
  intros Heq Hne. destruct (rev l) as [|x l'] eqn:E.
  - apply (f_equal (@rev N)) in E. rewrite rev_involutive in E. by subst.
  - apply (f_equal (@rev N)) in E. rewrite rev_involutive in E. simpl in E. subst l.
    rewrite app_assoc in Heq. apply app_inj_tail in Heq as [_ ->]. eauto.
Qed.

Lemma search_first re s pre post q :
  s = pre ++ post -> matches (ignoreCase re) (source re) (rev pre, post) q ->
  exists i, search re s = Some i /\ (i <= length pre)%nat.
Proof.
  intros Hs Hm. unfold search, exec.
  destruct (scan _ _ _ _) as [[x y]|] eqn:E.
  - apply scan_sound in E as (pre' & post' & Heq & -> & _ & Hleft).
    eexists. split; [reflexivity|]. simpl. rewrite app_nil_r, length_rev.
    destruct (Nat.le_gt_cases (length pre') (length pre)) as [Hle|Hgt]; [done|].
    exfalso. eapply (Hleft pre post); [congruence | exact Hgt |].
    rewrite app_nil_r. exact Hm.
  - exfalso. revert E. eapply scan_complete; [exact Hs|]. rewrite app_nil_r. exact Hm.
Qed.

Lemma select_statement_id kw rest :
  same_letters kw (js "SELECT") -> select_statement (kw ++ rest) = kw ++ rest.
Proof.
  intros Hkw. unfold select_statement.
  destruct (search_first re_select (kw ++ rest) [] (kw ++ rest) (rev kw ++ [], rest))
    as (i & -> & Hi); [done | | ].
  - apply word_matches. by apply lit_eq_letters.
  - simpl in Hi. by replace i with 0%nat by lia.
Qed.

(** A text that begins with SELECT and ends in a character that is no white
    space, no semicolon and no backquote is its own statement. *)
Lemma clean_statement kw rest body d :
  same_letters kw (js "SELECT") ->
  kw ++ rest = body ++ [d] ->
  is_space d = false -> d <> 59 -> d <> 96 ->
  clean (kw ++ rest) = kw ++ rest /\
  select_statement (clean (kw ++ rest)) = kw ++ rest.
Proof.
  intros Hkw Hlast Hsp Hsemi Hquote.
  pose proof (same_letters_length _ _ Hkw) as Hlen.
  destruct kw as [|k kw]; [done|].
  assert (Hk : canon k = 83) by (unfold same_letters in Hkw; by inversion Hkw).
  assert (Hks : is_space k = false).
  { apply (canon_letter k 83 eq_refl) in Hk as [->| ->]; reflexivity. }
  assert (Hclean : clean ((k :: kw) ++ rest) = (k :: kw) ++ rest).
  { unfold clean. simpl app in *.
    rewrite (trim_id k _ d Hks Hsp body Hlast).
    rewrite (replace_no_match re_trailing_semicolons).
    2:{ apply test_false. intros (pre & post & q & Heq & s1 & Hplus & s2 & Hstar & [-> Hend]).
        apply (plus_class false true (lit_eq false 59)) in Hplus as (w1 & Hne & Hw1 & Ha & _).
        apply (star_class false true is_space) in Hstar as (w2 & Hw2 & Hb & _).
        simpl in Ha, Hb, Hend. rewrite Hend, app_nil_r in Hb.
        rewrite Heq in Hlast. rewrite Ha, Hb in Hlast.
        destruct (last_of_suffix pre (w1 ++ w2) body d Hlast) as (l' & Hl').
        { by destruct w1. }
        assert (Hd : forallb (fun c => (c =? 59) || is_space c) (w1 ++ w2) = true).
        { rewrite forallb_app. apply andb_true_intro. split.
          - eapply forallb_forall. intros x Hx.
            eapply forallb_forall in Hw1; [|exact Hx]. unfold lit_eq in Hw1. simpl in Hw1.
            by rewrite Hw1.
          - eapply forallb_forall. intros x Hx.
            eapply forallb_forall in Hw2; [|exact Hx]. rewrite Hw2. apply orb_true_r. }
        rewrite Hl', forallb_app in Hd. apply andb_prop in Hd as [_ Hd]. simpl in Hd.
        rewrite Hsp in Hd. destruct (N.eqb_spec d 59); [done|]. done. }
    rewrite (replace_no_match re_fence_open).
    2:{ apply test_false. intros (pre & post & q & Heq & s1 & [-> Hb] & s2 & Hw & _).
        simpl in Hb. apply (f_equal (@rev N)) in Hb. rewrite rev_involutive in Hb.
        subst pre. simpl in Heq. subst post.
        apply matches_word in Hw as (mid & Hmid & _ & Hall). simpl in Hmid.
        apply Forall2_cons_inv_l in Hall as (ch & mid' & Hch & _ & ->).
        inversion Hmid; subst ch. unfold lit_eq in Hch. apply N.eqb_eq in Hch.
        apply (canon_other 96 k eq_refl eq_refl) in Hch. subst k. done. }
    rewrite (replace_no_match re_fence_close); [done|].
    apply test_false. intros (pre & post & q & Heq & s1 & Hopt & s2 & Hw & [-> Hend]).
    apply matches_word in Hw as (mid & Hmid & _ & Hall).
    apply matches_span in Hopt as (w0 & Hw0 & _).
    simpl in Hw0, Hend. rewrite Hend, app_nil_r in Hmid.
    rewrite Heq, Hw0, Hmid in Hlast.
    apply Forall2_cons_inv_l in Hall as (c1 & mid1 & _ & Hall & ->).
    apply Forall2_cons_inv_l in Hall as (c2 & mid2 & _ & Hall & ->).
    apply Forall2_cons_inv_l in Hall as (c3 & mid3 & Hc3 & Hall & ->).
    apply Forall2_nil_inv_l in Hall as ->.
    rewrite app_assoc in Hlast.
    change [c1; c2; c3] with ([c1; c2] ++ [c3]) in Hlast. rewrite app_assoc in Hlast.
    apply app_inj_tail in Hlast as [_ ->].
    unfold lit_eq in Hc3. apply N.eqb_eq in Hc3.
    apply (canon_other 96 d eq_refl eq_refl) in Hc3. done. }
  split; [exact Hclean|]. rewrite Hclean. by apply select_statement_id.
Qed.

(** ** [executeSqlite]: the row limit *)

Lemma sanitize_accepted sql l limited :
  sanitize sql l = Accepted limited ->
  test re_select_gate (clean sql) = true /\
  limited =
    (let st := select_statement (clean sql) in
     if test re_limit st then st
     else st ++ js " LIMIT " ++ decimal (Z.to_N (clamp_limit l))).
Proof.
  unfold sanitize. destruct (test re_select_gate (clean sql)); simpl.
  - intros H. split; [reflexivity|].
    destruct (test re_where _); [destruct (where_clause _) as [wc|];
      [destruct (test re_incomplete wc)|]|]; by inversion H.
  - by destruct (_ <? _)%nat.
Qed.

(** C3, as the code has it. For an accepted statement [st] (the cleaned
    text from its first SELECT on) that holds nowhere the word LIMIT
    followed by white space and a digit, the text handed to the engine is
    [st] followed by " LIMIT n", n the requested limit (200 when none is
    given) clamped to 1..1000; when [st] holds these words anywhere, as a
    LIMIT clause does, it is handed over unchanged, whatever the explicit
    limit. *)
Theorem limit_injection alasql w sql limit limited :
  dir_exists w = true ->
  sanitize sql (match limit with Some l => l | None => 200%Z end) = Accepted limited ->
  let st := select_statement (clean sql) in
  let n := clamp (match limit with Some l => l | None => 200%Z end) 1 1000 in
  forwarded (fst (executeSqlite alasql w sql limit)) = forwarded w ++ [limited] /\
  (~ limit_text st -> limited = st ++ js " LIMIT " ++ decimal (Z.to_N n)) /\
  (limit_text st -> limited = st).
Proof.
  intros Hd Hs st n.
  rewrite (executeSqlite_accepted _ _ _ _ limited Hd Hs).
  split; [reflexivity|].
  apply sanitize_accepted in Hs as [_ Hl]. cbv zeta in Hl. fold st in Hl.
  rewrite clamp_limit_spec in Hl. fold n in Hl.
  destruct (test re_limit st) eqn:E.
  - apply limit_spec in E. split; [done|]. by intros _.
  - split; [by intros _|]. intros Hc. apply limit_spec in Hc. congruence.
Qed.

Lemma limit_injection_witness :
  forwarded (fst (executeSqlite no_rows bare_world (js "SELECT * FROM t") (Some 5000%Z)))
    = forwarded bare_world ++ [js "SELECT * FROM t LIMIT 1000"] /\
  (~ limit_text (select_statement (clean (js "SELECT * FROM t"))) ->
   js "SELECT * FROM t LIMIT 1000"
     = select_statement (clean (js "SELECT * FROM t")) ++ js " LIMIT "
       ++ decimal (Z.to_N (clamp 5000 1 1000))) /\
  (limit_text (select_statement (clean (js "SELECT * FROM t"))) ->
   js "SELECT * FROM t LIMIT 1000" = select_statement (clean (js "SELECT * FROM t"))).
Proof.
  apply (limit_injection no_rows bare_world (js "SELECT * FROM t") (Some 5000%Z)
           (js "SELECT * FROM t LIMIT 1000")).
  - reflexivity.
  - vm_compute. reflexivity.
Defined.

(** The statements of the claim, run: without a LIMIT the default 200 is
    appended, a requested limit is clamped to 1..1000, an explicit LIMIT is
    kept even when it is larger than 1000; the words "limit 5" inside a
    quoted value keep the row limit away as well. *)
Lemma limit_examples :
  sanitize (js "SELECT * FROM t") 200 = Accepted (js "SELECT * FROM t LIMIT 200") /\
  sanitize (js "SELECT * FROM t") 5000 = Accepted (js "SELECT * FROM t LIMIT 1000") /\
  sanitize (js "SELECT * FROM t") (-3) = Accepted (js "SELECT * FROM t LIMIT 1") /\
  sanitize (js "select * from t limit 1000000") 200
    = Accepted (js "select * from t limit 1000000") /\
  sanitize (js "SELECT * FROM t WHERE note = 'limit 5'") 200
    = Accepted (js "SELECT * FROM t WHERE note = 'limit 5'").
Proof. repeat split; vm_compute; reflexivity. Qed.

Lemma contains_word_test w s :
  test (RegExp (word w) true) s = true <-> contains_word w s.
Proof.
  rewrite test_spec. unfold matches_in, contains_word. split.
  - intros (pre & post & q & -> & Hword).
    apply matches_word in Hword as (mid & Hmid & _ & Hall).
    apply lit_eq_letters in Hall. simpl in Hmid.
    exists pre, mid, (snd q). split; [|exact Hall]. by rewrite Hmid.
  - intros (pre & mid & post & -> & Hmid).
    exists pre, (mid ++ post), (rev mid ++ rev pre, post). split; [reflexivity|].
    apply word_matches. by apply lit_eq_letters.
Qed.

(** C3, as the claim states it, fails: the statement has no LIMIT clause
    (outside its quoted value it does not hold the word LIMIT at all), it
    is accepted, and it is handed to the engine as it is, without the row
    limit. *)
Lemma quoted_limit_left_uncapped :
  let st := js "SELECT * FROM t WHERE note = 'limit 5'" in
  ~ limit_clause st /\
  executeSqlite no_rows bare_world st None
    = (World true [] ∅ [st], Returns (Executed [] [])) /\
  st <> st ++ js " LIMIT " ++ decimal (Z.to_N (clamp 200 1 1000)).
Proof.
  cbv zeta. split; [|split].
  - unfold limit_clause. intros H. apply contains_word_test in H.
    vm_compute in H. discriminate.
  - vm_compute. reflexivity.
  - vm_compute. discriminate.
Qed.

(** The same on a text that needs no cleaning: the statement handed to the
    engine is the text itself, followed by the limit when it has none. *)
Lemma limit_on_clean_text kw rest body d l limited :
  same_letters kw (js "SELECT") ->
  kw ++ rest = body ++ [d] ->
  is_space d = false -> d <> 59 -> d <> 96 ->
  sanitize (kw ++ rest) l = Accepted limited ->
  (~ limit_text (kw ++ rest) ->
   limited = (kw ++ rest) ++ js " LIMIT " ++ decimal (Z.to_N (clamp l 1 1000))) /\
  (limit_text (kw ++ rest) -> limited = kw ++ rest).
Proof.
  intros Hkw Hlast Hsp Hsemi Hquote Hs.
  destruct (clean_statement kw rest body d Hkw Hlast Hsp Hsemi Hquote) as [_ Hst].
  apply sanitize_accepted in Hs as [_ Hl]. cbv zeta in Hl.
  rewrite Hst, clamp_limit_spec in Hl.
  destruct (test re_limit (kw ++ rest)) eqn:E.
  - apply limit_spec in E. split; [done|]. by intros _.
  - split; [by intros _|]. intros Hc. apply limit_spec in Hc. congruence.
Qed.



(** ** The incomplete WHERE clause *)

Lemma opt_lit icase g c p q :
  matches icase (Opt g (Lit c)) p q <->
  exists w, (w = [] \/ exists ch, w = [ch] /\ lit_eq icase c ch = true) /\
            snd p = w ++ snd q /\ fst q = rev w ++ fst p.
Proof.
  split.
  - intros [-> | [(ch & Hs & Hf & Hc) _]].
    + exists []. split; [by left | done].
    + exists [ch]. split; [right; eauto | done].
  - intros (w & [-> | (ch & -> & Hc)] & Ha & Hb); simpl in *.
    + left. destruct p, q; simpl in *; by subst.
    + right. split; [exists ch; done|]. rewrite Ha. simpl. lia.
Qed.

Lemma same_letters_word w0 w :
  same_letters w w0 -> forallb is_word w0 = true -> forallb is_word w = true.
Proof.
  unfold same_letters. revert w0. induction w as [|c w IH]; intros [|c0 w0] H Hw; try done.
  simpl in *. inversion H. apply andb_prop in Hw as [Hc Hw].
  rewrite (canon_word c c0 Hc) by done. simpl. by apply (IH w0).
Qed.

Lemma incomplete_spec c : test re_incomplete c = true <-> dangling_condition c.
Proof.
  rewrite test_spec. unfold matches_in, dangling_condition. split.
  - intros (pre & post & q & -> & s0 & [-> Hbol] & s1 & Hlb & s2 & Hid & s3 & Hrb
            & s4 & Hws1 & s5 & Hconj & s6 & Hws2 & [-> Heol]).
    simpl in Hbol. apply (f_equal (@rev N)) in Hbol. rewrite rev_involutive in Hbol.
    subst pre. simpl.
    apply opt_lit in Hlb as (lb & Hlb & Ha1 & _).
    apply plus_class in Hid as (ident & Hne & Hid & Ha2 & _).
    apply opt_lit in Hrb as (rb & Hrb & Ha3 & _).
    apply star_class in Hws1 as (ws1 & Hws1 & Ha4 & _).
    apply star_class in Hws2 as (ws2 & Hws2 & Ha6 & _).
    assert (exists conj, (conj = [] \/ same_letters conj (js "AND")
                          \/ same_letters conj (js "OR")) /\ snd s4 = conj ++ snd s5)
      as (conj & Hconj' & Ha5).
    { destruct Hconj as [-> | [[Hw | Hw] _]].
      - exists []. split; [by left | done].
      - apply matches_word in Hw as (mid & Hmid & _ & Hall).
        apply lit_eq_letters in Hall. exists mid. split; [right; by left | done].
      - apply matches_word in Hw as (mid & Hmid & _ & Hall).
        apply lit_eq_letters in Hall. exists mid. split; [right; by right | done]. }
    simpl in Ha1. exists lb, ident, rb, ws1, conj, ws2.
    split; [by rewrite Ha1, Ha2, Ha3, Ha4, Ha5, Ha6, Heol, app_nil_r|].
    repeat split; try done.
    + destruct Hlb as [-> | (ch & -> & Hc)]; [by left|]. right.
      unfold lit_eq in Hc. apply N.eqb_eq in Hc.
      by rewrite (canon_other 91 ch eq_refl eq_refl Hc).
    + destruct Hrb as [-> | (ch & -> & Hc)]; [by left|]. right.
      unfold lit_eq in Hc. apply N.eqb_eq in Hc.
      by rewrite (canon_other 93 ch eq_refl eq_refl Hc).
  - intros (lb & ident & rb & ws1 & conj & ws2 & -> & Hlb & Hne & Hid & Hrb & Hws1
            & Hconj & Hws2).
    exists [], (lb ++ ident ++ rb ++ ws1 ++ conj ++ ws2),
      (rev ws2 ++ rev conj ++ rev ws1 ++ rev rb ++ rev ident ++ rev lb, []).
    split; [done|]. simpl rev.
    exists ([], lb ++ ident ++ rb ++ ws1 ++ conj ++ ws2). split; [done|].
    exists (rev lb, ident ++ rb ++ ws1 ++ conj ++ ws2). split.
    { apply opt_lit. exists lb. split; [|by rewrite app_nil_r].
      destruct Hlb as [-> | ->]; [by left | right; by exists 91]. }
    exists (rev ident ++ rev lb, rb ++ ws1 ++ conj ++ ws2). split.
    { apply plus_class. by exists ident. }
    exists (rev rb ++ rev ident ++ rev lb, ws1 ++ conj ++ ws2). split.
    { apply opt_lit. exists rb. split; [|done].
      destruct Hrb as [-> | ->]; [by left | right; by exists 93]. }
    exists (rev ws1 ++ rev rb ++ rev ident ++ rev lb, conj ++ ws2). split.
    { apply star_class. by exists ws1. }
    exists (rev conj ++ rev ws1 ++ rev rb ++ rev ident ++ rev lb, ws2). split.
    { destruct Hconj as [-> | Hconj]; [by left|]. right.
      pose proof (word_matches true) as Hw. split.
      - destruct Hconj as [Hc | Hc]; [left | right];
          apply Hw; by apply lit_eq_letters.
      - simpl. rewrite length_app.
        assert (length conj <> 0)%nat; [|lia].
        destruct Hconj as [Hc | Hc]; apply same_letters_length in Hc; by rewrite Hc. }
    exists (rev ws2 ++ rev conj ++ rev ws1 ++ rev rb ++ rev ident ++ rev lb, []). split.
    { apply star_class. exists ws2. by rewrite app_nil_r. }
    done.
Qed.

Lemma symbol_not_dangling c : has_symbol c -> ~ dangling_condition c.
Proof.
  intros (ch & Hin & Hw & Hs & H91 & H93)
         (lb & ident & rb & ws1 & conj & ws2 & -> & Hlb & _ & Hid & Hrb & Hws1 & Hconj & Hws2).
  assert (Hconj' : forallb is_word conj = true).
  { destruct Hconj as [-> | [Hc | Hc]]; [done | |];
      eapply same_letters_word; try exact Hc; reflexivity. }
  rewrite !elem_of_app in Hin.
  assert (Hall : forall l, forallb is_word l = true -> ch ∈ l -> False).
  { intros l Hl Hx. apply list_elem_of_In in Hx.
    eapply forallb_forall in Hl; [|exact Hx]. congruence. }
  assert (Hall' : forall l, forallb is_space l = true -> ch ∈ l -> False).
  { intros l Hl Hx. apply list_elem_of_In in Hx.
    eapply forallb_forall in Hl; [|exact Hx]. congruence. }
  destruct Hin as [Hin | [Hin | [Hin | [Hin | [Hin | Hin]]]]]; eauto.
  - destruct Hlb as [-> | ->]; [by apply elem_of_nil in Hin|].
    by apply list_elem_of_singleton in Hin.
  - destruct Hrb as [-> | ->]; [by apply elem_of_nil in Hin|].
    by apply list_elem_of_singleton in Hin.
Qed.

Lemma where_clause_test st body : where_clause st = Some body -> test re_where st = true.
Proof.
  unfold where_clause, match_group. intros H.
  assert (Ht : test re_where_body st = true).
  { unfold test. by destruct (exec re_where_body st) as [[x y]|]. }
  apply test_spec in Ht as (pre & post & q & -> & s1 & Hb & s2 & Hw & s3 & Hsp & _).
  apply test_spec. exists pre, post, s3. split; [done|].
  exists s1. split; [exact Hb|]. exists s2. split; [exact Hw | exact Hsp].
Qed.

Lemma sanitize_where sql l body :
  contains_word (js "SELECT") (clean sql) ->
  where_clause (select_statement (clean sql)) = Some body ->
  sanitize sql l =
    if test re_incomplete body then
      Rejected (js "SQL query appears incomplete. The WHERE clause is missing a condition. Found: WHERE "
                ++ body)
    else
      let st := select_statement (clean sql) in
      Accepted (if test re_limit st then st
                else st ++ js " LIMIT " ++ decimal (Z.to_N (clamp_limit l))).
Proof.
  intros Hsel Hwhere. apply select_gate_spec in Hsel.
  unfold sanitize. rewrite Hsel. simpl.
  rewrite (where_clause_test _ _ Hwhere), Hwhere.
  by destruct (test re_incomplete body).
Qed.

(** What the check decides, on the body that the pattern of line 124
    captures: when that body, trimmed, is a single identifier optionally
    followed by a bare AND or OR, the statement is rejected with an error
    that quotes it and nothing reaches the engine; when the body is not of
    that shape, the statement is accepted and handed to the engine; and a
    body that holds a comparison operator or a quoted value is not of that
    shape. *)
Theorem incomplete_where alasql w sql limit body :
  dir_exists w = true ->
  contains_word (js "SELECT") (clean sql) ->
  where_clause (select_statement (clean sql)) = Some body ->
  (dangling_condition body ->
   executeSqlite alasql w sql limit =
     (w, Returns (NotExecuted
        (js "SQL query appears incomplete. The WHERE clause is missing a condition. Found: WHERE "
         ++ body)))) /\
  (~ dangling_condition body ->
   exists limited,
     sanitize sql (match limit with Some l => l | None => 200%Z end) = Accepted limited /\
     forwarded (fst (executeSqlite alasql w sql limit)) = forwarded w ++ [limited]) /\
  (has_symbol body -> ~ dangling_condition body).
Proof.
  intros Hd Hsel Hwhere.
  pose proof (sanitize_where sql (match limit with Some l => l | None => 200%Z end)
                body Hsel Hwhere) as Hs.
  split; [|split].
  - intros Hdang. apply incomplete_spec in Hdang. rewrite Hdang in Hs.
    by apply executeSqlite_rejected.
  - intros Hnot.
    destruct (test re_incomplete body) eqn:E; [by apply incomplete_spec in E|].
    eexists. split; [exact Hs|].
    by rewrite (executeSqlite_accepted _ _ _ _ _ Hd Hs).
  - apply symbol_not_dangling.
Qed.

Lemma incomplete_where_witness :
  (dangling_condition (js "customer_state") ->
   executeSqlite no_rows bare_world (js "SELECT * FROM t WHERE customer_state") None =
     (bare_world, Returns (NotExecuted
        (js "SQL query appears incomplete. The WHERE clause is missing a condition. Found: WHERE "
         ++ js "customer_state")))) /\
  (~ dangling_condition (js "customer_state") ->
   exists limited,
     sanitize (js "SELECT * FROM t WHERE customer_state") 200 = Accepted limited /\
     forwarded (fst (executeSqlite no_rows bare_world
                       (js "SELECT * FROM t WHERE customer_state") None))
       = forwarded bare_world ++ [limited]) /\
  (has_symbol (js "customer_state") -> ~ dangling_condition (js "customer_state")).
Proof.
  apply (incomplete_where no_rows bare_world (js "SELECT * FROM t WHERE customer_state")
           None (js "customer_state")).
  - reflexivity.
  - apply select_gate_spec. vm_compute. reflexivity.
  - vm_compute. reflexivity.
Defined.

(** The two statements of the claim, and three more: a bare AND after a
    bracketed identifier, a body cut at GROUP BY, and an identifier that
    begins with LIMIT, at which the body is cut at once and is empty. *)
Lemma where_examples :
  sanitize (js "SELECT * FROM t WHERE customer_state") 200
    = Rejected (js "SQL query appears incomplete. The WHERE clause is missing a condition. Found: WHERE customer_state") /\
  sanitize (js "SELECT * FROM t WHERE customer_state = 'SP'") 200
    = Accepted (js "SELECT * FROM t WHERE customer_state = 'SP' LIMIT 200") /\
  sanitize (js "SELECT * FROM t WHERE [customer_state] and ORDER BY x") 200
    = Rejected (js "SQL query appears incomplete. The WHERE clause is missing a condition. Found: WHERE [customer_state] and") /\
  where_clause (js "SELECT * FROM t WHERE a = 1 GROUP BY b") = Some (js "a = 1") /\
  where_clause (js "SELECT * FROM t WHERE limit_flag") = Some [] /\
  sanitize (js "SELECT * FROM t WHERE limit_flag") 200
    = Accepted (js "SELECT * FROM t WHERE limit_flag LIMIT 200").
Proof. repeat split; vm_compute; reflexivity. Qed.


(** ** What the matcher computes: the first match and its captures *)

Lemma clear_nil x : clear [] x = x.
Proof.
  destruct x as [b a c]. unfold clear. simpl. f_equal.
  induction c as [|e c IH]; [done|].
  rewrite filter_cons_True by done. by rewrite IH.
Qed.

Section Runs.

Variable icase : bool.

Lemma repeat_loop_caps (mr : matcher) :
  (forall x k z, mr x k = Some z -> exists y, caps y = caps x /\ k y = Some z) ->
  forall g n x k z, repeat_loop mr g k n x = Some z ->
    exists y, caps y = caps x /\ k y = Some z.
Proof.
  intros Hmr g n. induction n as [|n IH]; intros x k z H; simpl in H; [eauto|].
  assert (Hiter : forall z', mr x (fun y => if progressed x y
                 then repeat_loop mr g k n y else None) = Some z' ->
              exists y, caps y = caps x /\ k y = Some z').
  { intros z' Hz. apply Hmr in Hz as (y & Hc & Hy).
    destruct (progressed x y); [|discriminate].
    apply IH in Hy as (y' & Hc' & Hk). exists y'. split; [congruence | exact Hk]. }
  destruct g.
  - destruct (mr x _) eqn:E; [inversion H; subst; by apply Hiter | eauto].
  - destruct (k x) eqn:E; [inversion H; subst; eauto | by apply Hiter].
Qed.

(** A pattern without groups leaves the captures as they are. *)
Lemma m_caps r : groups r = [] -> forall x k z,
  m icase r x k = Some z -> exists y, caps y = caps x /\ k y = Some z.
Proof.
  induction r as [ | c | p | r1 IH1 r2 IH2 | r1 IH1 r2 IH2 | g r1 IH1 | g r1 IH1
                 | g r1 IH1 | n r1 IH1 | | | ]; intros Hg x k z H; simpl in H, Hg.
  - eauto.
  - unfold char_matcher, advance in H. destruct x as [b [|ch a] cs]; simpl in *; [done|].
    destruct (lit_eq _ _ _); [|done]. eexists; split; [|exact H]. done.
  - unfold char_matcher, advance in H. destruct x as [b [|ch a] cs]; simpl in *; [done|].
    destruct (p ch); [|done]. eexists; split; [|exact H]. done.
  - apply app_eq_nil in Hg as [Hg1 Hg2].
    apply (IH1 Hg1) in H as (y & Hc & H). apply (IH2 Hg2) in H as (y' & Hc' & H).
    exists y'. split; [congruence | exact H].
  - apply app_eq_nil in Hg as [Hg1 Hg2].
    destruct (m icase r1 x k) eqn:E.
    + inversion H; subst. by apply (IH1 Hg1) in E.
    + by apply (IH2 Hg2) in H.
  - unfold repeat in H. eapply repeat_loop_caps in H; [exact H|].
    intros x' k' z' H'. rewrite Hg, clear_nil in H'. by apply (IH1 Hg) in H'.
  - rewrite Hg, clear_nil in H. apply (IH1 Hg) in H as (y & Hc & H).
    unfold repeat in H. eapply repeat_loop_caps in H.
    + destruct H as (y' & Hc' & H). exists y'. split; [congruence | exact H].
    + intros x' k' z' H'. rewrite clear_nil in H'. by apply (IH1 Hg) in H'.
  - rewrite Hg, clear_nil in H.
    assert (Hiter : forall z', m icase r1 x (fun y => if progressed x y then k y else None)
                               = Some z' ->
              exists y, caps y = caps x /\ k y = Some z').
    { intros z' Hz. apply (IH1 Hg) in Hz as (y & Hc & Hy).
      destruct (progressed x y); [eauto | discriminate]. }
    destruct g.
    + destruct (m icase r1 _ _) eqn:E; [inversion H; subst; by apply Hiter | eauto].
    + destruct (k x) eqn:E; [inversion H; subst; eauto | by apply Hiter].
  - discriminate.
  - destruct (before x); [eauto | discriminate].
  - destruct (after x); [eauto | discriminate].
  - destruct (xorb _ _); [eauto | discriminate].
Qed.

Lemma m_lit c0 ch b rest c k :
  lit_eq icase c0 ch = true ->
  m icase (Lit c0) (MState b (ch :: rest) c) k = k (MState (ch :: b) rest c).
Proof.
  intros H. change (m icase (Lit c0)) with (char_matcher (lit_eq icase c0)).
  unfold char_matcher, advance. cbn [after before caps]. by rewrite H.
Qed.

Lemma m_class f ch b rest c k :
  char_matcher f (MState b (ch :: rest) c) k =
    if f ch then k (MState (ch :: b) rest c) else None.
Proof. reflexivity. Qed.

Lemma m_seq r1 r2 x k :
  m icase (Seq r1 r2) x k = m icase r1 x (fun y => m icase r2 y k).
Proof. reflexivity. Qed.

Lemma m_group n r x k :
  m icase (Group n r) x k = m icase r x (fun y => k (set_cap n x y)).
Proof. reflexivity. Qed.

(** A literal word on a text that begins with it. *)
Lemma m_word w : forall mid rest b c k,
  Forall2 (fun c ch => lit_eq icase c ch = true) w mid ->
  m icase (word w) (MState b (mid ++ rest) c) k = k (MState (rev mid ++ b) rest c).
Proof.
  induction w as [|c0 w IH]; intros mid rest b c k H.
  - by inversion H.
  - inversion H as [|? ch ? mid' Hc Hrest]; subst. destruct w as [|c1 w].
    + inversion Hrest; subst. by apply m_lit.
    + change (word (c0 :: c1 :: w)) with (Seq (Lit c0) (word (c1 :: w))).
      change (m icase (Seq (Lit c0) (word (c1 :: w))) (MState b ((ch :: mid') ++ rest) c) k)
        with (m icase (Lit c0) (MState b (ch :: mid' ++ rest) c)
                (fun y => m icase (word (c1 :: w)) y k)).
      rewrite (m_lit _ _ _ _ _ _ Hc), (IH mid' rest (ch :: b) c k Hrest).
      simpl. by rewrite <- app_assoc.
Qed.

(** A greedy run of a class takes all the characters of the class when the
    rest of the pattern then matches. *)
Lemma loop_greedy_class f k z rest c :
  match rest with [] => True | ch :: _ => f ch = false end ->
  forall ws b n,
    (length (ws ++ rest) <= n)%nat -> forallb f ws = true ->
    k (MState (rev ws ++ b) rest c) = Some z ->
    repeat_loop (fun x k => m icase (Class f) (clear [] x) k) true k n
                (MState b (ws ++ rest) c) = Some z.
Proof.
  change (m icase (Class f)) with (char_matcher f).
  intros Hrest. induction ws as [|ch ws IH]; intros b n Hn Hws Hk; simpl in *.
  - destruct n as [|n]; cbn [repeat_loop]; [exact Hk|].
    rewrite clear_nil. destruct rest as [|ch rest]; [by rewrite Hk|].
    by rewrite m_class, Hrest, Hk.
  - apply andb_prop in Hws as [Hc Hws]. destruct n as [|n]; [lia|]. cbn [repeat_loop].
    rewrite clear_nil, m_class, Hc. unfold progressed. cbn [after].
    replace (length (ws ++ rest) <? length (ch :: ws ++ rest))%nat with true
      by (symmetry; apply Nat.ltb_lt; simpl; lia).
    rewrite (IH (ch :: b) n); [done | lia | done |]. by rewrite <- app_assoc in Hk.
Qed.

Lemma m_star_greedy_class f ws rest b c k z :
  match rest with [] => True | ch :: _ => f ch = false end ->
  forallb f ws = true ->
  k (MState (rev ws ++ b) rest c) = Some z ->
  m icase (Star true (Class f)) (MState b (ws ++ rest) c) k = Some z.
Proof.
  intros Hrest Hws Hk.
  change (m icase (Star true (Class f)))
    with (repeat (fun x k => m icase (Class f) (clear [] x) k) true).
  unfold repeat. by apply loop_greedy_class.
Qed.

Lemma m_plus_greedy_class f ws rest b c k z :
  match rest with [] => True | ch :: _ => f ch = false end ->
  ws <> [] -> forallb f ws = true ->
  k (MState (rev ws ++ b) rest c) = Some z ->
  m icase (Plus true (Class f)) (MState b (ws ++ rest) c) k = Some z.
Proof.
  intros Hrest Hne Hws Hk. destruct ws as [|ch ws]; [done|]. simpl in Hws.
  apply andb_prop in Hws as [Hc Hws].
  change (m icase (Plus true (Class f)) (MState b ((ch :: ws) ++ rest) c) k)
    with (m icase (Class f) (clear [] (MState b (ch :: ws ++ rest) c))
            (fun y => repeat (fun x k => m icase (Class f) (clear [] x) k) true y k)).
  rewrite clear_nil. change (m icase (Class f)) with (char_matcher f) at 1.
  rewrite m_class, Hc. unfold repeat. cbn [after].
  apply loop_greedy_class; [done | done | done |].
  simpl in Hk. by rewrite <- app_assoc in Hk.
Qed.

(** A lazy run of any character stops at the first index from which the
    rest of the pattern matches. *)
Lemma loop_lazy_any k z rest c :
  forall content b n,
    (length (content ++ rest) <= n)%nat ->
    (forall u v, content = u ++ v -> v <> [] ->
       k (MState (rev u ++ b) (v ++ rest) c) = None) ->
    k (MState (rev content ++ b) rest c) = Some z ->
    repeat_loop (fun x k => m icase (Class any_char) (clear [] x) k) false k n
                (MState b (content ++ rest) c) = Some z.
Proof.
  change (m icase (Class any_char)) with (char_matcher any_char).
  induction content as [|ch content IH]; intros b n Hn Hnone Hk; simpl in *.
  - destruct n as [|n]; cbn [repeat_loop]; [exact Hk | by rewrite Hk].
  - destruct n as [|n]; [lia|]. cbn [repeat_loop].
    pose proof (Hnone [] (ch :: content) eq_refl) as H0. simpl in H0.
    rewrite H0 by done.
    rewrite clear_nil, m_class. unfold any_char at 1. unfold progressed. cbn [after].
    replace (length (content ++ rest) <? length (ch :: content ++ rest))%nat with true
      by (symmetry; apply Nat.ltb_lt; simpl; lia).
    apply IH; [lia | | by rewrite <- app_assoc in Hk].
    intros u v -> Hv. specialize (Hnone (ch :: u) v eq_refl Hv).
    simpl in Hnone. by rewrite <- app_assoc in Hnone.
Qed.

Lemma m_star_lazy_any content rest b c k z :
  (forall u v, content = u ++ v -> v <> [] ->
     k (MState (rev u ++ b) (v ++ rest) c) = None) ->
  k (MState (rev content ++ b) rest c) = Some z ->
  m icase (Star false (Class any_char)) (MState b (content ++ rest) c) k = Some z.
Proof.
  intros Hnone Hk.
  change (m icase (Star false (Class any_char)))
    with (repeat (fun x k => m icase (Class any_char) (clear [] x) k) false).
  unfold repeat. by apply loop_lazy_any.
Qed.

(** The search skips the indices at which the pattern does not match. *)
Lemma scan_skip r post : forall pre bef,
  (forall u v, pre = u ++ v -> v <> [] ->
     forall q, ~ matches icase r (rev u ++ bef, v ++ post) q) ->
  scan icase r bef (pre ++ post) = scan icase r (rev pre ++ bef) post.
Proof.
  induction pre as [|ch pre IH]; intros bef Hnone; [done|].
  simpl app. rewrite <- app_assoc. simpl.
  destruct (m icase r _ Some) eqn:E.
  - exfalso. apply m_sound in E as (y & Hm & _).
    eapply (Hnone [] (ch :: pre)); [done | done | exact Hm].
  - apply IH. intros u v -> Hv q Hq.
    eapply (Hnone (ch :: u) v); [done | done |]. simpl. rewrite <- app_assoc. exact Hq.
Qed.

Lemma scan_here r bef aft y :
  m icase r (MState bef aft []) Some = Some y ->
  scan icase r bef aft = Some (MState bef aft [], y).
Proof. intros H. destruct aft; simpl; by rewrite H. Qed.

End Runs.

(** ** [extractSql] *)

Lemma trimStart_fixed s :
  match s with [] => True | c :: _ => is_space c = false end -> trimStart s = s.
Proof. destruct s as [|c s]; [done|]. intros H. simpl. by rewrite H. Qed.

Lemma trim_trimmed s : trimmed s -> trim s = s.
Proof.
  intros [H1 H2]. unfold trim, trimEnd.
  by rewrite (trimStart_fixed s H1), (trimStart_fixed (rev s) H2), rev_involutive.
Qed.

Lemma word_at_here w u mid tail :
  same_letters mid w -> word_at w (u ++ mid ++ tail) (length u).
Proof.
  intros H. unfold word_at. rewrite drop_app_length.
  rewrite <- (same_letters_length _ _ H), take_app_length. exact H.
Qed.

Lemma includes_spec t : forall s,
  includes s t = true <-> exists u v, s = u ++ t ++ v.
Proof.
  assert (Hstart : forall t s, starts_with t s = true <-> exists v, s = t ++ v).
  { clear. induction t as [|a t IH]; intros s; simpl.
    - split; [intros _; by exists s | done].
    - destruct s as [|b s]; [split; [done | by intros (v & ?)]|].
      rewrite andb_true_iff, N.eqb_eq, IH. split.
      + intros [-> (v & ->)]. by exists v.
      + intros (v & [= -> ->]). eauto. }
  induction s as [|c s IH]; simpl.
  - rewrite orb_false_r, Hstart. split.
    + intros (v & Hv). by exists [], v.
    + intros (u & v & Hv). symmetry in Hv. apply app_eq_nil in Hv as [-> Hv]. eauto.
  - rewrite orb_true_iff, Hstart, IH. split.
    + intros [(v & ->) | (u & v & ->)]; [by exists [], v | by exists (c :: u), v].
    + intros ([|c' u] & v & Hv); simpl in Hv; [left; eauto|].
      inversion Hv; subst. right. eauto.
Qed.

(** The first pattern on a text whose first [SQL:] is followed by a
    statement: the statement is its result. *)
Lemma sql_prefix_found pre marker ws content rest :
  (forall i, (i < length pre)%nat ->
     ~ word_at (js "SQL:") (pre ++ marker ++ ws ++ content ++ rest) i) ->
  same_letters marker (js "SQL:") ->
  forallb is_space ws = true ->
  content <> [] -> trimmed content -> includes content [10; 10] = false ->
  blank_or_end rest ->
  sql_prefix_pattern (pre ++ marker ++ ws ++ content ++ rest) = Some content.
Proof.
  intros Hfirst Hmarker Hws Hne Htrim Hblank Hrest.
  assert (Hhead : match content ++ rest with [] => True | ch :: _ => is_space ch = false end).
  { destruct content as [|c content]; [done|]. by destruct Htrim as [? _]. }
  assert (Hlast : exists body d, content = body ++ [d] /\ is_space d = false).
  { destruct Htrim as [_ Hl]. destruct (rev content) as [|d l] eqn:E.
    - apply (f_equal (@rev N)) in E. rewrite rev_involutive in E. by subst.
    - exists (rev l), d. split; [|done].
      apply (f_equal (@rev N)) in E. by rewrite rev_involutive in E. }
  set (y2 := MState (rev ws ++ rev marker ++ rev pre) (content ++ rest) []).
  set (y3 := MState (rev content ++ rev ws ++ rev marker ++ rev pre) rest []).
  set (tail := Alt (cat [Lit 10; Lit 10]) Eol).
  (* the end of the capture *)
  assert (Hend : exists z, m true tail (set_cap 1 y2 y3) Some = Some z /\
                           caps z = caps (set_cap 1 y2 y3)).
  { destruct (m true tail (set_cap 1 y2 y3) Some) as [z|] eqn:E.
    - exists z. split; [done|].
      apply m_caps in E as (y & Hc & [= ->]); [done | reflexivity].
    - exfalso. revert E. destruct Hrest as [-> | (rest' & ->)].
      + eapply (m_complete true tail _ (_, [])); [|reflexivity|done].
        right. split; reflexivity.
      + eapply (m_complete true tail _ (10 :: 10 :: _, rest')); [|reflexivity|done].
        left. eexists (10 :: _, 10 :: rest'). split; by exists 10. }
  destruct Hend as (z & Hz & Hcaps).
  (* no end inside the statement *)
  assert (Hnone : forall u v, content = u ++ v -> v <> [] ->
            m true tail (set_cap 1 y2 (MState (rev u ++ before y2) (v ++ rest) [])) Some = None).
  { intros u v -> Hv.
    destruct (m true tail (set_cap 1 y2 (MState (rev u ++ before y2) (v ++ rest) [])) Some)
      as [z'|] eqn:E; [|done].
    exfalso. apply m_sound in E as (y & Hm & _).
    destruct Hm as [(s1 & (c1 & Ha & _ & Hc1) & (c2 & Hb & _ & Hc2)) | [_ Hm]].
    - simpl in Ha, Hb. unfold lit_eq in Hc1, Hc2.
      apply N.eqb_eq in Hc1, Hc2.
      apply (canon_other 10 c1 eq_refl eq_refl) in Hc1.
      apply (canon_other 10 c2 eq_refl eq_refl) in Hc2. subst c1 c2.
      rewrite Hb in Ha. destruct v as [|v1 [|v2 v]]; [done| |].
      + destruct Hlast as (body & d & Hbody & Hd).
        simpl in Ha. inversion Ha; subst.
        apply app_inj_tail in Hbody as [_ <-]. done.
      + simpl in Ha. inversion Ha; subst.
        assert (Hin : includes (u ++ 10 :: 10 :: v) [10; 10] = true).
        { apply includes_spec. by exists u, v. }
        congruence.
    - simpl in Hm. by destruct v. }
  (* the match *)
  assert (Hm : m true (source re_sql_prefix)
                 (MState (rev pre) (marker ++ ws ++ content ++ rest) []) Some = Some z).
  { change (source re_sql_prefix)
      with (Seq (word (js "SQL:"))
             (Seq (Star true (Class is_space)) (Seq (Group 1 (Star false (Class any_char))) tail))).
    rewrite m_seq, (m_word true (js "SQL:") marker); [|by apply lit_eq_letters].
    cbv beta. rewrite m_seq.
    apply (m_star_greedy_class true); [exact Hhead | exact Hws |].
    cbv beta. fold y2. rewrite m_seq, m_group.
    apply (m_star_lazy_any true content rest); [|exact Hz].
    intros u v Hu Hv. exact (Hnone u v Hu Hv). }
  (* the search *)
  assert (Hexec : exec re_sql_prefix (pre ++ marker ++ ws ++ content ++ rest)
                  = Some (MState (rev pre) (marker ++ ws ++ content ++ rest) [], z)).
  { unfold exec. cbn [ignoreCase re_sql_prefix]. rewrite (scan_skip true).
    - rewrite app_nil_r. by apply scan_here.
    - intros u v -> Hv q (s1 & Hw & _).
      apply matches_word in Hw as (mid & Hmid & _ & Hall).
      apply lit_eq_letters in Hall. simpl in Hmid.
      apply (Hfirst (length u)).
      { rewrite length_app. destruct v; [done | simpl; lia]. }
      rewrite <- app_assoc, Hmid. by apply word_at_here. }
  unfold sql_prefix_pattern, trimmed_group, match_group. rewrite Hexec, Hcaps.
  unfold set_cap, lookup_cap. cbn [caps find fst snd after y2 y3].
  replace (length (content ++ rest) - length rest)%nat with (length content)
    by (rewrite length_app; lia).
  change (1 =? 1)%nat with true. cbv iota. cbn [snd].
  rewrite take_app_length, (trim_trimmed _ Htrim).
  unfold nonempty. by destruct content.
Qed.


(** ** The body of the WHERE clause *)

Lemma m_wordb icase x k :
  m icase WordB x k = if xorb (word_before x) (word_after x) then k x else None.
Proof. reflexivity. Qed.

(** The body that [whereMatch[1]] holds, on a statement whose first WHERE
    is followed by white space, a body and the first boundary after it. *)
Lemma where_clause_found pre kw ws body rest :
  (forall i, (i < length pre)%nat ->
     ~ word_at (js "WHERE") (pre ++ kw ++ ws ++ body ++ rest) i) ->
  match rev pre with [] => true | c :: _ => negb (is_word c) end = true ->
  same_letters kw (js "WHERE") ->
  ws <> [] -> forallb is_space ws = true ->
  match body ++ rest with [] => True | ch :: _ => is_space ch = false end ->
  (forall u v, body = u ++ v -> v <> [] ->
     ~ boundary_at (rev u ++ rev ws ++ rev kw ++ rev pre, v ++ rest)) ->
  boundary_at (rev body ++ rev ws ++ rev kw ++ rev pre, rest) ->
  where_clause (pre ++ kw ++ ws ++ body ++ rest) = Some (trim body).
Proof.
  intros Hfirst Hbound Hkw Hne Hws Hhead Hinside Hend.
  set (y2 := MState (rev ws ++ rev kw ++ rev pre) (body ++ rest) []).
  set (y3 := MState (rev body ++ rev ws ++ rev kw ++ rev pre) rest []).
  assert (Hz : exists z, m true where_boundary (set_cap 1 y2 y3) Some = Some z /\
                         caps z = caps (set_cap 1 y2 y3)).
  { destruct (m true where_boundary (set_cap 1 y2 y3) Some) as [z|] eqn:E.
    - exists z. split; [done|].
      apply m_caps in E as (y & Hc & [= ->]); [done | reflexivity].
    - exfalso. revert E. destruct Hend as (q & Hq).
      eapply (m_complete true where_boundary _ q); [exact Hq | reflexivity | done]. }
  destruct Hz as (z & Hz & Hcaps).
  assert (Hnone : forall u v, body = u ++ v -> v <> [] ->
            m true where_boundary
              (set_cap 1 y2 (MState (rev u ++ before y2) (v ++ rest) [])) Some = None).
  { intros u v Hu Hv.
    destruct (m true where_boundary
                (set_cap 1 y2 (MState (rev u ++ before y2) (v ++ rest) [])) Some)
      as [z'|] eqn:E; [|done].
    exfalso. apply m_sound in E as (y & Hm & _).
    apply (Hinside u v Hu Hv). by exists (at_index y). }
  assert (Hk : is_word (match kw with [] => 0 | k :: _ => k end) = true).
  { pose proof (same_letters_length _ _ Hkw). destruct kw as [|k kw]; [done|].
    eapply word_head; [exact Hkw | reflexivity]. }
  assert (Hm : m true (source re_where_body)
                 (MState (rev pre) (kw ++ ws ++ body ++ rest) []) Some = Some z).
  { change (source re_where_body)
      with (Seq WordB (Seq (word (js "WHERE"))
             (Seq (Plus true (Class is_space))
                (Seq (Group 1 (Star false (Class any_char))) where_boundary)))).
    rewrite m_seq, m_wordb.
    replace (xorb _ _) with true.
    2:{ unfold word_before, word_after. cbn [before after].
        destruct kw as [|k kw]; [done|]. simpl in Hk |- *. rewrite Hk.
        destruct (rev pre) as [|c ?]; [done|]. by destruct (is_word c). }
    rewrite m_seq, (m_word true (js "WHERE") kw); [|by apply lit_eq_letters].
    cbv beta. rewrite m_seq.
    apply (m_plus_greedy_class true); [exact Hhead | exact Hne | exact Hws |].
    cbv beta. fold y2. rewrite m_seq, m_group.
    apply (m_star_lazy_any true body rest); [|exact Hz].
    intros u v Hu Hv. exact (Hnone u v Hu Hv). }
  assert (Hexec : exec re_where_body (pre ++ kw ++ ws ++ body ++ rest)
                  = Some (MState (rev pre) (kw ++ ws ++ body ++ rest) [], z)).
  { unfold exec. cbn [ignoreCase re_where_body]. rewrite (scan_skip true).
    - rewrite app_nil_r. by apply scan_here.
    - intros u v -> Hv q (s1 & [-> _] & s2 & Hw & _).
      apply matches_word in Hw as (mid & Hmid & _ & Hall).
      apply lit_eq_letters in Hall. simpl in Hmid.
      apply (Hfirst (length u)).
      { rewrite length_app. destruct v; [done | simpl; lia]. }
      rewrite <- app_assoc, Hmid. by apply word_at_here. }
  unfold where_clause, match_group. rewrite Hexec, Hcaps.
  unfold set_cap, lookup_cap. cbn [caps find fst snd after y2 y3].
  replace (length (body ++ rest) - length rest)%nat with (length body)
    by (rewrite length_app; lia).
  change (1 =? 1)%nat with true. cbv iota. cbn [snd].
  by rewrite take_app_length.
Qed.

Lemma word_bounds c : is_word c = true -> 48 <= c <= 122.
Proof.
  unfold is_word, is_upper, is_lower, is_digit.
  compare_units.
Qed.

Lemma word_not_space c : is_word c = true -> is_space c = false.
Proof.
  intros H. apply word_bounds in H. unfold is_space.
  repeat match goal with
         | |- context [(c =? ?k)] =>
             replace (c =? k) with false by (symmetry; apply N.eqb_neq; lia)
         end.
  replace (8192 <=? c) with false by (symmetry; apply N.leb_gt; lia).
  reflexivity.
Qed.

Lemma words_no_space l : forallb is_word l = true -> forall ws, ws <> [] ->
  forallb is_space ws = true -> forall u v, l <> u ++ ws ++ v.
Proof.
  intros Hl ws Hne Hws u v ->. destruct ws as [|c ws]; [done|].
  rewrite !forallb_app in Hl. simpl in Hl, Hws.
  apply andb_prop in Hl as [_ Hl]. apply andb_prop in Hl as [Hl _].
  apply andb_prop in Hl as [Hc _]. apply andb_prop in Hws as [Hs _].
  apply word_not_space in Hc. congruence.
Qed.

(** Every statement [SELECT * FROM t WHERE x], [x] an identifier that does
    not begin with LIMIT, is rejected with an error that quotes [x]. *)
Lemma bare_column_rejected x l :
  x <> [] -> forallb is_word x = true ->
  ~ same_letters (firstn 5 x) (js "LIMIT") ->
  sanitize (js "SELECT * FROM t WHERE " ++ x) l =
    Rejected (js "SQL query appears incomplete. The WHERE clause is missing a condition. Found: WHERE "
              ++ x).
Proof.
  intros Hne Hx Hlimit.
  assert (Hlast : exists body d, x = body ++ [d] /\ is_word d = true).
  { destruct (rev x) as [|d r] eqn:E.
    - apply (f_equal (@rev N)) in E. rewrite rev_involutive in E. by subst.
    - apply (f_equal (@rev N)) in E. rewrite rev_involutive in E. simpl in E.
      exists (rev r), d. split; [done|]. subst x. rewrite forallb_app in Hx.
      apply andb_prop in Hx as [_ Hx]. simpl in Hx. by apply andb_prop in Hx as [? _]. }
  destruct Hlast as (xb & d & Hxd & Hd).
  assert (Hfirstc : match x with [] => True | c :: _ => is_space c = false end).
  { destruct x as [|c x]; [done|]. simpl in Hx. apply andb_prop in Hx as [Hc _].
    by apply word_not_space. }
  assert (Htrim : trimmed x).
  { split; [exact Hfirstc|]. rewrite Hxd, rev_app_distr. simpl. by apply word_not_space. }
  (* the text needs no cleaning *)
  destruct (clean_statement (js "SELECT") (js " * FROM t WHERE " ++ x)
              (js "SELECT * FROM t WHERE " ++ xb) d) as [Hclean Hst].
  { reflexivity. }
  { rewrite Hxd. by rewrite <- !app_assoc. }
  { by apply word_not_space. }
  { intros ->. done. }
  { intros ->. done. }
  change (js "SELECT" ++ js " * FROM t WHERE " ++ x)
    with (js "SELECT * FROM t WHERE " ++ x) in Hclean, Hst.
  (* its WHERE body is the identifier *)
  assert (Hwhere : where_clause (js "SELECT * FROM t WHERE " ++ x) = Some x).
  { rewrite <- (trim_trimmed x Htrim) at 2.
    change (js "SELECT * FROM t WHERE " ++ x)
      with (js "SELECT * FROM t " ++ js "WHERE" ++ js " " ++ x).
    rewrite <- (app_nil_r x) at 1.
    apply where_clause_found; try done.
    - intros i Hi. unfold word_at.
      do 16 (destruct i as [|i]; [vm_compute; discriminate|]).
      simpl in Hi. lia.
    - by rewrite app_nil_r.
    - intros u v Hu Hv (q & Hq). rewrite app_nil_r in Hq.
      assert (Hv' : forallb is_word v = true).
      { rewrite Hu, forallb_app in Hx. by apply andb_prop in Hx as [_ ?]. }
      destruct Hq as [Hq | [Hq | [Hq | [_ Hq]]]].
      + destruct Hq as (s1 & [-> _] & s2 & Hw & s3 & Hsp & _).
        apply matches_word in Hw as (mid & Hmid & _ & _).
        apply plus_class in Hsp as (sp & Hsp1 & Hsp2 & Hsp3 & _).
        simpl in Hmid. rewrite Hsp3 in Hmid.
        by eapply (words_no_space v Hv' sp Hsp1 Hsp2 mid).
      + destruct Hq as (s1 & [-> _] & s2 & Hw & s3 & Hsp & _).
        apply matches_word in Hw as (mid & Hmid & _ & _).
        apply plus_class in Hsp as (sp & Hsp1 & Hsp2 & Hsp3 & _).
        simpl in Hmid. rewrite Hsp3 in Hmid.
        by eapply (words_no_space v Hv' sp Hsp1 Hsp2 mid).
      + destruct Hq as (s1 & [-> Hb] & Hw).
        apply matches_word in Hw as (mid & Hmid & _ & Hall).
        apply lit_eq_letters in Hall. simpl in Hmid, Hb.
        destruct u as [|u0 u].
        * simpl in Hu. subst v. apply Hlimit.
          rewrite Hmid. pose proof (same_letters_length _ _ Hall) as Hlen.
          change (length (js "LIMIT")) with 5%nat in Hlen.
          by rewrite <- Hlen, take_app_length.
        * assert (Hlastu : exists ub ud, rev (u0 :: u) = ud :: ub /\ is_word ud = true).
          { destruct (rev (u0 :: u)) as [|ud ub] eqn:E.
            - apply (f_equal (@rev N)) in E. by rewrite rev_involutive in E.
            - exists ub, ud. split; [done|].
              apply (f_equal (@rev N)) in E. rewrite rev_involutive in E. simpl in E.
              rewrite Hu, E, !forallb_app in Hx.
              apply andb_prop in Hx as [Hx _]. apply andb_prop in Hx as [_ Hx].
              simpl in Hx. by apply andb_prop in Hx as [? _]. }
          destruct Hlastu as (ub & ud & Hrev & Hud). rewrite Hrev in Hb. simpl in Hb.
          rewrite Hud in Hb. destruct v as [|v0 v]; [done|]. simpl in Hv', Hb.
          apply andb_prop in Hv' as [Hv0 _]. by rewrite Hv0 in Hb.
      + simpl in Hq. by destruct v.
    - exists (rev x ++ rev (js " ") ++ rev (js "WHERE") ++ rev (js "SELECT * FROM t "), []).
      right. right. right. done. }
  assert (Hdang : dangling_condition x).
  { exists [], x, [], [], [], []. rewrite !app_nil_r. repeat split; auto. }
  assert (Hsel : contains_word (js "SELECT") (clean (js "SELECT * FROM t WHERE " ++ x))).
  { rewrite Hclean. by exists [], (js "SELECT"), (js " * FROM t WHERE " ++ x). }
  rewrite (sanitize_where _ l x Hsel); [|by rewrite Hst].
  apply incomplete_spec in Hdang. by rewrite Hdang.
Qed.

(** C6. The code misses the claim on an identifier that begins with the
    letters LIMIT: the boundary LIMIT of the WHERE body is matched as the
    head of a word (the pattern has no [\b] after it), so the body of
    [SELECT * FROM t WHERE y] ends before [y], is empty, and the statement
    is accepted, although its WHERE clause is the single identifier [y].
    The same cut rejects a statement whose condition is complete, with an
    error that quotes the part before the identifier. *)
Theorem limit_prefix_ends_where_body y l :
  forallb is_word y = true ->
  same_letters (firstn 5 y) (js "LIMIT") ->
  dangling_condition y /\
  where_clause (js "SELECT * FROM t WHERE " ++ y) = Some [] /\
  (exists limited, sanitize (js "SELECT * FROM t WHERE " ++ y) l = Accepted limited) /\
  has_symbol (js "flag AND limit_col > 3") /\
  sanitize (js "SELECT * FROM t WHERE flag AND limit_col > 3") l
  = Rejected (js "SQL query appears incomplete. The WHERE clause is missing a condition. Found: WHERE flag AND").
Proof.
  intros Hy Hlimit.
  pose proof (same_letters_length _ _ Hlimit) as Hlen.
  assert (Hne : y <> []) by (intros ->; discriminate Hlen).
  assert (Hlast : exists body d, y = body ++ [d] /\ is_word d = true).
  { destruct (rev y) as [|d r] eqn:E.
    - apply (f_equal (@rev N)) in E. rewrite rev_involutive in E. by subst.
    - apply (f_equal (@rev N)) in E. rewrite rev_involutive in E. simpl in E.
      exists (rev r), d. split; [done|]. subst y. rewrite forallb_app in Hy.
      apply andb_prop in Hy as [_ Hy]. simpl in Hy. by apply andb_prop in Hy as [? _]. }
  destruct Hlast as (yb & d & Hyd & Hd).
  assert (Hfirstc : match y with [] => True | c :: _ => is_space c = false end).
  { destruct y as [|c y]; [done|]. simpl in Hy. apply andb_prop in Hy as [Hc _].
    by apply word_not_space. }
  destruct (clean_statement (js "SELECT") (js " * FROM t WHERE " ++ y)
              (js "SELECT * FROM t WHERE " ++ yb) d) as [Hclean Hst].
  { reflexivity. }
  { rewrite Hyd. by rewrite <- !app_assoc. }
  { by apply word_not_space. }
  { intros ->. done. }
  { intros ->. done. }
  change (js "SELECT" ++ js " * FROM t WHERE " ++ y)
    with (js "SELECT * FROM t WHERE " ++ y) in Hclean, Hst.
  assert (Hwhere : where_clause (js "SELECT * FROM t WHERE " ++ y) = Some []).
  { change (js "SELECT * FROM t WHERE " ++ y)
      with (js "SELECT * FROM t " ++ js "WHERE" ++ js " " ++ [] ++ y).
    change (@Some jsstring []) with (Some (trim [])).
    apply where_clause_found; try done.
    - intros i Hi. unfold word_at.
      do 16 (destruct i as [|i]; [vm_compute; discriminate|]).
      simpl in Hi. lia.
    - intros u v Hu Hv. by destruct u, v.
    - exists (rev (firstn 5 y) ++ rev [] ++ rev (js " ") ++ rev (js "WHERE")
              ++ rev (js "SELECT * FROM t "), skipn 5 y).
      right. right. left.
      exists (rev [] ++ rev (js " ") ++ rev (js "WHERE") ++ rev (js "SELECT * FROM t "), y).
      split.
      + split; [done|]. destruct y as [|c y]; [done|].
        simpl in Hy. apply andb_prop in Hy as [Hc _]. simpl. by rewrite Hc.
      + rewrite <- (firstn_skipn 5 y) at 1.
        apply word_matches. by apply lit_eq_letters. }
  split; [|split; [exact Hwhere|split; [|split]]].
  - exists [], y, [], [], [], []. rewrite !app_nil_r. repeat split; auto.
  - assert (Hsel : contains_word (js "SELECT") (clean (js "SELECT * FROM t WHERE " ++ y))).
    { rewrite Hclean. by exists [], (js "SELECT"), (js " * FROM t WHERE " ++ y). }
    rewrite (sanitize_where _ l [] Hsel); [|by rewrite Hst].
    change (test re_incomplete []) with false. cbv iota. by eexists.
  - exists 62. split; [|by vm_compute].
    apply list_elem_of_In. vm_compute. tauto.
  - assert (Hsel : contains_word (js "SELECT")
                     (clean (js "SELECT * FROM t WHERE flag AND limit_col > 3"))).
    { apply select_spec. by vm_compute. }
    rewrite (sanitize_where _ l (js "flag AND") Hsel); [|by vm_compute].
    by change (test re_incomplete (js "flag AND")) with true.
Qed.

Lemma limit_prefix_ends_where_body_witness :
  dangling_condition (js "limit_flag") /\
  where_clause (js "SELECT * FROM t WHERE " ++ js "limit_flag") = Some [] /\
  (exists limited,
     sanitize (js "SELECT * FROM t WHERE " ++ js "limit_flag") 200 = Accepted limited) /\
  has_symbol (js "flag AND limit_col > 3") /\
  sanitize (js "SELECT * FROM t WHERE flag AND limit_col > 3") 200
  = Rejected (js "SQL query appears incomplete. The WHERE clause is missing a condition. Found: WHERE flag AND").
Proof.
  apply (limit_prefix_ends_where_body (js "limit_flag") 200); reflexivity.
Defined.

(** ** [extractSql]: the order of the patterns *)

Lemma match_group_none re n s : ~ matches_in re s -> match_group re n s = None.
Proof.
  intros H. apply test_false in H. unfold test in H. unfold match_group.
  by destruct (exec re s) as [[x y]|].
Qed.

Lemma no_match_no_statement text : no_pattern_matches text -> extractSql text = None.
Proof.
  intros (H1 & H2 & H3 & H4 & H5). unfold extractSql.
  destruct (negb (nonempty text)); [done|].
  unfold sql_prefix_pattern, code_block_pattern, select_span_pattern,
    any_select_pattern, trimmed_group.
  by rewrite !match_group_none.
Qed.

(** C9, as the code has it. When the first [SQL:] of a text (in any case)
    is followed, after white space, by a statement that is not empty and
    runs to the first blank line or to the end of the text, [extractSql]
    returns that statement, whatever the text holds besides, a fenced code
    block included; and on a text in which none of the five patterns
    matches, [extractSql] returns null. *)
Theorem extraction_precedence :
  (forall pre marker ws content rest,
     (forall i, (i < length pre)%nat ->
        ~ word_at (js "SQL:") (pre ++ marker ++ ws ++ content ++ rest) i) ->
     same_letters marker (js "SQL:") ->
     forallb is_space ws = true ->
     content <> [] -> trimmed content -> includes content [10; 10] = false ->
     blank_or_end rest ->
     extractSql (pre ++ marker ++ ws ++ content ++ rest) = Some content) /\
  (forall text, no_pattern_matches text -> extractSql text = None).
Proof.
  split.
  - intros pre marker ws content rest Hfirst Hmarker Hws Hne Htrim Hblank Hrest.
    unfold extractSql.
    rewrite (sql_prefix_found pre marker ws content rest) by done.
    pose proof (same_letters_length _ _ Hmarker) as Hlen.
    unfold nonempty. rewrite !length_app, Hlen. simpl.
    by destruct (length pre).
  - intros text Hnone. unfold extractSql.
    destruct Hnone as (H1 & H2 & H3 & H4 & H5).
    destruct (negb (nonempty text)); [done|].
    unfold sql_prefix_pattern, code_block_pattern, select_span_pattern,
      any_select_pattern, trimmed_group.
    by rewrite !match_group_none.
Qed.

Lemma extraction_precedence_witness :
  extractSql answer_with_both = Some (js "SELECT 1").
Proof.
  apply (proj1 extraction_precedence (js "Here:" ++ [10]) (js "SQL:") (js " ")
           (js "SELECT 1") ([10; 10] ++ fenced_block)).
  - intros i Hi. unfold word_at.
    do 6 (destruct i as [|i]; [vm_compute; discriminate|]).
    simpl in Hi. lia.
  - reflexivity.
  - reflexivity.
  - discriminate.
  - split; reflexivity.
  - reflexivity.
  - right. by eexists.
Defined.

(** C9, as the claim states it, fails: the text holds a fenced block and a
    line that begins with [SQL:], and the statement of the block is what
    [extractSql] returns, because nothing follows the [SQL:]. *)
Lemma empty_prefix_yields_block :
  includes answer_with_empty_prefix ([10] ++ js "SQL:") = true /\
  includes answer_with_empty_prefix fenced_block = true /\
  sql_prefix_pattern answer_with_empty_prefix = None /\
  extractSql answer_with_empty_prefix = Some (js "SELECT 2").
Proof. repeat split; vm_compute; reflexivity. Qed.

(** A text that holds no [SQL:], no SELECT and no code fence yields
    null. *)
Lemma nothing_to_extract text :
  ~ contains_word (js "SQL:") text -> ~ contains_word (js "SELECT") text ->
  ~ contains_word (js "```") text ->
  extractSql text = None.
Proof.
  intros Hsql Hsel Hfence. apply no_match_no_statement.
  assert (Hword : forall w pre post q,
            matches true (word w) (rev pre, post) q -> contains_word w (pre ++ post)).
  { intros w pre post q Hw.
    apply matches_word in Hw as (mid & Hmid & _ & Hall). apply lit_eq_letters in Hall.
    simpl in Hmid. exists pre, mid, (snd q). by rewrite Hmid. }
  assert (Hfence' : forall w, contains_word (js "```" ++ w) text -> False).
  { intros w (pre & mid & post & -> & Hmid). apply Hfence.
    unfold same_letters in Hmid. rewrite map_app in Hmid.
    exists pre, (firstn 3 mid), (skipn 3 mid ++ post).
    split; [by rewrite (app_assoc (firstn 3 mid)), firstn_skipn|].
    unfold same_letters. rewrite <- firstn_map, Hmid. reflexivity. }
  repeat split.
  - intros (pre & post & q & -> & s1 & Hw & _). eauto.
  - intros (pre & post & q & -> & s1 & Hw & _). apply (Hfence' (js "sql")). eauto.
  - intros (pre & post & q & -> & s1 & Hw & _). apply (Hfence' []). eauto.
  - intros (pre & post & q & -> & s1 & (s2 & Hw & _) & _). eauto.
  - intros (pre & post & q & -> & s1 & Hw & _). eauto.
Qed.




(** ** What reaches the engine *)

Lemma select_statement_begins s :
  contains_word (js "SELECT") s ->
  exists kw rest, select_statement s = kw ++ rest /\ same_letters kw (js "SELECT").
Proof.
  intros Hs. apply select_spec in Hs. unfold test in Hs.
  unfold select_statement, search.
  destruct (exec re_select s) as [[x y]|] eqn:E; [|discriminate].
  unfold exec in E. apply scan_sound in E as (pre & post & -> & -> & Hm & _).
  apply matches_word in Hm as (mid & Hmid & _ & Hall). apply lit_eq_letters in Hall.
  simpl in Hmid. cbn [before]. rewrite app_nil_r, length_rev.
  exists mid, (after y). split; [|exact Hall].
  destruct pre as [|c pre]; [exact Hmid|].
  replace (0 <? length (c :: pre))%nat with true by (symmetry; apply Nat.ltb_lt; simpl; lia).
  unfold substring_from. by rewrite drop_app_length.
Qed.

(** Whatever [executeSqlite] hands to the engine begins with the keyword
    SELECT, in any case. *)
Lemma forwarded_begins_with_select sql l limited :
  sanitize sql l = Accepted limited ->
  exists kw rest, limited = kw ++ rest /\ same_letters kw (js "SELECT").
Proof.
  intros Hs. apply sanitize_accepted in Hs as [Hgate ->].
  apply select_gate_spec, select_statement_begins in Hgate as (kw & rest & Hst & Hkw).
  cbv zeta. rewrite Hst. destruct (test re_limit _).
  - by exists kw, rest.
  - exists kw, (rest ++ js " LIMIT " ++ decimal (Z.to_N (clamp_limit l))).
    by rewrite <- app_assoc.
Qed.

(** ** [sanitizeName] *)

Lemma scan_class icase p : forall aft bef,
  scan icase (Class p) bef aft =
    match span (fun c => negb (p c)) aft with
    | (ws, c :: rest) =>
        Some (MState (rev ws ++ bef) (c :: rest) [], MState (c :: rev ws ++ bef) rest [])
    | (_, []) => None
    end.
Proof.
  induction aft as [|c aft IH]; intros bef; [reflexivity|].
  cbn [scan span]. change (m icase (Class p)) with (char_matcher p).
  unfold char_matcher, advance. cbn [after before caps].
  destruct (p c) eqn:E; [reflexivity|]. cbn [negb].
  rewrite IH. destruct (span _ aft) as [ws [|c' rest]]; [reflexivity|].
  simpl. by rewrite <- !app_assoc.
Qed.

Lemma span_spec p : forall s ws r,
  span p s = (ws, r) ->
  s = ws ++ r /\ forallb p ws = true /\ match r with [] => True | c :: _ => p c = false end.
Proof.
  induction s as [|c s IH]; intros ws r H; simpl in H.
  - by inversion H.
  - destruct (p c) eqn:E.
    + destruct (span p s) as [a b]. inversion H; subst.
      destruct (IH a r eq_refl) as (-> & Ha & Hr). simpl. by rewrite E, Ha.
    + inversion H; subst. by rewrite E.
Qed.

(** [sanitizeName] replaces, one by one, the characters that are no word
    characters by an underscore. *)
Lemma sanitizeName_spec s :
  sanitizeName s = map (fun c => if is_word c then c else 95) s.
Proof.
  unfold sanitizeName, replace_all.
  rewrite <- (app_nil_l (map _ s)).
  assert (H : forall fuel bef aft acc, (length aft < fuel)%nat ->
            replace_all_loop re_unsafe_char (js "_") fuel bef aft acc
            = acc ++ map (fun c => if is_word c then c else 95) aft);
    [|apply H; lia].
  induction fuel as [|fuel IH]; intros bef aft acc Hlen; [lia|].
  cbn [replace_all_loop ignoreCase source re_unsafe_char].
  rewrite scan_class.
  destruct (span _ aft) as [ws r] eqn:E. apply span_spec in E as (-> & Hws & Hr).
  assert (Hid : map (fun c => if is_word c then c else 95) ws = ws).
  { clear -Hws. induction ws as [|c ws IH]; [done|]. simpl in *.
    apply andb_prop in Hws as [Hc Hws]. rewrite negb_involutive in Hc.
    by rewrite Hc, IH. }
  rewrite map_app, Hid. destruct r as [|c rest].
  - reflexivity.
  - unfold progressed. cbn [after before].
    replace (length rest <? length (c :: rest))%nat with true
      by (symmetry; apply Nat.ltb_lt; simpl; lia).
    rewrite IH by (rewrite length_app in Hlen; simpl in Hlen; lia).
    rewrite length_app, length_rev, Nat.add_sub, take_app_length.
    rewrite negb_involutive in Hr. cbn [map]. rewrite Hr.
    by rewrite <- !app_assoc.
Qed.

(** ** The cells of the store after the ingestion *)

Lemma create_table_text_cells name cols t :
  text_cells t -> text_cells (create_table name cols t).
Proof.
  intros Ht name' tb row Htb Hrow. unfold create_table in Htb.
  destruct (t !! name) eqn:E; [by eapply Ht|].
  rewrite lookup_insert in Htb. destruct (decide (name = name')) as [<-|Hne].
  - inversion Htb; subst. by apply elem_of_nil in Hrow.
  - by eapply Ht.
Qed.

Lemma add_row_text_cells name r t :
  Forall (fun kv : jsstring * value => text_or_null (snd kv)) r ->
  text_cells t -> text_cells (add_row name r t).
Proof.
  intros Hr Ht name' tb row Htb Hrow. unfold add_row in Htb.
  destruct (t !! name) as [tb0|] eqn:E; [|by eapply Ht].
  rewrite lookup_insert in Htb. destruct (decide (name = name')) as [<-|Hne].
  - inversion Htb; subst. simpl in Hrow. apply elem_of_app in Hrow as [Hrow|Hrow].
    + by eapply Ht.
    + apply list_elem_of_singleton in Hrow. by subst.
  - by eapply Ht.
Qed.

Lemma insert_records_text_cells number_text insert_throws table cols records :
  forall w, text_cells (tables w) ->
    text_cells (tables (insert_records number_text insert_throws table cols records w)).
Proof.
  induction records as [|r rest IH]; intros w Hw; simpl; [done|].
  destruct (insert_throws _ _); [done|]. apply IH.
  rewrite tables_with_tables. apply add_row_text_cells; [|done].
  apply combine_cells.
Qed.

(** The ingestion stores texts and nulls only. *)
Lemma ingestion_text_cells number_text insert_throws w :
  text_cells (tables w) ->
  text_cells (tables (initSqliteFromCsvs number_text insert_throws w)).
Proof.
  unfold initSqliteFromCsvs. intros Hw.
  assert (Hfold : forall fs w', text_cells (tables w') ->
            text_cells (tables (fold_left (ingest_file number_text insert_throws) fs w'))).
  { induction fs as [|f fs IH]; intros w' Hw'; [done|]. simpl. apply IH.
    rewrite ingest_prepared. destruct (prepared _ _) as [[[t first] rest]|]; [|done].
    cbv zeta. rewrite !tables_logged, !tables_with_tables.
    set (w1 := logged (countSql t) _).
    assert (Hw1 : text_cells (tables w1)) by (by apply create_table_text_cells).
    destruct (0 <? _)%nat; [exact Hw1|].
    by apply insert_records_text_cells. }
  destruct (dir_exists w); by apply Hfold.
Qed.


(** * More of the code *)

(** ** [sanitizeName] *)

(** X1. [sanitizeName] keeps the length of a name, and its result holds
    letters, digits and underscores only; a name that holds nothing else
    comes back as it is, so that sanitizing twice is sanitizing once. *)
Theorem sanitizeName_safe s :
  length (sanitizeName s) = length s /\
  forallb is_word (sanitizeName s) = true /\
  (forallb is_word s = true -> sanitizeName s = s) /\
  sanitizeName (sanitizeName s) = sanitizeName s.
Proof.
  assert (Hw : forall t, forallb is_word (map (fun c => if is_word c then c else 95) t) = true).
  { induction t as [|c t IH]; [done|]. simpl. rewrite IH, andb_true_r.
    by destruct (is_word c) eqn:E. }
  assert (Hid : forall t, forallb is_word t = true ->
            map (fun c => if is_word c then c else 95) t = t).
  { induction t as [|c t IH]; [done|]. simpl. intros [Hc Ht]%andb_prop.
    by rewrite Hc, IH. }
  rewrite !sanitizeName_spec. repeat split.
  - by rewrite length_map.
  - apply Hw.
  - apply Hid.
  - apply Hid, Hw.
Qed.

(** ** The ingestion: what it keeps, what it skips, what it creates *)

Lemma sanitizeName_word s : forallb is_word (sanitizeName s) = true.
Proof.
  rewrite sanitizeName_spec. induction s as [|c s IH]; [done|].
  simpl. rewrite IH, andb_true_r. by destruct (is_word c) eqn:E.
Qed.

Lemma filter_bool_cons {A} (p : A -> bool) x xs :
  filter p (x :: xs) = if p x then x :: filter p xs else filter p xs.
Proof.
  rewrite filter_cons. destruct (p x) eqn:E; by destruct (decide _) as [H|H].
Qed.

Lemma extends_refl t : extends t t.
Proof. intros name [cols rs] H. exists []. by rewrite app_nil_r. Qed.

Lemma extends_trans t1 t2 t3 : extends t1 t2 -> extends t2 t3 -> extends t1 t3.
Proof.
  intros H12 H23 name tb H. destruct (H12 _ _ H) as [more1 H1].
  destruct (H23 _ _ H1) as [more2 H2]. simpl in H2.
  exists (more1 ++ more2). by rewrite app_assoc.
Qed.

Lemma create_table_extends name cols t : extends t (create_table name cols t).
Proof.
  intros name' tb H. unfold create_table.
  destruct (t !! name) eqn:E; [by apply extends_refl|].
  exists []. rewrite app_nil_r, lookup_insert.
  destruct (decide (name = name')) as [<-|Hne]; [congruence|].
  by destruct tb.
Qed.

Lemma add_row_extends name r t : extends t (add_row name r t).
Proof.
  intros name' tb H. unfold add_row.
  destruct (t !! name) as [tb0|] eqn:E; [|by apply extends_refl].
  rewrite lookup_insert. destruct (decide (name = name')) as [<-|Hne].
  - exists [r]. congruence.
  - by apply extends_refl.
Qed.

Section IngestMore.

Variable number_text : number -> jsstring.
Variable insert_throws : jsstring -> list value -> bool.

Lemma insert_records_extends table cols records : forall w,
  extends (tables w) (tables (insert_records number_text insert_throws table cols records w)).
Proof.
  induction records as [|r rest IH]; intros w; simpl; [apply extends_refl|].
  destruct (insert_throws _ _); [apply extends_refl|].
  eapply extends_trans; [|apply IH]. rewrite tables_with_tables.
  apply add_row_extends.
Qed.

Lemma ingest_file_extends w f :
  extends (tables w) (tables (ingest_file number_text insert_throws w f)).
Proof.
  rewrite ingest_prepared. destruct (prepared _ _) as [[[t first] rest]|]; [|apply extends_refl].
  cbv zeta. rewrite !tables_logged, !tables_with_tables.
  set (w1 := logged (countSql t) _).
  assert (H1 : extends (tables w) (tables w1)).
  { unfold w1. rewrite tables_logged, tables_with_tables. apply create_table_extends. }
  destruct (0 <? _)%nat; [exact H1|].
  eapply extends_trans; [exact H1|apply insert_records_extends].
Qed.

Lemma fold_extends fs : forall w,
  extends (tables w) (tables (fold_left (ingest_file number_text insert_throws) fs w)).
Proof.
  induction fs as [|f fs IH]; intros w; simpl; [apply extends_refl|].
  eapply extends_trans; [apply ingest_file_extends|apply IH].
Qed.

(** X2. The ingestion removes nothing: a table that the store holds before
    it is there afterwards, with its columns and with its rows first, in
    their order; what the ingestion adds comes after them. *)
Theorem ingestion_keeps_rows w name tb :
  tables w !! name = Some tb ->
  exists more,
    tables (initSqliteFromCsvs number_text insert_throws w) !! name
      = Some (Table (columns tb) (rows tb ++ more)).
Proof.
  intros H. unfold initSqliteFromCsvs.
  destruct (dir_exists w); by apply fold_extends.
Qed.

(** A file that cannot be loaded leaves the process as it is. *)
Lemma ingest_file_not_loadable w f :
  is_csv f = true -> loadable f = false ->
  ingest_file number_text insert_throws w f = w.
Proof.
  unfold loadable, ingest_file. intros ->. simpl.
  by destruct (file_records f) as [[|r rs]|].
Qed.

Lemma fold_loadable fs : forall w,
  fold_left (ingest_file number_text insert_throws) (filter is_csv fs) w
  = fold_left (ingest_file number_text insert_throws) (filter loadable fs) w.
Proof.
  induction fs as [|f fs IH]; intros w; [done|].
  rewrite !filter_bool_cons. unfold loadable at 1.
  destruct (is_csv f) eqn:Ec; simpl; [|apply IH].
  destruct (file_records f) as [[|r rs]|] eqn:Er; simpl.
  - rewrite ingest_file_not_loadable; [apply IH|done|]. unfold loadable. by rewrite Ec, Er.
  - by rewrite IH.
  - rewrite ingest_file_not_loadable; [apply IH|done|]. unfold loadable. by rewrite Ec, Er.
Qed.

Lemma insert_records_with_files table cols records fs : forall w,
  insert_records number_text insert_throws table cols records (with_files fs w)
  = with_files fs (insert_records number_text insert_throws table cols records w).
Proof.
  induction records as [|r rest IH]; intros w; simpl; [done|].
  destruct (insert_throws _ _); [done|]. apply (IH (with_tables _ (logged _ w))).
Qed.

Lemma ingest_file_with_files w f fs :
  ingest_file number_text insert_throws (with_files fs w) f
  = with_files fs (ingest_file number_text insert_throws w f).
Proof.
  rewrite !ingest_prepared. destruct (prepared _ _) as [[[t first] rest]|]; [|done].
  cbv zeta. cbn [tables with_files logged with_tables forwarded dir_exists dir_files].
  destruct (0 <? _)%nat; [done|].
  apply (insert_records_with_files _ _ _ fs
           (logged (countSql t) (with_tables _ (logged (createSql t (map fst first)) w)))).
Qed.

Lemma fold_with_files gs fs : forall w,
  fold_left (ingest_file number_text insert_throws) gs (with_files fs w)
  = with_files fs (fold_left (ingest_file number_text insert_throws) gs w).
Proof.
  induction gs as [|g gs IH]; intros w; simpl; [done|].
  by rewrite ingest_file_with_files, IH.
Qed.

Lemma filter_loadable_csv (fs : list file) : filter is_csv (filter loadable fs) = filter loadable fs.
Proof.
  induction fs as [|f fs IH]; [done|]. rewrite filter_bool_cons.
  destruct (loadable f) eqn:E; [|done]. rewrite filter_bool_cons.
  unfold loadable in E. apply andb_prop in E as [-> _]. by rewrite IH.
Qed.

Lemma filter_loadable_twice (fs : list file) : filter loadable (filter loadable fs) = filter loadable fs.
Proof.
  induction fs as [|f fs IH]; [done|]. rewrite filter_bool_cons.
  destruct (loadable f) eqn:E; [|done]. by rewrite filter_bool_cons, E, IH.
Qed.

(** X3. The files of the data directory that are no CSV files, those that
    cannot be read or parsed and those without a record change nothing, and
    stop nothing: the tables after the ingestion, and the statements that
    the engine was given, are those of the ingestion of the other files
    alone. *)
Theorem ingestion_skips_files w :
  let w' := with_files (filter loadable (dir_files w)) w in
  tables (initSqliteFromCsvs number_text insert_throws w)
    = tables (initSqliteFromCsvs number_text insert_throws w') /\
  forwarded (initSqliteFromCsvs number_text insert_throws w)
    = forwarded (initSqliteFromCsvs number_text insert_throws w').
Proof.
  cbv zeta. unfold initSqliteFromCsvs.
  change (dir_exists (with_files _ w)) with (dir_exists w).
  destruct (dir_exists w) eqn:Ed; [|done].
  change (dir_files (with_files ?fs w)) with fs.
  rewrite filter_loadable_csv, fold_loadable, fold_with_files. done.
Qed.

(** X4. After the ingestion the data directory exists: a missing one is
    created, and then nothing is ingested.  So [executeSqlite] no longer
    stops at its directory check: an accepted statement is handed to the
    engine. *)
Theorem ingestion_creates_directory w :
  dir_exists (initSqliteFromCsvs number_text insert_throws w) = true /\
  (dir_exists w = false ->
   tables (initSqliteFromCsvs number_text insert_throws w) = tables w /\
   forwarded (initSqliteFromCsvs number_text insert_throws w) = forwarded w) /\
  (forall alasql sql limit st,
     sanitize sql (match limit with Some l => l | None => 200%Z end) = Accepted st ->
     fst (executeSqlite alasql (initSqliteFromCsvs number_text insert_throws w) sql limit)
       = logged st (initSqliteFromCsvs number_text insert_throws w)).
Proof.
  assert (Hd : dir_exists (initSqliteFromCsvs number_text insert_throws w) = true).
  { unfold initSqliteFromCsvs.
    destruct (dir_exists w) eqn:Ed; by rewrite (proj1 (fold_keeps_directory _ _ _ _)). }
  split; [exact Hd|]. split.
  - intros Ed. unfold initSqliteFromCsvs. by rewrite Ed.
  - intros alasql sql limit st Hs. by erewrite executeSqlite_accepted.
Qed.

End IngestMore.

(** ** The tables that the ingestion creates *)

Lemma add_row_lookup name r t name' tb :
  add_row name r t !! name' = Some tb ->
  exists tb0, t !! name' = Some tb0 /\ columns tb0 = columns tb.
Proof.
  unfold add_row. destruct (t !! name) as [tb1|] eqn:E; [|by exists tb].
  rewrite lookup_insert. destruct (decide (name = name')) as [<-|Hne].
  - intros [= <-]. by exists tb1.
  - by exists tb.
Qed.

Lemma create_table_lookup name cols t name' tb :
  create_table name cols t !! name' = Some tb ->
  t !! name' = Some tb \/ (t !! name' = None /\ name' = name /\ tb = Table cols []).
Proof.
  unfold create_table. destruct (t !! name) as [tb1|] eqn:E; [by left|].
  rewrite lookup_insert. destruct (decide (name = name')) as [<-|Hne].
  - intros [= <-]. by right.
  - by left.
Qed.

Section CreatedTables.

Variable number_text : number -> jsstring.
Variable insert_throws : jsstring -> list value -> bool.

Lemma insert_records_lookup table cols records : forall w name tb,
  tables (insert_records number_text insert_throws table cols records w) !! name = Some tb ->
  exists tb0, tables w !! name = Some tb0 /\ columns tb0 = columns tb.
Proof.
  induction records as [|r rest IH]; intros w name tb; simpl; [by exists tb|].
  destruct (insert_throws _ _); [by exists tb|].
  intros (tb1 & H1 & Hc1)%IH. rewrite tables_with_tables in H1.
  apply add_row_lookup in H1 as (tb0 & H0 & Hc0). exists tb0. split; [done|congruence].
Qed.

Lemma ingest_file_lookup w f name tb :
  tables (ingest_file number_text insert_throws w f) !! name = Some tb ->
  (exists tb0, tables w !! name = Some tb0 /\ columns tb0 = columns tb) \/
  (tables w !! name = None /\ name = sanitizeName (basename_csv (file_name f)) /\
   exists cols, columns tb = map sanitizeName cols).
Proof.
  rewrite ingest_prepared. destruct (prepared _ _) as [[[t first] rest]|] eqn:Ep;
    [|intros H; left; by exists tb].
  apply prepared_name in Ep as Hn. cbv zeta.
  set (w1 := logged (countSql t) _).
  assert (H1 : forall tb1, tables w1 !! name = Some tb1 ->
            (exists tb0, tables w !! name = Some tb0 /\ columns tb0 = columns tb1) \/
            (tables w !! name = None /\ name = sanitizeName (basename_csv (file_name f)) /\
             exists cols, columns tb1 = map sanitizeName cols)).
  { intros tb1. unfold w1. rewrite tables_logged, tables_with_tables, tables_logged.
    intros [H|(Hnone & -> & ->)]%create_table_lookup.
    - left. by exists tb1.
    - right. repeat split; [done|done|]. by exists (map fst first). }
  destruct (0 <? _)%nat; [apply H1|].
  intros (tb1 & Htb1 & Hc)%insert_records_lookup. rewrite <- Hc. by apply H1.
Qed.

Lemma fold_lookup fs : forall w name tb,
  tables (fold_left (ingest_file number_text insert_throws) fs w) !! name = Some tb ->
  (exists tb0, tables w !! name = Some tb0 /\ columns tb0 = columns tb) \/
  (tables w !! name = None /\
   (exists f, f ∈ fs /\ name = sanitizeName (basename_csv (file_name f))) /\
   exists cols, columns tb = map sanitizeName cols).
Proof.
  induction fs as [|f fs IH]; intros w name tb; simpl.
  - intros H. left. by exists tb.
  - intros [(tb1 & H1 & Hc1)|(Hnone & (g & Hg & Hname) & Hcols)]%IH.
    + apply ingest_file_lookup in H1 as [(tb0 & H0 & Hc0)|(Hnone & Hname & cols & Hcols)].
      * left. exists tb0. split; [done|congruence].
      * right. repeat split; [done| |].
        -- exists f. split; [apply list_elem_of_here|done].
        -- exists cols. congruence.
    + destruct (tables w !! name) as [tb0|] eqn:E0.
      * destruct (ingest_file_extends number_text insert_throws w f _ _ E0) as [more Hm].
        congruence.
      * right. repeat split; [|done]. exists g. split; [by apply list_elem_of_further|done].
Qed.

(** X5. A table that the ingestion creates is named after a CSV file of
    the data directory: its name is the sanitized base name of that file.
    The name and the names of its columns hold letters, digits and
    underscores only, whatever the file and its header hold. *)
Theorem ingested_table_names w name tb :
  tables (initSqliteFromCsvs number_text insert_throws w) !! name = Some tb ->
  tables w !! name = None ->
  (exists f, f ∈ dir_files w /\ is_csv f = true /\
             name = sanitizeName (basename_csv (file_name f))) /\
  forallb is_word name = true /\
  Forall (fun c => forallb is_word c = true) (columns tb).
Proof.
  unfold initSqliteFromCsvs. intros H Hnone.
  assert (Hf : exists fs, fs = (if dir_exists w then dir_files w else []) /\
            tables (fold_left (ingest_file number_text insert_throws) (filter is_csv fs) w)
              !! name = Some tb).
  { destruct (dir_exists w); eexists; split; try reflexivity; exact H. }
  destruct Hf as (fs & Hfs & Hf).
  apply fold_lookup in Hf as [(tb0 & H0 & _)|(_ & (f & Hin & ->) & cols & ->)]; [congruence|].
  apply list_elem_of_filter in Hin as [Hcsv Hin]. repeat split.
  - exists f. split; [|split; [by destruct (is_csv f)|done]].
    subst fs. destruct (dir_exists w); [done|by apply elem_of_nil in Hin].
  - apply sanitizeName_word.
  - apply Forall_forall. intros c (c0 & -> & _)%list_elem_of_fmap. apply sanitizeName_word.
Qed.

End CreatedTables.

Lemma ingestion_keeps_rows_witness :
  exists more,
    tables (initSqliteFromCsvs no_number_text accepts_all
              (with_files [File (js "t.csv") (Some [empty_b_record])] table_t_world))
      !! js "t"
    = Some (Table (columns (Table [js "a"; js "b"] []))
                  (rows (Table [js "a"; js "b"] []) ++ more)).
Proof.
  apply (ingestion_keeps_rows no_number_text accepts_all
           (with_files [File (js "t.csv") (Some [empty_b_record])] table_t_world)
           (js "t") (Table [js "a"; js "b"] [])).
  vm_compute. reflexivity.
Defined.

Lemma ingested_table_names_witness :
  (exists f, f ∈ dir_files hyphen_world /\ is_csv f = true /\
             js "a_b" = sanitizeName (basename_csv (file_name f))) /\
  forallb is_word (js "a_b") = true /\
  Forall (fun c => forallb is_word c = true) (columns (Table [js "id"] [[(js "id", VString (js "1"))]])).
Proof.
  apply (ingested_table_names no_number_text accepts_all hyphen_world (js "a_b")
           (Table [js "id"] [[(js "id", VString (js "1"))]])).
  - vm_compute. reflexivity.
  - vm_compute. reflexivity.
Defined.

(** ** The derived columns *)

Lemma prop_set_prop r c v c' :
  prop (set_prop r c v) c' = if decide (c = c') then v else prop r c'.
Proof.
  induction r as [|[k u] r IH]; simpl.
  - by destruct (decide (c = c')).
  - destruct (decide (k = c)) as [->|Hk]; simpl.
    + by destruct (decide (c = c')).
    + rewrite IH. destruct (decide (k = c')) as [->|Hk']; [|done].
      by destruct (decide (c = c')) as [->|].
Qed.

(** The first match of a greedy run of a class: the first run of the
    text. *)
Lemma scan_plus_class icase p : forall aft bef,
  scan icase (Plus true (Class p)) bef aft =
    match span (fun c => negb (p c)) aft with
    | (ws, c :: rest) =>
        Some (MState (rev ws ++ bef) (c :: rest) [],
              MState (rev (fst (span p (c :: rest))) ++ rev ws ++ bef)
                     (snd (span p (c :: rest))) [])
    | (_, []) => None
    end.
Proof.
  induction aft as [|c aft IH]; intros bef; [reflexivity|].
  destruct (p c) eqn:E.
  - replace (span (fun c => negb (p c)) (c :: aft)) with (@nil N, c :: aft)
      by (simpl; by rewrite E).
    destruct (span p (c :: aft)) as [run rest'] eqn:Es.
    apply span_spec in Es as Hs. destruct Hs as (Hrun & Hall & Hrest).
    assert (Hne : run <> []).
    { intros ->. simpl in Es. rewrite E in Es. by destruct (span p aft). }
    cbn [fst snd rev app scan]. rewrite Hrun.
    by rewrite (m_plus_greedy_class icase p run rest' bef [] Some
                  (MState (rev run ++ bef) rest' [])).
  - replace (span (fun c => negb (p c)) (c :: aft))
      with (c :: fst (span (fun c => negb (p c)) aft), snd (span (fun c => negb (p c)) aft))
      by (simpl; rewrite E; simpl; by destruct (span _ aft)).
    cbn [scan].
    replace (m icase (Plus true (Class p)) (MState bef (c :: aft) []) Some) with (@None mstate)
      by (cbn; unfold char_matcher; cbn; by rewrite E).
    rewrite IH. destruct (span _ aft) as [ws [|c' rest]]; [reflexivity|].
    simpl. by rewrite <- !app_assoc.
Qed.

Lemma span_length p s : (length (snd (span p s)) <= length s)%nat.
Proof.
  induction s as [|c s IH]; simpl; [lia|].
  destruct (p c); [|simpl; lia]. destruct (span p s). simpl in *. lia.
Qed.

Lemma filter_all {A} (p : A -> bool) (l : list A) :
  forallb p l = true -> filter p l = l.
Proof.
  induction l as [|x l IH]; [done|]. simpl. intros [Hx Hl]%andb_prop.
  by rewrite filter_bool_cons, Hx, IH.
Qed.

Lemma filter_none {A} (p : A -> bool) (l : list A) :
  forallb p l = true -> filter (fun x => negb (p x)) l = [].
Proof.
  induction l as [|x l IH]; [done|]. simpl. intros [Hx Hl]%andb_prop.
  by rewrite filter_bool_cons, Hx, IH.
Qed.

(** Removing every run of a class leaves the other characters. *)
Lemma replace_all_runs p s :
  replace_all (RegExp (Plus true (Class p)) false) [] s = filter (fun c => negb (p c)) s.
Proof.
  unfold replace_all.
  rewrite <- (app_nil_l (filter _ s)).
  assert (H : forall fuel bef aft acc, (length aft < fuel)%nat ->
            replace_all_loop (RegExp (Plus true (Class p)) false) [] fuel bef aft acc
            = acc ++ filter (fun c => negb (p c)) aft);
    [|apply H; lia].
  induction fuel as [|fuel IH]; intros bef aft acc Hlen; [lia|].
  cbn [replace_all_loop ignoreCase source].
  rewrite scan_plus_class.
  destruct (span _ aft) as [ws r] eqn:E. apply span_spec in E as (-> & Hws & Hr).
  rewrite filter_app, (filter_all _ ws Hws). destruct r as [|c rest].
  - reflexivity.
  - destruct (span p (c :: rest)) as [run rest'] eqn:Es.
    pose proof (span_length p (c :: rest)) as Hl. rewrite Es in Hl.
    apply span_spec in Es as Hs. destruct Hs as (Hrun & Hall & Hrest).
    cbn [fst snd]. unfold progressed. cbn [after before].
    assert (Hne : run <> []).
    { intros ->. apply negb_false_iff in Hr. simpl in Es. rewrite Hr in Es.
      by destruct (span p rest). }
    assert (Hlt : (length rest' < length (c :: rest))%nat).
    { rewrite Hrun, length_app. destruct run; [done|simpl; lia]. }
    replace (length rest' <? length (c :: rest))%nat with true
      by (symmetry; by apply Nat.ltb_lt).
    rewrite IH by (rewrite length_app in Hlen; lia).
    rewrite length_app, length_rev, Nat.add_sub, take_app_length.
    rewrite Hrun, (filter_app _ run rest').
    rewrite (filter_none p run Hall).
    by rewrite app_nil_r, app_nil_l, app_assoc.
Qed.

Lemma filter_numeric_char (s : jsstring) :
  filter (fun c => negb (negb (is_digit c || (c =? 46) || (c =? 45)))) s
  = filter numeric_char s.
Proof.
  induction s as [|c s IH]; [done|]. rewrite !filter_bool_cons, IH.
  unfold numeric_char. by rewrite negb_involutive.
Qed.

(** X6. The derived columns of [olist_order_items_dataset]: [price_num]
    holds the digits, dots and hyphens of the price, in their order, and is
    null when there is none (a missing or empty price included);
    [freight_num] holds the same of the freight value; the other fields of
    the record are as they were. *)
Theorem derived_price_columns number_text r :
  prop (derive_item number_text r) (js "price_num")
    = numeric_part (ToString number_text (or_empty (prop r (js "price")))) /\
  prop (derive_item number_text r) (js "freight_num")
    = numeric_part (ToString number_text (or_empty (prop r (js "freight_value")))) /\
  (forall c, c <> js "price_num" -> c <> js "freight_num" ->
     prop (derive_item number_text r) c = prop r c).
Proof.
  unfold derive_item, numeric_part, re_not_numeric. cbv zeta.
  rewrite !replace_all_runs, !filter_numeric_char. repeat split.
  - rewrite !prop_set_prop.
    destruct (decide (js "freight_num" = js "price_num")) as [E|_]; [discriminate E|].
    by destruct (decide (js "price_num" = js "price_num")).
  - rewrite prop_set_prop. by destruct (decide (js "freight_num" = js "freight_num")).
  - intros c H1 H2. rewrite !prop_set_prop.
    destruct (decide (js "freight_num" = c)) as [E|_]; [by subst|].
    destruct (decide (js "price_num" = c)) as [E|_]; [by subst|]. done.
Qed.

Lemma months n : 1 <= n <= 12 ->
  n = 1 \/ n = 2 \/ n = 3 \/ n = 4 \/ n = 5 \/ n = 6 \/
  n = 7 \/ n = 8 \/ n = 9 \/ n = 10 \/ n = 11 \/ n = 12.
Proof. lia. Qed.

(** X7. The derived columns of [olist_orders_dataset], for a purchase
    timestamp that (trimmed) is a day, a month and a year of two, two and
    four characters with a separator after the day and after the month,
    and possibly a time: [order_purchase_iso] is year-month-day followed
    by the text from the twelfth character on, or by 00:00 when there is
    none; [order_year_month] is year-month; and for a month from 01 to 12,
    [order_quarter] is the year and its quarter, Q1 to Q4. *)
Theorem derived_order_columns r s d1 d2 s1 m1 m2 s2 y1 y2 y3 y4 rest :
  prop r (js "order_purchase_timestamp") = VString s ->
  trim s = [d1; d2; s1; m1; m2; s2; y1; y2; y3; y4] ++ rest ->
  exists r',
    derive_order r = Returns r' /\
    prop r' (js "order_purchase_iso")
      = VString ([y1; y2; y3; y4] ++ js "-" ++ [m1; m2] ++ js "-" ++ [d1; d2] ++ js " "
                 ++ match rest with
                    | _ :: (_ :: _) as time => time
                    | _ => js "00:00"
                    end) /\
    prop r' (js "order_year_month") = VString ([y1; y2; y3; y4] ++ js "-" ++ [m1; m2]) /\
    (forall n, 1 <= n <= 12 -> m1 = 48 + n / 10 -> m2 = 48 + n mod 10 ->
       prop r' (js "order_quarter")
         = VString ([y1; y2; y3; y4] ++ js "-Q" ++ [48 + (n + 2) / 3])).
Proof.
  intros Hts Htrim. unfold derive_order. rewrite Hts.
  assert (Hs : s <> []) by (intros ->; discriminate Htrim).
  unfold or_empty, truthy.
  replace (negb (length s =? 0)%nat) with true by (by destruct s).
  rewrite Htrim.
  eexists. split; [reflexivity|].
  rewrite !prop_set_prop.
  destruct (decide (js "order_quarter" = js "order_purchase_iso")) as [E|_]; [discriminate E|].
  destruct (decide (js "order_year_month" = js "order_purchase_iso")) as [E|_]; [discriminate E|].
  destruct (decide (js "order_purchase_iso" = js "order_purchase_iso")) as [_|E]; [|done].
  destruct (decide (js "order_quarter" = js "order_year_month")) as [E|_]; [discriminate E|].
  destruct (decide (js "order_year_month" = js "order_year_month")) as [_|E]; [|done].
  destruct (decide (js "order_quarter" = js "order_quarter")) as [_|E]; [|done].
  repeat split.
  - destruct rest as [|c [|c' t]]; reflexivity.
  - intros n Hn -> ->.
    destruct (months n Hn) as [->|[->|[->|[->|[->|[->|[->|[->|[->|[->|[->| ->]]]]]]]]]]];
      reflexivity.
Qed.

Lemma derived_order_columns_witness :
  exists r',
    derive_order [(js "order_purchase_timestamp", VString (js "02/10/2017 10:56"))]
      = Returns r' /\
    prop r' (js "order_purchase_iso") = VString (js "2017-10-02 10:56") /\
    prop r' (js "order_year_month") = VString (js "2017-10") /\
    (forall n, 1 <= n <= 12 -> 49 = 48 + n / 10 -> 48 = 48 + n mod 10 ->
       prop r' (js "order_quarter") = VString (js "2017-Q" ++ [48 + (n + 2) / 3])).
Proof.
  apply (derived_order_columns
           [(js "order_purchase_timestamp", VString (js "02/10/2017 10:56"))]
           (js "02/10/2017 10:56") 48 50 47 49 48 47 50 48 49 55 (js " 10:56"));
    reflexivity.
Defined.

(** ** The column that an error names *)

Lemma m_opt icase g r x k :
  m icase (Opt g r) x k =
    let d := fun y => if progressed x y then k y else None in
    if g then
      match m icase r (clear (groups r) x) d with
      | Some z => Some z
      | None => k x
      end
    else
      match k x with
      | Some z => Some z
      | None => m icase r (clear (groups r) x) d
      end.
Proof. reflexivity. Qed.

Lemma word_not_quote c : is_word c = true -> is_quote c = false.
Proof.
  intros H. apply word_bounds in H as Hb. unfold is_quote.
  destruct (N.eqb_spec c 39); [lia|]. destruct (N.eqb_spec c 34); [lia|].
  destruct (N.eqb_spec c 96); [|done]. subst. done.
Qed.

(** An optional class at the end of a pattern always matches, and captures
    nothing. *)
Lemma m_opt_class_last icase f x :
  exists z, m icase (Opt true (Class f)) x Some = Some z /\ caps z = caps x.
Proof.
  destruct (m icase (Opt true (Class f)) x Some) as [z|] eqn:E.
  - exists z. split; [done|]. apply m_caps in E as (y & Hc & [= ->]); [done|reflexivity].
  - exfalso. rewrite m_opt in E. cbv zeta in E.
    by destruct (m icase (Class f) (clear (groups (Class f)) x) _).
Qed.

(** [errorMessage.match(/['"`]?(\w+)['"`]?/)[1]] is the first word of the
    message. *)
Lemma quoted_word_first pre w rest :
  forallb (fun c => negb (is_word c)) pre = true ->
  w <> [] -> forallb is_word w = true ->
  match rest with [] => True | c :: _ => is_word c = false end ->
  match_group re_quoted_word 1 (pre ++ w ++ rest) = Some (Some w).
Proof.
  intros Hpre Hne Hw Hrest.
  set (tail := Opt true (Class is_quote)).
  set (body := Seq (Group 1 (Plus true (Class is_word))) tail).
  assert (Hw0 : exists c w', w = c :: w' /\ is_word c = true).
  { destruct w as [|c w']; [done|]. exists c, w'. simpl in Hw.
    by apply andb_prop in Hw as [-> _]. }
  (* the word and what follows it, from a state [x] at the start of the word *)
  assert (Hbody : forall b, exists z,
            m false body (MState b (w ++ rest) []) Some = Some z /\
            lookup_cap 1 (caps z) = Some w).
  { intros b.
    set (x := MState b (w ++ rest) []).
    set (y := MState (rev w ++ b) rest []).
    destruct (m_opt_class_last false is_quote (set_cap 1 x y)) as (z & Hz & Hc).
    exists z. split.
    - unfold body. rewrite m_seq, m_group.
      apply (m_plus_greedy_class false); [exact Hrest|exact Hne|exact Hw|].
      cbv beta. exact Hz.
    - rewrite Hc. unfold set_cap, lookup_cap. cbn [caps find fst snd after x y].
      replace (length (w ++ rest) - length rest)%nat with (length w)
        by (rewrite length_app; lia).
      change (1 =? 1)%nat with true. cbv iota. cbn [snd]. by rewrite take_app_length. }
  (* no match at an index from which the next character is no word character *)
  assert (Hno : forall b c c' t q,
            is_word c = false -> is_word c' = false ->
            ~ matches false (source re_quoted_word) (b, c :: c' :: t) q).
  { intros b c c' t q Hc Hc' (s1 & Hopt & s2 & Hplus & _).
    apply (plus_class false true is_word) in Hplus as (run & Hrun & Hall & Hsnd & _).
    destruct run as [|r0 run]; [done|]. simpl in Hall. apply andb_prop in Hall as [Hr0 _].
    destruct Hopt as [->|[(ch & Ha & _ & _) _]].
    - simpl in Hsnd. congruence.
    - destruct s1 as [s1b s1a]. simpl in Ha, Hsnd. subst s1a.
      injection Ha as _ Ha. subst c'. rewrite Hc' in Hr0. discriminate. }
  assert (Hno1 : forall b c q,
            is_word c = false -> is_quote c = false ->
            ~ matches false (source re_quoted_word) (b, c :: w ++ rest) q).
  { intros b c q Hc Hq (s1 & Hopt & s2 & Hplus & _).
    apply (plus_class false true is_word) in Hplus as (run & Hrun & Hall & Hsnd & _).
    destruct run as [|r0 run]; [done|]. simpl in Hall. apply andb_prop in Hall as [Hr0 _].
    destruct Hopt as [->|[(ch & Ha & _ & Hch) _]].
    - simpl in Hsnd. congruence.
    - simpl in Ha. injection Ha as Ha _. congruence. }
  unfold match_group, exec. cbn [ignoreCase source re_quoted_word].
  destruct (rev pre) as [|q rp] eqn:Erev.
  - (* the text begins with the word *)
    apply (f_equal (@rev N)) in Erev. rewrite rev_involutive in Erev. subst pre.
    destruct (Hbody []) as (z & Hz & Hcap).
    rewrite app_nil_l, (scan_here false _ [] _ z); [by rewrite Hcap|].
    change (cat _) with (Seq tail body). rewrite m_seq. unfold tail at 1. rewrite m_opt.
    cbv zeta. destruct Hw0 as (c & w' & -> & Hc).
    cbn [m groups]. rewrite clear_nil. cbn [app]. rewrite m_class.
    by rewrite (word_not_quote c Hc).
  - apply (f_equal (@rev N)) in Erev. rewrite rev_involutive in Erev. simpl in Erev.
    subst pre. rewrite forallb_app in Hpre. apply andb_prop in Hpre as [Hrp Hq].
    simpl in Hq. rewrite andb_true_r in Hq. apply negb_true_iff in Hq.
    rewrite <- app_assoc. cbn [app].
    destruct (is_quote q) eqn:Eq.
    + (* a quote before the word: the match begins at the quote *)
      destruct (Hbody (q :: rev (rev rp))) as (z & Hz & Hcap).
      rewrite (scan_skip false).
      * rewrite app_nil_r.
        rewrite (scan_here false _ _ _ z); [by rewrite Hcap|].
        change (cat _) with (Seq tail body). rewrite m_seq. unfold tail at 1. rewrite m_opt.
        cbv zeta. cbn [m groups]. rewrite clear_nil, m_class, Eq.
        unfold progressed. cbn [after].
        replace (length (w ++ rest) <? length (q :: w ++ rest))%nat with true
          by (symmetry; apply Nat.ltb_lt; simpl; lia).
        by rewrite Hz.
      * intros u v Huv Hv q0. rewrite app_nil_r.
        destruct v as [|c v]; [done|].
        assert (Hc : is_word c = false).
        { apply (f_equal (forallb (fun c => negb (is_word c)))) in Huv.
          rewrite Hrp, forallb_app in Huv. symmetry in Huv.
          apply andb_prop in Huv as [_ Hv']. simpl in Hv'.
          apply andb_prop in Hv' as [Hc _]. by apply negb_true_iff in Hc. }
        destruct v as [|c' v].
        -- by apply Hno.
        -- apply Hno; [done|].
           apply (f_equal (forallb (fun c => negb (is_word c)))) in Huv.
           rewrite Hrp, forallb_app in Huv. symmetry in Huv.
           apply andb_prop in Huv as [_ Hv']. simpl in Hv'.
           apply andb_prop in Hv' as [_ Hv']. apply andb_prop in Hv' as [Hc' _].
           by apply negb_true_iff in Hc'.
    + (* no quote before the word: the match begins at the word *)
      destruct (Hbody (rev (rev rp ++ [q]))) as (z & Hz & Hcap).
      change (rev rp ++ q :: w ++ rest) with (rev rp ++ [q] ++ w ++ rest).
      rewrite app_assoc, (scan_skip false).
      * rewrite app_nil_r.
        rewrite (scan_here false _ _ _ z); [by rewrite Hcap|].
        change (cat _) with (Seq tail body). rewrite m_seq. unfold tail at 1. rewrite m_opt.
        cbv zeta. destruct Hw0 as (c & w' & -> & Hc).
        cbn [m groups]. rewrite clear_nil. cbn [app]. rewrite m_class.
        rewrite (word_not_quote c Hc). exact Hz.
      * intros u v Huv Hv q0. rewrite app_nil_r.
        destruct v as [|c v]; [done|].
        assert (Hall : forallb (fun c => negb (is_word c)) (c :: v) = true).
        { apply (f_equal (forallb (fun c => negb (is_word c)))) in Huv.
          rewrite forallb_app, Hrp in Huv. simpl in Huv. rewrite Hq in Huv. simpl in Huv.
          symmetry in Huv. rewrite forallb_app in Huv. by apply andb_prop in Huv as [_ Hv']. }
        simpl in Hall. apply andb_prop in Hall as [Hc Hall]. apply negb_true_iff in Hc.
        destruct v as [|c' v].
        -- assert (c = q) as ->.
           { apply (f_equal (@rev N)) in Huv. rewrite !rev_app_distr in Huv.
             simpl in Huv. by inversion Huv. }
           simpl. by apply Hno1.
        -- simpl in Hall. apply andb_prop in Hall as [Hc' _]. apply negb_true_iff in Hc'.
           simpl. by apply Hno.
Qed.

Lemma first_word_found message c :
  c ∈ message -> is_word c = true ->
  match_group re_quoted_word 1 message = Some (Some (first_word message)).
Proof.
  intros Hin Hc. unfold first_word.
  destruct (span (fun c => negb (is_word c)) message) as [pre r] eqn:E1.
  apply span_spec in E1 as (-> & Hpre & Hr). cbn [fst snd].
  destruct (span is_word r) as [w rest] eqn:E2.
  apply span_spec in E2 as (-> & Hw & Hrest). cbn [fst snd].
  apply quoted_word_first; [done| |done|done].
  intros ->. simpl in Hr. apply elem_of_app in Hin as [Hin|Hin].
  - rewrite forallb_forall in Hpre. apply list_elem_of_In, Hpre in Hin.
    by rewrite Hc in Hin.
  - destruct rest as [|c' rest]; [by apply elem_of_nil in Hin|].
    apply negb_false_iff in Hr. congruence.
Qed.

Lemma includes_letter s t c t' :
  includes s t = true -> t = c :: t' -> c ∈ s.
Proof.
  intros (u & v & ->)%includes_spec ->. set_solver.
Qed.

(** X8. When the engine's error is about a column (its message holds "no
    such column", "Column" or "Cannot read properties of undefined", and is
    not about a table), the column that the returned error names is the
    first word of the engine's message: its first run of letters, digits
    and underscores, whatever the message says later. *)
Theorem column_error_names_first_word w message :
  includes message (js "no such table") = false ->
  includes message (js "Table") = false ->
  includes message (js "no such column") = true \/
  includes message (js "Column") = true \/
  includes message (js "Cannot read properties of undefined") = true ->
  describe_error w message = column_error (first_word message).
Proof.
  intros Ht1 Ht2 Hcol.
  assert (Hc : exists c, c ∈ message /\ is_word c = true).
  { destruct Hcol as [H|[H|H]].
    - exists 110. split; [|done]. by eapply includes_letter.
    - exists 67. split; [|done]. by eapply includes_letter.
    - exists 67. split; [|done]. by eapply includes_letter. }
  destruct Hc as (c & Hin & Hc).
  unfold describe_error.
  replace (length message =? 0)%nat with false
    by (destruct message; [by apply elem_of_nil in Hin|done]).
  cbv zeta. rewrite Ht1, Ht2. cbn [orb].
  replace (includes message (js "no such column") || includes message (js "Column")
           || includes message (js "Cannot read properties of undefined")) with true
    by (destruct Hcol as [-> | [-> | ->]]; by rewrite ?orb_true_r).
  by rewrite (first_word_found message c Hin Hc).
Qed.

Lemma column_error_names_first_word_witness :
  describe_error bare_world (js "no such column: price") = column_error (js "no").
Proof.
  apply (column_error_names_first_word bare_world (js "no such column: price"));
    [reflexivity|reflexivity|left; reflexivity].
Defined.

(** ** The cleaning of the statement *)

(** A text that ends in a character that is no white space and no
    semicolon has no trailing semicolons. *)
Lemma no_trailing_semicolons t body d :
  t = body ++ [d] -> is_space d = false -> d <> 59 ->
  test re_trailing_semicolons t = false.
Proof.
  intros Hlast Hsp Hsemi.
  apply test_false. intros (pre & post & q & Heq & s1 & Hplus & s2 & Hstar & [-> Hend]).
  apply (plus_class false true (lit_eq false 59)) in Hplus as (w1 & Hne & Hw1 & Ha & _).
  apply (star_class false true is_space) in Hstar as (w2 & Hw2 & Hb & _).
  simpl in Ha, Hb, Hend. rewrite Hend, app_nil_r in Hb.
  rewrite Heq in Hlast. rewrite Ha, Hb in Hlast.
  destruct (last_of_suffix pre (w1 ++ w2) body d Hlast) as (l' & Hl').
  { by destruct w1. }
  assert (Hd : forallb (fun c => (c =? 59) || is_space c) (w1 ++ w2) = true).
  { rewrite forallb_app. apply andb_true_intro. split.
    - eapply forallb_forall. intros x Hx.
      eapply forallb_forall in Hw1; [|exact Hx]. unfold lit_eq in Hw1. simpl in Hw1.
      by rewrite Hw1.
    - eapply forallb_forall. intros x Hx.
      eapply forallb_forall in Hw2; [|exact Hx]. rewrite Hw2. apply orb_true_r. }
  rewrite Hl', forallb_app in Hd. apply andb_prop in Hd as [_ Hd]. simpl in Hd.
  rewrite Hsp in Hd. destruct (N.eqb_spec d 59); [done|]. done.
Qed.

Lemma forallb_same {A} (f g : A -> bool) (l : list A) :
  (forall x, f x = g x) -> forallb f l = forallb g l.
Proof. intros H. induction l as [|x l IH]; [done|]. simpl. by rewrite H, IH. Qed.

Lemma backquotes_same : Forall2 (fun c ch => lit_eq true c ch = true) (js "```") (js "```").
Proof. by apply lit_eq_letters. Qed.

Lemma m_bol icase aft c k :
  m icase Bol (MState [] aft c) k = k (MState [] aft c).
Proof. reflexivity. Qed.

Lemma m_eol icase b c k :
  m icase Eol (MState b [] c) k = k (MState b [] c).
Proof. reflexivity. Qed.

(** The opening fence, with its language tag and its line end, is
    removed. *)
Lemma fence_open_removed lang rest :
  forallb is_word lang = true ->
  replace re_fence_open [] (js "```" ++ lang ++ 10 :: rest) = rest.
Proof.
  intros Hlang. unfold replace, exec. cbn [ignoreCase source re_fence_open].
  rewrite (scan_here true _ _ _
             (MState (10 :: rev lang ++ rev (js "```") ++ []) rest [])).
  - cbn [before after]. reflexivity.
  - change (cat _) with (Seq Bol (Seq (word (js "```"))
                          (Seq (Star true (Class is_word)) (Opt true (Lit 10))))).
    rewrite m_seq, m_bol, m_seq, (m_word true _ _ _ _ _ _ backquotes_same).
    cbv beta. rewrite m_seq.
    apply (m_star_greedy_class true); [done|exact Hlang|].
    cbv beta. rewrite m_opt. cbv zeta. cbn [groups]. rewrite clear_nil.
    rewrite (m_lit true 10 10) by reflexivity.
    unfold progressed. cbn [after length].
    replace (length rest <? S (length rest))%nat with true
      by (symmetry; apply Nat.ltb_lt; lia).
    reflexivity.
Qed.

(** The closing fence, with the line end before it, is removed. *)
Lemma fence_close_removed body :
  replace re_fence_close [] (body ++ 10 :: js "```") = body.
Proof.
  unfold replace, exec. cbn [ignoreCase source re_fence_close].
  change (body ++ 10 :: js "```") with (body ++ ([10] ++ js "```" ++ [])).
  rewrite (scan_skip true).
  - rewrite app_nil_r.
    rewrite (scan_here true _ _ _ (MState (rev (js "```") ++ 10 :: rev body) [] [])).
    + cbn [before after]. by rewrite rev_involutive, !app_nil_r.
    + change (cat _) with (Seq (Opt true (Lit 10)) (Seq (word (js "```")) Eol)).
      rewrite m_seq, m_opt. cbv zeta. cbn [groups]. rewrite clear_nil.
      cbn [app]. rewrite (m_lit true 10 10) by reflexivity.
      unfold progressed. cbn [after]. change (_ <? _)%nat with true. cbv iota.
      rewrite m_seq, (m_word true _ _ _ _ _ _ backquotes_same). reflexivity.
  - intros u v -> Hv q (s1 & Hopt & s2 & Hw & [-> Hend]).
    apply matches_word in Hw as (mid & Hmid & _ & Hall).
    apply opt_lit in Hopt as (w0 & Hw0 & Ha & _).
    simpl in Ha, Hend. rewrite Hend, app_nil_r in Hmid. rewrite Hmid in Ha.
    apply Forall2_length in Hall. simpl in Hall.
    apply (f_equal (@length N)) in Ha. rewrite !length_app in Ha. simpl in Ha.
    destruct v; [done|]. simpl in Ha.
    destruct Hw0 as [->|(ch & -> & _)]; simpl in Ha; lia.
Qed.

Lemma clean_fenced lang body :
  forallb is_word lang = true -> clean (fenced lang body) = body.
Proof.
  intros Hlang. unfold clean, fenced.
  assert (Hlast : js "```" ++ lang ++ [10] ++ body ++ [10] ++ js "```"
                  = (js "```" ++ lang ++ [10] ++ body ++ [10] ++ [96; 96]) ++ [96]).
  { by rewrite <- !app_assoc. }
  assert (Htrim : trim (js "```" ++ lang ++ [10] ++ body ++ [10] ++ js "```")
                  = js "```" ++ lang ++ [10] ++ body ++ [10] ++ js "```").
  { apply trim_trimmed. split; [done|].
    rewrite Hlast, rev_app_distr. done. }
  rewrite Htrim.
  rewrite (replace_no_match re_trailing_semicolons)
    by (by eapply (no_trailing_semicolons _ _ 96 Hlast)).
  change ([10] ++ body ++ [10] ++ js "```") with (10 :: (body ++ 10 :: js "```")).
  by rewrite fence_open_removed, fence_close_removed.
Qed.

(** X9. A statement inside a markdown fence, with or without a language
    tag: the cleaning removes the two fence lines and nothing else, so what
    stands between them is the cleaned text, a semicolon at its end
    included; and a text that needs no cleaning is executed inside a fence
    as it is without. *)
Theorem fenced_statement lang body :
  forallb is_word lang = true ->
  clean (fenced lang body) = body /\
  (clean body = body ->
   forall alasql w limit,
     executeSqlite alasql w (fenced lang body) limit = executeSqlite alasql w body limit).
Proof.
  intros Hlang. pose proof (clean_fenced lang body Hlang) as Hc. split; [exact Hc|].
  intros Hb alasql w limit. unfold executeSqlite, try_block, sanitize.
  by rewrite Hc, Hb.
Qed.

Lemma fenced_statement_witness :
  clean (fenced (js "sql") (js "SELECT 1")) = js "SELECT 1" /\
  forall alasql w limit,
    executeSqlite alasql w (fenced (js "sql") (js "SELECT 1")) limit
    = executeSqlite alasql w (js "SELECT 1") limit.
Proof.
  destruct (fenced_statement (js "sql") (js "SELECT 1") eq_refl) as [H1 H2].
  split; [exact H1|]. apply H2. reflexivity.
Defined.

(** A semicolon that ends the statement inside the fence is not removed:
    the limit is appended after it. *)
Lemma fenced_semicolon_stays :
  sanitize (fenced (js "sql") (js "SELECT 1;")) 200 = Accepted (js "SELECT 1; LIMIT 200") /\
  sanitize (js "SELECT 1;") 200 = Accepted (js "SELECT 1 LIMIT 200").
Proof. split; reflexivity. Qed.

Lemma trimStart_last body d :
  is_space d = false -> exists body', trimStart (body ++ [d]) = body' ++ [d].
Proof.
  intros Hd. induction body as [|c body IH]; simpl.
  - rewrite Hd. by exists [].
  - destruct (is_space c); [exact IH|]. by exists (c :: body).
Qed.

Lemma trimStart_app s t :
  forallb is_space s = false -> trimStart (s ++ t) = trimStart s ++ t.
Proof.
  induction s as [|c s IH]; [done|]. simpl.
  destruct (is_space c); [exact IH|done].
Qed.

Lemma trimStart_spaces ws t : forallb is_space ws = true -> trimStart (ws ++ t) = trimStart t.
Proof.
  induction ws as [|c ws IH]; [done|]. simpl. intros [-> H]%andb_prop. by apply IH.
Qed.

(** The trailing semicolons of a text that ends in one are removed from
    the first of them on. *)
Lemma trailing_semicolons_removed t body d semis :
  t = body ++ [d] -> is_space d = false -> d <> 59 ->
  semis <> [] -> forallb (N.eqb 59) semis = true ->
  replace re_trailing_semicolons [] (t ++ semis) = t.
Proof.
  intros Hlast Hsp Hsemi Hne Hsemis.
  unfold replace, exec. cbn [ignoreCase source re_trailing_semicolons].
  rewrite <- (app_nil_r semis) at 1. rewrite (scan_skip false).
  - rewrite app_nil_r.
    rewrite (scan_here false _ _ _ (MState (rev semis ++ rev t) [] [])).
    + cbn [before after]. by rewrite rev_involutive, app_nil_r.
    + change (cat _) with (Seq (Plus true (Lit 59)) (Seq (Star true (Class is_space)) Eol)).
      rewrite m_seq.
      change (m false (Plus true (Lit 59)))
        with (m false (Plus true (Class (lit_eq false 59)))).
      apply (m_plus_greedy_class false); [done|exact Hne| |].
      * rewrite <- Hsemis. apply forallb_same. intros c. unfold lit_eq. apply N.eqb_sym.
      * reflexivity.
  - intros u v Huv Hv q (s1 & Hplus & s2 & Hstar & [-> Hend]).
    apply (plus_class false true (lit_eq false 59)) in Hplus as (w1 & Hne1 & Hw1 & Ha & _).
    apply (star_class false true is_space) in Hstar as (w2 & Hw2 & Hb & _).
    destruct s1 as [s1b s1a]. simpl in Ha, Hb, Hend.
    rewrite Hend, app_nil_r in Hb. subst s1a. rewrite ?app_nil_r in Ha.
    (* the last character of [semis] is a semicolon, so [w2] is empty *)
    destruct (rev semis) as [|x rs] eqn:Ers.
    { apply (f_equal (@rev N)) in Ers. rewrite rev_involutive in Ers. by subst. }
    apply (f_equal (@rev N)) in Ers. rewrite rev_involutive in Ers. simpl in Ers.
    assert (Hx : x = 59).
    { rewrite Ers, forallb_app in Hsemis. apply andb_prop in Hsemis as [_ H].
      cbn [forallb] in H. rewrite andb_true_r in H. symmetry. by apply N.eqb_eq. }
    subst x. destruct (rev w2) as [|y rw2] eqn:Erw.
    + apply (f_equal (@rev N)) in Erw. rewrite rev_involutive in Erw. simpl in Erw.
      subst w2. rewrite app_nil_r in Ha.
      (* then [v], a part of [t] that holds its last character, is semicolons *)
      rewrite Hlast in Huv.
      destruct (last_of_suffix u v body d (eq_sym Huv) Hv) as (v' & ->).
      assert (Hd : forallb (lit_eq false 59) ((v' ++ [d]) ++ semis) = true)
        by (by rewrite Ha).
      rewrite !forallb_app in Hd. apply andb_prop in Hd as [Hd _].
      apply andb_prop in Hd as [_ Hd]. simpl in Hd. unfold lit_eq in Hd.
      destruct (N.eqb_spec d 59); [done|done].
    + apply (f_equal (@rev N)) in Erw. rewrite rev_involutive in Erw. simpl in Erw.
      subst w2. rewrite Ers, !app_assoc in Ha. apply app_inj_tail in Ha as [_ Hy].
      rewrite forallb_app in Hw2. apply andb_prop in Hw2 as [_ Hw2]. simpl in Hw2.
      by rewrite <- Hy in Hw2.
Qed.

Lemma clean_trailing s body d semis ws :
  s = body ++ [d] -> is_space d = false -> d <> 59 ->
  forallb (N.eqb 59) semis = true -> forallb is_space ws = true ->
  clean (s ++ semis ++ ws) = clean s.
Proof.
  intros Hlast Hsp Hsemi Hsemis Hws. unfold clean.
  assert (Hns : forallb is_space s = false).
  { rewrite Hlast, forallb_app. simpl. rewrite Hsp. by rewrite andb_false_r. }
  destruct (trimStart_last body d Hsp) as (body' & Hb). rewrite <- Hlast in Hb.
  assert (Hts : trim s = trimStart s).
  { unfold trim, trimEnd. rewrite Hb, rev_app_distr. simpl. rewrite Hsp. simpl.
    by rewrite rev_involutive. }
  assert (Htl : trim (s ++ semis ++ ws) = trimStart s ++ semis).
  { unfold trim, trimEnd. rewrite (trimStart_app s _ Hns).
    rewrite !rev_app_distr, <- app_assoc, (trimStart_spaces (rev ws)).
    2:{ rewrite forallb_forall in Hws. apply forallb_forall.
        intros x Hx. apply Hws. by apply in_rev. }
    rewrite <- rev_app_distr. rewrite Hb.
    destruct (rev semis) as [|x rs] eqn:Ers.
    - apply (f_equal (@rev N)) in Ers. rewrite rev_involutive in Ers. simpl in Ers.
      subst semis. rewrite app_nil_r, rev_app_distr. simpl. rewrite Hsp. simpl.
      by rewrite rev_involutive.
    - apply (f_equal (@rev N)) in Ers. rewrite rev_involutive in Ers. simpl in Ers.
      assert (Hx : x = 59).
      { rewrite Ers, forallb_app in Hsemis. apply andb_prop in Hsemis as [_ H].
        cbn [forallb] in H. rewrite andb_true_r in H. symmetry. by apply N.eqb_eq. }
      subst x. rewrite Ers, app_assoc, rev_app_distr. simpl.
      by rewrite rev_involutive. }
  rewrite Hts, Htl.
  rewrite (replace_no_match re_trailing_semicolons [] (trimStart s))
    by (by eapply (no_trailing_semicolons _ body' d)).
  destruct semis as [|x semis].
  - rewrite app_nil_r.
    by rewrite (replace_no_match re_trailing_semicolons [] (trimStart s))
      by (by eapply (no_trailing_semicolons _ body' d)).
  - by rewrite (trailing_semicolons_removed _ body' d).
Qed.

(** X10. Semicolons at the end of the text, and white space after them,
    do not matter: a text that ends in a character that is neither is
    executed with them as it is without. *)
Theorem trailing_semicolons_ignored alasql w s body d semis ws limit :
  s = body ++ [d] -> is_space d = false -> d <> 59 ->
  forallb (N.eqb 59) semis = true -> forallb is_space ws = true ->
  executeSqlite alasql w (s ++ semis ++ ws) limit = executeSqlite alasql w s limit.
Proof.
  intros Hlast Hsp Hsemi Hsemis Hws. unfold executeSqlite, try_block, sanitize.
  by rewrite (clean_trailing s body d semis ws).
Qed.

Lemma trailing_semicolons_ignored_witness :
  executeSqlite no_rows bare_world (js "SELECT 1" ++ js ";;" ++ js " ") None
  = executeSqlite no_rows bare_world (js "SELECT 1") None.
Proof.
  apply (trailing_semicolons_ignored no_rows bare_world (js "SELECT 1") (js "SELECT ") 49);
    [reflexivity|reflexivity|discriminate|reflexivity|reflexivity].
Defined.

(** ** What [executeSqlite] hands to the engine *)

Lemma executeSqlite_forwards alasql w sql limit :
  forwarded (fst (executeSqlite alasql w sql limit)) = forwarded w \/
  exists kw rest,
    same_letters kw (js "SELECT") /\
    forwarded (fst (executeSqlite alasql w sql limit)) = forwarded w ++ [kw ++ rest].
Proof.
  destruct (dir_exists w) eqn:Ed.
  - destruct (sanitize sql (match limit with Some l => l | None => 200%Z end))
      as [error|st] eqn:Es.
    + left. by rewrite (executeSqlite_rejected alasql w sql limit error Ed Es).
    + right. rewrite (executeSqlite_accepted alasql w sql limit st Ed Es).
      apply forwarded_begins_with_select in Es as (kw & rest & -> & Hkw).
      by exists kw, rest.
  - left. unfold executeSqlite. by rewrite Ed.
Qed.

(** The statement after the SELECT gate is the text from one of its
    SELECTs on. *)
Lemma select_statement_suffix s :
  contains_word (js "SELECT") s ->
  exists pre kw rest,
    s = pre ++ kw ++ rest /\ same_letters kw (js "SELECT") /\
    select_statement s = kw ++ rest.
Proof.
  intros Hs. apply select_spec in Hs. unfold test in Hs.
  unfold select_statement, search.
  destruct (exec re_select s) as [[x y]|] eqn:E; [|discriminate].
  unfold exec in E. apply scan_sound in E as (pre & post & -> & -> & Hm & _).
  apply matches_word in Hm as (mid & Hmid & _ & Hall). apply lit_eq_letters in Hall.
  simpl in Hmid. cbn [before]. rewrite app_nil_r, length_rev.
  exists pre, mid, (after y). split; [by rewrite Hmid|]. split; [exact Hall|].
  destruct pre as [|c pre]; [exact Hmid|].
  replace (0 <? length (c :: pre))%nat with true by (symmetry; apply Nat.ltb_lt; simpl; lia).
  unfold substring_from. by rewrite drop_app_length.
Qed.

Lemma sanitize_forwards_suffix sql l limited :
  sanitize sql l = Accepted limited ->
  exists pre kw rest tail,
    clean sql = pre ++ kw ++ rest /\ same_letters kw (js "SELECT") /\
    (tail = [] \/ tail = js " LIMIT " ++ decimal (Z.to_N (clamp l 1 1000))) /\
    limited = kw ++ rest ++ tail.
Proof.
  intros Hs. apply sanitize_accepted in Hs as [Hgate ->].
  apply select_gate_spec, select_statement_suffix in Hgate as (pre & kw & rest & Hc & Hkw & Hst).
  cbv zeta. rewrite Hst, clamp_limit_spec. destruct (test re_limit _).
  - exists pre, kw, rest, []. rewrite app_nil_r. auto.
  - exists pre, kw, rest, (js " LIMIT " ++ decimal (Z.to_N (clamp l 1 1000))).
    rewrite <- app_assoc. auto.
Qed.

(** X11. A call of [executeSqlite] gives the engine at most one text, and
    that text begins with the letters SELECT, in any case: it is the
    cleaned input from one of its SELECTs on, whole, followed by the row
    limit or by nothing.  It is one text, not one statement: nothing is cut
    at a semicolon, and what stands after the first statement reaches the
    engine with it ([further_statements_forwarded]). *)
Theorem executeSqlite_forwards_select alasql w sql limit :
  let r := executeSqlite alasql w sql limit in
  let l := match limit with Some l => l | None => 200%Z end in
  forwarded (fst r) = forwarded w \/
  exists pre kw rest tail,
    clean sql = pre ++ kw ++ rest /\ same_letters kw (js "SELECT") /\
    (tail = [] \/ tail = js " LIMIT " ++ decimal (Z.to_N (clamp l 1 1000))) /\
    forwarded (fst r) = forwarded w ++ [kw ++ rest ++ tail].
Proof.
  cbv zeta. destruct (dir_exists w) eqn:Ed.
  - destruct (sanitize sql (match limit with Some l => l | None => 200%Z end))
      as [error|st] eqn:Es.
    + left. by rewrite (executeSqlite_rejected alasql w sql limit error Ed Es).
    + right. rewrite (executeSqlite_accepted alasql w sql limit st Ed Es).
      apply sanitize_forwards_suffix in Es as (pre & kw & rest & tail & Hc & Hkw & Ht & ->).
      by exists pre, kw, rest, tail.
  - left. unfold executeSqlite. by rewrite Ed.
Qed.

(** A text with a second statement after a semicolon is handed to the
    engine whole. *)
Lemma further_statements_forwarded :
  forwarded (fst (executeSqlite no_rows bare_world
                    (js "SELECT 1 LIMIT 1; DROP TABLE t") None))
  = [js "SELECT 1 LIMIT 1; DROP TABLE t"].
Proof. vm_compute. reflexivity. Qed.

(** ** [extractSql]: what it returns *)

Lemma trimStart_suffix s :
  exists ws, s = ws ++ trimStart s /\
             match trimStart s with [] => True | c :: _ => is_space c = false end.
Proof.
  induction s as [|c s IH]; [by exists []|]. simpl.
  destruct (is_space c) eqn:E.
  - destruct IH as (ws & Heq & H). exists (c :: ws). split; [|done]. simpl. congruence.
  - exists []. by rewrite E.
Qed.

Lemma trim_is_trimmed s : trimmed (trim s).
Proof.
  unfold trim, trimEnd.
  destruct (trimStart_suffix s) as (ws1 & _ & H1).
  destruct (trimStart_suffix (rev (trimStart s))) as (ws2 & Heq & H2).
  split; [|by rewrite rev_involutive].
  destruct (rev (trimStart (rev (trimStart s)))) as [|c t] eqn:E; [done|].
  apply (f_equal (@rev N)) in Heq. rewrite rev_involutive, rev_app_distr, E in Heq.
  rewrite Heq in H1. exact H1.
Qed.

Lemma trimmed_group_trimmed re t g : trimmed_group re t = Some g -> trimmed g.
Proof.
  unfold trimmed_group. destruct (match_group re 1 t) as [[g0|]|]; [|done|done].
  intros [= <-]. apply trim_is_trimmed.
Qed.

Lemma nonempty_spec (s : jsstring) : nonempty s = true -> s <> [].
Proof. by destruct s. Qed.

Lemma sql_prefix_pattern_result text sql :
  sql_prefix_pattern text = Some sql -> sql <> [] /\ trimmed sql.
Proof.
  unfold sql_prefix_pattern. destruct (trimmed_group _ text) as [g|] eqn:E; [|done].
  destruct (nonempty g) eqn:N; [|done]. intros [= <-].
  split; [by apply nonempty_spec|by eapply trimmed_group_trimmed].
Qed.

Lemma code_block_pattern_result text sql :
  code_block_pattern text = Some sql -> sql <> [] /\ trimmed sql.
Proof.
  unfold code_block_pattern.
  destruct (trimmed_group re_code_sql text) as [g|] eqn:E.
  - destruct (nonempty g && test re_select g) eqn:N; [|done]. intros [= <-].
    apply andb_prop in N as [N _].
    split; [by apply nonempty_spec|by eapply trimmed_group_trimmed].
  - destruct (trimmed_group re_code_plain text) as [g|] eqn:E'; [|done].
    destruct (nonempty g && test re_select g) eqn:N; [|done]. intros [= <-].
    apply andb_prop in N as [N _].
    split; [by apply nonempty_spec|by eapply trimmed_group_trimmed].
Qed.

Lemma select_span_pattern_result text sql :
  select_span_pattern text = Some sql -> sql <> [] /\ trimmed sql.
Proof.
  unfold select_span_pattern. destruct (trimmed_group _ text) as [g|] eqn:E; [|done].
  destruct (nonempty g && (10 <? length g)%nat) eqn:N; [|done]. intros [= <-].
  apply andb_prop in N as [N _].
  split; [by apply nonempty_spec|by eapply trimmed_group_trimmed].
Qed.

Lemma any_select_pattern_result text sql :
  any_select_pattern text = Some sql -> sql <> [] /\ trimmed sql.
Proof.
  unfold any_select_pattern. destruct (trimmed_group _ text) as [g|] eqn:E; [|done].
  cbv zeta. destruct (nonempty _ && _) eqn:N; [|done]. intros [= <-].
  apply andb_prop in N as [N _].
  split; [by apply nonempty_spec|apply trim_is_trimmed].
Qed.

(** X12. A statement that [extractSql] returns is never empty and has no
    white space at its ends, whatever pattern found it. *)
Theorem extractSql_result text sql :
  extractSql text = Some sql -> sql <> [] /\ trimmed sql.
Proof.
  unfold extractSql. destruct (negb (nonempty text)); [done|].
  destruct (sql_prefix_pattern text) eqn:E1;
    [intros [= <-]; by apply (sql_prefix_pattern_result text)|].
  destruct (code_block_pattern text) eqn:E2;
    [intros [= <-]; by apply (code_block_pattern_result text)|].
  destruct (select_span_pattern text) eqn:E3;
    [intros [= <-]; by apply (select_span_pattern_result text)|].
  apply any_select_pattern_result.
Qed.

Lemma extractSql_result_witness :
  js "SELECT 1" <> [] /\ trimmed (js "SELECT 1").
Proof. apply (extractSql_result answer_with_both (js "SELECT 1")). reflexivity. Defined.

(** ** [listCsvFiles] and [previewCsv] *)

Lemma starts_with_spec t : forall s,
  starts_with t s = true <-> exists r, s = t ++ r.
Proof.
  induction t as [|a t IH]; intros s; simpl.
  - split; [by exists s|done].
  - destruct s as [|b s].
    + split; [done|]. by intros (r & Hr).
    + rewrite andb_true_iff, IH, N.eqb_eq. split.
      * intros (-> & r & ->). by exists r.
      * intros (r & [= -> ->]). split; [done|by exists r].
Qed.





(** ** [handleExecute] *)

(** X14. A request to [/api/execute] gives the engine at most one text, and
    that text begins with the letters SELECT, in any case (one text, not
    one statement: a text with further statements after a semicolon is
    handed over whole, [execute_request_forwarded_whole]); a request without
    [sql], or with an empty one, and no other, is answered with status 400,
    and hands nothing over; every other request is answered with status
    200. *)
Theorem handleExecute_forwards_select alasql w body :
  let r := handleExecute alasql w body in
  (forwarded (fst r) = forwarded w \/
   exists kw rest,
     same_letters kw (js "SELECT") /\ forwarded (fst r) = forwarded w ++ [kw ++ rest]) /\
  (fst (snd r) = 400 <-> truthy_text (exec_sql body) = false) /\
  (fst (snd r) = 400 -> fst r = w) /\
  (fst (snd r) = 400 \/ fst (snd r) = 200).
Proof.
  cbv zeta. unfold handleExecute.
  destruct (exec_sql body) as [[|c s]|] eqn:Es; simpl.
  1,3: by repeat split; auto.
  pose proof (executeSqlite_forwards alasql w (c :: s)
                (Some (match exec_limit body with Some l => l | None => 200%Z end))) as Hf.
  destruct (executeSqlite_returns alasql w (c :: s)
              (Some (match exec_limit body with Some l => l | None => 200%Z end)))
    as (w' & r & Hr).
  rewrite Hr in Hf |- *. simpl in Hf.
  destruct r as [rows fields|error]; simpl; repeat split; auto; try done.
Qed.

Lemma execute_request_forwarded_whole :
  handleExecute no_rows bare_world
    {| exec_sql := Some (js "SELECT 1 LIMIT 1; DROP TABLE t"); exec_limit := None |}
  = (World true [] ∅ [js "SELECT 1 LIMIT 1; DROP TABLE t"], (200, ExecuteOk [] [])).
Proof. vm_compute. reflexivity. Qed.

(** ** [handleAgent] *)

Lemma trimEnd_prefix r : exists ws, r = trimEnd r ++ ws.
Proof.
  unfold trimEnd. destruct (trimStart_suffix (rev r)) as (ws & Heq & _).
  exists (rev ws). apply (f_equal (@rev N)) in Heq.
  by rewrite rev_involutive, rev_app_distr in Heq.
Qed.

Lemma trimEnd_spaces ws : forallb is_space ws = true -> trimEnd ws = [].
Proof.
  intros H. unfold trimEnd.
  assert (Hr : forallb is_space (rev ws) = true).
  { apply forallb_forall. intros x Hx%in_rev. by eapply forallb_forall in H. }
  rewrite <- (app_nil_r (rev ws)), (trimStart_spaces _ [] Hr). done.
Qed.

(** A text that begins with a trimmed word keeps it when it is trimmed. *)
Lemma trim_word g r : g <> [] -> trimmed g -> trim (g ++ r) = g ++ trimEnd r.
Proof.
  intros Hne [H1 H2]. unfold trim.
  rewrite (trimStart_fixed (g ++ r)) by (by destruct g).
  unfold trimEnd. rewrite rev_app_distr.
  destruct (forallb is_space (rev r)) eqn:E.
  - rewrite (trimStart_spaces _ _ E), (trimStart_fixed _ H2), rev_involutive.
    rewrite <- (app_nil_r (rev r)), (trimStart_spaces _ [] E). simpl. by rewrite app_nil_r.
  - rewrite (trimStart_app _ _ E), rev_app_distr. by rewrite rev_involutive.
Qed.

Lemma letter_not_space x : 33 <= x <= 127 -> is_space x = false.
Proof.
  intros H. unfold is_space.
  repeat match goal with
         | |- context [(?a =? ?b)] => destruct (N.eqb_spec a b); [lia|]
         | |- context [(?a <=? ?b)] => destruct (N.leb_spec a b)
         end; try reflexivity; lia.
Qed.

Lemma lower_space c : is_space (if is_upper c then c + 32 else c) = is_space c.
Proof.
  destruct (is_upper c) eqn:E; [|done]. unfold is_upper in E.
  apply andb_prop in E as [H1 H2]. apply N.leb_le in H1, H2.
  rewrite !letter_not_space; [done|lia|lia].
Qed.

Lemma toLowerCase_spaces ws :
  forallb is_space ws = true -> forallb is_space (toLowerCase ws) = true.
Proof.
  induction ws as [|c ws IH]; [done|]. simpl. intros [Hc Hws]%andb_prop.
  by rewrite lower_space, Hc, IH.
Qed.

Lemma greetings_trimmed g : g ∈ simpleGreetings -> g <> [] /\ trimmed g.
Proof.
  unfold simpleGreetings. intros H.
  repeat (apply elem_of_cons in H as [->|H]; [by repeat split|]).
  by apply elem_of_nil in H.
Qed.

Lemma is_greeting_word g t :
  g ∈ simpleGreetings -> t = [] \/ (exists t', t = 32 :: t') ->
  is_greeting (g ++ t) = true.
Proof.
  intros Hg Ht. unfold is_greeting. apply existsb_exists. exists g.
  split; [by apply list_elem_of_In|].
  destruct Ht as [->|(t' & ->)].
  - rewrite app_nil_r. by rewrite bool_decide_eq_true_2.
  - apply orb_true_iff. right. apply starts_with_spec. exists t'.
    by rewrite <- app_assoc.
Qed.

Section AgentFacts.

Variable alasql : gmap jsstring table -> jsstring -> exec_outcome.
Variable env : environment.
Variables systemBase outputFormat contextSchema sqlOnly critical : jsstring.
Variable fetch_openrouter : list ChatMessage -> outcome reply.
Variable fetch_gemini : jsstring -> outcome reply.

(** X15. A last message that begins with a greeting (hi, hello, hey,
    greetings, good morning, good afternoon, good evening; in any case,
    after any white space) followed by a space or by nothing but white
    space is answered with the fixed greeting, whatever follows the
    greeting: no provider is asked, with or without a key, and nothing
    reaches the engine. *)
Theorem greeting_answered_locally w body ms m lead kw rest g :
  req_messages body = Some ms -> last ms = Some m ->
  msg_content m = lead ++ kw ++ rest ->
  forallb is_space lead = true ->
  g ∈ simpleGreetings -> toLowerCase kw = g ->
  forallb is_space rest = true \/ (exists rest', rest = 32 :: rest') ->
  handleAgent alasql env systemBase outputFormat contextSchema sqlOnly critical
      fetch_openrouter fetch_gemini w body =
    Run w [] (with_text greeting_text
                (started (match req_mode body with Some m => m | None => Insights end)
                         (pickProvider env))).
Proof.
  intros Hms Hlast Hcontent Hlead Hg Hkw Hrest.
  assert (Hu : exists t, userText body = g ++ t /\ (t = [] \/ exists t', t = 32 :: t')).
  { unfold userText. rewrite Hms, Hlast, Hcontent.
    unfold toLowerCase. rewrite !map_app. fold (toLowerCase lead) (toLowerCase kw)
      (toLowerCase rest). rewrite Hkw.
    destruct (greetings_trimmed g Hg) as [Hne Htr].
    assert (Htrim : trim (toLowerCase lead ++ g ++ toLowerCase rest)
                    = g ++ trimEnd (toLowerCase rest)).
    { rewrite <- (trim_word g _ Hne Htr). unfold trim.
      by rewrite (trimStart_spaces _ _ (toLowerCase_spaces _ Hlead)). }
    rewrite Htrim. eexists. split; [reflexivity|].
    destruct Hrest as [Hsp|(rest' & ->)].
    - left. by apply trimEnd_spaces, toLowerCase_spaces.
    - destruct (trimEnd_prefix (toLowerCase (32 :: rest'))) as (ws & Hws).
      destruct (trimEnd (toLowerCase (32 :: rest'))) as [|c t']; [by left|].
      right. exists t'. simpl in Hws. by injection Hws as <- _. }
  destruct Hu as (t & Hu & Ht).
  unfold handleAgent. by rewrite Hu, (is_greeting_word g t Hg Ht).
Qed.

End AgentFacts.

Lemma greeting_answered_locally_witness :
  handleAgent no_rows gemini_env [] [] [] [] [] (fun _ => Raises []) (fun _ => Raises [])
    bare_world (asking (js " Hi show me the top 10 cities") None)
  = Run bare_world [] (with_text greeting_text (started Insights Gemini)).
Proof.
  apply (greeting_answered_locally no_rows gemini_env [] [] [] [] []
           (fun _ => Raises []) (fun _ => Raises []) bare_world
           (asking (js " Hi show me the top 10 cities") None)
           [Message role_user (js " Hi show me the top 10 cities")]
           (Message role_user (js " Hi show me the top 10 cities"))
           (js " ") (js "Hi") (js " show me the top 10 cities") (js "hi")).
  - reflexivity.
  - reflexivity.
  - reflexivity.
  - reflexivity.
  - left.
  - reflexivity.
  - right. by eexists.
Defined.

Lemma maybeExecuteSQL_forwards alasql w sql limit :
  forwarded (fst (maybeExecuteSQL alasql w sql limit)) = forwarded w \/
  exists kw rest,
    same_letters kw (js "SELECT") /\
    forwarded (fst (maybeExecuteSQL alasql w sql limit)) = forwarded w ++ [kw ++ rest].
Proof.
  unfold maybeExecuteSQL.
  pose proof (executeSqlite_forwards alasql w sql (Some limit)) as H.
  by destruct (executeSqlite alasql w sql (Some limit)) as [w' [r|e]].
Qed.

(** What [handleAgent] does with the answer of the provider: at most one
    text for the engine, none in the mode [sql] without [execute]. *)
Lemma answer_forwards alasql w body mode provider limit content :
  (forwarded (fst (answer alasql w body mode provider limit content)) = forwarded w \/
   exists kw rest,
     same_letters kw (js "SELECT") /\
     forwarded (fst (answer alasql w body mode provider limit content))
       = forwarded w ++ [kw ++ rest]) /\
  (mode = Sql -> req_execute body <> Some true ->
   fst (answer alasql w body mode provider limit content) = w).
Proof.
  unfold answer. cbv zeta. destruct mode.
  - split; [|done].
    destruct (truthy_text (cleanSql content)).
    + pose proof (maybeExecuteSQL_forwards alasql w
                    (match cleanSql content with Some s => s | None => [] end) limit) as H.
      by destruct (maybeExecuteSQL _ _ _ _) as [w' [rows fields|error]].
    + destruct (truthy_text (extractSql content) && _); [|by left].
      destruct (negb _ && _); [|by left].
      pose proof (maybeExecuteSQL_forwards alasql w
                    (clean_extracted (match extractSql content with Some s => s | None => [] end))
                    limit) as H.
      by destruct (maybeExecuteSQL _ _ _ _) as [w' [rows fields|error]].
  - destruct (match req_execute body with Some true => true | _ => false end) eqn:Ee.
    + split; [|intros _ H; by destruct (req_execute body) as [[|]|]].
      cbn [andb]. destruct (truthy_text (cleanSql content)).
      * pose proof (maybeExecuteSQL_forwards alasql w
                      (match cleanSql content with Some s => s | None => [] end) limit) as H.
        destruct (maybeExecuteSQL _ _ _ _) as [w' [rows fields|error]];
          cbn [fst] in H; cbv beta iota; by destruct (negb _ && _).
      * cbv beta iota. destruct (negb _ && _); by left.
    + cbn [andb]. cbv beta iota. destruct (negb _ && _); (split; [by left|done]).
Qed.

Section AgentMore.

Variable alasql : gmap jsstring table -> jsstring -> exec_outcome.
Variable env : environment.
Variables systemBase outputFormat contextSchema sqlOnly critical : jsstring.
Variable fetch_openrouter : list ChatMessage -> outcome reply.
Variable fetch_gemini : jsstring -> outcome reply.

(** X16. A request to [/api/agent] asks a provider at most once and gives
    the engine at most one text, and that text begins with the letters
    SELECT, in any case, whatever the model answered (one text, not one
    statement: an answer with further statements after a semicolon is
    extracted, cleaned and handed over whole, [agent_answer_forwarded_whole]);
    the engine gets nothing when no provider was asked, and nothing in the
    mode [sql] unless the request sets [execute]. *)
Theorem handleAgent_forwards_select w body :
  let r := handleAgent alasql env systemBase outputFormat contextSchema sqlOnly critical
      fetch_openrouter fetch_gemini w body in
  (forwarded (run_world r) = forwarded w \/
   exists kw rest,
     same_letters kw (js "SELECT") /\
     forwarded (run_world r) = forwarded w ++ [kw ++ rest]) /\
  (length (run_asked r) <= 1)%nat /\
  (run_asked r = [] -> run_world r = w) /\
  (req_mode body = Some Sql -> req_execute body <> Some true -> run_world r = w).
Proof.
  cbv zeta. unfold handleAgent. cbv zeta.
  destruct (is_greeting (userText body)); [simpl; by auto|].
  set (mode := match req_mode body with Some m => m | None => Insights end).
  set (limit := match req_limit body with Some l => l | None => 200%Z end).
  assert (Hanswer : forall provider content asked,
    asked <> [] -> (length asked <= 1)%nat ->
    let r := (let '(w0, response) := answer alasql w body mode provider limit content in
              Run w0 asked response) in
    (forwarded (run_world r) = forwarded w \/
     exists kw rest,
       same_letters kw (js "SELECT") /\
       forwarded (run_world r) = forwarded w ++ [kw ++ rest]) /\
    (length (run_asked r) <= 1)%nat /\
    (run_asked r = [] -> run_world r = w) /\
    (req_mode body = Some Sql -> req_execute body <> Some true -> run_world r = w)).
  { intros provider content asked Hne Hlen. cbv zeta.
    destruct (answer_forwards alasql w body mode provider limit content) as [H1 H2].
    destruct (answer alasql w body mode provider limit content) as [w0 response].
    cbn [fst run_world run_asked] in *. repeat split; [done|done|done|].
    intros Hm He. apply H2; [|done]. unfold mode. by rewrite Hm. }
  destruct (pickProvider env); [| |simpl; by auto].
  - destruct (callOpenRouter _ _ _) as [content|message]; [|simpl; by auto].
    by apply Hanswer.
  - destruct (callGemini _ _ _) as [content|message]; [|simpl; by auto].
    by apply Hanswer.
Qed.
End AgentMore.

Lemma agent_answer_forwarded_whole :
  forwarded (run_world
    (handleAgent no_rows gemini_env [] [] [] [] [] (fun _ => Raises [])
       (fun _ => Returns (answering (js "SQL: SELECT 1 LIMIT 1; DROP TABLE t")))
       bare_world (asking (js "Count the rows") None)))
  = [js "SELECT 1 LIMIT 1; DROP TABLE t"].
Proof. vm_compute. reflexivity. Qed.

(** The second extraction of the mode [insights] finds what the first one
    found, and its cleaning leaves what the first cleaning left: when
    [cleanSql] is null or empty, nothing is executed and the answer holds
    the text only. *)
Lemma answer_without_statement alasql w body provider limit content :
  truthy_text (cleanSql content) = false ->
  answer alasql w body Insights provider limit content
  = (w, with_text content (started Insights provider)).
Proof.
  intros Hc. unfold answer. cbv zeta. rewrite Hc.
  unfold cleanSql in *. cbv zeta in *.
  destruct (extractSql content) as [[|c s]|]; simpl in *; try done.
  rewrite bool_decide_eq_false_2 by (intros [= E]; by rewrite <- E in Hc).
  simpl. destruct (clean_extracted (c :: s)); [done|discriminate Hc].
Qed.

Section AgentAnswers.

Variable alasql : gmap jsstring table -> jsstring -> exec_outcome.
Variable env : environment.
Variables systemBase outputFormat contextSchema sqlOnly critical : jsstring.
Variable fetch_openrouter : list ChatMessage -> outcome reply.
Variable fetch_gemini : jsstring -> outcome reply.

(** The call of a provider that gives the same for every call. *)
Lemma handleAgent_provider w body o :
  is_greeting (userText body) = false ->
  provider_gives env fetch_openrouter fetch_gemini o ->
  let mode := match req_mode body with Some m => m | None => Insights end in
  let limit := match req_limit body with Some l => l | None => 200%Z end in
  exists asked, asked <> [] /\
    handleAgent alasql env systemBase outputFormat contextSchema sqlOnly critical
      fetch_openrouter fetch_gemini w body =
      match o with
      | Raises message => Run w asked (failed mode (pickProvider env) (user_message message))
      | Returns content =>
          Run (fst (answer alasql w body mode (pickProvider env) limit content)) asked
              (snd (answer alasql w body mode (pickProvider env) limit content))
      end.
Proof.
  intros Hg Hp. cbv zeta. unfold handleAgent. cbv zeta. rewrite Hg.
  unfold provider_gives in Hp. destruct (pickProvider env); [| |done].
  - eexists. split; [|rewrite Hp; destruct o as [content|message]; [|reflexivity]].
    + done.
    + by destruct (answer _ _ _ _ _ _ _).
  - eexists. split; [|rewrite Hp; destruct o as [content|message]; [|reflexivity]].
    + done.
    + by destruct (answer _ _ _ _ _ _ _).
Qed.

(** X17. In the mode [insights], when the answer of the model yields no
    statement (none is extracted, or the cleaning leaves nothing of it),
    the answer to the request holds the text of the model and nothing else,
    and nothing reaches the engine: the second attempt of the code to
    extract a statement never finds one. *)
Theorem insights_without_statement w body content :
  is_greeting (userText body) = false ->
  provider_gives env fetch_openrouter fetch_gemini (Returns content) ->
  req_mode body <> Some Sql ->
  truthy_text (cleanSql content) = false ->
  run_world (handleAgent alasql env systemBase outputFormat contextSchema sqlOnly critical
      fetch_openrouter fetch_gemini w body) = w /\
  run_response (handleAgent alasql env systemBase outputFormat contextSchema sqlOnly critical
      fetch_openrouter fetch_gemini w body) = with_text content (started Insights (pickProvider env)).
Proof.
  intros Hg Hp Hm Hc.
  destruct (handleAgent_provider w body _ Hg Hp) as (asked & _ & ->).
  replace (match req_mode body with Some m => m | None => Insights end) with Insights
    by (by destruct (req_mode body) as [[|]|]).
  by rewrite answer_without_statement.
Qed.

(** X18. When the provider refuses the request with status 429, the answer
    to the user is the failure with the notice about the rate limit, and
    with status 401 the one about the authentication, for OpenRouter and
    for Gemini; the engine gets nothing. *)
Theorem provider_failure_notice w body resp :
  is_greeting (userText body) = false ->
  provider_replies env fetch_openrouter fetch_gemini resp ->
  reply_ok resp = false ->
  let mode := match req_mode body with Some m => m | None => Insights end in
  run_world (handleAgent alasql env systemBase outputFormat contextSchema sqlOnly critical
      fetch_openrouter fetch_gemini w body) = w /\
  (reply_status resp = 429 ->
   run_response (handleAgent alasql env systemBase outputFormat contextSchema sqlOnly critical
      fetch_openrouter fetch_gemini w body) =
     failed mode (pickProvider env)
       (warning ++ js " API rate limit exceeded. Please wait a few seconds and try again. If this persists, you may need to check your API quota or wait longer between requests.")) /\
  (reply_status resp = 401 ->
   run_response (handleAgent alasql env systemBase outputFormat contextSchema sqlOnly critical
      fetch_openrouter fetch_gemini w body) =
     failed mode (pickProvider env)
       (warning ++ js " API authentication failed. Please check your API key configuration.")).
Proof.
  intros Hg Hp Hok. cbv zeta.
  assert (Ho : exists message,
            provider_gives env fetch_openrouter fetch_gemini (Raises message) /\
            (reply_status resp = 429 ->
             user_message message =
               warning ++ js " API rate limit exceeded. Please wait a few seconds and try again. If this persists, you may need to check your API quota or wait longer between requests.") /\
            (reply_status resp = 401 ->
             user_message message =
               warning ++ js " API authentication failed. Please check your API key configuration.")).
  { unfold provider_replies, provider_gives in *.
    destruct (pickProvider env); [| |done].
    - exists (openrouter_error resp). split.
      + intros ms system. unfold callOpenRouter. by rewrite Hp, Hok.
      + unfold openrouter_error. split; intros ->; reflexivity.
    - exists (gemini_error resp). split.
      + intros ms system. unfold callGemini. by rewrite Hp, Hok.
      + unfold gemini_error. split; intros ->; reflexivity. }
  destruct Ho as (message & Ho & H429 & H401).
  destruct (handleAgent_provider w body _ Hg Ho) as (asked & _ & ->).
  cbn [run_world run_response]. split; [done|]. split.
  - intros H. by rewrite (H429 H).
  - intros H. by rewrite (H401 H).
Qed.

(** X19. The shape of every answer: an answer with rows has the statement
    and the names of the fields, is ok and has no notice; an answer that is
    not ok has a notice and nothing else; and an answer that is ok and has
    no text (what the mode [sql] makes of an answer of the model) has a
    statement, and rows or a notice. *)
Theorem handleAgent_response_shape w body :
  let r := run_response (handleAgent alasql env systemBase outputFormat contextSchema sqlOnly critical
      fetch_openrouter fetch_gemini w body) in
  (resp_rows r <> None ->
   resp_ok r = true /\ resp_sql r <> None /\ resp_fields r <> None /\ resp_notice r = None) /\
  (resp_ok r = false ->
   resp_text r = None /\ resp_sql r = None /\ resp_fields r = None /\ resp_rows r = None /\
   resp_notice r <> None) /\
  (resp_ok r = true -> resp_text r = None ->
   resp_sql r <> None /\ (resp_rows r <> None \/ resp_notice r <> None)).
Proof.
  cbv zeta. unfold handleAgent. cbv zeta.
  destruct (is_greeting (userText body)); [by repeat split|].
  set (mode := match req_mode body with Some m => m | None => Insights end).
  set (limit := match req_limit body with Some l => l | None => 200%Z end).
  assert (Hanswer : forall provider content asked,
    let r := run_response
               (let '(w0, response) := answer alasql w body mode provider limit content in
                Run w0 asked response) in
    (resp_rows r <> None ->
     resp_ok r = true /\ resp_sql r <> None /\ resp_fields r <> None /\ resp_notice r = None) /\
    (resp_ok r = false ->
     resp_text r = None /\ resp_sql r = None /\ resp_fields r = None /\ resp_rows r = None /\
     resp_notice r <> None) /\
    (resp_ok r = true -> resp_text r = None ->
     resp_sql r <> None /\ (resp_rows r <> None \/ resp_notice r <> None))).
  { intros provider content asked. cbv zeta. unfold answer. cbv zeta. destruct mode.
    - destruct (truthy_text (cleanSql content)).
      + destruct (maybeExecuteSQL _ _ _ _) as [w' [rows fields|error]]; by repeat split.
      + destruct (truthy_text (extractSql content) && _); [|by repeat split].
        destruct (negb _ && _); [|by repeat split].
        destruct (maybeExecuteSQL _ _ _ _) as [w' [rows fields|error]]; by repeat split.
    - destruct (match req_execute body with Some true => true | _ => false end
                && truthy_text (cleanSql content)).
      + destruct (maybeExecuteSQL _ _ _ _) as [w' [rows fields|error]];
          cbv beta iota; cbn; repeat split; try done; auto.
      + cbv beta iota; cbn. repeat split; try done; auto. }
  destruct (pickProvider env); [| |by repeat split].
  - destruct (callOpenRouter _ _ _) as [content|message]; [apply Hanswer|by repeat split].
  - destruct (callGemini _ _ _) as [content|message]; [apply Hanswer|by repeat split].
Qed.

End AgentAnswers.

Lemma insights_without_statement_witness :
  run_world (handleAgent no_rows gemini_env [] [] [] [] [] (fun _ => Raises [])
               (fun _ => Returns (answering (js "SQL: ;")))
               bare_world (asking (js "What sells best?") None)) = bare_world /\
  run_response (handleAgent no_rows gemini_env [] [] [] [] [] (fun _ => Raises [])
                  (fun _ => Returns (answering (js "SQL: ;")))
                  bare_world (asking (js "What sells best?") None))
    = with_text (js "SQL: ;") (started Insights (pickProvider gemini_env)).
Proof.
  apply (insights_without_statement no_rows gemini_env [] [] [] [] []
           (fun _ => Raises []) (fun _ => Returns (answering (js "SQL: ;")))
           bare_world (asking (js "What sells best?") None) (js "SQL: ;")).
  - reflexivity.
  - intros ms system. reflexivity.
  - discriminate.
  - reflexivity.
Defined.

Lemma provider_failure_notice_witness :
  run_world (handleAgent no_rows gemini_env [] [] [] [] [] (fun _ => Raises [])
               (fun _ => Returns (refusing 429))
               bare_world (asking (js "What sells best?") None)) = bare_world /\
  (reply_status (refusing 429) = 429 ->
   run_response (handleAgent no_rows gemini_env [] [] [] [] [] (fun _ => Raises [])
                   (fun _ => Returns (refusing 429))
                   bare_world (asking (js "What sells best?") None)) =
     failed Insights (pickProvider gemini_env)
       (warning ++ js " API rate limit exceeded. Please wait a few seconds and try again. If this persists, you may need to check your API quota or wait longer between requests.")) /\
  (reply_status (refusing 429) = 401 ->
   run_response (handleAgent no_rows gemini_env [] [] [] [] [] (fun _ => Raises [])
                   (fun _ => Returns (refusing 429))
                   bare_world (asking (js "What sells best?") None)) =
     failed Insights (pickProvider gemini_env)
       (warning ++ js " API authentication failed. Please check your API key configuration.")).
Proof.
  apply (provider_failure_notice no_rows gemini_env [] [] [] [] []
           (fun _ => Raises []) (fun _ => Returns (refusing 429))
           bare_world (asking (js "What sells best?") None) (refusing 429)).
  - reflexivity.
  - intros t. reflexivity.
  - reflexivity.
Defined.

(** ** The statements of the ingestion *)

Section IngestStatements.

Variable number_text : number -> jsstring.
Variable insert_throws : jsstring -> list value -> bool.





End IngestStatements.

(** ** The rows of an ingested file *)

Lemma add_row_other name r t name' :
  name <> name' -> add_row name r t !! name' = t !! name'.
Proof.
  intros Hne. unfold add_row. destruct (t !! name); [|done].
  rewrite lookup_insert. by destruct (decide (name = name')).
Qed.

Lemma create_table_other name cols t name' :
  name <> name' -> create_table name cols t !! name' = t !! name'.
Proof.
  intros Hne. unfold create_table. destruct (t !! name); [done|].
  rewrite lookup_insert. by destruct (decide (name = name')).
Qed.

Section IngestedRows.

Variable number_text : number -> jsstring.
Variable insert_throws : jsstring -> list value -> bool.

Lemma insert_records_other table cols records name : table <> name ->
  forall w,
    tables (insert_records number_text insert_throws table cols records w) !! name
    = tables w !! name.
Proof.
  intros Hne. induction records as [|r rest IH]; intros w; simpl; [done|].
  destruct (insert_throws _ _); [done|].
  rewrite IH, tables_with_tables. by apply add_row_other.
Qed.

(** A file of another table leaves the table as it is. *)
Lemma ingest_file_other w g name :
  sanitizeName (basename_csv (file_name g)) <> name ->
  tables (ingest_file number_text insert_throws w g) !! name = tables w !! name.
Proof.
  intros Hne. rewrite ingest_prepared.
  destruct (prepared _ _) as [[[t first] rest]|] eqn:Ep; [|done].
  apply prepared_name in Ep as ->. cbv zeta.
  set (w1 := logged (countSql _) _).
  assert (H1 : tables w1 !! name = tables w !! name).
  { unfold w1. rewrite tables_logged, tables_with_tables, tables_logged.
    by apply create_table_other. }
  destruct (0 <? _)%nat; [exact H1|].
  by rewrite insert_records_other.
Qed.

(** A table that holds a row is left as it is by every file. *)
Lemma ingest_file_filled w g name tb :
  tables w !! name = Some tb -> rows tb <> [] ->
  tables (ingest_file number_text insert_throws w g) !! name = Some tb.
Proof.
  intros Htb Hrows.
  destruct (decide (sanitizeName (basename_csv (file_name g)) = name)) as [E|E];
    [|by rewrite ingest_file_other].
  rewrite settled_ingest_id; [done|].
  unfold settled. destruct (prepared _ _) as [[[t first] rest]|] eqn:Ep; [|done].
  apply prepared_name in Ep. rewrite <- Ep in E. subst t.
  split; [by exists tb|]. left. unfold row_count. rewrite Htb.
  destruct (rows tb); [done|simpl; lia].
Qed.

Lemma fold_other fs name : forall w,
  (forall g, g ∈ fs -> sanitizeName (basename_csv (file_name g)) <> name) ->
  tables (fold_left (ingest_file number_text insert_throws) fs w) !! name = tables w !! name.
Proof.
  induction fs as [|g fs IH]; intros w H; simpl; [done|].
  rewrite IH by (intros g' Hg'; apply H; by right).
  apply ingest_file_other, H. by left.
Qed.

Lemma fold_filled fs name tb : forall w,
  tables w !! name = Some tb -> rows tb <> [] ->
  tables (fold_left (ingest_file number_text insert_throws) fs w) !! name = Some tb.
Proof.
  induction fs as [|g fs IH]; intros w Htb Hrows; simpl; [done|].
  apply IH; [|done]. by apply ingest_file_filled.
Qed.

(** The INSERT loop, when the engine accepts every INSERT: one row for
    each record, in their order. *)
Lemma insert_records_all table cols records :
  (forall vals, insert_throws table vals = false) ->
  forall w c rs,
    tables w !! table = Some (Table c rs) ->
    tables (insert_records number_text insert_throws table cols records w) !! table
    = Some (Table c (rs ++ map (fun r => combine (map sanitizeName cols)
                                          (values_of number_text cols r)) records)).
Proof.
  intros Hok. induction records as [|r rest IH]; intros w c rs Hw; simpl.
  - by rewrite app_nil_r.
  - rewrite Hok.
    rewrite (IH _ c (rs ++ [combine (map sanitizeName cols) (values_of number_text cols r)])).
    + by rewrite <- app_assoc.
    + rewrite tables_with_tables. unfold add_row. cbn [tables logged].
      rewrite Hw. cbn [columns rows]. by rewrite lookup_insert, decide_True.
Qed.

(** X21. What the ingestion makes of a CSV file, for names that the engine
    keeps apart: the table name is not empty and no inherited property name
    (the file is not [.csv] or [constructor.csv]), and the sanitized field
    names of the first record are such names too and differ from one
    another.  When, moreover, the table of the file is new (the store has
    none of that name, and no file before it in the directory has that
    table name) and the engine accepts the INSERTs, the table holds, after
    the ingestion, one row for each record of the file, in the order of the
    file; its columns are the sanitized field names of the first record
    (derived columns included), and each row holds, under those names, the
    fields of its record as texts or nulls.  For other names the engine
    throws, or keeps one cell for two fields, and this is not what the
    store holds. *)
Theorem ingested_rows w fs1 f fs2 name first rest :
  dir_exists w = true ->
  dir_files w = fs1 ++ f :: fs2 ->
  is_csv f = true ->
  prepared number_text f = Some (name, first, rest) ->
  plain_name name ->
  Forall plain_name (map sanitizeName (map fst first)) ->
  NoDup (map sanitizeName (map fst first)) ->
  (forall g, g ∈ fs1 -> sanitizeName (basename_csv (file_name g)) <> name) ->
  tables w !! name = None ->
  (forall vals, insert_throws name vals = false) ->
  let cols := map fst first in
  tables (initSqliteFromCsvs number_text insert_throws w) !! name
  = Some (Table (map sanitizeName cols)
                (map (fun r => combine (map sanitizeName cols) (values_of number_text cols r))
                     (first :: rest))).
Proof.
  intros Hd Hfs Hcsv Hp _ _ _ Hbefore Hnone Hok cols. subst cols.
  unfold initSqliteFromCsvs. rewrite Hd, Hfs, filter_app, filter_bool_cons, Hcsv.
  rewrite fold_left_app. cbn [fold_left].
  set (w1 := fold_left _ (filter is_csv fs1) w).
  assert (H1 : tables w1 !! name = None).
  { unfold w1. rewrite fold_other; [done|].
    intros g Hg. apply Hbefore. by apply list_elem_of_filter in Hg as [_ Hg]. }
  apply fold_filled; [|done].
  rewrite ingest_prepared, Hp. cbv zeta.
  set (w2 := logged (countSql name) _).
  assert (H2 : tables w2 !! name = Some (Table (map sanitizeName (map fst first)) [])).
  { unfold w2. rewrite tables_logged, tables_with_tables, tables_logged.
    unfold create_table. rewrite H1. by rewrite lookup_insert, decide_True. }
  replace (0 <? row_count name (tables w2))%nat with false
    by (unfold row_count; by rewrite H2).
  by rewrite (insert_records_all name (map fst first) (first :: rest) Hok w2 _ [] H2).
Qed.

End IngestedRows.

Lemma plain_name_example (n : jsstring) :
  n <> [] -> forallb (fun i => negb (bool_decide (n = i))) inherited_names = true ->
  plain_name n.
Proof.
  intros Hne H. split; [done|]. intros Hin.
  eapply forallb_forall in H; [|by apply list_elem_of_In].
  by rewrite bool_decide_eq_true_2 in H.
Qed.

Lemma ingested_rows_witness :
  tables (initSqliteFromCsvs no_number_text accepts_all hyphen_world) !! js "a_b"
  = Some (Table [js "id"] [[(js "id", VString (js "1"))]]).
Proof.
  refine (ingested_rows no_number_text accepts_all hyphen_world []
            (File (js "a-b.csv") (Some [[(js "id", VString (js "1"))]]))
            [File (js "empty.csv") (Some [])] (js "a_b") [(js "id", VString (js "1"))] []
            eq_refl eq_refl eq_refl eq_refl _ _ _ _ eq_refl (fun _ => eq_refl)).
  - apply plain_name_example; [discriminate|by vm_compute].
  - constructor; [|constructor]. apply plain_name_example; [discriminate|by vm_compute].
  - constructor; [|constructor]. intros H. by apply elem_of_nil in H.
  - intros g Hg. by apply elem_of_nil in Hg.
Defined.

(** ** [extractSql]: a fenced block *)

Lemma backquote_letters mid : same_letters mid (js "```") -> mid = js "```".
Proof.
  intros H. pose proof (same_letters_length _ _ H) as Hl.
  destruct mid as [|a [|b [|c [|d mid]]]]; try discriminate Hl.
  unfold same_letters in H. simpl in H. injection H as Ha Hb Hc.
  apply (canon_other 96 a eq_refl eq_refl) in Ha.
  apply (canon_other 96 b eq_refl eq_refl) in Hb.
  apply (canon_other 96 c eq_refl eq_refl) in Hc. by subst.
Qed.

(** X22. A fenced sql block: on a text that holds no [SQL:] and whose
    first [```sql] (in any case) is followed by a line end, a body and the
    first [```] after it, [extractSql] returns the body of the block,
    trimmed, when that holds a SELECT, whatever stands before and after the
    block. *)
Theorem sql_block_extracted pre tag body rest :
  ~ contains_word (js "SQL:") (pre ++ tag ++ [10] ++ body ++ js "```" ++ rest) ->
  (forall i, (i < length pre)%nat ->
     ~ word_at (js "```sql") (pre ++ tag ++ [10] ++ body ++ js "```" ++ rest) i) ->
  same_letters tag (js "```sql") ->
  includes (body ++ [96; 96]) (js "```") = false ->
  contains_word (js "SELECT") (trim body) ->
  extractSql (pre ++ tag ++ [10] ++ body ++ js "```" ++ rest) = Some (trim body).
Proof.
  intros Hnosql Hfirst Htag Hinside Hselect.
  set (text := pre ++ tag ++ [10] ++ body ++ js "```" ++ rest) in *.
  set (y2 := MState (10 :: rev tag ++ rev pre) (body ++ js "```" ++ rest) []).
  set (y3 := MState (rev body ++ 10 :: rev tag ++ rev pre) (js "```" ++ rest) []).
  set (z := MState (rev (js "```") ++ rev body ++ 10 :: rev tag ++ rev pre) rest
                   (caps (set_cap 1 y2 y3))).
  assert (Hz : m true (word (js "```")) (set_cap 1 y2 y3) Some = Some z).
  { unfold set_cap. cbn [before after y3].
    by rewrite (m_word true _ _ _ _ _ _ backquotes_same). }
  assert (Hnone : forall u v, body = u ++ v -> v <> [] ->
            m true (word (js "```"))
              (set_cap 1 y2 (MState (rev u ++ before y2) (v ++ js "```" ++ rest) [])) Some
            = None).
  { intros u v Hu Hv.
    destruct (m true (word (js "```"))
                (set_cap 1 y2 (MState (rev u ++ before y2) (v ++ js "```" ++ rest) [])) Some)
      as [z'|] eqn:E; [|done].
    exfalso. apply m_sound in E as (y & Hm & _).
    apply matches_word in Hm as (mid & Hmid & _ & Hall).
    apply lit_eq_letters, backquote_letters in Hall. subst mid.
    unfold set_cap in Hmid. cbn [at_index after before snd] in Hmid.
    assert (Hin : includes (body ++ [96; 96]) (js "```") = true); [|congruence].
    apply includes_spec. rewrite Hu, <- app_assoc.
    destruct v as [|a [|b [|c v]]]; [done| | |].
    - injection Hmid as -> _. by exists u, [].
    - injection Hmid as -> -> _. by exists u, [96].
    - injection Hmid as -> -> -> _. exists u, (v ++ [96; 96]). done. }
  assert (Hm : m true (source re_code_sql)
                 (MState (rev pre) (tag ++ 10 :: body ++ js "```" ++ rest) []) Some = Some z).
  { change (source re_code_sql)
      with (Seq (word (js "```sql"))
             (Seq (Lit 10) (Seq (Group 1 (Star false (Class any_char))) (word (js "```"))))).
    rewrite m_seq, (m_word true (js "```sql") tag); [|by apply lit_eq_letters].
    cbv beta. rewrite m_seq, (m_lit true 10 10) by reflexivity.
    cbv beta. fold y2. rewrite m_seq, m_group.
    apply (m_star_lazy_any true body (js "```" ++ rest)); [|exact Hz].
    intros u v Hu Hv. exact (Hnone u v Hu Hv). }
  assert (Hexec : exec re_code_sql text
                  = Some (MState (rev pre) (tag ++ 10 :: body ++ js "```" ++ rest) [], z)).
  { unfold exec, text. cbn [ignoreCase re_code_sql]. rewrite (scan_skip true).
    - rewrite app_nil_r. by apply scan_here.
    - intros u v -> Hv q (s1 & Hw & _).
      apply matches_word in Hw as (mid & Hmid & _ & Hall).
      apply lit_eq_letters in Hall. cbn [snd] in Hmid.
      apply (Hfirst (length u)).
      { rewrite length_app. destruct v; [done | simpl; lia]. }
      unfold text. rewrite <- app_assoc, Hmid. by apply word_at_here. }
  assert (Hgroup : trimmed_group re_code_sql text = Some (trim body)).
  { unfold trimmed_group, match_group. rewrite Hexec. unfold z.
    unfold set_cap, lookup_cap. cbn [caps find fst snd after y2 y3].
    replace (length (body ++ js "```" ++ rest) - length (js "```" ++ rest))%nat
      with (length body) by (rewrite length_app; lia).
    change (1 =? 1)%nat with true. cbv iota. cbn [snd].
    by rewrite take_app_length. }
  unfold extractSql.
  replace (negb (nonempty text)) with false.
  2:{ unfold text. pose proof (same_letters_length _ _ Htag) as Hl.
      destruct tag; [done|]. by destruct pre. }
  replace (sql_prefix_pattern text) with (@None jsstring).
  2:{ unfold sql_prefix_pattern, trimmed_group. rewrite match_group_none; [done|].
      intros (p1 & post & q & Heq & s1 & Hw & _). apply Hnosql.
      apply matches_word in Hw as (mid & Hmid & _ & Hall). apply lit_eq_letters in Hall.
      cbn [snd] in Hmid. exists p1, mid, (snd s1). by rewrite Heq, Hmid. }
  unfold code_block_pattern. rewrite Hgroup.
  replace (nonempty (trim body) && test re_select (trim body)) with true; [done|].
  symmetry. apply andb_true_intro. split.
  - destruct Hselect as (a & mid & b & Heq & Hmid).
    pose proof (same_letters_length _ _ Hmid) as Hl. rewrite Heq.
    unfold nonempty. rewrite !length_app, Hl. simpl.
    by rewrite Nat.add_comm.
  - by apply select_spec.
Qed.

Lemma sql_block_extracted_witness :
  extractSql (js "Here you go:" ++ js "```sql" ++ [10] ++ (js "SELECT 2" ++ [10])
              ++ js "```" ++ js " done")
  = Some (trim (js "SELECT 2" ++ [10])).
Proof.
  apply (sql_block_extracted (js "Here you go:") (js "```sql") (js "SELECT 2" ++ [10])
           (js " done")).
  - intros (a & mid & b & Heq & Hmid).
    assert (H : test (RegExp (lit "SQL:") true)
                  (js "Here you go:" ++ js "```sql" ++ [10] ++ (js "SELECT 2" ++ [10])
                   ++ js "```" ++ js " done") = true); [|by vm_compute in H].
    apply test_spec. exists a, (mid ++ b), (rev mid ++ rev a, b).
    split; [exact Heq|]. apply word_matches. by apply lit_eq_letters.
  - intros i Hi H. simpl in Hi.
    assert (Hc : (i < 12)%nat) by exact Hi.
    do 12 (destruct i as [|i]; [by vm_compute in H|]). lia.
  - reflexivity.
  - reflexivity.
  - exists [], (js "SELECT"), (js " 2"). by vm_compute.
Defined.

(** ** The cleaning of the extracted statement *)

Lemma lit_eq_exact w mid :
  Forall2 (fun c ch => lit_eq false c ch = true) w mid -> mid = w.
Proof.
  induction 1 as [|c ch w mid Hc _ IH]; [done|].
  unfold lit_eq in Hc. apply N.eqb_eq in Hc. by subst.
Qed.

Lemma exact_lit_eq w : Forall2 (fun c ch => lit_eq false c ch = true) w w.
Proof.
  induction w as [|c w IH]; constructor; [|done]. unfold lit_eq. apply N.eqb_refl.
Qed.

(** A text without the word, followed by a part of the word, and a text
    without the word: no word where they meet. *)
Lemma includes_joined (t : jsstring) : forall pre,
  includes (pre ++ [96; 96]) (js "```") = false ->
  includes t (js "```") = false ->
  includes (pre ++ t) (js "```") = false.
Proof.
  induction pre as [|c pre IH]; intros Hpre Ht; [done|].
  cbn [app includes] in Hpre |- *.
  apply orb_false_iff in Hpre as [Hhead Htail].
  apply orb_false_iff. split; [|by apply IH].
  destruct (starts_with (js "```") (c :: pre ++ t)) eqn:E; [|done].
  apply starts_with_spec in E as (r & Hr).
  assert (Hs : starts_with (js "```") (c :: pre ++ [96; 96]) = true); [|congruence].
  apply starts_with_spec.
  destruct pre as [|d [|e pre]].
  - injection Hr as -> _. by exists [].
  - injection Hr as -> -> _. by exists [96].
  - injection Hr as -> -> -> _. by exists (pre ++ [96; 96]).
Qed.

Lemma includes_part a b c (t : jsstring) :
  includes (a ++ b ++ c) t = false -> includes b t = false.
Proof.
  intros H. destruct (includes b t) eqn:E; [|done].
  apply includes_spec in E as (u & v & ->).
  assert (includes (a ++ (u ++ t ++ v) ++ c) t = true); [|congruence].
  apply includes_spec. exists (a ++ u), (v ++ c). by rewrite <- !app_assoc.
Qed.

(** The text that the removal of the code fences leaves holds none. *)
Lemma backquotes_removed_loop : forall fuel bef aft acc,
  (length aft < fuel)%nat ->
  exists R, replace_all_loop re_backquotes [] fuel bef aft acc = acc ++ R /\
            includes R (js "```") = false.
Proof.
  induction fuel as [|fuel IH]; intros bef aft acc Hlen; [lia|].
  cbn [replace_all_loop ignoreCase source re_backquotes].
  destruct (scan false (lit "```") bef aft) as [[x y]|] eqn:E.
  - apply scan_sound in E as (pre & post & -> & -> & Hm & Hleft).
    apply matches_word in Hm as (mid & Hmid & Hbef & Hall).
    apply lit_eq_exact in Hall. subst mid.
    cbn [at_index before after fst snd] in Hmid, Hbef.
    unfold progressed. cbn [after before]. rewrite Hmid.
    replace (length (after y) <? length (js "```" ++ after y))%nat with true
      by (symmetry; apply Nat.ltb_lt; rewrite length_app; simpl; lia).
    destruct (IH (before y) (after y) (acc ++ take (length (rev pre ++ bef) - length bef)
                                                   (pre ++ js "```" ++ after y) ++ []))
      as (R & HR & Hno).
    { rewrite Hmid, !length_app in Hlen. simpl in Hlen. lia. }
    rewrite HR. rewrite length_app, length_rev, Nat.add_sub, take_app_length, app_nil_r.
    exists (pre ++ R). split; [by rewrite <- app_assoc|].
    apply includes_joined; [|done].
    destruct (includes (pre ++ [96; 96]) (js "```")) eqn:Ei; [|done].
    exfalso. apply includes_spec in Ei as (a & b & Hab).
    assert (Hla : (length a < length pre)%nat).
    { apply (f_equal (@length N)) in Hab. rewrite !length_app in Hab. simpl in Hab. lia. }
    refine (Hleft a (js "```" ++ b ++ 96 :: after y) _ Hla _ _).
    + rewrite Hmid. change (js "```" ++ after y) with ([96; 96] ++ 96 :: after y).
      rewrite (app_assoc pre), Hab. by rewrite <- !app_assoc.
    + apply word_matches, exact_lit_eq.
  - exists aft. split; [done|].
    destruct (includes aft (js "```")) eqn:Ei; [|done].
    exfalso. apply includes_spec in Ei as (a & b & ->).
    revert E. eapply (scan_complete false _ _ bef a); [reflexivity|].
    apply word_matches, exact_lit_eq.
Qed.

Lemma backquotes_removed s : includes (replace_all re_backquotes [] s) (js "```") = false.
Proof.
  unfold replace_all.
  destruct (backquotes_removed_loop (S (length s)) [] s []) as (R & -> & H); [lia|done].
Qed.

Lemma trim_part s : exists a c, s = a ++ trim s ++ c.
Proof.
  unfold trim. destruct (trimStart_suffix s) as (a & Ha & _).
  destruct (trimEnd_prefix (trimStart s)) as (c & Hc).
  exists a, c. by rewrite <- Hc.
Qed.

(** What the removal of the trailing semicolons leaves is the text up to
    them. *)
Lemma trailing_semicolons_prefix s :
  exists c, s = replace re_trailing_semicolons [] s ++ c.
Proof.
  unfold replace, exec. cbn [ignoreCase source re_trailing_semicolons].
  destruct (scan false _ [] s) as [[x y]|] eqn:E; [|exists []; by rewrite app_nil_r].
  apply scan_sound in E as (pre & post & -> & -> & Hm & _).
  destruct Hm as (s1 & _ & s2 & _ & Hm). simpl in Hm. destruct Hm as [Hq Hend].
  rewrite <- Hq in Hend. cbn [at_index snd] in Hend.
  cbn [before]. rewrite Hend, !app_nil_r, rev_involutive. by exists post.
Qed.

Lemma clean_extracted_result s :
  includes (clean_extracted s) (js "```") = false /\ trimmed (clean_extracted s).
Proof.
  unfold clean_extracted. cbv zeta. split; [|apply trim_is_trimmed].
  set (s1 := replace_all re_backquotes [] s).
  pose proof (backquotes_removed s) as H1. fold s1 in H1.
  destruct (trim_part s1) as (a1 & c1 & E1).
  set (s2 := trim s1) in *.
  assert (H2 : includes s2 (js "```") = false).
  { rewrite E1 in H1. by eapply includes_part. }
  destruct (trailing_semicolons_prefix s2) as (c3 & E3).
  set (s3 := replace re_trailing_semicolons [] s2) in *.
  assert (H3 : includes s3 (js "```") = false).
  { rewrite E3 in H2. apply (includes_part [] s3 c3). exact H2. }
  destruct (trim_part s3) as (a4 & c4 & E4).
  rewrite E4 in H3. by eapply includes_part.
Qed.

Section AgentStatement.

Variable alasql : gmap jsstring table -> jsstring -> exec_outcome.
Variable env : environment.
Variables systemBase outputFormat contextSchema sqlOnly critical : jsstring.
Variable fetch_openrouter : list ChatMessage -> outcome reply.
Variable fetch_gemini : jsstring -> outcome reply.

(** X23. The statement of an answer with rows, and every statement of an
    answer in the mode [insights], holds no code fence and has no white
    space at its ends: the removal of the fences leaves none, not even
    where the texts around a removed fence meet. *)
Theorem handleAgent_statement_clean w body s :
  let r := run_response
             (handleAgent alasql env systemBase outputFormat contextSchema sqlOnly critical
                fetch_openrouter fetch_gemini w body) in
  resp_sql r = Some s ->
  resp_rows r <> None \/ resp_mode r = Insights ->
  includes s (js "```") = false /\ trimmed s.
Proof.
  cbv zeta. unfold handleAgent. cbv zeta.
  destruct (is_greeting (userText body)); [done|].
  set (mode := match req_mode body with Some m => m | None => Insights end).
  set (limit := match req_limit body with Some l => l | None => 200%Z end).
  assert (Hclean : forall content c, cleanSql content = Some c ->
            includes c (js "```") = false /\ trimmed c).
  { intros content c. unfold cleanSql. cbv zeta.
    destruct (extractSql content) as [[|x xs]|]; cbn [truthy_text]; [|intros [= <-]|done].
    - by intros [= <-].
    - apply clean_extracted_result. }
  assert (Hanswer : forall provider content asked,
    let r := run_response
               (let '(w0, response) := answer alasql w body mode provider limit content in
                Run w0 asked response) in
    resp_sql r = Some s ->
    resp_rows r <> None \/ resp_mode r = Insights ->
    includes s (js "```") = false /\ trimmed s).
  { intros provider content asked. cbv zeta. unfold answer. cbv zeta. destruct mode.
    - destruct (truthy_text (cleanSql content)) eqn:Et.
      + destruct (cleanSql content) as [c|] eqn:Ec; [|done].
        destruct (maybeExecuteSQL _ _ _ _) as [w' [rows fields|error]];
          cbn; intros [= <-] _; by apply (Hclean content).
      + destruct (truthy_text (extractSql content) && _); [|done].
        destruct (negb _ && _); [|done].
        destruct (maybeExecuteSQL _ _ _ _) as [w' [rows fields|error]];
          cbn; intros [= <-] _; apply clean_extracted_result.
    - destruct (match req_execute body with Some true => true | _ => false end).
      + cbn [andb]. destruct (truthy_text (cleanSql content)) eqn:Et.
        * destruct (cleanSql content) as [c|] eqn:Ec; [|done].
          destruct (maybeExecuteSQL _ _ _ _) as [w' [rows fields|error]]; cbv beta iota; cbn.
          -- intros [= <-] _. by apply (Hclean content).
          -- by intros _ [?|?].
        * cbv beta iota; cbn. by intros _ [?|?].
      + cbn [andb]. cbv beta iota; cbn. by intros _ [?|?]. }
  destruct (pickProvider env); [| |done].
  - destruct (callOpenRouter _ _ _) as [content|message]; [apply Hanswer|done].
  - destruct (callGemini _ _ _) as [content|message]; [apply Hanswer|done].
Qed.

End AgentStatement.

Lemma handleAgent_statement_clean_witness :
  includes (js "SELECT 1") (js "```") = false /\ trimmed (js "SELECT 1").
Proof.
  apply (handleAgent_statement_clean no_rows gemini_env [] [] [] [] []
           (fun _ => Raises [])
           (fun _ => Returns (answering (js "``" ++ fenced [] (js "SELECT 1;") ++ js "`")))
           bare_world (asking (js "What sells best?") None) (js "SELECT 1")).
  - reflexivity.
  - right. reflexivity.
Defined.

(** ** [extractSql]: the statement holds SELECT *)

(** The text that a group at the head of a pattern captures. *)
Lemma group_capture icase n r rest x z :
  groups rest = [] ->
  m icase (Seq (Group n r) rest) x Some = Some z ->
  exists y, matches icase r (at_index x) (at_index y) /\
    lookup_cap n (caps z) = Some (firstn (length (after x) - length (after y)) (after x)).
Proof.
  intros Hg H. rewrite m_seq, m_group in H.
  apply m_sound in H as (y & Hm & Hk).
  apply (m_caps icase rest Hg) in Hk as (y' & Hc & [= <-]).
  exists y. split; [done|]. rewrite Hc. unfold set_cap, lookup_cap.
  cbn [caps find fst snd]. by rewrite Nat.eqb_refl.
Qed.

Lemma select_span_capture greedy x y :
  matches true (cat [lit "SELECT"; Star greedy any]) (at_index x) (at_index y) ->
  exists mid t, same_letters mid (js "SELECT") /\
    firstn (length (after x) - length (after y)) (after x) = mid ++ t.
Proof.
  intros (s & Hw & Hstar).
  apply matches_word in Hw as (mid & Hmid & _ & Hall). apply lit_eq_letters in Hall.
  apply matches_span in Hstar as (t & Ht & _).
  cbn [at_index fst snd] in Hmid, Ht. exists mid, t. split; [done|].
  rewrite Hmid, Ht, app_assoc.
  replace (length ((mid ++ t) ++ after y) - length (after y))%nat with (length (mid ++ t))
    by (rewrite (length_app (mid ++ t)); lia).
  apply take_app_length.
Qed.

Lemma canon_letter_range ch c : 65 <= c <= 90 -> canon ch = c -> 33 <= ch <= 127.
Proof.
  intros Hc. unfold canon. destruct (is_lower ch) eqn:E; [|lia].
  unfold is_lower in E. apply andb_prop in E as [H1 H2]. apply N.leb_le in H1, H2. lia.
Qed.

Lemma select_trimmed mid : same_letters mid (js "SELECT") -> mid <> [] /\ trimmed mid.
Proof.
  intros H. pose proof (same_letters_length _ _ H) as Hl.
  destruct mid as [|a [|b [|c [|d [|e [|f [|g mid]]]]]]]; try discriminate Hl.
  unfold same_letters in H. simpl in H. injection H as Ha _ _ _ _ Hf.
  split; [done|]. split; cbn [rev app].
  - apply letter_not_space, (canon_letter_range a 83); [lia|done].
  - apply letter_not_space, (canon_letter_range f 84); [lia|done].
Qed.

Lemma select_trim mid t :
  same_letters mid (js "SELECT") -> trim (mid ++ t) = mid ++ trimEnd t.
Proof. intros H. apply select_trimmed in H as [H1 H2]. by apply trim_word. Qed.

Lemma holds_select mid t : same_letters mid (js "SELECT") -> contains_word (js "SELECT") (mid ++ t).
Proof. intros H. by exists [], mid, t. Qed.

Lemma sql_prefix_pattern_label text sql :
  sql_prefix_pattern text = Some sql -> contains_word (js "SQL:") text.
Proof.
  unfold sql_prefix_pattern, trimmed_group, match_group, exec.
  destruct (scan _ _ [] text) as [[x y]|] eqn:E; [|done]. intros _.
  apply scan_sound in E as (pre & post & -> & -> & Hm & _).
  destruct Hm as (s & Hw & _).
  apply matches_word in Hw as (mid & Hmid & _ & Hall). apply lit_eq_letters in Hall.
  cbn [at_index after snd] in Hmid. exists pre, mid, (snd s). by rewrite Hmid.
Qed.

Lemma code_block_pattern_select text sql :
  code_block_pattern text = Some sql -> contains_word (js "SELECT") sql.
Proof.
  unfold code_block_pattern. cbv zeta.
  destruct (match trimmed_group re_code_sql text with
            | Some sql => Some sql | None => trimmed_group re_code_plain text end) as [g|];
    [|done].
  destruct (nonempty g && test re_select g) eqn:N; [|done]. intros [= <-].
  apply andb_prop in N as [_ N]. by apply select_spec.
Qed.

(** The match that the search finds is a run of the matcher from its
    first index. *)
Lemma scan_matched icase r : forall aft bef x y,
  scan icase r bef aft = Some (x, y) -> m icase r x Some = Some y.
Proof.
  induction aft as [|c aft IH]; intros bef x y H; simpl in H.
  - destruct (m icase r _ Some) eqn:E; [|discriminate]. by injection H as <- <-.
  - destruct (m icase r _ Some) eqn:E; [by injection H as <- <-|]. by apply IH in H.
Qed.

Lemma select_span_group text g :
  trimmed_group re_select_span text = Some g ->
  exists mid t, same_letters mid (js "SELECT") /\ g = mid ++ t.
Proof.
  unfold trimmed_group, match_group, exec.
  destruct (scan _ _ [] text) as [[x y]|] eqn:E; [|done].
  apply scan_matched in E. cbn [source re_select_span cat] in E.
  apply group_capture in E as (y' & Hm & ->); [|reflexivity]. intros [= <-].
  apply (select_span_capture false) in Hm as (mid & t & Hmid & ->).
  exists mid, (trimEnd t). split; [done|]. by apply select_trim.
Qed.

Lemma select_rest_group text g :
  trimmed_group re_select_rest text = Some g ->
  exists mid t, same_letters mid (js "SELECT") /\ g = mid ++ t.
Proof.
  unfold trimmed_group, match_group, exec.
  destruct (scan _ _ [] text) as [[x y]|] eqn:E; [|done].
  apply scan_matched in E. cbn [source re_select_rest cat] in E.
  rewrite m_group in E. apply m_sound in E as (y' & Hm & [= <-]).
  unfold set_cap, lookup_cap. cbn [caps find fst snd]. rewrite Nat.eqb_refl.
  intros [= <-].
  apply (select_span_capture true) in Hm as (mid & t & Hmid & ->).
  exists mid, (trimEnd t). split; [done|]. by apply select_trim.
Qed.

Lemma select_span_pattern_select text sql :
  select_span_pattern text = Some sql ->
  exists mid t, same_letters mid (js "SELECT") /\ sql = mid ++ t.
Proof.
  unfold select_span_pattern. destruct (trimmed_group _ text) as [g|] eqn:E; [|done].
  destruct (nonempty g && _); [|done]. intros [= <-]. by apply (select_span_group text).
Qed.

Lemma trim_length s : (length (trim s) <= length s)%nat.
Proof.
  destruct (trim_part s) as (a & c & H). rewrite H at 2. rewrite !length_app. lia.
Qed.

Lemma substring_to_take n (s : jsstring) : substring_to n s = take n s.
Proof. reflexivity. Qed.

Lemma any_select_pattern_select text sql :
  any_select_pattern text = Some sql ->
  exists mid t, same_letters mid (js "SELECT") /\ sql = mid ++ t.
Proof.
  unfold any_select_pattern. destruct (trimmed_group _ text) as [g|] eqn:E; [|done].
  cbv zeta. destruct (nonempty _ && _) eqn:N; [|done]. intros Heq.
  assert (Hsql : sql = trim (substring_to 5000 (split_first re_blank_line g)))
    by congruence.
  rewrite Hsql. clear Heq Hsql.
  apply andb_prop in N as [_ N]. apply Nat.ltb_lt in N.
  apply select_rest_group in E as (mid & t & Hmid & ->).
  pose proof (same_letters_length _ _ Hmid) as Hl. simpl in Hl.
  pose proof (trim_length (substring_to 5000 (split_first re_blank_line (mid ++ t)))) as Hlen.
  rewrite substring_to_take in Hlen, N |- *. rewrite length_take in Hlen.
  assert (Hpiece : exists t1, split_first re_blank_line (mid ++ t) = mid ++ t1).
  { unfold split_first in *.
    destruct (search re_blank_line (mid ++ t)) as [i|]; [|by exists t].
    rewrite length_take in Hlen. exists (take (i - length mid) t).
    apply take_app_ge. lia. }
  destruct Hpiece as (t1 & Ht1). rewrite Ht1.
  rewrite (take_app_ge mid t1 5000) by lia.
  exists mid, (trimEnd (take (5000 - length mid) t1)). split; [done|]. by apply select_trim.
Qed.

(** X24. A statement that [extractSql] takes from a text without the label
    [SQL:] holds the word SELECT, in any case: a fenced block without it
    is passed over, and the two last patterns return a text that begins
    with it, cut at the first blank line and after 5000 units. *)
Theorem extracted_statement_holds_select text sql :
  extractSql text = Some sql ->
  ~ contains_word (js "SQL:") text ->
  contains_word (js "SELECT") sql.
Proof.
  unfold extractSql. destruct (negb (nonempty text)); [done|].
  destruct (sql_prefix_pattern text) as [found|] eqn:E1.
  { intros _ H. destruct H. by apply (sql_prefix_pattern_label text found). }
  destruct (code_block_pattern text) eqn:E2.
  { intros [= <-] _. by apply (code_block_pattern_select text). }
  destruct (select_span_pattern text) eqn:E3.
  { intros [= <-] _. apply select_span_pattern_select in E3 as (mid & t & H & ->).
    by apply holds_select. }
  intros E4 _. apply any_select_pattern_select in E4 as (mid & t & H & ->).
  by apply holds_select.
Qed.

Lemma extracted_statement_holds_select_witness :
  contains_word (js "SELECT") (js "select count(1) from [orders]").
Proof.
  apply (extracted_statement_holds_select
           (js "Try  select count(1) from [orders]" ++ [10; 10] ++ js "It counts the orders.")).
  - reflexivity.
  - intros (a & mid & b & Heq & Hmid).
    assert (H : test (RegExp (lit "SQL:") true)
                  (js "Try  select count(1) from [orders]" ++ [10; 10]
                   ++ js "It counts the orders.") = true); [|by vm_compute in H].
    apply test_spec. exists a, (mid ++ b), (rev mid ++ rev a, b).
    split; [exact Heq|]. apply word_matches. by apply lit_eq_letters.
Defined.

(** ** [handleAgent]: one provider *)

(** X25. There is no second provider behind the first: with a key for
    OpenRouter the run of [handleAgent] is the same whatever Gemini would
    give, also when OpenRouter refuses or fails; without that key it is the
    same whatever OpenRouter would give; and without any key a request that
    is no greeting is answered with the notice about the keys, not ok, and
    nothing is executed. *)
Theorem handleAgent_one_provider alasql env systemBase outputFormat contextSchema sqlOnly
    critical fetch_openrouter fetch_gemini w body :
  let run := handleAgent alasql env systemBase outputFormat contextSchema sqlOnly critical in
  (is_set (OPENROUTER_API_KEY env) = true ->
   forall other, run fetch_openrouter other w body = run fetch_openrouter fetch_gemini w body) /\
  (is_set (OPENROUTER_API_KEY env) = false ->
   forall other, run other fetch_gemini w body = run fetch_openrouter fetch_gemini w body) /\
  (is_set (OPENROUTER_API_KEY env) = false -> is_set (GEMINI_API_KEY env) = false ->
   is_greeting (userText body) = false ->
   run_world (run fetch_openrouter fetch_gemini w body) = w /\
   run_asked (run fetch_openrouter fetch_gemini w body) = [] /\
   resp_ok (run_response (run fetch_openrouter fetch_gemini w body)) = false /\
   resp_notice (run_response (run fetch_openrouter fetch_gemini w body))
   = Some (js "No provider configured. Set OPENROUTER_API_KEY or GEMINI_API_KEY.")).
Proof.
  cbv zeta. unfold handleAgent, pickProvider. cbv zeta. split; [|split].
  - intros Ho other. by rewrite Ho.
  - intros Ho other. rewrite Ho. by destruct (is_set (GEMINI_API_KEY env)).
  - intros Ho Hg Hgreet. by rewrite Ho, Hg, Hgreet.
Qed.

(** ** The rounding of a real to a double *)

Section Rounding.

Local Open Scope Z_scope.

(** [round_half_even a b] is an integer nearest to [a / b]. *)
Lemma round_half_even_nearest a b j :
  0 < b -> Z.abs (a - round_half_even a b * b) <= Z.abs (a - j * b).
Proof.
  intros Hb. unfold round_half_even.
  pose proof (Z.div_mod a b ltac:(lia)) as Hdiv.
  pose proof (Z.mod_pos_bound a b Hb) as Hr.
  set (q := a / b) in *. set (r := a mod b) in *.
  assert (Hj : j <= q \/ q + 1 <= j) by lia.
  assert (Hlow : j <= q -> a - j * b = r + (q - j) * b /\ 0 <= (q - j) * b) by (split; nia).
  assert (Hhigh : q + 1 <= j -> j * b - a = (j - q - 1) * b + (b - r) /\ 0 <= (j - q - 1) * b)
    by (split; nia).
  destruct (Z.compare_spec (2 * r) b) as [He | Hlt | Hgt];
    [destruct (Z.even q)| |];
    replace (a - q * b) with r by lia || replace (a - (q + 1) * b) with (r - b) by lia;
    destruct Hj as [Hj | Hj];
    [apply Hlow in Hj | apply Hhigh in Hj | apply Hlow in Hj | apply Hhigh in Hj
    |apply Hlow in Hj | apply Hhigh in Hj | apply Hlow in Hj | apply Hhigh in Hj]; lia.
Qed.

(** When another integer is as near, the one chosen is even. *)
Lemma round_half_even_tie a b j :
  0 < b -> Z.abs (a - round_half_even a b * b) = Z.abs (a - j * b) ->
  j <> round_half_even a b -> Z.even (round_half_even a b) = true.
Proof.
  intros Hb. unfold round_half_even.
  pose proof (Z.div_mod a b ltac:(lia)) as Hdiv.
  pose proof (Z.mod_pos_bound a b Hb) as Hr.
  set (q := a / b) in *. set (r := a mod b) in *.
  assert (Hj : j <= q - 1 \/ j = q \/ j = q + 1 \/ q + 2 <= j) by lia.
  assert (Hlow : j <= q - 1 -> a - j * b = r + b + (q - 1 - j) * b /\ 0 <= (q - 1 - j) * b)
    by (split; nia).
  assert (Hhigh : q + 2 <= j -> j * b - a = (j - q - 2) * b + b + (b - r) /\ 0 <= (j - q - 2) * b)
    by (split; nia).
  destruct (Z.compare_spec (2 * r) b) as [He | Hlt | Hgt].
  - destruct (Z.even q) eqn:Eq; [done|]. intros _ _.
    rewrite Z.even_add, Eq. reflexivity.
  - replace (a - q * b) with r by lia. intros Hd Hne.
    destruct Hj as [Hj | [Hj | [Hj | Hj]]];
      [apply Hlow in Hj | | subst j; replace (a - (q + 1) * b) with (r - b) in Hd by lia
      | apply Hhigh in Hj]; lia.
  - replace (a - (q + 1) * b) with (r - b) by lia. intros Hd Hne.
    destruct Hj as [Hj | [Hj | [Hj | Hj]]];
      [apply Hlow in Hj | subst j; replace (a - q * b) with r in Hd by lia | | apply Hhigh in Hj];
      lia.
Qed.

(** And the other one is odd. *)
Lemma round_half_even_tie_odd a b j :
  0 < b -> Z.abs (a - round_half_even a b * b) = Z.abs (a - j * b) ->
  j <> round_half_even a b -> Z.odd j = true.
Proof.
  intros Hb. unfold round_half_even.
  pose proof (Z.div_mod a b ltac:(lia)) as Hdiv.
  pose proof (Z.mod_pos_bound a b Hb) as Hr.
  set (q := a / b) in *. set (r := a mod b) in *.
  assert (Hj : j <= q - 1 \/ j = q \/ j = q + 1 \/ q + 2 <= j) by lia.
  assert (Hlow : j <= q - 1 -> a - j * b = r + b + (q - 1 - j) * b /\ 0 <= (q - 1 - j) * b)
    by (split; nia).
  assert (Hhigh : q + 2 <= j -> j * b - a = (j - q - 2) * b + b + (b - r) /\ 0 <= (j - q - 2) * b)
    by (split; nia).
  destruct (Z.compare_spec (2 * r) b) as [He | Hlt | Hgt].
  - destruct (Z.even q) eqn:Eq.
    + replace (a - q * b) with r by lia. intros Hd Hne.
      destruct Hj as [Hj | [Hj | [Hj | Hj]]];
        [apply Hlow in Hj; lia | lia | subst j | apply Hhigh in Hj; lia].
      rewrite Z.odd_add, <- Z.negb_even, Eq. reflexivity.
    + replace (a - (q + 1) * b) with (r - b) by lia. intros Hd Hne.
      destruct Hj as [Hj | [Hj | [Hj | Hj]]];
        [apply Hlow in Hj; lia | subst j | lia | apply Hhigh in Hj; lia].
      by rewrite <- Z.negb_even, Eq.
  - replace (a - q * b) with r by lia. intros Hd Hne.
    destruct Hj as [Hj | [Hj | [Hj | Hj]]];
      [apply Hlow in Hj | | subst j; replace (a - (q + 1) * b) with (r - b) in Hd by lia
      | apply Hhigh in Hj]; lia.
  - replace (a - (q + 1) * b) with (r - b) by lia. intros Hd Hne.
    destruct Hj as [Hj | [Hj | [Hj | Hj]]];
      [apply Hlow in Hj | subst j; replace (a - q * b) with r in Hd by lia | | apply Hhigh in Hj];
      lia.
Qed.

(** The exponent that [to_double] takes is the one of the doubles around
    the value: in its unit the value lies below [2^53], and from [2^52] on
    unless the exponent is the least one. *)
Lemma binade N D :
  0 <= N -> 0 < D ->
  let k := Z.max (Z.log2 (N / D) - 52) 0 in
  N < 2 ^ 53 * (D * 2 ^ k) /\ (0 < k -> 2 ^ 52 * (D * 2 ^ k) <= N).
Proof.
  intros HN HD k.
  pose proof (Z.div_mod N D ltac:(lia)) as Hdiv.
  pose proof (Z.mod_pos_bound N D HD) as Hr.
  assert (HF : 0 <= N / D) by (apply Z.div_pos; lia).
  destruct (Z.eq_dec (N / D) 0) as [E0 | E0].
  - subst k. rewrite E0 in *. simpl. nia.
  - pose proof (Z.log2_spec (N / D) ltac:(lia)) as [Hlo Hhi].
    pose proof (Z.log2_nonneg (N / D)) as HL.
    set (L := Z.log2 (N / D)) in *. set (F := N / D) in *.
    destruct (Z.le_gt_cases 52 L) as [H52 | H52].
    + subst k. rewrite Z.max_l by lia.
      assert (E : 2 ^ L = 2 ^ 52 * 2 ^ (L - 52)).
      { rewrite <- Z.pow_add_r by lia. f_equal. lia. }
      assert (E' : 2 ^ Z.succ L = 2 ^ 53 * 2 ^ (L - 52)).
      { rewrite <- Z.pow_add_r by lia. f_equal. lia. }
      rewrite E in Hlo. rewrite E' in Hhi.
      pose proof (Z.pow_pos_nonneg 2 (L - 52) ltac:(lia) ltac:(lia)) as Hp.
      set (P := 2 ^ (L - 52)) in *. split; [nia|]. intros _. nia.
    + subst k. rewrite Z.max_r by lia. rewrite Z.pow_0_r. split; [|lia].
      assert (Hle : 2 ^ Z.succ L <= 2 ^ 52) by (apply Z.pow_le_mono_r; lia).
      nia.
Qed.

End Rounding.

Section RoundingUnits.

Local Open Scope Z_scope.

Lemma pow2_split a b : 0 <= a <= b -> 2 ^ b = 2 ^ a * 2 ^ (b - a).
Proof. intros H. rewrite <- Z.pow_add_r by lia. f_equal. lia. Qed.

Lemma pow2_pos a : 0 <= a -> 0 < 2 ^ a.
Proof. intros H. apply Z.pow_pos_nonneg; lia. Qed.

(** A double, in units of [2^-1074], is below [2^2098], or is it. *)
Lemma binary64_bound m e :
  binary64 m e ->
  0 <= m * 2 ^ (e + 1074) <= 2 ^ 2098 /\
  (e = 972 <-> m * 2 ^ (e + 1074) = 2 ^ 2098).
Proof.
  intros (Hm & He & Hc & Ht).
  destruct (Z.eq_dec e 972) as [-> | Hne].
  - rewrite (Ht eq_refl). change (2 ^ 52 * 2 ^ (972 + 1074)) with (2 ^ 2098). lia.
  - pose proof (pow2_pos (e + 1074) ltac:(lia)) as Hp.
    assert (Hle : 2 ^ (e + 1074) <= 2 ^ 2045) by (apply Z.pow_le_mono_r; lia).
    assert (Hlt : m * 2 ^ (e + 1074) < 2 ^ 53 * 2 ^ 2045) by nia.
    change (2 ^ 53 * 2 ^ 2045) with (2 ^ 2098) in Hlt. split; [nia|].
    split; [done|]. lia.
Qed.

(** The integer that [to_double] takes, in the unit of its exponent, is as
    near to the value as every double. *)
Lemma unit_nearest N D m' e' :
  0 <= N -> 0 < D -> binary64 m' e' ->
  let k := Z.max (Z.log2 (N / D) - 52) 0 in
  let m := round_half_even N (D * 2 ^ k) in
  k <= 2045 ->
  Z.abs (N - m * 2 ^ k * D) <= Z.abs (N - m' * 2 ^ (e' + 1074) * D) /\
  (Z.abs (N - m * 2 ^ k * D) = Z.abs (N - m' * 2 ^ (e' + 1074) * D) ->
   m' * 2 ^ (e' + 1074) <> m * 2 ^ k -> Z.even m = true).
Proof.
  intros HN HD Hb k m Hk.
  destruct (binade N D HN HD) as [Hup Hlow]. fold k in Hup, Hlow.
  assert (Hk0 : 0 <= k) by (unfold k; lia).
  pose proof (pow2_pos k Hk0) as Hpk.
  assert (HB : 0 < D * 2 ^ k) by nia.
  destruct Hb as (Hm' & He' & Hc' & Ht').
  destruct (Z.le_gt_cases k (e' + 1074)) as [Hge | Hlt].
  - (* the double is a multiple of the unit *)
    rewrite (pow2_split k (e' + 1074)) by lia.
    set (j := m' * 2 ^ (e' + 1074 - k)).
    replace (m' * (2 ^ k * 2 ^ (e' + 1074 - k)) * D) with (j * (D * 2 ^ k))
      by (unfold j; ring).
    replace (m * 2 ^ k * D) with (m * (D * 2 ^ k)) by ring.
    split; [by apply round_half_even_nearest|].
    intros Htie Hne. apply (round_half_even_tie N (D * 2 ^ k) j HB Htie).
    intros Hj. apply Hne. unfold j in Hj. fold m in Hj. rewrite <- Hj. ring.
  - (* the double lies below the binade of the value *)
    specialize (Hlow ltac:(lia)).
    pose proof (round_half_even_nearest N (D * 2 ^ k) (2 ^ 52) HB) as Hn. fold m in Hn.
    pose proof (pow2_pos (e' + 1074) ltac:(lia)) as Hpe.
    assert (Hle : 2 ^ (e' + 1074) <= 2 ^ (k - 1)) by (apply Z.pow_le_mono_r; lia).
    assert (Hk1 : 2 ^ k = 2 * 2 ^ (k - 1)).
    { rewrite (pow2_split 1 k) by lia. reflexivity. }
    pose proof (pow2_pos (k - 1) ltac:(lia)) as Hpk1.
    assert (Hbelow : m' * 2 ^ (e' + 1074) < 2 ^ 52 * 2 ^ k).
    { rewrite Hk1. assert (m' * 2 ^ (e' + 1074) < 2 ^ 53 * 2 ^ (k - 1)) by nia.
      change (2 ^ 53) with (2 ^ 52 * 2) in H. lia. }
    replace (m * 2 ^ k * D) with (m * (D * 2 ^ k)) by ring.
    assert (Hfar : N - 2 ^ 52 * (D * 2 ^ k) < N - m' * 2 ^ (e' + 1074) * D) by nia.
    split; [lia|]. intros Htie. lia.
Qed.

(** A double that is as near as the integer of [to_double], and is not
    it, has an odd significand. *)
Lemma unit_other N D m' e' :
  0 <= N -> 0 < D -> binary64 m' e' ->
  let k := Z.max (Z.log2 (N / D) - 52) 0 in
  let m := round_half_even N (D * 2 ^ k) in
  k <= 2045 ->
  Z.abs (N - m * 2 ^ k * D) = Z.abs (N - m' * 2 ^ (e' + 1074) * D) ->
  m' * 2 ^ (e' + 1074) <> m * 2 ^ k -> Z.odd m' = true.
Proof.
  intros HN HD Hb k m Hk.
  destruct (binade N D HN HD) as [Hup Hlow]. fold k in Hup, Hlow.
  assert (Hk0 : 0 <= k) by (unfold k; lia).
  pose proof (pow2_pos k Hk0) as Hpk.
  assert (HB : 0 < D * 2 ^ k) by nia.
  destruct Hb as (Hm' & He' & Hc' & Ht').
  destruct (Z.le_gt_cases k (e' + 1074)) as [Hge | Hlt].
  - rewrite (pow2_split k (e' + 1074)) by lia.
    set (j := m' * 2 ^ (e' + 1074 - k)).
    replace (m' * (2 ^ k * 2 ^ (e' + 1074 - k)) * D) with (j * (D * 2 ^ k))
      by (unfold j; ring).
    replace (m * 2 ^ k * D) with (m * (D * 2 ^ k)) by ring.
    intros Htie Hne.
    assert (Hodd : Z.odd j = true).
    { apply (round_half_even_tie_odd N (D * 2 ^ k) j HB Htie).
      intros Hj. apply Hne. unfold j in Hj. fold m in Hj. rewrite <- Hj. ring. }
    unfold j in Hodd. rewrite Z.odd_mul in Hodd. apply andb_prop in Hodd as [Ho Hp].
    exact Ho.
  - specialize (Hlow ltac:(lia)).
    pose proof (round_half_even_nearest N (D * 2 ^ k) (2 ^ 52) HB) as Hn. fold m in Hn.
    pose proof (pow2_pos (e' + 1074) ltac:(lia)) as Hpe.
    assert (Hle : 2 ^ (e' + 1074) <= 2 ^ (k - 1)) by (apply Z.pow_le_mono_r; lia).
    assert (Hk1 : 2 ^ k = 2 * 2 ^ (k - 1)).
    { rewrite (pow2_split 1 k) by lia. reflexivity. }
    pose proof (pow2_pos (k - 1) ltac:(lia)) as Hpk1.
    assert (Hbelow : m' * 2 ^ (e' + 1074) < 2 ^ 52 * 2 ^ k).
    { rewrite Hk1. assert (m' * 2 ^ (e' + 1074) < 2 ^ 53 * 2 ^ (k - 1)) by nia.
      change (2 ^ 53) with (2 ^ 52 * 2) in H. lia. }
    replace (m * 2 ^ k * D) with (m * (D * 2 ^ k)) by ring.
    assert (Hfar : N - 2 ^ 52 * (D * 2 ^ k) < N - m' * 2 ^ (e' + 1074) * D) by nia.
    intros Htie. lia.
Qed.

(** A double has one significand and one exponent. *)
Lemma binary64_unique m1 e1 m2 e2 :
  binary64 m1 e1 -> binary64 m2 e2 ->
  m1 * 2 ^ (e1 + 1074) = m2 * 2 ^ (e2 + 1074) -> m1 = m2 /\ e1 = e2.
Proof.
  assert (Hlt : forall m1 e1 m2 e2, binary64 m1 e1 -> binary64 m2 e2 ->
            m1 * 2 ^ (e1 + 1074) = m2 * 2 ^ (e2 + 1074) -> e1 < e2 -> False).
  { clear. intros m1 e1 m2 e2 (Hm1 & He1 & Hc1 & _) (Hm2 & He2 & Hc2 & _) Hv Hlt.
    rewrite (pow2_split (e1 + 1074) (e2 + 1074)) in Hv by lia.
    pose proof (pow2_pos (e1 + 1074) ltac:(lia)) as Hp.
    assert (Hm : m1 = m2 * 2 ^ (e2 + 1074 - (e1 + 1074))) by nia.
    assert (Hd : 2 ^ 1 <= 2 ^ (e2 + 1074 - (e1 + 1074))) by (apply Z.pow_le_mono_r; lia).
    change (2 ^ 1) with 2 in Hd. nia. }
  intros H1 H2 Hv.
  destruct (Z.lt_trichotomy e1 e2) as [H | [-> | H]].
  - exfalso. by apply (Hlt m1 e1 m2 e2).
  - split; [|done]. destruct H1 as (_ & He & _).
    pose proof (pow2_pos (e2 + 1074) ltac:(lia)) as Hp. nia.
  - exfalso. by apply (Hlt m2 e2 m1 e1).
Qed.

End RoundingUnits.

Section RoundingReal.

Local Open Scope Q_scope.

(** A double, in units of [2^-1074]. *)
Lemma real_of_units m e :
  (-1074 <= e)%Z ->
  real_of m e * inject_Z (2 ^ 1074) == inject_Z (m * 2 ^ (e + 1074)).
Proof.
  intros He. unfold real_of.
  rewrite inject_Z_mult, (Zpower_Qpower 2 (e + 1074)), (Zpower_Qpower 2 1074) by lia.
  change (inject_Z 2) with 2.
  rewrite <- Qmult_assoc, <- Qpower_plus by discriminate. reflexivity.
Qed.

Lemma fraction_units x : x * inject_Z (Z.pos (Qden x)) == inject_Z (Qnum x).
Proof. destruct x as [n d]. unfold Qeq. simpl. rewrite Pos.mul_1_r. ring. Qed.

(** The distance of a real from a double, in units of [2^-1074] over the
    denominator of the real. *)
Lemma distance_units x m e :
  (-1074 <= e)%Z ->
  Qabs (x - real_of m e) * inject_Z (Z.pos (Qden x) * 2 ^ 1074)
  == inject_Z (Z.abs (Qnum x * 2 ^ 1074 - m * 2 ^ (e + 1074) * Z.pos (Qden x))).
Proof.
  intros He.
  assert (Hc : 0 <= inject_Z (Z.pos (Qden x) * 2 ^ 1074)).
  { rewrite <- (Zle_Qle 0). pose proof (pow2_pos 1074 ltac:(lia)). nia. }
  rewrite <- (Qabs_pos _ Hc) at 1. rewrite <- Qabs_Qmult.
  assert (E : (x - real_of m e) * inject_Z (Z.pos (Qden x) * 2 ^ 1074)
              == inject_Z (Qnum x * 2 ^ 1074 - m * 2 ^ (e + 1074) * Z.pos (Qden x))).
  { unfold Z.sub. rewrite inject_Z_plus, inject_Z_opp, !inject_Z_mult.
    rewrite <- (fraction_units x).
    rewrite <- (inject_Z_mult m), <- (real_of_units m e He). ring. }
  rewrite E. reflexivity.
Qed.

Lemma units_positive x : 0 < inject_Z (Z.pos (Qden x) * 2 ^ 1074).
Proof. rewrite <- (Zlt_Qlt 0). pose proof (pow2_pos 1074 ltac:(lia)). nia. Qed.

Lemma distance_le x m e m' e' :
  (-1074 <= e)%Z -> (-1074 <= e')%Z ->
  (Z.abs (Qnum x * 2 ^ 1074 - m * 2 ^ (e + 1074) * Z.pos (Qden x))
   <= Z.abs (Qnum x * 2 ^ 1074 - m' * 2 ^ (e' + 1074) * Z.pos (Qden x)))%Z ->
  Qabs (x - real_of m e) <= Qabs (x - real_of m' e').
Proof.
  intros He He' H.
  apply (Qmult_le_r _ _ _ (units_positive x)).
  rewrite !distance_units by done. by rewrite <- Zle_Qle.
Qed.

Lemma distance_eq x m e m' e' :
  (-1074 <= e)%Z -> (-1074 <= e')%Z ->
  Qabs (x - real_of m e) == Qabs (x - real_of m' e') ->
  Z.abs (Qnum x * 2 ^ 1074 - m * 2 ^ (e + 1074) * Z.pos (Qden x))
  = Z.abs (Qnum x * 2 ^ 1074 - m' * 2 ^ (e' + 1074) * Z.pos (Qden x)).
Proof.
  intros He He' H. apply inject_Z_injective.
  rewrite <- !distance_units by done. by rewrite H.
Qed.

Lemma real_of_eq m e m' e' :
  (-1074 <= e)%Z -> (-1074 <= e')%Z ->
  (m' * 2 ^ (e' + 1074) = m * 2 ^ (e + 1074))%Z -> real_of m' e' == real_of m e.
Proof.
  intros He He' H.
  assert (Hu : ~ inject_Z (2 ^ 1074) == 0).
  { intros E. pose proof (proj1 (inject_Z_injective (2 ^ 1074) 0) E) as E'.
    pose proof (pow2_pos 1074 ltac:(lia)). lia. }
  apply (Qmult_inj_r _ _ _ Hu). rewrite !real_of_units by done. by rewrite H.
Qed.

(** And the other way round. *)
Lemma distance_le_units x m e m' e' :
  (-1074 <= e)%Z -> (-1074 <= e')%Z ->
  Qabs (x - real_of m e) <= Qabs (x - real_of m' e') ->
  (Z.abs (Qnum x * 2 ^ 1074 - m * 2 ^ (e + 1074) * Z.pos (Qden x))
   <= Z.abs (Qnum x * 2 ^ 1074 - m' * 2 ^ (e' + 1074) * Z.pos (Qden x)))%Z.
Proof.
  intros He He' H.
  apply (Qmult_le_r _ _ _ (units_positive x)) in H.
  rewrite !distance_units in H by done. by rewrite <- Zle_Qle in H.
Qed.

Lemma distance_eq_units x m e m' e' :
  (-1074 <= e)%Z -> (-1074 <= e')%Z ->
  Z.abs (Qnum x * 2 ^ 1074 - m * 2 ^ (e + 1074) * Z.pos (Qden x))
  = Z.abs (Qnum x * 2 ^ 1074 - m' * 2 ^ (e' + 1074) * Z.pos (Qden x)) ->
  Qabs (x - real_of m e) == Qabs (x - real_of m' e').
Proof.
  intros He He' H.
  assert (Hu : ~ inject_Z (Z.pos (Qden x) * 2 ^ 1074) == 0).
  { intros E. pose proof (units_positive x) as Hp. rewrite E in Hp. by apply Qlt_irrefl in Hp. }
  apply (Qmult_inj_r _ _ _ Hu). rewrite !distance_units by done. by rewrite H.
Qed.

Lemma real_of_eq_units m e m' e' :
  (-1074 <= e)%Z -> (-1074 <= e')%Z ->
  real_of m' e' == real_of m e -> (m' * 2 ^ (e' + 1074) = m * 2 ^ (e + 1074))%Z.
Proof.
  intros He He' H. apply inject_Z_injective.
  rewrite <- !real_of_units by done. by rewrite H.
Qed.

End RoundingReal.

Section NumberValue.

Local Open Scope Z_scope.

Lemma round_half_even_bounds a b lo hi :
  0 < b -> lo * b <= a < hi * b -> lo <= round_half_even a b <= hi.
Proof.
  intros Hb [Hlo Hhi]. unfold round_half_even.
  assert (H1 : lo <= a / b) by (apply Z.div_le_lower_bound; lia).
  assert (H2 : a / b < hi) by (apply Z.div_lt_upper_bound; lia).
  destruct (2 * (a mod b) ?= b); [destruct (Z.even (a / b))| |]; lia.
Qed.

(** A double is the nearest one to a real when it is so in units of
    [2^-1074]. *)
Lemma nearest_of_units (x : Q) m e :
  binary64 m e ->
  (forall m' e', binary64 m' e' ->
     Z.abs (Qnum x * 2 ^ 1074 - m * 2 ^ (e + 1074) * Z.pos (Qden x))
     <= Z.abs (Qnum x * 2 ^ 1074 - m' * 2 ^ (e' + 1074) * Z.pos (Qden x)) /\
     (Z.abs (Qnum x * 2 ^ 1074 - m * 2 ^ (e + 1074) * Z.pos (Qden x))
      = Z.abs (Qnum x * 2 ^ 1074 - m' * 2 ^ (e' + 1074) * Z.pos (Qden x)) ->
      m' * 2 ^ (e' + 1074) <> m * 2 ^ (e + 1074) -> Z.even m = true)) ->
  nearest x m e.
Proof.
  intros Hb H. split; [exact Hb|]. intros m' e' Hb'.
  destruct (H m' e' Hb') as [Hle Htie].
  assert (He : -1074 <= e) by (destruct Hb as (_ & ? & _); lia).
  assert (He' : -1074 <= e') by (destruct Hb' as (_ & ? & _); lia).
  split; [by apply distance_le|].
  intros Heq Hne. apply Htie; [by apply distance_eq|].
  intros Hv. apply Hne. by apply real_of_eq.
Qed.

Lemma real_of_fraction m e V :
  -1074 <= e -> m * 2 ^ (e + 1074) = V -> (real_of m e == V # 2 ^ 1074)%Q.
Proof.
  intros He HV.
  assert (Hu : ~ (inject_Z (2 ^ 1074) == 0)%Q).
  { intros E. pose proof (proj1 (inject_Z_injective (2 ^ 1074) 0) E) as E'.
    pose proof (pow2_pos 1074 ltac:(lia)). lia. }
  apply (Qmult_inj_r _ _ _ Hu). rewrite real_of_units, HV by done.
  unfold Qeq, Qmult, inject_Z. cbn [Qnum Qden].
  rewrite Pos.mul_1_r, Pos2Z.inj_pow. ring.
Qed.

Lemma signed_fraction (negative : bool) m e V :
  -1074 <= e -> m * 2 ^ (e + 1074) = V ->
  Qred (if negative then (- real_of m e)%Q else real_of m e)
  = Qred ((if negative then - V else V) # 2 ^ 1074).
Proof.
  intros He HV. apply Qred_complete.
  pose proof (real_of_fraction m e V He HV) as H.
  destruct negative; [|exact H]. rewrite H. reflexivity.
Qed.

(** [to_double] gives the number value for a real: the nearest double, an
    infinity from [2^1024] on, a zero with the sign of the text. *)
Theorem to_double_number_for negative (x : Q) :
  (0 <= x)%Q -> number_for negative x (to_double negative x).
Proof.
  intros Hx. unfold to_double. cbv zeta.
  set (N := Qnum x * 2 ^ 1074). set (D := Z.pos (Qden x)).
  assert (HN : 0 <= N).
  { unfold N. unfold Qle in Hx. simpl in Hx. pose proof (pow2_pos 1074 ltac:(lia)). nia. }
  assert (HD : 0 < D) by (unfold D; lia).
  destruct (binade N D HN HD) as [Hup Hlow].
  set (k := Z.max (Z.log2 (N / D) - 52) 0) in *.
  assert (Hk0 : 0 <= k) by (unfold k; lia).
  pose proof (pow2_pos k Hk0) as Hpk.
  assert (HB : 0 < D * 2 ^ k) by nia.
  pose proof (round_half_even_bounds N (D * 2 ^ k) 0 (2 ^ 53) HB ltac:(lia)) as Hm.
  assert (Hm52 : 0 < k -> 2 ^ 52 <= round_half_even N (D * 2 ^ k)).
  { intros Hk. apply (round_half_even_bounds N (D * 2 ^ k) (2 ^ 52) (2 ^ 53) HB). lia. }
  set (m := round_half_even N (D * 2 ^ k)) in *.
  destruct (Z.le_gt_cases 2046 k) as [Hbig | Hk].
  - (* from 2^1024 on *)
    specialize (Hlow ltac:(lia)). specialize (Hm52 ltac:(lia)).
    assert (Hp : 2 ^ 2046 <= 2 ^ k) by (apply Z.pow_le_mono_r; lia).
    assert (Hover : 2 ^ 2098 <= m * 2 ^ k).
    { change (2 ^ 2098) with (2 ^ 52 * 2 ^ 2046). nia. }
    replace (m =? 0) with false by (symmetry; apply Z.eqb_neq; lia).
    replace (2 ^ 2098 <=? m * 2 ^ k) with true by (symmetry; by apply Z.leb_le).
    exists (2 ^ 52), 972. split; [|reflexivity].
    apply nearest_of_units; [unfold binary64; lia|].
    intros m' e' Hb'. destruct (binary64_bound m' e' Hb') as [Hv' _].
    change (2 ^ 52 * 2 ^ (972 + 1074)) with (2 ^ 2098). fold N D.
    assert (HND : 2 ^ 2098 * D <= N).
    { change (2 ^ 2098) with (2 ^ 52 * 2 ^ 2046). nia. }
    assert (Hv'D : m' * 2 ^ (e' + 1074) * D <= 2 ^ 2098 * D) by nia.
    split; [lia|]. intros Htie Hne.
    assert (m' * 2 ^ (e' + 1074) * D < 2 ^ 2098 * D) by nia. lia.
  - destruct (Z.eq_dec m (2 ^ 53)) as [E53 | N53].
    + (* rounded up to the next power of two *)
      replace (m =? 0) with false by (symmetry; apply Z.eqb_neq; lia).
      assert (HV : 2 ^ 52 * 2 ^ (k + 1 - 1074 + 1074) = m * 2 ^ k).
      { replace (k + 1 - 1074 + 1074) with (k + 1) by lia.
        rewrite Z.pow_add_r, E53 by lia. change (2 ^ 53) with (2 ^ 52 * 2 ^ 1). ring. }
      exists (2 ^ 52), (k + 1 - 1074). split.
      * apply nearest_of_units; [unfold binary64; lia|].
        intros m' e' Hb'. rewrite HV. fold N D.
        destruct (unit_nearest N D m' e' HN HD Hb' ltac:(fold k; lia)) as [H1 H2].
        fold k m in H1, H2. split; [exact H1|]. intros _ _. reflexivity.
      * replace (k + 1 - 1074 =? 972) with (2 ^ 2098 <=? m * 2 ^ k).
        2:{ destruct (Z.eq_dec k 2045) as [-> | Hne].
            - rewrite E53. reflexivity.
            - replace (k + 1 - 1074 =? 972) with false by (symmetry; apply Z.eqb_neq; lia).
              apply Z.leb_gt. rewrite E53.
              assert (2 ^ k <= 2 ^ 2044) by (apply Z.pow_le_mono_r; lia).
              change (2 ^ 2098) with (2 ^ 53 * 2 ^ 2045).
              change (2 ^ 2045) with (2 * 2 ^ 2044). lia. }
        destruct (2 ^ 2098 <=? m * 2 ^ k); [reflexivity|].
        change (2 ^ 52 =? 0) with false. cbv iota.
        f_equal. symmetry. apply signed_fraction; [lia|exact HV].
    + (* the significand itself *)
      assert (HV : m * 2 ^ (k - 1074 + 1074) = m * 2 ^ k) by (f_equal; f_equal; lia).
      assert (Hfin : m * 2 ^ k < 2 ^ 2098).
      { assert (2 ^ k <= 2 ^ 2045) by (apply Z.pow_le_mono_r; lia).
        change (2 ^ 2098) with (2 ^ 53 * 2 ^ 2045). nia. }
      replace (2 ^ 2098 <=? m * 2 ^ k) with false by (symmetry; by apply Z.leb_gt).
      exists m, (k - 1074). split.
      * apply nearest_of_units.
        { unfold binary64. lia. }
        intros m' e' Hb'. rewrite HV. fold N D.
        destruct (unit_nearest N D m' e' HN HD Hb' ltac:(fold k; lia)) as [H1 H2].
        fold k m in H1, H2. split; [exact H1|exact H2].
      * replace (k - 1074 =? 972) with false by (symmetry; apply Z.eqb_neq; lia).
        destruct (m =? 0); [reflexivity|].
        f_equal. symmetry. apply signed_fraction; [lia|exact HV].
Qed.

(** ** There is one number for a real *)

Lemma double_units_binary64 (x : Q) :
  (0 <= x)%Q -> exists m e, binary64 m e /\ m * 2 ^ (e + 1074) = double_units x.
Proof.
  intros Hx. unfold double_units. cbv zeta.
  set (N := Qnum x * 2 ^ 1074). set (D := Z.pos (Qden x)).
  assert (HN : 0 <= N).
  { unfold N. unfold Qle in Hx. simpl in Hx. pose proof (pow2_pos 1074 ltac:(lia)). nia. }
  assert (HD : 0 < D) by (unfold D; lia).
  destruct (binade N D HN HD) as [Hup Hlow].
  set (k := Z.max (Z.log2 (N / D) - 52) 0) in *.
  assert (Hk0 : 0 <= k) by (unfold k; lia).
  pose proof (pow2_pos k Hk0) as Hpk.
  assert (HB : 0 < D * 2 ^ k) by nia.
  pose proof (round_half_even_bounds N (D * 2 ^ k) 0 (2 ^ 53) HB ltac:(lia)) as Hm.
  assert (Hm52 : 0 < k -> 2 ^ 52 <= round_half_even N (D * 2 ^ k)).
  { intros Hk. apply (round_half_even_bounds N (D * 2 ^ k) (2 ^ 52) (2 ^ 53) HB). lia. }
  set (m := round_half_even N (D * 2 ^ k)) in *.
  destruct (Z.leb_spec 2046 k) as [Hbig | Hk].
  - exists (2 ^ 52), 972. split; [unfold binary64; lia|reflexivity].
  - destruct (Z.eq_dec m (2 ^ 53)) as [E53 | N53].
    + exists (2 ^ 52), (k + 1 - 1074). split; [unfold binary64; lia|].
      replace (k + 1 - 1074 + 1074) with (k + 1) by lia.
      rewrite Z.pow_add_r, E53 by lia. change (2 ^ 53) with (2 ^ 52 * 2 ^ 1). ring.
    + exists m, (k - 1074). split; [unfold binary64; lia|].
      f_equal. f_equal. lia.
Qed.

(** What [nearest] says, in units of [2^-1074]. *)
Lemma units_of_nearest (x : Q) m e :
  nearest x m e ->
  binary64 m e /\
  forall m' e', binary64 m' e' ->
    Z.abs (Qnum x * 2 ^ 1074 - m * 2 ^ (e + 1074) * Z.pos (Qden x))
    <= Z.abs (Qnum x * 2 ^ 1074 - m' * 2 ^ (e' + 1074) * Z.pos (Qden x)) /\
    (Z.abs (Qnum x * 2 ^ 1074 - m * 2 ^ (e + 1074) * Z.pos (Qden x))
     = Z.abs (Qnum x * 2 ^ 1074 - m' * 2 ^ (e' + 1074) * Z.pos (Qden x)) ->
     m' * 2 ^ (e' + 1074) <> m * 2 ^ (e + 1074) -> Z.even m = true).
Proof.
  intros [Hb H]. split; [exact Hb|]. intros m' e' Hb'.
  destruct (H m' e' Hb') as [Hle Htie].
  assert (He : -1074 <= e) by (destruct Hb as (_ & ? & _); lia).
  assert (He' : -1074 <= e') by (destruct Hb' as (_ & ? & _); lia).
  split; [by apply distance_le_units|].
  intros Heq Hne. apply Htie; [by apply distance_eq_units|].
  intros Hv. apply Hne. by apply real_of_eq_units.
Qed.

(** A nearest double is the one that [to_double] computes. *)
Lemma nearest_double_units (x : Q) m e :
  (0 <= x)%Q -> nearest x m e -> m * 2 ^ (e + 1074) = double_units x.
Proof.
  intros Hx Hn. apply units_of_nearest in Hn as [Hb Hn].
  destruct (double_units_binary64 x Hx) as (mc & ec & Hbc & Hc).
  destruct (Hn mc ec Hbc) as [Hle Htie]. rewrite Hc in Hle, Htie.
  revert Hc Hle Htie. unfold double_units. cbv zeta.
  set (N := Qnum x * 2 ^ 1074). set (D := Z.pos (Qden x)).
  assert (HN : 0 <= N).
  { unfold N. unfold Qle in Hx. simpl in Hx. pose proof (pow2_pos 1074 ltac:(lia)). nia. }
  assert (HD : 0 < D) by (unfold D; lia).
  destruct (binade N D HN HD) as [Hup Hlow].
  pose proof (unit_nearest N D m e HN HD Hb) as Hunit.
  pose proof (unit_other N D m e HN HD Hb) as Hother. cbv zeta in Hunit, Hother.
  set (k := Z.max (Z.log2 (N / D) - 52) 0) in *.
  assert (Hk0 : 0 <= k) by (unfold k; lia).
  pose proof (pow2_pos k Hk0) as Hpk.
  destruct (Z.leb_spec 2046 k) as [Hbig | Hk]; intros Hc Hle Htie.
  - specialize (Hlow ltac:(lia)).
    assert (Hp : 2 ^ 2046 <= 2 ^ k) by (apply Z.pow_le_mono_r; lia).
    assert (HND : 2 ^ 2098 * D <= N).
    { change (2 ^ 2098) with (2 ^ 52 * 2 ^ 2046). nia. }
    destruct (binary64_bound m e Hb) as [Hv _].
    destruct (Z.eq_dec (m * 2 ^ (e + 1074)) (2 ^ 2098)) as [E | E]; [exact E|].
    assert (m * 2 ^ (e + 1074) * D < 2 ^ 2098 * D) by nia. lia.
  - destruct (Z.eq_dec (m * 2 ^ (e + 1074)) (round_half_even N (D * 2 ^ k) * 2 ^ k))
      as [E | E]; [exact E|].
    destruct (Hunit ltac:(lia)) as [H1 _].
    assert (Heq : Z.abs (N - m * 2 ^ (e + 1074) * D)
                  = Z.abs (N - round_half_even N (D * 2 ^ k) * 2 ^ k * D)) by lia.
    pose proof (Hother ltac:(lia) (eq_sym Heq) E) as Hodd.
    specialize (Htie Heq ltac:(congruence)).
    rewrite <- Z.negb_even, Htie in Hodd. discriminate.
Qed.

Lemma nearest_unique (x : Q) m1 e1 m2 e2 :
  (0 <= x)%Q -> nearest x m1 e1 -> nearest x m2 e2 -> m1 = m2 /\ e1 = e2.
Proof.
  intros Hx H1 H2.
  apply (binary64_unique m1 e1 m2 e2); [by destruct H1|by destruct H2|].
  rewrite (nearest_double_units x m1 e1 Hx H1). symmetry.
  by apply nearest_double_units.
Qed.

(** There is one number for a sign and a magnitude: the one that
    [to_double] computes. *)
Theorem number_for_unique negative (x : Q) n :
  (0 <= x)%Q -> number_for negative x n -> n = to_double negative x.
Proof.
  intros Hx (m1 & e1 & Hn1 & ->).
  destruct (to_double_number_for negative x Hx) as (m2 & e2 & Hn2 & ->).
  by destruct (nearest_unique x m1 e1 m2 e2 Hx Hn1 Hn2) as [-> ->].
Qed.

End NumberValue.

(** ** [Number]: the texts that it reads *)

Lemma digit_is_hex c : is_digit c = true -> is_hex c = true.
Proof. unfold is_hex. by intros ->. Qed.

Lemma digits_are_hex ds : forallb is_digit ds = true -> forallb is_hex ds = true.
Proof.
  intros H. apply forallb_forall. intros c Hc.
  eapply forallb_forall in H; [|exact Hc]. by apply digit_is_hex.
Qed.

Lemma octal_is_hex c : is_octal c = true -> is_hex c = true.
Proof.
  unfold is_octal, is_hex, is_digit. intros [H1 H2]%andb_prop.
  apply N.leb_le in H1, H2.
  replace (48 <=? c) with true by (symmetry; apply N.leb_le; lia).
  by replace (c <=? 57) with true by (symmetry; apply N.leb_le; lia).
Qed.

Lemma binary_is_hex c : is_binary c = true -> is_hex c = true.
Proof.
  unfold is_binary, is_hex, is_digit. intros [H1 H2]%andb_prop.
  apply N.leb_le in H1, H2.
  replace (48 <=? c) with true by (symmetry; apply N.leb_le; lia).
  by replace (c <=? 57) with true by (symmetry; apply N.leb_le; lia).
Qed.

(** The value that the program gives to a digit is its place among the
    digits. *)
Lemma digit_value_place c : is_hex c = true -> digit_value c = digit_of c.
Proof.
  unfold is_hex, is_digit. intros H.
  assert (Hc : 48 <= c <= 57 \/ 65 <= c <= 70 \/ 97 <= c <= 102).
  { repeat match type of H with
           | (_ || _) = true => apply orb_prop in H as [H | H]
           | (_ && _) = true => apply andb_prop in H as [?%N.leb_le ?%N.leb_le]
           end; lia. }
  assert (Hn : (48 <= N.to_nat c <= 57 \/ 65 <= N.to_nat c <= 70
                \/ 97 <= N.to_nat c <= 102)%nat) by lia.
  rewrite <- (N2Nat.id c).
  set (n := N.to_nat c) in *. clearbody n. clear H Hc.
  do 103 (destruct n as [|n]; [first [reflexivity | exfalso; lia]|]).
  exfalso. lia.
Qed.

Lemma digit_of_nonneg c : (0 <= digit_of c)%Z.
Proof. unfold digit_of. lia. Qed.

Lemma positional_nonneg base ds : (0 <= base)%Z -> (0 <= positional base ds)%Z.
Proof.
  intros Hb. induction ds as [|c ds IH]; simpl; [lia|].
  pose proof (digit_of_nonneg c). pose proof (Z.pow_nonneg base (Z.of_nat (length ds)) Hb).
  nia.
Qed.

(** The value that the program computes digit by digit is the positional
    value. *)
Lemma digits_value_positional base ds :
  forallb is_hex ds = true -> digits_value base ds = positional base ds.
Proof.
  unfold digits_value.
  enough (H : forall acc, forallb is_hex ds = true ->
            fold_left (fun acc c => (acc * base + digit_value c)%Z) ds acc
            = (acc * base ^ Z.of_nat (length ds) + positional base ds)%Z).
  { intros Hd. rewrite (H 0%Z Hd). lia. }
  induction ds as [|c ds IH]; intros acc Hd.
  - simpl. lia.
  - cbn [forallb] in Hd. apply andb_prop in Hd as [Hc Hd].
    cbn [fold_left positional length].
    rewrite (IH _ Hd), (digit_value_place c Hc), Nat2Z.inj_succ, Z.pow_succ_r by lia.
    ring.
Qed.

(** [span] on a text that begins with characters of the class, up to one
    that is not. *)
Lemma span_intro (p : N -> bool) : forall ws r,
  forallb p ws = true ->
  match r with [] => True | c :: _ => p c = false end ->
  span p (ws ++ r) = (ws, r).
Proof.
  induction ws as [|c ws IH]; intros r Hws Hr; simpl.
  - destruct r as [|c r]; [done|]. simpl. by rewrite Hr.
  - simpl in Hws. apply andb_prop in Hws as [Hc Hws]. by rewrite Hc, (IH r Hws Hr).
Qed.

(** [trim] takes white space from both ends, and nothing else. *)
Lemma trimStart_decompose s :
  exists ws, s = ws ++ trimStart s /\ forallb is_space ws = true.
Proof.
  induction s as [|c s IH]; [by exists []|]. simpl.
  destruct (is_space c) eqn:E.
  - destruct IH as (ws & Heq & H). exists (c :: ws). simpl. rewrite E, H.
    split; [congruence|done].
  - by exists [].
Qed.

Lemma trim_decompose s :
  exists ws1 ws2,
    s = ws1 ++ trim s ++ ws2 /\ forallb is_space ws1 = true /\ forallb is_space ws2 = true.
Proof.
  unfold trim, trimEnd.
  destruct (trimStart_decompose s) as (ws1 & H1 & Hs1).
  destruct (trimStart_decompose (rev (trimStart s))) as (ws2 & H2 & Hs2).
  exists ws1, (rev ws2). split; [|split; [done|]].
  - rewrite H1 at 1. f_equal. apply (f_equal (@rev N)) in H2.
    by rewrite rev_involutive, rev_app_distr in H2.
  - apply forallb_forall. intros c Hc%in_rev. by eapply forallb_forall in Hs2.
Qed.

Lemma trim_literal ws1 t ws2 :
  forallb is_space ws1 = true -> forallb is_space ws2 = true ->
  t <> [] -> forallb (fun c => negb (is_space c)) t = true ->
  trim (ws1 ++ t ++ ws2) = t.
Proof.
  intros H1 H2 Hne Ht. unfold trim. rewrite (trimStart_spaces _ _ H1).
  assert (Htr : trimmed t).
  { split.
    - destruct t as [|c t]; [done|]. simpl in Ht. apply andb_prop in Ht as [Hc _].
      by apply negb_true_iff in Hc.
    - destruct (rev t) as [|c r] eqn:E; [done|].
      assert (Hin : In c t) by (apply in_rev; rewrite E; by left).
      eapply forallb_forall in Ht; [|exact Hin]. by apply negb_true_iff in Ht. }
  fold (trim (t ++ ws2)). rewrite (trim_word t ws2 Hne Htr), (trimEnd_spaces _ H2).
  apply app_nil_r.
Qed.

(** The value of [scaled] is the double for the real [M * 10^E]. *)
Lemma scaled_value negative M E :
  (0 <= M)%Z ->
  exists q, (q == inject_Z M * 10 ^ E)%Q /\ (0 <= q)%Q /\
            scaled negative M E = to_double negative q.
Proof.
  intros HM. unfold scaled. destruct (Z.leb_spec 0 E) as [HE | HE].
  - eexists. split; [|split; [|reflexivity]].
    + rewrite inject_Z_mult, (Zpower_Qpower 10 E HE). reflexivity.
    + rewrite <- (Zle_Qle 0). pose proof (Z.pow_nonneg 10 E ltac:(lia)). nia.
  - eexists. split; [|split; [|reflexivity]].
    + assert (Hp : (0 < 10 ^ (- E))%Z) by (apply Z.pow_pos_nonneg; lia).
      rewrite Qmake_Qdiv, Z2Pos.id by exact Hp.
      rewrite (Zpower_Qpower 10 (- E)) by lia.
      change (inject_Z 10) with 10%Q. rewrite Qpower_opp. unfold Qdiv.
      rewrite Qinv_involutive. reflexivity.
    + unfold Qle. simpl. lia.
Qed.

Lemma digit_not_sign c : is_digit c = true -> c <> 43 /\ c <> 45 /\ c <> 46 /\ c <> 73.
Proof.
  unfold is_digit. intros [H1 H2]%andb_prop. apply N.leb_le in H1, H2. lia.
Qed.

Lemma signed_cases s :
  (exists t, s = 43 :: t /\ signed s = (false, t)) \/
  (exists t, s = 45 :: t /\ signed s = (true, t)) \/
  (match s with c :: _ => c <> 43 /\ c <> 45 | [] => True end /\ signed s = (false, s)).
Proof.
  destruct s as [|c t]; [by right; right|]. unfold signed.
  destruct (N.eqb_spec c 43) as [-> | H43]; [left; by exists t|].
  destruct (N.eqb_spec c 45) as [-> | H45]; [right; left; by exists t|].
  by right; right.
Qed.

Lemma span_all_digits ds e0 r :
  span is_digit ds = (e0, r) -> r = [] -> ds = e0 /\ forallb is_digit ds = true.
Proof.
  intros H ->. apply span_spec in H as (-> & H & _). by rewrite app_nil_r.
Qed.

(** The exponent that the program reads is the one of the grammar. *)
Lemma exponent_part_text s e : exponent_part s = Some e -> exponent_text s e.
Proof.
  unfold exponent_part. destruct s as [|c s']; [intros [= <-]; by left|].
  destruct ((c =? 101) || (c =? 69)) eqn:Ec; [|done].
  assert (Hc : c = 101 \/ c = 69).
  { apply orb_prop in Ec as [H | H]; apply N.eqb_eq in H; auto. }
  destruct (signed s') as [neg ds] eqn:Es.
  destruct (span is_digit ds) as [[|d e0] r] eqn:Ed; [done|].
  destruct r; [|done]. intros [= <-].
  apply span_all_digits in Ed as [-> Hds]; [|done].
  rewrite (digits_value_positional 10 (d :: e0)) by (by apply digits_are_hex).
  right. destruct (signed_cases s') as [(t & -> & Hs) | [(t & -> & Hs) | (Hh & Hs)]];
    rewrite Hs in Es; injection Es as Hn Ht; subst neg.
  - exists c, [43], (d :: e0). subst t.
    do 4 (split; [done|]). left. split; [by right|done].
  - exists c, [45], (d :: e0). subst t.
    do 4 (split; [done|]). by right.
  - exists c, [], (d :: e0). subst s'.
    do 4 (split; [done|]). left. split; [by left|done].
Qed.

Lemma exponent_text_part s e : exponent_text s e -> exponent_part s = Some e.
Proof.
  intros [[-> ->] | (ind & sg & ds & -> & Hind & Hne & Hds & Hsg)]; [done|].
  unfold exponent_part.
  replace ((ind =? 101) || (ind =? 69)) with true by (by destruct Hind as [-> | ->]).
  assert (Hspan : span is_digit ds = (ds, [])).
  { rewrite <- (app_nil_r ds) at 1. by apply span_intro. }
  assert (Hval : digits_value 10 ds = positional 10 ds).
  { apply digits_value_positional. by apply digits_are_hex. }
  destruct ds as [|d ds]; [done|].
  assert (Hd : d <> 43 /\ d <> 45).
  { simpl in Hds. apply andb_prop in Hds as [Hd _]. apply digit_not_sign in Hd. tauto. }
  destruct Hsg as [[[-> | ->] ->] | [-> ->]].
  - simpl app. unfold signed.
    destruct (N.eqb_spec d 43); [tauto|]. destruct (N.eqb_spec d 45); [tauto|].
    by rewrite Hspan, Hval.
  - simpl app. unfold signed. simpl N.eqb. cbv iota. by rewrite Hspan, Hval.
  - simpl app. unfold signed. simpl N.eqb. cbv iota. by rewrite Hspan, Hval.
Qed.

(** An exponent begins with [e] or [E]. *)
Lemma exponent_text_head et ex :
  exponent_text et ex ->
  match et with [] => True | c :: _ => c = 101 \/ c = 69 end.
Proof. intros [[-> _] | (ind & sg & ds & -> & Hind & _)]; done. Qed.

Lemma exponent_head_no_digit (et : jsstring) :
  match et with [] => True | c :: _ => c = 101 \/ c = 69 end ->
  match et with [] => True | c :: _ => is_digit c = false end /\
  match et with [] => false | c :: _ => c =? 46 end = false.
Proof. destruct et as [|c et]; [done|]. by intros [-> | ->]. Qed.

Lemma no_infinity c (t : jsstring) :
  c <> 73 -> starts_with (js "Infinity") (c :: t) && (length (c :: t) =? 8)%nat = false.
Proof.
  intros Hc. change (js "Infinity") with (73 :: js "nfinity"). cbn [starts_with].
  by destruct (N.eqb_spec 73 c).
Qed.

(** What [unsigned_decimal] computes on digits, a dot or none, digits and
    what follows. *)
Lemma unsigned_decimal_plain negative ip et :
  ip <> [] -> forallb is_digit ip = true ->
  match et with [] => True | c :: _ => c = 101 \/ c = 69 end ->
  unsigned_decimal negative (ip ++ et)
  = match exponent_part et with
    | Some e => scaled negative (digits_value 10 (ip ++ [])) (e - Z.of_nat (length (@nil N)))
    | None => NaN
    end.
Proof.
  intros Hne Hip Hhead. destruct (exponent_head_no_digit et Hhead) as [Hnd H46].
  unfold unsigned_decimal.
  destruct ip as [|d ip]; [done|].
  assert (Hd : d <> 73).
  { cbn [forallb] in Hip. apply andb_prop in Hip as [Hd _]. apply digit_not_sign in Hd. tauto. }
  change ((d :: ip) ++ et) with (d :: ip ++ et) at 1 2.
  rewrite (no_infinity d (ip ++ et) Hd).
  change (d :: ip ++ et) with ((d :: ip) ++ et).
  rewrite (span_intro is_digit (d :: ip) et Hip Hnd). cbv beta iota zeta.
  rewrite H46. reflexivity.
Qed.

Lemma unsigned_decimal_dotted negative ip fp et :
  ip <> [] \/ fp <> [] ->
  forallb is_digit ip = true -> forallb is_digit fp = true ->
  match et with [] => True | c :: _ => c = 101 \/ c = 69 end ->
  unsigned_decimal negative (ip ++ [46] ++ fp ++ et)
  = match exponent_part et with
    | Some e => scaled negative (digits_value 10 (ip ++ fp)) (e - Z.of_nat (length fp))
    | None => NaN
    end.
Proof.
  intros Hne Hip Hfp Hhead. destruct (exponent_head_no_digit et Hhead) as [Hnd _].
  unfold unsigned_decimal.
  assert (Hinf : starts_with (js "Infinity") (ip ++ [46] ++ fp ++ et)
                 && (length (ip ++ [46%N] ++ fp ++ et) =? 8)%nat = false).
  { destruct ip as [|d ip]; [by apply no_infinity|].
    apply no_infinity. cbn [forallb] in Hip. apply andb_prop in Hip as [Hd _].
    apply digit_not_sign in Hd. tauto. }
  rewrite Hinf.
  rewrite (span_intro is_digit ip ([46%N] ++ fp ++ et) Hip eq_refl). cbv beta iota zeta.
  cbn [app tl]. change (46 =? 46) with true. cbv iota.
  rewrite (span_intro is_digit fp et Hfp Hnd). cbv beta iota zeta.
  destruct ip as [|d ip]; [|reflexivity].
  destruct fp as [|d fp]; [|reflexivity]. by destruct Hne.
Qed.

(** A text of the grammar is read as the double for its value. *)
Lemma decimal_text_read negative t x :
  decimal_text t x ->
  exists q, (q == x)%Q /\ (0 <= q)%Q /\ unsigned_decimal negative t = to_double negative q.
Proof.
  intros (ip & fp & et & ex & Hip & Hfp & Hne & Hform & Hexp & Hx).
  pose proof (exponent_text_head et ex Hexp) as Hhead.
  apply exponent_text_part in Hexp.
  assert (Hval : digits_value 10 (ip ++ fp) = positional 10 (ip ++ fp)).
  { apply digits_value_positional, digits_are_hex. rewrite forallb_app. by rewrite Hip, Hfp. }
  destruct (scaled_value negative (digits_value 10 (ip ++ fp)) (ex - Z.of_nat (length fp)))
    as (q & Hq & Hpos & Hs).
  { rewrite Hval. by apply positional_nonneg. }
  exists q. split; [by rewrite Hq, Hval, Hx|]. split; [exact Hpos|].
  destruct Hform as [[-> ->] | ->].
  - rewrite unsigned_decimal_plain, Hexp; [exact Hs| |done|done].
    by destruct Hne.
  - by rewrite unsigned_decimal_dotted, Hexp.
Qed.

(** A text that is read as a finite number is a text of the grammar. *)
Lemma unsigned_decimal_finite negative t :
  isFinite (unsigned_decimal negative t) = true -> exists x, decimal_text t x.
Proof.
  unfold unsigned_decimal.
  destruct (starts_with (js "Infinity") t && (length t =? 8)%nat); [done|].
  destruct (span is_digit t) as [ip r1] eqn:E1.
  apply span_spec in E1 as (-> & Hip & Hr1). cbv beta iota zeta.
  destruct r1 as [|c r1].
  - cbv iota. destruct ip as [|d ip]; [done|]. intros _.
    eexists. exists (d :: ip), [], [], 0%Z.
    split; [done|]. split; [done|]. split; [by left|]. split; [by left|].
    split; [by left|]. reflexivity.
  - destruct (N.eqb_spec c 46) as [-> | Hc].
    + cbv iota. cbn [tl]. destruct (span is_digit r1) as [fp r2] eqn:E2.
      apply span_spec in E2 as (-> & Hfp & Hr2).
      destruct (match ip, fp with [], [] => true | _, _ => false end) eqn:Eb; [done|].
      destruct (exponent_part r2) as [e|] eqn:Ee; [|done]. intros _.
      apply exponent_part_text in Ee.
      eexists. exists ip, fp, r2, e.
      split; [done|]. split; [done|]. split.
      { destruct ip; [destruct fp; [done|by right]|by left]. }
      split; [by right|]. split; [done|]. reflexivity.
    + cbv iota. destruct ip as [|d ip]; [done|].
      destruct (exponent_part (c :: r1)) as [e|] eqn:Ee; [|done]. intros _.
      apply exponent_part_text in Ee.
      eexists. exists (d :: ip), [], (c :: r1), e.
      split; [done|]. split; [done|]. split; [by left|]. split; [by left|].
      split; [done|]. reflexivity.
Qed.

Lemma based_digits (p : N -> bool) base ds :
  (0 <= base)%Z -> ds <> [] -> forallb p ds = true -> forallb is_hex ds = true ->
  exists q, (q == inject_Z (positional base ds))%Q /\ (0 <= q)%Q /\
    match span p ds with
    | (_ :: _, []) => Some (scaled false (digits_value base ds) 0)
    | _ => Some NaN
    end = Some (to_double false q).
Proof.
  intros Hb Hne Hp Hhex.
  assert (Hspan : span p ds = (ds, [])).
  { rewrite <- (app_nil_r ds) at 1. by apply span_intro. }
  rewrite Hspan.
  destruct (scaled_value false (digits_value base ds) 0) as (q & Hq & Hpos & Hs).
  { rewrite digits_value_positional; [by apply positional_nonneg|done]. }
  exists q. split; [|split; [done|]].
  - rewrite Hq, digits_value_positional by done. change (10 ^ 0)%Q with 1%Q.
    apply Qmult_1_r.
  - destruct ds; [done|]. by rewrite Hs.
Qed.

Lemma octal_digits_hex ds : forallb is_octal ds = true -> forallb is_hex ds = true.
Proof.
  intros H. apply forallb_forall. intros c Hc.
  eapply forallb_forall in H; [|exact Hc]. by apply octal_is_hex.
Qed.

Lemma binary_digits_hex ds : forallb is_binary ds = true -> forallb is_hex ds = true.
Proof.
  intros H. apply forallb_forall. intros c Hc.
  eapply forallb_forall in H; [|exact Hc]. by apply binary_is_hex.
Qed.

(** A literal in base 16, 8 or 2 is read as the double for its value. *)
Lemma based_text_read t x :
  based_text t x ->
  exists q, (q == x)%Q /\ (0 <= q)%Q /\ non_decimal t = Some (to_double false q).
Proof.
  intros (p & ds & base & -> & Hne & Hcase & Hx).
  unfold non_decimal. change (negb (48 =? 48)) with false. cbv beta iota zeta.
  destruct Hcase as [(Hp & -> & Hd) | [(Hp & -> & Hd) | (Hp & -> & Hd)]].
  - destruct (based_digits is_hex 16 ds) as (q & Hq & Hpos & Hr); try done.
    exists q. split; [by rewrite Hq, Hx|]. split; [done|].
    by destruct Hp as [-> | ->].
  - destruct (based_digits is_octal 8 ds) as (q & Hq & Hpos & Hr); try done.
    { by apply octal_digits_hex. }
    exists q. split; [by rewrite Hq, Hx|]. split; [done|].
    by destruct Hp as [-> | ->].
  - destruct (based_digits is_binary 2 ds) as (q & Hq & Hpos & Hr); try done.
    { by apply binary_digits_hex. }
    exists q. split; [by rewrite Hq, Hx|]. split; [done|].
    by destruct Hp as [-> | ->].
Qed.

Lemma based_finite (p : N -> bool) base ds n :
  match span p ds with
  | (_ :: _, []) => Some (scaled false (digits_value base ds) 0)
  | _ => Some NaN
  end = Some n ->
  isFinite n = true -> ds <> [] /\ forallb p ds = true.
Proof.
  destruct (span p ds) as [[|d e0] r] eqn:E; [by intros [= <-]|].
  destruct r; [|by intros [= <-]]. intros _ _.
  apply span_spec in E as (-> & H & _). by rewrite app_nil_r.
Qed.

Lemma non_decimal_finite t n :
  non_decimal t = Some n -> isFinite n = true -> exists x, based_text t x.
Proof.
  unfold non_decimal. destruct t as [|z [|c ds]]; [done|done|].
  destruct (N.eqb_spec z 48) as [-> | Hz]; [|done]. cbv beta iota zeta. cbn [negb].
  destruct ((c =? 120) || (c =? 88)) eqn:E16.
  { intros Hn Hf. destruct (based_finite _ _ _ _ Hn Hf) as [Hne Hd].
    eexists. exists c, ds, 16%Z. split; [done|]. split; [done|]. split; [|reflexivity].
    left. split; [|done].
    apply orb_prop in E16 as [H | H]; apply N.eqb_eq in H; auto. }
  destruct ((c =? 111) || (c =? 79)) eqn:E8.
  { intros Hn Hf. destruct (based_finite _ _ _ _ Hn Hf) as [Hne Hd].
    eexists. exists c, ds, 8%Z. split; [done|]. split; [done|]. split; [|reflexivity].
    right. left. split; [|done].
    apply orb_prop in E8 as [H | H]; apply N.eqb_eq in H; auto. }
  destruct ((c =? 98) || (c =? 66)) eqn:E2; [|done].
  intros Hn Hf. destruct (based_finite _ _ _ _ Hn Hf) as [Hne Hd].
  eexists. exists c, ds, 2%Z. split; [done|]. split; [done|]. split; [|reflexivity].
  right. right. split; [|done].
  apply orb_prop in E2 as [H | H]; apply N.eqb_eq in H; auto.
Qed.

(** The characters of a literal: none is white space. *)
Lemma hex_is_word c : is_hex c = true -> is_word c = true.
Proof.
  unfold is_hex, is_word, is_upper, is_lower. intros H.
  apply orb_prop in H as [H | H]; [apply orb_prop in H as [H | H]|].
  - rewrite H. by rewrite !orb_true_r.
  - apply andb_prop in H as [H1 H2]. apply N.leb_le in H1, H2.
    replace (65 <=? c) with true by (symmetry; apply N.leb_le; lia).
    by replace (c <=? 90) with true by (symmetry; apply N.leb_le; lia).
  - apply andb_prop in H as [H1 H2]. apply N.leb_le in H1, H2.
    replace (97 <=? c) with true by (symmetry; apply N.leb_le; lia).
    replace (c <=? 122) with true by (symmetry; apply N.leb_le; lia).
    by rewrite orb_true_r.
Qed.

Lemma hex_no_space ds :
  forallb is_hex ds = true -> forallb (fun c => negb (is_space c)) ds = true.
Proof.
  intros H. apply forallb_forall. intros c Hc.
  eapply forallb_forall in H; [|exact Hc].
  by rewrite (word_not_space c (hex_is_word c H)).
Qed.

Lemma digits_no_space ds :
  forallb is_digit ds = true -> forallb (fun c => negb (is_space c)) ds = true.
Proof. intros H. by apply hex_no_space, digits_are_hex. Qed.

Lemma exponent_text_chars et ex :
  exponent_text et ex -> forallb (fun c => negb (is_space c)) et = true.
Proof.
  intros [[-> _] | (ind & sg & ds & -> & Hind & _ & Hds & Hsg)]; [done|].
  cbn [forallb]. rewrite forallb_app, (digits_no_space ds Hds), andb_true_r.
  apply andb_true_intro. split; [by destruct Hind as [-> | ->]|].
  by destruct Hsg as [[[-> | ->] _] | [-> _]].
Qed.

Lemma decimal_text_chars t x :
  decimal_text t x ->
  forallb (fun c => negb (is_space c)) t = true /\
  match t with [] => False | c :: _ => is_digit c = true \/ c = 46 end.
Proof.
  intros (ip & fp & et & ex & Hip & Hfp & Hne & Hform & Hexp & _).
  pose proof (exponent_text_chars et ex Hexp) as Het.
  pose proof (digits_no_space ip Hip) as Hip'.
  pose proof (digits_no_space fp Hfp) as Hfp'.
  destruct Hform as [[-> ->] | ->].
  - split; [by rewrite forallb_app, Hip', Het|].
    destruct ip as [|d ip]; [by destruct Hne|].
    cbn [forallb] in Hip. apply andb_prop in Hip as [Hd _]. by left.
  - split; [by rewrite !forallb_app, Hip', Hfp', Het|].
    destruct ip as [|d ip]; [by right|].
    cbn [forallb] in Hip. apply andb_prop in Hip as [Hd _]. by left.
Qed.

Lemma based_text_chars t x :
  based_text t x -> forallb (fun c => negb (is_space c)) t = true.
Proof.
  intros (p & ds & base & -> & _ & Hcase & _). cbn [forallb].
  assert (Hds : forallb is_hex ds = true).
  { destruct Hcase as [(_ & _ & H) | [(_ & _ & H) | (_ & _ & H)]];
      [done | by apply octal_digits_hex | by apply binary_digits_hex]. }
  rewrite (hex_no_space ds Hds), andb_true_r.
  by destruct Hcase as [([-> | ->] & _) | [([-> | ->] & _) | ([-> | ->] & _)]].
Qed.

(** A decimal literal is no literal of another base. *)
Lemma decimal_not_based t x : decimal_text t x -> non_decimal t = None.
Proof.
  intros (ip & fp & et & ex & Hip & Hfp & Hne & Hform & Hexp & _).
  pose proof (exponent_text_head et ex Hexp) as Hhead.
  assert (Hsecond : forall c, is_digit c = true \/ c = 46 \/ c = 101 \/ c = 69 ->
            (c =? 120) || (c =? 88) = false /\ (c =? 111) || (c =? 79) = false
            /\ (c =? 98) || (c =? 66) = false).
  { intros c [Hc | [-> | [-> | ->]]]; [|done|done|done].
    unfold is_digit in Hc. apply andb_prop in Hc as [H1 H2]. apply N.leb_le in H1, H2.
    repeat match goal with
           | |- context [c =? ?k] =>
               replace (c =? k) with false by (symmetry; apply N.eqb_neq; lia)
           end. done. }
  assert (Hrun : forall z c (ds : jsstring),
            is_digit c = true \/ c = 46 \/ c = 101 \/ c = 69 ->
            non_decimal (z :: c :: ds) = None).
  { intros z c ds Hc. unfold non_decimal. destruct (negb (z =? 48)); [done|].
    destruct (Hsecond c Hc) as (-> & -> & ->). done. }
  assert (Het : et = [] \/ exists c et', et = c :: et' /\ (c = 101 \/ c = 69)).
  { destruct et as [|c et']; [by left|right]. by exists c, et'. }
  destruct Hform as [[-> ->] | ->].
  - destruct ip as [|z [|c ip]]; [by destruct Hne| |].
    + destruct Het as [-> | (c & et' & -> & Hc)]; [done|]. apply Hrun. tauto.
    + apply Hrun. cbn [forallb] in Hip. apply andb_prop in Hip as [_ Hip].
      apply andb_prop in Hip as [Hc _]. by left.
  - destruct ip as [|z [|c ip]].
    + cbn [app]. unfold non_decimal. by destruct (fp ++ et).
    + apply Hrun. tauto.
    + apply Hrun. cbn [forallb] in Hip. apply andb_prop in Hip as [_ Hip].
      apply andb_prop in Hip as [Hc _]. by left.
Qed.

Lemma signed_not_based (c : N) u : c = 43 \/ c = 45 -> non_decimal (c :: u) = None.
Proof. intros [-> | ->]; by destruct u. Qed.

(** [Number] on a numeric literal: the double for its value. *)
Lemma Number_reads s negative x :
  numeric_text s negative x ->
  s <> [] /\ trim s <> [] /\
  exists q, (q == x)%Q /\ (0 <= q)%Q /\ Number s = to_double negative q.
Proof.
  intros (ws1 & t & ws2 & -> & H1 & H2 & Hcase).
  assert (Ht : t <> [] /\ forallb (fun c => negb (is_space c)) t = true /\
               exists q, (q == x)%Q /\ (0 <= q)%Q /\
                 forall s', trim s' = t -> Number s' = to_double negative q).
  { destruct Hcase as [[-> [Hd | [Hb | (u & -> & Hd)]]] | [-> (u & -> & Hd)]].
    - destruct (decimal_text_chars t x Hd) as [Hch Hhead].
      destruct t as [|c t']; [done|]. split; [done|]. split; [done|].
      destruct (decimal_text_read false _ _ Hd) as (q & Hq & Hpos & Hrun).
      exists q. split; [done|]. split; [done|]. intros s' Hs'.
      unfold Number. rewrite Hs'. cbv zeta. rewrite (decimal_not_based _ _ Hd).
      assert (Hc : c <> 43 /\ c <> 45).
      { destruct Hhead as [Hc%digit_not_sign | ->]; [tauto|done]. }
      destruct (N.eqb_spec c 43); [tauto|]. destruct (N.eqb_spec c 45); [tauto|]. done.
    - pose proof (based_text_chars t x Hb) as Hch.
      destruct (based_text_read t x Hb) as (q & Hq & Hpos & Hrun).
      assert (Hne : t <> []) by (destruct Hb as (p & ds & base & -> & _); done).
      split; [done|]. split; [done|].
      exists q. split; [done|]. split; [done|]. intros s' Hs'.
      unfold Number. rewrite Hs'. cbv zeta. destruct t as [|c t']; [done|]. by rewrite Hrun.
    - destruct (decimal_text_chars u x Hd) as [Hch _].
      split; [done|]. split; [cbn [forallb]; by rewrite Hch|].
      destruct (decimal_text_read false _ _ Hd) as (q & Hq & Hpos & Hrun).
      exists q. split; [done|]. split; [done|]. intros s' Hs'.
      unfold Number. rewrite Hs'. cbv zeta. by rewrite signed_not_based by auto.
    - destruct (decimal_text_chars u x Hd) as [Hch _].
      split; [done|]. split; [cbn [forallb]; by rewrite Hch|].
      destruct (decimal_text_read true _ _ Hd) as (q & Hq & Hpos & Hrun).
      exists q. split; [done|]. split; [done|]. intros s' Hs'.
      unfold Number. rewrite Hs'. cbv zeta. by rewrite signed_not_based by auto. }
  destruct Ht as (Hne & Hch & q & Hq & Hpos & Hrun).
  pose proof (trim_literal ws1 t ws2 H1 H2 Hne Hch) as Htrim.
  split.
  { intros E. apply app_eq_nil in E as [_ E]. apply app_eq_nil in E as [E _]. done. }
  split; [by rewrite Htrim|].
  exists q. split; [done|]. split; [done|]. by apply Hrun.
Qed.

(** A text that [Number] reads as a finite number, and that is not white
    space only, is a numeric literal. *)
Lemma Number_finite s :
  trim s <> [] -> isFinite (Number s) = true ->
  exists negative x, numeric_text s negative x.
Proof.
  intros Hne. destruct (trim_decompose s) as (ws1 & ws2 & Hs & H1 & H2).
  unfold Number. cbv zeta. destruct (trim s) as [|c t'] eqn:Et; [done|].
  destruct (non_decimal (c :: t')) as [n|] eqn:En.
  - intros Hf. destruct (non_decimal_finite _ _ En Hf) as (x & Hb).
    exists false, x, ws1, (c :: t'), ws2. do 3 (split; [done|]).
    left. split; [done|]. right. by left.
  - destruct (N.eqb_spec c 43) as [-> | H43].
    + intros Hf. destruct (unsigned_decimal_finite _ _ Hf) as (x & Hd).
      exists false, x, ws1, (43 :: t'), ws2. do 3 (split; [done|]).
      left. split; [done|]. right. right. by exists t'.
    + destruct (N.eqb_spec c 45) as [-> | H45].
      * intros Hf. destruct (unsigned_decimal_finite _ _ Hf) as (x & Hd).
        exists true, x, ws1, (45 :: t'), ws2. do 3 (split; [done|]).
        right. split; [done|]. by exists t'.
      * intros Hf. destruct (unsigned_decimal_finite _ _ Hf) as (x & Hd).
        exists false, x, ws1, (c :: t'), ws2. do 3 (split; [done|]).
        left. split; [done|]. by left.
Qed.

Lemma to_double_no_NaN negative q : isNaN (to_double negative q) = false.
Proof.
  unfold to_double. cbv zeta.
  destruct (_ =? 0)%Z; [by destruct negative|]. by destruct (_ <=? _)%Z.
Qed.

Lemma number_for_real negative q x n :
  (q == x)%Q -> number_for negative q n -> number_for negative x n.
Proof.
  intros Hq (m & e & [Hb Hn] & Heq). exists m, e. split; [|exact Heq].
  split; [exact Hb|]. intros m' e' Hb'. destruct (Hn m' e' Hb') as [Hle Htie].
  split; [by rewrite <- Hq|]. intros Hd. apply Htie. by rewrite Hq.
Qed.

(** ** [executeSqlite]: the shaping of the rows *)

Lemma coerce_spec v : coerced v (coerce v).
Proof.
  destruct v as [ | | b | n | s]; try reflexivity.
  unfold coerced. split.
  - intros negative x Hn.
    destruct (Number_reads s negative x Hn) as (Hs & Ht & q & Hq & Hpos & Hrun).
    exists (to_double negative q). split.
    + apply (number_for_real negative q x); [done|]. by apply to_double_number_for.
    + unfold coerce. cbv zeta. rewrite Hrun, to_double_no_NaN.
      replace (length s =? 0)%nat with false by (by destruct s).
      replace (length (trim s) =? 0)%nat with false by (by destruct (trim s)).
      reflexivity.
  - intros Hnone. unfold coerce. cbv zeta.
    destruct (negb (length s =? 0)%nat && negb (isNaN (Number s))
              && negb (length (trim s) =? 0)%nat) eqn:G; [|done].
    destruct (negb (isNaN (Number s)) && isFinite (Number s)) eqn:F; [|done].
    exfalso. apply andb_prop in G as [_ G]. apply andb_prop in F as [_ F].
    destruct (Number_finite s) as (negative & x & H); [by destruct (trim s)|done|].
    by apply (Hnone negative x).
Qed.

(** And [coerced] leaves no choice: the cell for a numeric literal, for a
    text that is none and for a value that is no text is the one that
    [coerce] returns. *)
Lemma coerced_numeric s negative x v' :
  numeric_text s negative x -> coerced (VString s) v' -> v' = coerce (VString s).
Proof.
  intros Hn [Hnum _]. destruct (Hnum negative x Hn) as (n & Hfor & ->).
  destruct (Number_reads s negative x Hn) as (Hs & Ht & q & Hq & Hpos & Hrun).
  apply (number_for_real negative x q) in Hfor; [|by symmetry].
  apply number_for_unique in Hfor; [|done]. subst n.
  unfold coerce. cbv zeta. rewrite Hrun, to_double_no_NaN.
  replace (length s =? 0)%nat with false by (by destruct s).
  replace (length (trim s) =? 0)%nat with false by (by destruct (trim s)).
  reflexivity.
Qed.

Lemma coerced_other v v' :
  match v with
  | VString s => forall negative x, ~ numeric_text s negative x
  | _ => True
  end ->
  coerced v v' -> v' = coerce v.
Proof.
  destruct v as [ | | b | n | s]; try (by intros _ ->).
  intros Hnone [_ Hkeep]. rewrite (Hkeep Hnone).
  destruct (coerce_spec (VString s)) as [_ Hc]. symmetry. by apply Hc.
Qed.

Lemma process_row_spec r :
  Forall2 (fun kv kv' => fst kv' = fst kv /\ coerced (snd kv) (snd kv')) r (process_row r).
Proof.
  induction r as [|kv r IH]; simpl; constructor; [|exact IH].
  split; [reflexivity | apply coerce_spec].
Qed.

(** C4. Every cell of every row that the engine returns for an accepted
    statement comes back under its key, in its place.  A text that is, apart
    from white space around it, a numeric literal comes back as the number
    for its value: the double nearest to it, as the rounding of IEEE 754
    chooses it, when that double is finite; anything else (a literal whose
    value rounds to an infinity, another text, the empty text, null, a
    value that is no text) comes back as it is. *)
Theorem result_cells_coerced alasql w sql limit st rs :
  dir_exists w = true ->
  sanitize sql (match limit with Some l => l | None => 200%Z end) = Accepted st ->
  alasql (tables w) st = Rows rs ->
  exists rows',
    snd (executeSqlite alasql w sql limit)
      = Returns (Executed rows' (match rs with [] => [] | first :: _ => map fst first end)) /\
    Forall2 (Forall2 (fun kv kv' => fst kv' = fst kv /\ coerced (snd kv) (snd kv')))
            rs rows'.
Proof.
  intros Hd Hs He. rewrite (executeSqlite_accepted _ _ _ _ st Hd Hs), He.
  exists (map process_row rs). split.
  - by destruct rs.
  - clear. induction rs as [|r rs IH]; simpl; constructor; [apply process_row_spec | exact IH].
Qed.

(** The cells of the claim: the text 245.60 comes back as the number
    245.6, which is the double 8641281785017139 / 2^45; the text SP and
    null come back as they are. *)
Lemma result_cells_coerced_witness :
  exists rows',
    snd (executeSqlite one_row bare_world (js "SELECT * FROM t") None)
      = Returns (Executed rows' (map fst priced_row)) /\
    Forall2 (Forall2 (fun kv kv' => fst kv' = fst kv /\ coerced (snd kv) (snd kv')))
            [priced_row] rows' /\
    rows' = [[(js "price", VNumber (Finite (8641281785017139 # 35184372088832)));
              (js "state", VString (js "SP"));
              (js "note", VNull)]].
Proof.
  destruct (result_cells_coerced one_row bare_world (js "SELECT * FROM t") None
              (js "SELECT * FROM t LIMIT 200") [priced_row])
    as (rows' & H1 & H2).
  - reflexivity.
  - vm_compute. reflexivity.
  - reflexivity.
  - exists rows'. split; [exact H1|]. split; [exact H2|].
    vm_compute in H1. by injection H1.
Defined.

(** The text of the claim is a numeric literal with the value 245.6, and
    the number for that value is the double that comes back. *)
Lemma claimed_literal :
  numeric_text (js "245.60") false (1228 # 5) /\
  number_for false (1228 # 5) (Finite (8641281785017139 # 35184372088832)).
Proof.
  split.
  - exists [], (js "245.60"), []. do 3 (split; [done|]). left. split; [done|]. left.
    exists (js "245"), (js "60"), [], 0%Z. do 3 (split; [by auto|]).
    split; [by right|]. split; [by left|]. reflexivity.
  - replace (Finite (8641281785017139 # 35184372088832)) with (to_double false (1228 # 5))
      by (vm_compute; reflexivity).
    by apply to_double_number_for.
Qed.

(** More cells: white space around a literal is allowed, a literal in base
    16 is read, a value between two doubles is rounded to the nearest one,
    to the even one of two, a value below the least double becomes zero
    and keeps its sign; the empty text, a text of white space, a literal
    that rounds to an infinity and the word Infinity stay texts. *)
Lemma coerce_examples :
  coerce (VString (js " 12 ")) = VNumber (Finite 12) /\
  coerce (VString (js "0x1F")) = VNumber (Finite 31) /\
  coerce (VString (js "9007199254740993")) = VNumber (Finite 9007199254740992) /\
  coerce (VString (js "9007199254740995")) = VNumber (Finite 9007199254740996) /\
  coerce (VString (js "0.1")) = VNumber (Finite (3602879701896397 # 36028797018963968)) /\
  coerce (VString (js "1e-400")) = VNumber (Finite 0) /\
  coerce (VString (js "-0")) = VNumber NegZero /\
  coerce (VString []) = VString [] /\
  coerce (VString (js "  ")) = VString (js "  ") /\
  coerce (VString (js "1e400")) = VString (js "1e400") /\
  coerce (VString (js "Infinity")) = VString (js "Infinity") /\
  coerce (VString (js "12px")) = VString (js "12px").
Proof. repeat split; vm_compute; reflexivity. Qed.
